(** * gb-keepalive: the reachability checker and its deploy receiver

    A shallow embedding of the three checker scripts
    (src/keepUpCheck_worker.js and the two checker scripts of
    src/unnamed/part_000) and of the deploy receiver (last script of
    src/unnamed/part_000), with the properties of the specification
    stated over it.

    Every [async] function of the source becomes a computation in the
    monad [M]: it reads and writes the key-value store, asks the
    network for the outcome of each request, may throw, and records the
    effects it performs (requests, sleeps, store accesses) in a trace.
    [console] output is not an effect of the model. *)

From Equations Require Import Equations.
From stdpp Require Import gmap strings list fin_maps pretty.
From Stdlib Require Import ZArith Lia Ascii.

Local Open Scope string_scope.
Local Open Scope list_scope.
Local Open Scope Z_scope.

(** ** Values exchanged with the platform *)

(** What [JSON.stringify] is applied to, and what [res.json()] yields. *)
#[warnings="-register-all"]
Inductive json :=
| JStr (s : string)
| JBool (b : bool)
| JObj (fields : list (string * json)).

(** An outgoing [fetch(url, init)]. *)
Record http_request := {
  rq_method : string;
  rq_url : string;
  rq_headers : list (string * string);
  rq_body : option json
}.

(** Exceptions: [error.name] and [error.message]. *)
Record js_error := { err_name : string; err_message : string }.

Definition AbortError : js_error :=
  {| err_name := "AbortError"; err_message := "The operation was aborted" |}.
Definition TypeError (msg : string) : js_error :=
  {| err_name := "TypeError"; err_message := msg |}.
Definition Error (msg : string) : js_error :=
  {| err_name := "Error"; err_message := msg |}.

(** The outcome of one [fetch] whose body is then consumed: the
    response with its status and payload, the abort fired by the
    [TIMEOUT] timer, or a transport failure. *)
Inductive fetch_result :=
| Responded (status : Z) (payload : option json)
| TimedOut
| NetworkFailure.

(** [response.ok] *)
Definition ok (status : Z) : bool := (200 <=? status) && (status <=? 299).

(** ** The key-value namespace, with expiring entries

    Each entry carries the instant (in milliseconds) at which it stops
    being visible; [expirationTtl] is given in seconds. *)

Record machine := {
  kv : gmap string (string * Z);
  clock : Z;
  sent : nat
}.

Definition kv_lookup (m : machine) (key : string) : option string :=
  match kv m !! key with
  | Some (v, expires) => if clock m <? expires then Some v else None
  | None => None
  end.

Inductive event :=
| EvFetch (rq : http_request)
| EvSleep (ms : Z)
| EvKvGet (key : string)
| EvKvPut (key value : string) (ttl : Z)
| EvFinalFailure (url : string).

(** ** The monad of asynchronous functions *)

Inductive outcome (A : Type) :=
| Return (a : A)
| Throw (e : js_error).
Arguments Return {A} a.
Arguments Throw {A} e.

Definition M (A : Type) : Type := machine -> outcome A * machine * list event.

Definition ret {A} (a : A) : M A := fun m => (Return a, m, []).
Definition throw {A} (e : js_error) : M A := fun m => (Throw e, m, []).

Definition bind {A B} (c : M A) (k : A -> M B) : M B :=
  fun m =>
    match c m with
    | (Return a, m1, t1) =>
        match k a m1 with
        | (r, m2, t2) => (r, m2, (t1 ++ t2)%list)
        end
    | (Throw e, m1, t1) => (Throw e, m1, t1)
    end.

(** [try { c } catch (e) { h e }] *)
Definition try_catch {A} (c : M A) (h : js_error -> M A) : M A :=
  fun m =>
    match c m with
    | (Return a, m1, t1) => (Return a, m1, t1)
    | (Throw e, m1, t1) =>
        match h e m1 with
        | (r, m2, t2) => (r, m2, (t1 ++ t2)%list)
        end
    end.

Declare Scope js_scope.
Delimit Scope js_scope with js.
Notation "x <- c ;; k" := (bind c (fun x => k))
  (at level 100, c at next level, right associativity) : js_scope.
Notation "c ;;; k" := (bind c (fun _ => k))
  (at level 100, right associativity) : js_scope.
Local Open Scope js_scope.

Definition trace_of {A} (r : outcome A * machine * list event) : list event := r.2.
Definition machine_of {A} (r : outcome A * machine * list event) : machine := r.1.2.
Definition outcome_of {A} (r : outcome A * machine * list event) : outcome A := r.1.1.

(** [url.includes(sub)] *)
Fixpoint includes (s sub : string) : bool :=
  if String.prefix sub s then true
  else match s with
       | EmptyString => false
       | String _ s' => includes s' sub
       end.

(** ** Platform operations *)

Section Platform.

(** The network: the outcome of the [n]-th request sent during the run. *)
Variable net : nat -> http_request -> fetch_result.

(** [await fetch(...)] followed by the consumption of the body. *)
Definition fetch (rq : http_request) : M (Z * option json) :=
  fun m =>
    let m' := {| kv := kv m; clock := clock m; sent := S (sent m) |} in
    match net (sent m) rq with
    | Responded status payload => (Return (status, payload), m', [EvFetch rq])
    | TimedOut => (Throw AbortError, m', [EvFetch rq])
    | NetworkFailure => (Throw (TypeError "fetch failed"), m', [EvFetch rq])
    end.

(** [await new Promise(resolve => setTimeout(resolve, ms))] *)
Definition sleep (ms : Z) : M unit :=
  fun m => (Return tt, {| kv := kv m; clock := clock m + ms; sent := sent m |}, [EvSleep ms]).

(** [await KV.get(key)] *)
Definition kv_get (key : string) : M (option string) :=
  fun m => (Return (kv_lookup m key), m, [EvKvGet key]).

(** [await KV.put(key, value, { expirationTtl: ttl })] *)
Definition kv_put (key value : string) (ttl : Z) : M unit :=
  fun m =>
    (Return tt,
     {| kv := <[key := (value, clock m + ttl * 1000)]> (kv m);
        clock := clock m; sent := sent m |},
     [EvKvPut key value ttl]).

Definition mark (e : event) : M unit := fun m => (Return tt, m, [e]).

End Platform.

(** The request of a probe: [fetch(url, { signal })]. *)
Definition probe_request (url : string) : http_request :=
  {| rq_method := "GET"; rq_url := url; rq_headers := []; rq_body := None |}.

(** The environment bindings of a checker. *)
Record Env := {
  DEPLOY_API_URL : string;
  FIXED_TOKEN : string
}.

(** [JSON.stringify({ reason: "galaxy_final_retry_failed", url })], kept
    as the object it serialises. *)
Definition deploy_body (url : string) : json :=
  JObj [("reason", JStr "galaxy_final_retry_failed"); ("url", JStr url)].

(** The request all three checkers send to the deploy interface. *)
Definition deploy_request (env : Env) (url : string) : http_request :=
  {| rq_method := "POST";
     rq_url := DEPLOY_API_URL env;
     rq_headers := [("Content-Type", "application/json");
                    ("X-Deploy-Token", FIXED_TOKEN env)];
     rq_body := Some (deploy_body url) |}.

(** ** src/keepUpCheck_worker.js *)

Module Worker.

Definition TIMEOUT : Z := 5000.
Definition MAX_RETRIES : nat := 3.
Definition RETRY_DELAY : Z := 500.
Definition CONCURRENCY : nat := 3.

Section Net.
Variable net : nat -> http_request -> fetch_result.

Definition handleFinalFailure (url : string) (env : Env) : M unit :=
  mark (EvFinalFailure url) ;;;
  try_catch
    (if String.eqb url EmptyString || negb (includes url "galaxy") then ret tt
     else
       resp <- fetch net (deploy_request env url) ;;
       if negb (ok resp.1) then ret tt
       else ret tt)
    (fun e => ret tt).

Equations? fetchWithTimeout (env : Env) (url : string) (retries : nat) : M unit
  by wf (S MAX_RETRIES - retries)%nat lt :=
fetchWithTimeout env url retries :=
  try_catch
    (response <- fetch net (probe_request url) ;;
     if negb (ok response.1) then
       if (500 <=? response.1) && (response.1 <? 600) then
         throw (Error ("服务器错误（状态码: " +:+ pretty response.1 +:+ "）"))
       else
         handleFinalFailure url env ;;; ret tt
     else ret tt)
    (fun error =>
       match le_dec retries MAX_RETRIES with
       | left _ =>
           sleep (RETRY_DELAY * 2 ^ Z.of_nat retries) ;;;
           fetchWithTimeout env url (retries + 1)
       | right _ => handleFinalFailure url env
       end).
Proof. lia. Qed.

End Net.
End Worker.

(** ** src/unnamed/part_000, first script: the checker with the KV flag *)

Module KvWorker.

Definition TIMEOUT : Z := 5000.
Definition MAX_RETRIES : nat := 3.
Definition RETRY_DELAY : Z := 500.

Section Net.
Variable net : nat -> http_request -> fetch_result.

Definition handleFinalFailure (url : string) (env : Env) : M unit :=
  mark (EvFinalFailure url) ;;;
  try_catch
    (if String.eqb url EmptyString || negb (includes url "galaxy") then ret tt
     else
       flag <- kv_get "flag" ;;
       if match flag with Some v => String.eqb v "deployed" | None => false end
       then ret tt
       else
         resp <- fetch net (deploy_request env url) ;;
         if negb (ok resp.1) then ret tt
         else
           kv_put "flag" "deployed" (60 * 60 * 3) ;;;
           ret tt)
    (fun e => ret tt).

Equations? fetchWithTimeout (env : Env) (url : string) (retries : nat) : M unit
  by wf (S MAX_RETRIES - retries)%nat lt :=
fetchWithTimeout env url retries :=
  try_catch
    (response <- fetch net (probe_request url) ;;
     if negb (ok response.1) then
       if (500 <=? response.1) && (response.1 <? 600) then
         throw (Error ("服务器错误（状态码: " +:+ pretty response.1 +:+ "）"))
       else
         handleFinalFailure url env ;;; ret tt
     else ret tt)
    (fun error =>
       match le_dec retries MAX_RETRIES with
       | left _ =>
           sleep (RETRY_DELAY * 2 ^ Z.of_nat retries) ;;;
           fetchWithTimeout env url (retries + 1)
       | right _ => handleFinalFailure url env
       end).
Proof. lia. Qed.

End Net.
End KvWorker.

(** ** src/unnamed/part_000, second script: the checker with the task pool *)

Module PoolWorker.

Definition TIMEOUT : Z := 5000.
Definition MAX_ATTEMPT : nat := 3.
Definition RETRY_DELAY : Z := 500.
Definition CONCURRENCY : nat := 3.

Section Net.
Variable net : nat -> http_request -> fetch_result.

Definition handleFinalFailure (url : string) (env : Env) : M unit :=
  mark (EvFinalFailure url) ;;;
  try_catch
    (if negb (includes url "galaxy") then ret tt
     else
       resp <- fetch net (deploy_request env url) ;;
       if negb (ok resp.1) then ret tt
       else ret tt)
    (fun e => ret tt).

Equations? fetchWithTimeout (env : Env) (url : string) (attempt : nat) : M unit
  by wf (MAX_ATTEMPT - attempt)%nat lt :=
fetchWithTimeout env url attempt :=
  try_catch
    (response <- fetch net (probe_request url) ;;
     if negb (ok response.1) then
       if 500 <=? response.1 then
         throw (Error ("服务器错误（状态码: " +:+ pretty response.1 +:+ "）"))
       else
         handleFinalFailure url env ;;; ret tt
     else ret tt)
    (fun err =>
       match lt_dec attempt MAX_ATTEMPT with
       | left _ =>
           sleep (RETRY_DELAY * 2 ^ Z.of_nat attempt) ;;;
           fetchWithTimeout env url (attempt + 1)
       | right _ => handleFinalFailure url env
       end).
Proof. lia. Qed.

End Net.
End PoolWorker.


(** ** src/unnamed/part_000, first script: one run of [handleScheduled]

    [handleScheduled] calls [fetchWithTimeout(env, url)] for every URL
    of the list at once and waits for all the promises
    ([Promise.allSettled]), so the probes of one run are interleaved:
    each of them is suspended at an [await] and goes on, up to its next
    [await], when what it waits for is there. Which probe goes on
    next, with which outcome of its request, and how much time passes
    in between is not in the hands of the script. The run is a
    transition system over the stages of the probes, the store and the
    clock.

    A probe is named by the position of its URL in the list. *)

Module Tick.

(** The [await] at which a probe is suspended. *)
Inductive stage :=
| Attempt (retries : nat)            (* [await fetch(url, { signal })] in [fetchWithTimeout(env, url, retries)] *)
| Pause (retries : nat) (until : Z)  (* [await new Promise(resolve => setTimeout(resolve, delay))] *)
| ReadFlag                           (* [await env.KV.get("flag")] *)
| Trigger                            (* [await fetch(env.DEPLOY_API_URL, ...)] and [await resp.text()] *)
| WriteFlag                          (* [await env.KV.put("flag", "deployed", ...)] *)
| Fulfilled.                         (* the promise of [fetchWithTimeout] is fulfilled *)

(** What a probe did, and what it met. *)
Inductive note :=
| Sent (rq : http_request)                  (* [fetch] was called *)
| Got (r : fetch_result)                    (* the outcome of the request to the endpoint *)
| Timer (ms : Z)                            (* [setTimeout(resolve, ms)] *)
| Called (url : string)                     (* [handleFinalFailure(url, env)] *)
| Read (key : string) (v : option string)   (* [KV.get(key)] gave [v] *)
| Replied (r : fetch_result)                (* the outcome of the request to the deploy interface *)
| Wrote (key value : string) (ttl : Z).     (* [KV.put(key, value, { expirationTtl: ttl })] *)

Record state := {
  mach : machine;                    (* the store, the clock, the number of requests sent *)
  probes : list (string * stage);    (* the URL and the stage of each probe *)
  notes : list (nat * note)          (* what the probes did, oldest first *)
}.

(** [handleFinalFailure(url, env)] up to its first [await]. *)
Definition final (url : string) : stage * list note :=
  if String.eqb url EmptyString || negb (includes url "galaxy")
  then (Fulfilled, [Called url])
  else (ReadFlag, [Called url]).

(** The [catch] block of [fetchWithTimeout]. *)
Definition caught (now : Z) (url : string) (retries : nat) : stage * list note :=
  if (retries <=? KvWorker.MAX_RETRIES)%nat then
    let delay := KvWorker.RETRY_DELAY * 2 ^ Z.of_nat retries in
    (Pause retries (now + delay), [Timer delay])
  else final url.

(** [fetchWithTimeout] from the outcome of its request on. *)
Definition answered (now : Z) (url : string) (retries : nat) (r : fetch_result)
  : stage * list note :=
  match r with
  | Responded status _ =>
      if negb (ok status) then
        if (500 <=? status) && (status <? 600) then caught now url retries
        else final url
      else (Fulfilled, [])
  | TimedOut | NetworkFailure => caught now url retries
  end.

(** [handleFinalFailure] from the value of the flag on. *)
Definition read (env : Env) (url : string) (flag : option string) : stage * list note :=
  if match flag with Some v => String.eqb v "deployed" | None => false end
  then (Fulfilled, [])
  else (Trigger, [Sent (deploy_request env url)]).

(** [handleFinalFailure] from the outcome of its request on; what is
    thrown is caught. *)
Definition replied (r : fetch_result) : stage :=
  match r with
  | Responded status _ => if negb (ok status) then Fulfilled else WriteFlag
  | TimedOut | NetworkFailure => Fulfilled
  end.

Definition requests (ns : list note) : nat :=
  length (List.filter (fun n => match n with Sent _ => true | _ => false end) ns).

(** Probe [i] goes to the stage [st] and has done [ns]; the store is
    then [store]. *)
Definition put (i : nat) (url : string) (st : stage) (ns : list note)
    (store : gmap string (string * Z)) (s : state) : state :=
  {| mach := {| kv := store; clock := clock (mach s);
                sent := (sent (mach s) + requests ns)%nat |};
     probes := <[i := (url, st)]> (probes s);
     notes := (notes s ++ map (pair i) ns)%list |}.

(** What ends the wait of a probe: the outcome of its request, or the
    timer or the operation on the store being done. *)
Inductive input :=
| Outcome (r : fetch_result)
| Due.

(** Probe [i] goes on to its next [await]. *)
Definition resume (env : Env) (i : nat) (x : input) (s : state) : option state :=
  match probes s !! i with
  | None => None
  | Some (url, st) =>
      match st, x with
      | Attempt retries, Outcome r =>
          let next := answered (clock (mach s)) url retries r in
          Some (put i url next.1 (Got r :: next.2) (kv (mach s)) s)
      | Pause retries until, Due =>
          if until <=? clock (mach s) then
            Some (put i url (Attempt (retries + 1)) [Sent (probe_request url)]
                    (kv (mach s)) s)
          else None
      | ReadFlag, Due =>
          let flag := kv_lookup (mach s) "flag" in
          let next := read env url flag in
          Some (put i url next.1 (Read "flag" flag :: next.2) (kv (mach s)) s)
      | Trigger, Outcome r =>
          Some (put i url (replied r) [Replied r] (kv (mach s)) s)
      | WriteFlag, Due =>
          Some (put i url Fulfilled [Wrote "flag" "deployed" (60 * 60 * 3)]
                  (<["flag" := ("deployed", clock (mach s) + (60 * 60 * 3) * 1000)]>
                     (kv (mach s))) s)
      | _, _ => None
      end
  end.

(** Time passes. *)
Definition elapse (d : Z) (s : state) : state :=
  {| mach := {| kv := kv (mach s); clock := clock (mach s) + d; sent := sent (mach s) |};
     probes := probes s;
     notes := notes s |}.

Inductive step (env : Env) : state -> state -> Prop :=
| step_resume i x s s' : resume env i x s = Some s' -> step env s s'
| step_elapse d s : 0 <= d -> step env s (elapse d s).

(** [urls.map(url => fetchWithTimeout(env, url))]: every probe has sent
    its first request. *)
Definition start (urls : list string) (m : machine) : state :=
  {| mach := {| kv := kv m; clock := clock m; sent := (sent m + length urls)%nat |};
     probes := map (fun url => (url, Attempt 1)) urls;
     notes := imap (fun i url => (i, Sent (probe_request url))) urls |}.

Inductive reachable (env : Env) (urls : list string) (m : machine) : state -> Prop :=
| reach_start : reachable env urls m (start urls m)
| reach_step s s' : reachable env urls m s -> step env s s' -> reachable env urls m s'.

(** The states [handleScheduled(env)] passes through when it is called
    in the state [m] of the store and of the clock, [urls] being
    [parseUrls(env.URL_LIST)]; without URLs it returns at once. *)
Definition handleScheduled (env : Env) (urls : list string) (m : machine)
  : state -> Prop :=
  reachable env urls m.

(** [Promise.allSettled] is resolved: [handleScheduled] returns. *)
Definition settled (s : state) : Prop :=
  Forall (fun p => p.2 = Fulfilled) (probes s).

End Tick.
(** ** The task pool of the checkers: [runWithConcurrency]

    The pool is a transition system over the promises of the tasks and
    the queue of promise jobs. The body of [runWithConcurrency] runs
    from one [await] to the next without interruption; between two
    jobs the environment may end a probe or fulfil its promise. A probe
    never rejects (it catches every error), so a promise settles by
    being fulfilled.

    A task and its promise are named by the position of the task in
    the list. *)

Module Pool.

(** The promise jobs. *)
Inductive job :=
| Enter (p : nat)     (* the job of [Promise.resolve().then(task)]: it calls the task *)
| Delete (p : nat)    (* [() => executing.delete(p)], registered by [p.finally] *)
| Race (r p : nat)    (* the reaction that race number [r] registered on [p] *)
| All (p : nat)       (* the reaction that [Promise.allSettled] registered on [p] *)
| Resume.             (* the continuation of the [await] of the runner *)

(** Where the runner is suspended. *)
Inductive control :=
| AwaitRace (r : nat)   (* in [await Promise.race(executing)], race number [r] *)
| AwaitAll              (* in [await Promise.allSettled(executing)] *)
| Returned.

Record pool := {
  pc : control;
  tasks : list nat;                 (* the tasks the loop has not taken yet *)
  executing : gset nat;             (* the [Set] of promises *)
  queued : gset nat;                (* tasks whose [Enter] job has not run *)
  running : gset nat;               (* tasks entered and not finished: the probes in flight *)
  finished : gset nat;              (* tasks finished whose promise is still pending *)
  settled : gset nat;               (* promises that are fulfilled *)
  reactions : gmap nat (list job);  (* the reactions of each pending promise, oldest first *)
  jobs : list job;                  (* the job queue, oldest first *)
  won : gset nat;                   (* the races that are resolved *)
  waiting : gset nat;               (* the promises [allSettled] has not heard of *)
  races : nat                       (* the number of races created *)
}.

Definition idle : pool :=
  {| pc := Returned; tasks := []; executing := ∅; queued := ∅; running := ∅;
     finished := ∅; settled := ∅; reactions := ∅; jobs := []; won := ∅;
     waiting := ∅; races := 0 |}.

Definition set_pc (c : control) (s : pool) : pool :=
  {| pc := c; tasks := tasks s; executing := executing s; queued := queued s;
     running := running s; finished := finished s; settled := settled s;
     reactions := reactions s; jobs := jobs s; won := won s;
     waiting := waiting s; races := races s |}.

Definition set_tasks (ts : list nat) (s : pool) : pool :=
  {| pc := pc s; tasks := ts; executing := executing s; queued := queued s;
     running := running s; finished := finished s; settled := settled s;
     reactions := reactions s; jobs := jobs s; won := won s;
     waiting := waiting s; races := races s |}.

Definition set_jobs (js : list job) (s : pool) : pool :=
  {| pc := pc s; tasks := tasks s; executing := executing s; queued := queued s;
     running := running s; finished := finished s; settled := settled s;
     reactions := reactions s; jobs := js; won := won s;
     waiting := waiting s; races := races s |}.

(** [HostEnqueuePromiseJob] *)
Definition enqueue (js : list job) (s : pool) : pool :=
  set_jobs (jobs s ++ js) s.

(** [p.then(...)]: the reaction joins those of a pending promise; on a
    fulfilled promise its job is enqueued at once. *)
Definition react (p : nat) (j : job) (s : pool) : pool :=
  if decide (p ∈ settled s) then enqueue [j] s
  else
    {| pc := pc s; tasks := tasks s; executing := executing s; queued := queued s;
       running := running s; finished := finished s; settled := settled s;
       reactions := <[p := (reactions s !!! p) ++ [j]]> (reactions s);
       jobs := jobs s; won := won s; waiting := waiting s; races := races s |}.

(** A reaction on every promise of the set. *)
Definition subscribe (j : nat -> job) (s : pool) : pool :=
  foldl (fun acc p => react p (j p) acc) s (elements (executing s)).

(** The two scripts differ in how the loop obtains the promise:
    [task()] enters the task at once, [Promise.resolve().then(task)]
    leaves it to a job. *)
Inductive flavour := Direct | Deferred.

(** [const p = ...; executing.add(p); p.finally(() => executing.delete(p));] *)
Definition add_task (fl : flavour) (t : nat) (s : pool) : pool :=
  {| pc := pc s; tasks := tasks s;
     executing := {[t]} ∪ executing s;
     queued := match fl with Direct => queued s | Deferred => {[t]} ∪ queued s end;
     running := match fl with Direct => {[t]} ∪ running s | Deferred => running s end;
     finished := finished s; settled := settled s;
     reactions := <[t := [Delete t]]> (reactions s);
     jobs := match fl with Direct => jobs s | Deferred => jobs s ++ [Enter t] end;
     won := won s; waiting := waiting s; races := races s |}.

(** [await Promise.race(executing)] with [rest] left to the loop. *)
Definition await_race (rest : list nat) (s : pool) : pool :=
  subscribe (Race (races s))
    {| pc := AwaitRace (races s); tasks := rest; executing := executing s;
       queued := queued s; running := running s; finished := finished s;
       settled := settled s; reactions := reactions s; jobs := jobs s;
       won := won s; waiting := waiting s; races := S (races s) |}.

(** [await Promise.allSettled(executing)]; over an empty set the result
    is fulfilled at once. *)
Definition await_all (s : pool) : pool :=
  let s' :=
    subscribe All
      {| pc := AwaitAll; tasks := []; executing := executing s;
         queued := queued s; running := running s; finished := finished s;
         settled := settled s; reactions := reactions s; jobs := jobs s;
         won := won s; waiting := executing s; races := races s |} in
  if decide (executing s = ∅) then enqueue [Resume] s' else s'.

(** The body of [runWithConcurrency] from the head of its loop to the
    next [await]. *)
Fixpoint run_loop (fl : flavour) (limit : nat) (ts : list nat) (s : pool) : pool :=
  match ts with
  | [] => await_all s
  | t :: rest =>
      let s1 := add_task fl t s in
      if decide (limit <= size (executing s1))%nat
      then await_race rest s1
      else run_loop fl limit rest s1
  end.

(** [runWithConcurrency(tasks, limit)] with [n] tasks, up to its first
    [await]. *)
Definition start (fl : flavour) (limit n : nat) : pool :=
  run_loop fl limit (seq 0 n) idle.

(** The effect of a job. *)
Definition exec (fl : flavour) (limit : nat) (j : job) (s : pool) : pool :=
  match j with
  | Enter p =>
      {| pc := pc s; tasks := tasks s; executing := executing s;
         queued := queued s ∖ {[p]}; running := {[p]} ∪ running s;
         finished := finished s; settled := settled s;
         reactions := reactions s; jobs := jobs s; won := won s;
         waiting := waiting s; races := races s |}
  | Delete p =>
      {| pc := pc s; tasks := tasks s; executing := executing s ∖ {[p]};
         queued := queued s; running := running s;
         finished := finished s; settled := settled s;
         reactions := reactions s; jobs := jobs s; won := won s;
         waiting := waiting s; races := races s |}
  | Race r p =>
      if decide (r ∈ won s) then s
      else
        enqueue [Resume]
          {| pc := pc s; tasks := tasks s; executing := executing s;
             queued := queued s; running := running s;
             finished := finished s; settled := settled s;
             reactions := reactions s; jobs := jobs s; won := {[r]} ∪ won s;
             waiting := waiting s; races := races s |}
  | All p =>
      if decide (p ∈ waiting s) then
        let s' :=
          {| pc := pc s; tasks := tasks s; executing := executing s;
             queued := queued s; running := running s;
             finished := finished s; settled := settled s;
             reactions := reactions s; jobs := jobs s; won := won s;
             waiting := waiting s ∖ {[p]}; races := races s |} in
        if decide (waiting s ∖ {[p]} = ∅) then enqueue [Resume] s' else s'
      else s
  | Resume =>
      match pc s with
      | AwaitRace _ => run_loop fl limit (tasks s) s
      | AwaitAll => set_pc Returned s
      | Returned => s
      end
  end.

(** The probe of a task comes to its end. *)
Definition finish (p : nat) (s : pool) : pool :=
  {| pc := pc s; tasks := tasks s; executing := executing s;
     queued := queued s; running := running s ∖ {[p]};
     finished := {[p]} ∪ finished s; settled := settled s;
     reactions := reactions s; jobs := jobs s; won := won s;
     waiting := waiting s; races := races s |}.

(** The promise of a finished task is fulfilled: its reactions become
    jobs, in the order of their registration. *)
Definition fulfil (p : nat) (s : pool) : pool :=
  {| pc := pc s; tasks := tasks s; executing := executing s;
     queued := queued s; running := running s;
     finished := finished s ∖ {[p]}; settled := {[p]} ∪ settled s;
     reactions := delete p (reactions s);
     jobs := jobs s ++ (reactions s !!! p); won := won s;
     waiting := waiting s; races := races s |}.

(** The first job of the queue is run. *)
Definition next (fl : flavour) (limit : nat) (s : pool) : pool :=
  match jobs s with
  | j :: js => exec fl limit j (set_jobs js s)
  | [] => s
  end.

Inductive step (fl : flavour) (limit : nat) : pool -> pool -> Prop :=
| step_job s j js :
    jobs s = j :: js ->
    step fl limit s (exec fl limit j (set_jobs js s))
| step_finish s p :
    p ∈ running s ->
    step fl limit s (finish p s)
| step_fulfil s p :
    p ∈ finished s ->
    step fl limit s (fulfil p s).

Inductive reachable (fl : flavour) (limit n : nat) : pool -> Prop :=
| reach_start : reachable fl limit n (start fl limit n)
| reach_step s s' : reachable fl limit n s -> step fl limit s s' -> reachable fl limit n s'.

(** The states a call [runWithConcurrency(tasks, limit)] with [n] tasks
    passes through. *)
Definition runWithConcurrency (fl : flavour) (limit n : nat) : pool -> Prop :=
  reachable fl limit n.

(** The number of probes in flight. *)
Definition in_flight (s : pool) : nat := size (running s).

End Pool.

(** ** The encoding helpers of the deploy receiver

    A text is the sequence of its UTF-16 code units, a byte sequence a
    list of integers below 256; base64 text is ASCII and kept as a
    [string]. [TextEncoder], [TextDecoder], [btoa] and [atob] are the
    platform's; they follow the Encoding and HTML standards. *)

Module Codec.

Definition text := list Z.
Definition bytes := list Z.

Definition is_lead (u : Z) : bool := (0xD800 <=? u) && (u <=? 0xDBFF).
Definition is_trail (u : Z) : bool := (0xDC00 <=? u) && (u <=? 0xDFFF).
Definition is_unit (u : Z) : bool := (0 <=? u) && (u <=? 0xFFFF).

(** [str.isWellFormed()]: every code unit is a 16-bit value and no
    surrogate is unpaired. *)
Fixpoint well_formed (s : text) : bool :=
  match s with
  | [] => true
  | u :: r =>
      if is_lead u then
        match r with
        | l :: r' => is_trail l && well_formed r'
        | [] => false
        end
      else if is_trail u then false
      else is_unit u && well_formed r
  end.

(** The scalar values of a text; an unpaired surrogate reads as U+FFFD. *)
Fixpoint scalars (s : text) : list Z :=
  match s with
  | [] => []
  | u :: r =>
      if is_lead u then
        match r with
        | l :: r' =>
            if is_trail l
            then (0x10000 + Z.shiftl (u - 0xD800) 10 + (l - 0xDC00)) :: scalars r'
            else 0xFFFD :: scalars r
        | [] => [0xFFFD]
        end
      else if is_trail u then 0xFFFD :: scalars r
      else u :: scalars r
  end.

(** The UTF-8 encoder: the lead byte, then [count] continuation bytes. *)
Fixpoint continuation (cp : Z) (count : nat) : bytes :=
  match count with
  | O => []
  | S c => Z.lor 0x80 (Z.land (Z.shiftr cp (6 * Z.of_nat c)) 0x3F) :: continuation cp c
  end.

Definition utf8_encode_scalar (cp : Z) : bytes :=
  if cp <=? 0x7F then [cp]
  else
    let '(count, offset) :=
      if cp <=? 0x7FF then (1%nat, 0xC0)
      else if cp <=? 0xFFFF then (2%nat, 0xE0)
      else (3%nat, 0xF0) in
    (Z.shiftr cp (6 * Z.of_nat count) + offset) :: continuation cp count.

(** [new TextEncoder().encode(str)] *)
Definition TextEncoder_encode (str : text) : bytes :=
  concat (map utf8_encode_scalar (scalars str)).

(** [String.fromCharCode(b)] *)
Definition fromCharCode (b : Z) : Z := b mod 65536.

(** The base64 alphabet. *)
Definition alphabet : string :=
  "ABCDEFGHIJKLMNOPQRSTUVWXYZabcdefghijklmnopqrstuvwxyz0123456789+/".

Definition digit (n : Z) : ascii :=
  match String.get (Z.to_nat n) alphabet with
  | Some c => c
  | None => "="%char
  end.

Definition code (c : ascii) : Z := Z.of_N (Ascii.N_of_ascii c).

Definition sextet (c : ascii) : option Z :=
  let n := code c in
  if (65 <=? n) && (n <=? 90) then Some (n - 65)
  else if (97 <=? n) && (n <=? 122) then Some (n - 71)
  else if (48 <=? n) && (n <=? 57) then Some (n + 4)
  else if n =? 43 then Some 62
  else if n =? 47 then Some 63
  else None.

Fixpoint base64_encode (bs : bytes) : list ascii :=
  match bs with
  | [] => []
  | [a] =>
      [digit (Z.shiftr a 2); digit (Z.shiftl (Z.land a 3) 4); "="; "="]%char
  | [a; b] =>
      [digit (Z.shiftr a 2);
       digit (Z.lor (Z.shiftl (Z.land a 3) 4) (Z.shiftr b 4));
       digit (Z.shiftl (Z.land b 15) 2); "="%char]
  | a :: b :: c :: r =>
      digit (Z.shiftr a 2)
      :: digit (Z.lor (Z.shiftl (Z.land a 3) 4) (Z.shiftr b 4))
      :: digit (Z.lor (Z.shiftl (Z.land b 15) 2) (Z.shiftr c 6))
      :: digit (Z.land c 63)
      :: base64_encode r
  end.

(** [btoa(binary)]: refuses a code unit above 0xFF. *)
Definition btoa (binary : text) : option string :=
  if forallb (fun u => u <=? 0xFF) binary
  then Some (String.string_of_list_ascii (base64_encode binary))
  else None.

Definition is_whitespace (c : ascii) : bool :=
  let n := code c in
  (n =? 9) || (n =? 10) || (n =? 12) || (n =? 13) || (n =? 32).

Definition is_pad (c : ascii) : bool := code c =? 61.

(** Removes one or two trailing [=]; the argument is the reversed text. *)
Definition strip_padding_rev (rev_data : list ascii) : list ascii :=
  match rev_data with
  | c1 :: c2 :: r =>
      if is_pad c1 then (if is_pad c2 then r else c2 :: r) else rev_data
  | [c1] => if is_pad c1 then [] else rev_data
  | [] => []
  end.

Fixpoint sextets (data : list ascii) : option (list Z) :=
  match data with
  | [] => Some []
  | c :: r =>
      match sextet c, sextets r with
      | Some n, Some ns => Some (n :: ns)
      | _, _ => None
      end
  end.

(** Four sextets give three bytes; a rest of two gives one byte and a
    rest of three gives two, the surplus bits being dropped. *)
Fixpoint base64_bytes (ns : list Z) : bytes :=
  match ns with
  | a :: b :: c :: d :: r =>
      Z.lor (Z.shiftl a 2) (Z.shiftr b 4)
      :: Z.lor (Z.shiftl (Z.land b 15) 4) (Z.shiftr c 2)
      :: Z.lor (Z.shiftl (Z.land c 3) 6) d
      :: base64_bytes r
  | [a; b; c] =>
      [Z.lor (Z.shiftl a 2) (Z.shiftr b 4);
       Z.lor (Z.shiftl (Z.land b 15) 4) (Z.shiftr c 2)]
  | [a; b] => [Z.lor (Z.shiftl a 2) (Z.shiftr b 4)]
  | _ => []
  end.

(** [atob(data)]: the forgiving base64 decoder. *)
Definition atob (data : string) : option text :=
  let d1 := List.filter (fun c => negb (is_whitespace c)) (String.list_ascii_of_string data) in
  let d2 :=
    if (length d1 mod 4 =? 0)%nat then rev (strip_padding_rev (rev d1)) else d1 in
  if (length d2 mod 4 =? 1)%nat then None
  else option_map base64_bytes (sextets d2).

(** [base64.replace(/\n/g, '')] *)
Definition remove_newlines (s : string) : string :=
  String.string_of_list_ascii
    (List.filter (fun c => negb (code c =? 10)) (String.list_ascii_of_string s)).

(** [Uint8Array.from(binary, c => c.charCodeAt(0))]; the code units of
    [binary] come from [atob] and none is a surrogate. *)
Definition Uint8Array_from (binary : text) : bytes :=
  map (fun c => c mod 256) binary.

(** The UTF-8 decoder of the Encoding standard. *)
Record utf8_state := {
  code_point : Z;
  bytes_seen : Z;
  bytes_needed : Z;
  lower_boundary : Z;
  upper_boundary : Z
}.

Definition utf8_start : utf8_state :=
  {| code_point := 0; bytes_seen := 0; bytes_needed := 0;
     lower_boundary := 0x80; upper_boundary := 0xBF |}.

(** A byte read while no sequence is open. *)
Definition utf8_lead (b : Z) : utf8_state * list Z :=
  if (0 <=? b) && (b <=? 0x7F) then (utf8_start, [b])
  else if (0xC2 <=? b) && (b <=? 0xDF) then
    ({| code_point := Z.land b 0x1F; bytes_seen := 0; bytes_needed := 1;
        lower_boundary := 0x80; upper_boundary := 0xBF |}, [])
  else if (0xE0 <=? b) && (b <=? 0xEF) then
    ({| code_point := Z.land b 0xF; bytes_seen := 0; bytes_needed := 2;
        lower_boundary := if b =? 0xE0 then 0xA0 else 0x80;
        upper_boundary := if b =? 0xED then 0x9F else 0xBF |}, [])
  else if (0xF0 <=? b) && (b <=? 0xF4) then
    ({| code_point := Z.land b 0x7; bytes_seen := 0; bytes_needed := 3;
        lower_boundary := if b =? 0xF0 then 0x90 else 0x80;
        upper_boundary := if b =? 0xF4 then 0x8F else 0xBF |}, [])
  else (utf8_start, [0xFFFD]).

Definition utf8_step (st : utf8_state) (b : Z) : utf8_state * list Z :=
  if bytes_needed st =? 0 then utf8_lead b
  else if (b <? lower_boundary st) || (upper_boundary st <? b) then
    (* the open sequence is in error; the byte is read again *)
    let '(st', out) := utf8_lead b in (st', 0xFFFD :: out)
  else
    let cp := Z.lor (Z.shiftl (code_point st) 6) (Z.land b 0x3F) in
    if bytes_seen st + 1 =? bytes_needed st then (utf8_start, [cp])
    else
      ({| code_point := cp; bytes_seen := bytes_seen st + 1;
          bytes_needed := bytes_needed st;
          lower_boundary := 0x80; upper_boundary := 0xBF |}, []).

Fixpoint utf8_run (st : utf8_state) (bs : bytes) : list Z :=
  match bs with
  | [] => if bytes_needed st =? 0 then [] else [0xFFFD]
  | b :: r => let '(st', out) := utf8_step st b in out ++ utf8_run st' r
  end.

(** The decoder drops a byte order mark that opens the input. *)
Definition strip_bom (cps : list Z) : list Z :=
  match cps with
  | cp :: r => if cp =? 0xFEFF then r else cps
  | [] => []
  end.

Definition utf16_units (cp : Z) : text :=
  if cp <=? 0xFFFF then [cp]
  else [0xD800 + Z.shiftr (cp - 0x10000) 10; 0xDC00 + Z.land (cp - 0x10000) 0x3FF].

(** [new TextDecoder().decode(bytes)] *)
Definition TextDecoder_decode (bs : bytes) : text :=
  concat (map utf16_units (strip_bom (utf8_run utf8_start bs))).

Definition base64EncodeUtf8 (str : text) : option string :=
  let bytes := TextEncoder_encode str in
  let binary := map fromCharCode bytes in
  btoa binary.

Definition base64DecodeUtf8 (base64 : string) : option text :=
  match atob (remove_newlines base64) with
  | Some binary => Some (TextDecoder_decode (Uint8Array_from binary))
  | None => None
  end.

End Codec.

(** ** src/unnamed/part_000, third script: the deploy receiver *)

Module Deploy.

(** The request handed to [fetch(req, env, ctx)]. *)
Record incoming := {
  in_method : string;
  in_pathname : string;                      (* [new URL(req.url).pathname] *)
  in_header : string -> option string        (* [req.headers.get(name)] *)
}.

Inductive body :=
| Text (s : string)
| Json (j : json).                           (* [JSON.stringify(obj, null, 2)] of [j] *)

Record response := {
  rs_status : Z;
  rs_headers : list (string * string);
  rs_body : body
}.

(** The bindings of the receiver; an unset variable is [None]. *)
Record DeployEnv := {
  DEPLOY_TOKEN : option string;
  GITHUB_TOKEN : option string;
  GH_BRANCH : option string;
  GH_CONTENT_API_URL : option string
}.

Definition FLAG_KEY : string := "flag".
Definition FLAG_TTL : Z := 3 * 60 * 60.

(** Truthiness of a binding or header value. *)
Definition truthy (v : option string) : bool :=
  match v with
  | Some s => negb (String.eqb s EmptyString)
  | None => false
  end.

Definition text_of (v : option string) : string := default "undefined" v.

(** [a !== b] on values that are strings or undefined. *)
Definition differs (a b : option string) : bool :=
  match a, b with
  | Some x, Some y => negb (String.eqb x y)
  | None, None => false
  | _, _ => true
  end.

(** [obj.name] on a parsed JSON value. *)
Definition field (name : string) (j : json) : option json :=
  match j with
  | JObj fields => snd <$> List.find (fun kv => String.eqb (fst kv) name) fields
  | _ => None
  end.

Definition json_response (obj : json) (status : Z) : response :=
  {| rs_status := status;
     rs_headers := [("Content-Type", "application/json")];
     rs_body := Json obj |}.

Section Net.
Variable net : nat -> http_request -> fetch_result.
(** [encodeURIComponent], and [updateTimestampSection], whose result
    depends on the wall clock and on the time zone database. *)
Variable encodeURIComponent : string -> string.
Variable updateTimestampSection : Codec.text -> Codec.text.

Definition ghHeaders (token : string) : list (string * string) :=
  [("Authorization", "Bearer " +:+ token);
   ("Accept", "application/vnd.github+json");
   ("Content-Type", "application/json");
   ("User-Agent", "cloudflare-worker")].

Definition getFile_request (token apiUrl : string) (branch : option string)
  : http_request :=
  {| rq_method := "GET";
     rq_url := if truthy branch
               then apiUrl +:+ "?ref=" +:+ encodeURIComponent (text_of branch)
               else apiUrl;
     rq_headers := ghHeaders token;
     rq_body := None |}.

Definition getFile (token apiUrl : string) (branch : option string) : M json :=
  res <- fetch net (getFile_request token apiUrl branch) ;;
  if negb (ok res.1) then
    throw (Error ("读取文件失败: " +:+ pretty res.1))
  else
    match res.2 with
    | Some file => ret file
    | None => throw {| err_name := "SyntaxError"; err_message := "Unexpected end of JSON input" |}
    end.

(** Properties that are [undefined] are left out by [JSON.stringify]. *)
Definition optional (name : string) (v : option json) : list (string * json) :=
  match v with
  | Some j => [(name, j)]
  | None => []
  end.

Definition updateFile_request (token apiUrl : string) (branch : option string)
    (sha : option json) (content64 : string) : http_request :=
  {| rq_method := "PUT";
     rq_url := apiUrl;
     rq_headers := ghHeaders token;
     rq_body := Some (JObj (
       [("message", JStr "chore: auto update README timestamp");
        ("content", JStr content64)]
       ++ optional "sha" sha
       ++ optional "branch" (JStr <$> branch)
       ++ [("committer", JObj [
             ("name", JStr "cloudflare-worker[bot]");
             ("email", JStr "cloudflare-worker@users.noreply.github.com")])])%list) |}.

Definition updateFile (token apiUrl : string) (branch : option string)
    (sha : option json) (content : Codec.text) : M unit :=
  match Codec.base64EncodeUtf8 content with
  | None => throw {| err_name := "InvalidCharacterError"; err_message := "Invalid character" |}
  | Some content64 =>
      res <- fetch net (updateFile_request token apiUrl branch sha content64) ;;
      if negb (ok res.1) then
        throw (Error ("提交失败: " +:+ pretty res.1))
      else ret tt
  end.

Definition run (env : DeployEnv) : M json :=
  if negb (truthy (GITHUB_TOKEN env)) || negb (truthy (GH_CONTENT_API_URL env)) then
    throw (Error "必要的环境变量未配置")
  else
    flag <- kv_get FLAG_KEY ;;
    if match flag with Some v => String.eqb v "deployed" | None => false end then
      ret (JObj [("skipped", JBool true);
                 ("reason", JStr "already deployed (within 3 hours)")])
    else
      file <- getFile (text_of (GITHUB_TOKEN env)) (text_of (GH_CONTENT_API_URL env))
                      (GH_BRANCH env) ;;
      match field "content" file with
      | Some (JStr content64) =>
          match Codec.base64DecodeUtf8 content64 with
          | None => throw {| err_name := "InvalidCharacterError"; err_message := "Invalid character" |}
          | Some rawContent =>
              let newContent := updateTimestampSection rawContent in
              if bool_decide (newContent = rawContent) then
                ret (JObj [("skipped", JBool true);
                           ("reason", JStr "content unchanged")])
              else
                updateFile (text_of (GITHUB_TOKEN env)) (text_of (GH_CONTENT_API_URL env))
                           (GH_BRANCH env) (field "sha" file) newContent ;;;
                kv_put FLAG_KEY "deployed" FLAG_TTL ;;;
                ret (JObj [("deployed", JBool true)])
          end
      | Some _ => throw (TypeError "base64.replace is not a function")
      | None =>
          throw (TypeError "Cannot read properties of undefined (reading 'replace')")
      end.

(** The [fetch] handler of the receiver. It does not throw: the result
    is the response, the store it leaves and the effects performed.
    [new Response("Not Found", { status: 404 })] is given no headers by
    the script; its body is a string, for which the constructor adds
    [Content-Type: text/plain;charset=UTF-8]. *)
Definition fetch (req : incoming) (env : DeployEnv) (m : machine)
  : response * machine * list event :=
  if String.eqb (in_pathname req) "/deploy" && String.eqb (in_method req) "POST" then
    let tokenFromHeader := in_header req "X-Deploy-Token" in
    if negb (truthy tokenFromHeader) || differs tokenFromHeader (DEPLOY_TOKEN env) then
      (json_response (JObj [("ok", JBool false); ("error", JStr "Unauthorized")]) 401, m, [])
    else
      match run env m with
      | (Return result, m', t) =>
          (json_response (JObj [("ok", JBool true); ("result", result)]) 200, m', t)
      | (Throw err, m', t) =>
          (json_response (JObj [("ok", JBool false); ("error", JStr (err_message err))]) 500, m', t)
      end
  else
    ({| rs_status := 404;
        rs_headers := [("Content-Type", "text/plain;charset=UTF-8")];
        rs_body := Text "Not Found" |}, m, []).

End Net.
End Deploy.

(** ** Reading a trace *)

(** The requests of a trace, in order. *)
Definition fetches (t : list event) : list http_request :=
  omap (fun e => match e with EvFetch rq => Some rq | _ => None end) t.

(** The store writes of a trace. *)
Definition puts (t : list event) : list (string * string * Z) :=
  omap (fun e => match e with EvKvPut k v ttl => Some (k, v, ttl) | _ => None end) t.

(** What a trace shows of the probing of [url]: the request attempts,
    the pauses and the calls of [handleFinalFailure]. *)
Inductive probe_event :=
| Attempt
| Backoff (ms : Z)
| FinalFailure.

Definition is_probe (url : string) (rq : http_request) : bool :=
  String.eqb (rq_method rq) "GET" && String.eqb (rq_url rq) url.

Definition probe_view (url : string) (t : list event) : list probe_event :=
  omap (fun e =>
          match e with
          | EvFetch rq => if is_probe url rq then Some Attempt else None
          | EvSleep ms => Some (Backoff ms)
          | EvFinalFailure _ => Some FinalFailure
          | _ => None
          end) t.

Definition attempts (url : string) (t : list event) : nat :=
  length (List.filter (fun e => match e with Attempt => true | _ => false end)
                      (probe_view url t)).

(** An outcome after which the probe is tried again: a timeout, a
    transport failure, or a status from 500 to 599. *)
Definition retryable (r : fetch_result) : Prop :=
  match r with
  | Responded status _ => 500 <= status <= 599
  | TimedOut | NetworkFailure => True
  end.

(** A status that is neither 2xx nor 5xx. *)
Definition permanent (r : fetch_result) : Prop :=
  match r with
  | Responded status _ => ok status = false /\ ~ (500 <= status <= 599)
  | TimedOut | NetworkFailure => False
  end.

(** The status codes of HTTP: three digits, the first of them from 1
    to 5. *)
Definition http_status (status : Z) : Prop := 100 <= status <= 599.


(** The flag is absent, or its entry has expired. *)
Definition flag_absent (m : machine) : Prop :=
  kv m !! "flag" = None \/
  exists v expires, kv m !! "flag" = Some (v, expires) /\ expires <= clock m.

(** The state left by a request, and by a pause. *)
Definition after_fetch (m : machine) : machine :=
  {| kv := kv m; clock := clock m; sent := S (sent m) |}.
Definition after_sleep (ms : Z) (m : machine) : machine :=
  {| kv := kv m; clock := clock m + ms; sent := sent m |}.

(** A result whose trace is preceded by [t]. *)
Definition preceded {A} (t : list event) (r : outcome A * machine * list event)
  : outcome A * machine * list event :=
  (r.1.1, r.1.2, (t ++ r.2)%list).

(** A request to the deploy interface as the specification describes it,
    for a given [reason]. *)
Definition described_request (env : Env) (reason url : string) (rq : http_request) : Prop :=
  rq_method rq = "POST"
  /\ rq_url rq = DEPLOY_API_URL env
  /\ rq_headers rq = [("Content-Type", "application/json");
                      ("X-Deploy-Token", FIXED_TOKEN env)]
  /\ rq_body rq = Some (JObj [("reason", JStr reason); ("url", JStr url)]).

(** ** Sample inputs *)

Definition down_url : string := "https://down.test/".
Definition galaxy_url : string := "https://galaxy.test/".

Definition sample_env : Env :=
  {| DEPLOY_API_URL := "https://deploy.test/deploy"; FIXED_TOKEN := "s3cret" |}.

Definition fresh_machine : machine := {| kv := ∅; clock := 0; sent := 0 |}.


(** The flag written at instant 0 and read four hours later. *)
Definition expired_machine : machine :=
  {| kv := {[ "flag" := ("deployed", 10800000) ]}; clock := 14400000; sent := 0 |}.

(** A network on which every request meets the same status. *)
Definition always (status : Z) : nat -> http_request -> fetch_result :=
  fun _ _ => Responded status None.

(** A network on which probes meet [status] and the deploy interface
    answers 200. *)
Definition probes_meet (status : Z) : nat -> http_request -> fetch_result :=
  fun _ rq =>
    if String.eqb (rq_method rq) "GET" then Responded status None
    else Responded 200 None.

(** ** Reading the receiver *)

(** The request is a [POST /deploy] whose token is the configured one. *)
Definition authorized (req : Deploy.incoming) (env : Deploy.DeployEnv) : Prop :=
  Deploy.in_pathname req = "/deploy"
  /\ Deploy.in_method req = "POST"
  /\ exists token, token <> EmptyString
       /\ Deploy.in_header req "X-Deploy-Token" = Some token
       /\ Deploy.DEPLOY_TOKEN env = Some token.

(** The content API token and URL are both set. *)
Definition configured (env : Deploy.DeployEnv) : Prop :=
  Deploy.truthy (Deploy.GITHUB_TOKEN env) = true
  /\ Deploy.truthy (Deploy.GH_CONTENT_API_URL env) = true.

(** Some request of the trace [t], sent from the state [m], was
    answered with a status outside 200..299. *)
Definition refused_call (net : nat -> http_request -> fetch_result)
    (m : machine) (t : list event) : Prop :=
  exists (i : nat) rq status payload,
    fetches t !! i = Some rq
    /\ net (sent m + i)%nat rq = Responded status payload
    /\ ok status = false.

(** [response.headers.get(name)]: the names of headers compare without
    regard to case. *)
Definition lower_case (c : ascii) : ascii :=
  let n := nat_of_ascii c in
  if (65 <=? n)%nat && (n <=? 90)%nat then ascii_of_nat (n + 32) else c.

Fixpoint lower (s : string) : string :=
  match s with
  | EmptyString => EmptyString
  | String c r => String (lower_case c) (lower r)
  end.

Definition header (r : Deploy.response) (name : string) : option string :=
  snd <$> List.find (fun kv => String.eqb (lower (fst kv)) (lower name))
            (Deploy.rs_headers r).

(** The answer to a failure: status 500, the message in the body, no
    write to the store. *)
Definition failure_answer (r : Deploy.response * machine * list event) (m : machine) : Prop :=
  Deploy.rs_status r.1.1 = 500
  /\ (exists message,
        Deploy.rs_body r.1.1 = Deploy.Json (JObj [("ok", JBool false); ("error", JStr message)]))
  /\ puts r.2 = []
  /\ kv r.1.2 = kv m.

Definition sample_denv : Deploy.DeployEnv :=
  {| Deploy.DEPLOY_TOKEN := Some "s3cret";
     Deploy.GITHUB_TOKEN := Some "ghp_token";
     Deploy.GH_BRANCH := Some "main";
     Deploy.GH_CONTENT_API_URL := Some "https://api.github.test/contents/README.md" |}.


Definition request_with (method pathname : string) (token : option string)
  : Deploy.incoming :=
  {| Deploy.in_method := method;
     Deploy.in_pathname := pathname;
     Deploy.in_header := fun name =>
       if String.eqb name "X-Deploy-Token" then token else None |}.

Definition sample_request : Deploy.incoming :=
  request_with "POST" "/deploy" (Some "s3cret").

(** A timestamp rewriting that appends a character. *)
Definition sample_update (t : Codec.text) : Codec.text := (t ++ [33])%list.

(** ** Reading the encoding helpers *)

(** A byte, a base64 digit value, a Unicode scalar value. *)
Definition is_byte (b : Z) : Prop := 0 <= b <= 255.
Definition is_sextet (n : Z) : Prop := 0 <= n <= 63.
Definition is_scalar (c : Z) : Prop :=
  0 <= c <= 0x10FFFF /\ ~ (0xD800 <= c <= 0xDFFF).

(** The digit values of the base64 text of a byte sequence, and its
    padding. *)
Fixpoint base64_values (bs : Codec.bytes) : list Z :=
  match bs with
  | [] => []
  | [a] => [Z.shiftr a 2; Z.shiftl (Z.land a 3) 4]
  | [a; b] =>
      [Z.shiftr a 2;
       Z.lor (Z.shiftl (Z.land a 3) 4) (Z.shiftr b 4);
       Z.shiftl (Z.land b 15) 2]
  | a :: b :: c :: r =>
      Z.shiftr a 2
      :: Z.lor (Z.shiftl (Z.land a 3) 4) (Z.shiftr b 4)
      :: Z.lor (Z.shiftl (Z.land b 15) 2) (Z.shiftr c 6)
      :: Z.land c 63
      :: base64_values r
  end.

Fixpoint base64_padding (bs : Codec.bytes) : list ascii :=
  match bs with
  | [] => []
  | [_] => ["="; "="]%char
  | [_; _] => ["="%char]
  | _ :: _ :: _ :: r => base64_padding r
  end.

(** A text without the byte order mark that may open it. *)
Definition without_bom (s : Codec.text) : Codec.text :=
  match s with
  | u :: r => if u =? 0xFEFF then r else s
  | [] => []
  end.

(** [base64DecodeUtf8(base64EncodeUtf8(str))] *)
Definition round_trip (str : Codec.text) : option Codec.text :=
  match Codec.base64EncodeUtf8 str with
  | Some base64 => Codec.base64DecodeUtf8 base64
  | None => None
  end.

(** The 64 digits, checked one by one. *)
Definition digit_checks (n : nat) : bool :=
  let c := Codec.digit (Z.of_nat n) in
  match Codec.sextet c with
  | Some k => k =? Z.of_nat n
  | None => false
  end
  && negb (Codec.is_whitespace c) && negb (Codec.is_pad c) && negb (Codec.code c =? 10).

(** The characters of a base64 text: digits and padding, no white space. *)
Definition base64_char (c : ascii) : Prop :=
  Codec.is_whitespace c = false /\ (Codec.code c =? 10) = false.

(** ["Hi"] followed by U+4E2D and U+1F552, and ["Hi"] behind a byte
    order mark. *)
Definition sample_text : Codec.text := [72; 105; 0x4E2D; 0xD83D; 0xDD52].
Definition marked_text : Codec.text := [0xFEFF; 72; 105].

(** ** Reading the pool *)

(** The promise a reaction was registered on. *)
Definition job_promise (j : Pool.job) : option nat :=
  match j with
  | Pool.Delete p | Pool.Race _ p | Pool.All p => Some p
  | Pool.Enter _ | Pool.Resume => None
  end.

(** Run in order from the set [ex], the jobs find the promise of every
    [Race] reaction already deleted. *)
Fixpoint ordered (ex : gset nat) (js : list Pool.job) : Prop :=
  match js with
  | [] => True
  | Pool.Delete p :: js' => ordered (ex ∖ {[p]}) js'
  | Pool.Race _ p :: js' => (p ∉ ex) /\ ordered ex js'
  | _ :: js' => ordered ex js'
  end.

Definition resumes (js : list Pool.job) : nat :=
  length (List.filter (fun j => match j with Pool.Resume => true | _ => false end) js).

Definition enters (js : list Pool.job) : list nat :=
  omap (fun j => match j with Pool.Enter p => Some p | _ => None end) js.

Definition race_below (bound : nat) (j : Pool.job) : Prop :=
  match j with
  | Pool.Race r _ => (r < bound)%nat
  | _ => True
  end.

Definition race_within (r : nat) (snapshot : gset nat) (j : Pool.job) : Prop :=
  match j with
  | Pool.Race r' p => r' = r -> p ∈ snapshot
  | _ => True
  end.

(** What holds of the promises and of the queue in every state. *)
Record pool_base (limit n : nat) (s : Pool.pool) : Prop := {
  base_in_set : Pool.running s ∪ Pool.queued s ∪ Pool.finished s ⊆ Pool.executing s;
  base_settled : Pool.settled s ## (Pool.running s ∪ Pool.queued s ∪ Pool.finished s);
  base_apart : Pool.running s ## Pool.queued s
               /\ Pool.finished s ## (Pool.running s ∪ Pool.queued s);
  base_size : (size (Pool.executing s) <= limit)%nat;
  base_jobs : Forall (fun j => forall p, job_promise j = Some p -> p ∈ Pool.settled s)
                (Pool.jobs s);
  base_enters : NoDup (enters (Pool.jobs s))
                /\ forall p, p ∈ enters (Pool.jobs s) -> p ∈ Pool.queued s;
  base_ordered : ordered (Pool.executing s) (Pool.jobs s);
  base_delete : forall p, p ∈ Pool.settled s -> p ∈ Pool.executing s ->
                Pool.Delete p ∈ Pool.jobs s;
  base_reactions : map_Forall (fun p l =>
                     (p ∉ Pool.settled s)
                     /\ exists l', l = Pool.Delete p :: l'
                                   /\ Forall (fun j => job_promise j = Some p) l')
                     (Pool.reactions s);
  base_registered : forall p, p ∈ Pool.executing s -> p ∉ Pool.settled s ->
                    is_Some (Pool.reactions s !! p);
  base_races : Forall (race_below (Pool.races s)) (Pool.jobs s)
               /\ map_Forall (fun _ l => Forall (race_below (Pool.races s)) l)
                    (Pool.reactions s);
  base_won : forall r, r ∈ Pool.won s -> (r < Pool.races s)%nat;
  base_resumes : (resumes (Pool.jobs s) <= 1)%nat;
  base_all : forall i, (i < n)%nat ->
             i ∈ Pool.tasks s \/ i ∈ Pool.queued s \/ i ∈ Pool.running s
             \/ i ∈ Pool.finished s \/ i ∈ Pool.settled s;
  base_pending : forall t, t ∈ Pool.tasks s ->
                 (t ∉ Pool.executing s) /\ (t ∉ Pool.settled s);
  base_nodup : NoDup (Pool.tasks s)
}.

(** What holds at each suspension of the runner. *)
Definition pool_control (limit : nat) (s : Pool.pool) : Prop :=
  match Pool.pc s with
  | Pool.AwaitRace r =>
      (r < Pool.races s)%nat
      /\ (forall r', (r' < Pool.races s)%nat -> r' <> r -> r' ∈ Pool.won s)
      /\ Pool.waiting s = ∅
      /\ (resumes (Pool.jobs s) = 1%nat <-> r ∈ Pool.won s)
      /\ (r ∈ Pool.won s -> (size (Pool.executing s) < limit)%nat)
      /\ exists snapshot,
           Pool.executing s ⊆ snapshot
           /\ (size snapshot <= limit)%nat
           /\ Forall (race_within r snapshot) (Pool.jobs s)
           /\ map_Forall (fun _ l => Forall (race_within r snapshot) l) (Pool.reactions s)
  | Pool.AwaitAll =>
      Pool.tasks s = []
      /\ (forall r, (r < Pool.races s)%nat -> r ∈ Pool.won s)
      /\ Pool.running s ∪ Pool.queued s ∪ Pool.finished s ⊆ Pool.waiting s
      /\ (resumes (Pool.jobs s) = 1%nat <-> Pool.waiting s = ∅)
  | Pool.Returned =>
      Pool.tasks s = []
      /\ (forall r, (r < Pool.races s)%nat -> r ∈ Pool.won s)
      /\ Pool.waiting s = ∅
      /\ resumes (Pool.jobs s) = 0%nat
      /\ Pool.running s = ∅ /\ Pool.queued s = ∅ /\ Pool.finished s = ∅
  end.

Definition pool_invariant (limit n : nat) (s : Pool.pool) : Prop :=
  pool_base limit n s /\ pool_control limit s.

(** What holds when the runner is at the head of its loop with the
    tasks [ts] ahead. *)
Definition pool_at_loop (limit n : nat) (ts : list nat) (s : Pool.pool) : Prop :=
  pool_base limit n (Pool.set_tasks ts s)
  /\ (size (Pool.executing s) < limit)%nat
  /\ (forall r, (r < Pool.races s)%nat -> r ∈ Pool.won s)
  /\ Pool.waiting s = ∅
  /\ resumes (Pool.jobs s) = 0%nat.

(** Two states that differ at most in the queue and in the reactions. *)
Definition same_sets (s s' : Pool.pool) : Prop :=
  Pool.pc s' = Pool.pc s /\ Pool.tasks s' = Pool.tasks s
  /\ Pool.executing s' = Pool.executing s /\ Pool.queued s' = Pool.queued s
  /\ Pool.running s' = Pool.running s /\ Pool.finished s' = Pool.finished s
  /\ Pool.settled s' = Pool.settled s /\ Pool.won s' = Pool.won s
  /\ Pool.waiting s' = Pool.waiting s /\ Pool.races s' = Pool.races s.

(** The limit each script passes to [runWithConcurrency]: the script
    that calls [task()] and the one that calls
    [Promise.resolve().then(task)]. *)
Definition pool_limit (fl : Pool.flavour) : nat :=
  match fl with
  | Pool.Direct => PoolWorker.CONCURRENCY
  | Pool.Deferred => Worker.CONCURRENCY
  end.

(** A run over one task: its probe ends, its promise is fulfilled, and
    the three jobs that follow ([Delete], [All], [Resume]) are run. *)
Definition one_task_fulfilled : Pool.pool :=
  Pool.fulfil 0 (Pool.finish 0 (Pool.start Pool.Direct 3 1)).
Definition one_task_returned : Pool.pool :=
  Pool.next Pool.Direct 3 (Pool.next Pool.Direct 3 (Pool.next Pool.Direct 3 one_task_fulfilled)).

(** ** The URL list: [parseUrls], the same function in the three
    checker scripts

    A string is the sequence of its UTF-16 code units. *)

Module Urls.

(** The code units that [trim] strips: [WhiteSpace] and
    [LineTerminator]. *)
Definition is_space (u : Z) : bool :=
  (u =? 0x9) || (u =? 0xA) || (u =? 0xB) || (u =? 0xC) || (u =? 0xD)
  || (u =? 0x20) || (u =? 0xA0) || (u =? 0x1680)
  || ((0x2000 <=? u) && (u <=? 0x200A))
  || (u =? 0x2028) || (u =? 0x2029) || (u =? 0x202F) || (u =? 0x205F)
  || (u =? 0x3000) || (u =? 0xFEFF).

Fixpoint trimStart (s : Codec.text) : Codec.text :=
  match s with
  | u :: r => if is_space u then trimStart r else s
  | [] => []
  end.

Definition trimEnd (s : Codec.text) : Codec.text := rev (trimStart (rev s)).

Definition trim (s : Codec.text) : Codec.text := trimEnd (trimStart s).

(** [str.split(/\r?\n/)]: a line ends at a line feed, or at a carriage
    return that a line feed follows; what is left after the last one
    is a line too. *)
Fixpoint split (s : Codec.text) : list Codec.text :=
  match s with
  | [] => [[]]
  | u :: r =>
      if u =? 10 then [] :: split r
      else
        match r with
        | l :: r' =>
            if (u =? 13) && (l =? 10) then [] :: split r'
            else
              match split r with
              | line :: lines => (u :: line) :: lines
              | [] => [[u]]
              end
        | [] => [[u]]
        end
  end.

(** [line.startsWith('#')] *)
Definition startsWith_hash (line : Codec.text) : bool :=
  match line with
  | u :: _ => u =? 0x23
  | [] => false
  end.

(** [line && !line.startsWith('#')] *)
Definition kept (line : Codec.text) : bool :=
  match line with
  | [] => false
  | _ :: _ => negb (startsWith_hash line)
  end.

Definition parseUrls (urlString : Codec.text) : list Codec.text :=
  List.filter kept (map trim (split urlString)).

End Urls.

(** ** Reading the URL list *)

(** [lines.join(sep)] *)
Fixpoint join (sep : Codec.text) (lines : list Codec.text) : Codec.text :=
  match lines with
  | [] => []
  | [line] => line
  | line :: rest => (line ++ sep ++ join sep rest)%list
  end.

Definition LF : Codec.text := [10].
Definition CRLF : Codec.text := [13; 10].

(** A line: a text without a line feed. *)
Definition one_line (line : Codec.text) : Prop := 10 ∉ line.

(** A line as [parseUrls] returns it: not empty, no white space at
    either end, no [#] in front, no line feed inside. *)
Definition clean_line (line : Codec.text) : Prop :=
  line <> []
  /\ Urls.is_space (hd 0 line) = false
  /\ Urls.is_space (List.last line 0) = false
  /\ hd 0 line <> 0x23
  /\ one_line line.

(** A line without the carriage return that may end it. *)
Fixpoint without_cr (line : Codec.text) : Codec.text :=
  match line with
  | [] => []
  | [u] => if u =? 13 then [] else [u]
  | u :: r => u :: without_cr r
  end.

(** ** The timestamp section of the deploy receiver:
    [updateTimestampSection] and its helpers

    The two [Date] objects are given by the fields their getters
    return. *)

Module Timestamp.

(** A string constant of the source, as UTF-16 code units. *)
Definition literal (s : string) : Codec.text :=
  concat (map Codec.utf16_units
            (Codec.utf8_run Codec.utf8_start
               (map Codec.code (String.list_ascii_of_string s)))).

Record Date := {
  getFullYear : Z;
  getMonth : Z;
  getDate : Z;
  getHours : Z;
  getMinutes : Z;
  getSeconds : Z
}.

(** [String(n)] for an integer [n]. *)
Fixpoint digits (u : Decimal.uint) : Codec.text :=
  match u with
  | Decimal.Nil => []
  | Decimal.D0 r => 48 :: digits r
  | Decimal.D1 r => 49 :: digits r
  | Decimal.D2 r => 50 :: digits r
  | Decimal.D3 r => 51 :: digits r
  | Decimal.D4 r => 52 :: digits r
  | Decimal.D5 r => 53 :: digits r
  | Decimal.D6 r => 54 :: digits r
  | Decimal.D7 r => 55 :: digits r
  | Decimal.D8 r => 56 :: digits r
  | Decimal.D9 r => 57 :: digits r
  end.

Definition String_of (n : Z) : Codec.text :=
  match Z.to_int n with
  | Decimal.Pos u => digits u
  | Decimal.Neg u => 45 :: digits u
  end.

(** [str.padStart(2, "0")] *)
Definition padStart_2_0 (s : Codec.text) : Codec.text :=
  (replicate (2 - length s) 48 ++ s)%list.

Definition pad (n : Z) : Codec.text := padStart_2_0 (String_of n).

Definition fmt (d : Date) : Codec.text :=
  (String_of (getFullYear d) ++ literal "-" ++ pad (getMonth d + 1) ++ literal "-"
   ++ pad (getDate d) ++ literal " "
   ++ pad (getHours d) ++ literal ":" ++ pad (getMinutes d) ++ literal ":"
   ++ pad (getSeconds d))%list.

Definition section (utc bj : Date) : Codec.text :=
  ([10] ++ literal "## 🕒 最后更新时间" ++ [10]
   ++ [10]
   ++ literal "**UTC**: `" ++ fmt utc ++ literal "`  " ++ [10]
   ++ literal "**北京时间**: `" ++ fmt bj ++ literal "`  " ++ [10]
   ++ [10]
   ++ literal "> ⚡ 此时间戳由 Cloudflare Workers 自动更新" ++ [10])%list.

(** The pieces of [reg]: the heading it begins with, and the two texts
    its lookahead accepts besides the end of the input. *)
Definition reg_heading : Codec.text := literal "## 🕒 最后更新时间".
Definition reg_next2 : Codec.text := 10 :: literal "## ".
Definition reg_next1 : Codec.text := 10 :: literal "# ".

Fixpoint startsWith (p s : Codec.text) : bool :=
  match p, s with
  | [], _ => true
  | a :: p', b :: s' => (a =? b) && startsWith p' s'
  | _ :: _, [] => false
  end.

(** The leftmost place where [p] occurs in [s]: what is before it and
    what is after it. *)
Fixpoint search (p s : Codec.text) : option (Codec.text * Codec.text) :=
  if startsWith p s then Some ([], drop (length p) s)
  else
    match s with
    | [] => None
    | u :: r =>
        match search p r with
        | Some (before, after) => Some (u :: before, after)
        | None => None
        end
    end.

(** [(?=\n## |\n# |$)] at the head of [s]. *)
Definition lookahead (s : Codec.text) : bool :=
  startsWith reg_next2 s || startsWith reg_next1 s
  || match s with [] => true | _ :: _ => false end.

(** [[\s\S]*?] before the lookahead: the shortest text after which the
    lookahead holds, and what follows it. *)
Fixpoint shortest (s : Codec.text) : Codec.text * Codec.text :=
  if lookahead s then ([], s)
  else
    match s with
    | [] => ([], [])
    | u :: r => let '(body, rest) := shortest r in (u :: body, rest)
    end.

(** [reg.test(content)] *)
Definition reg_test (content : Codec.text) : bool :=
  match search reg_heading content with
  | Some _ => true
  | None => false
  end.

(** [content.replace(reg, replacement)] for a [replacement] without
    [$]. *)
Definition replace_reg (content replacement : Codec.text) : Codec.text :=
  match search reg_heading content with
  | Some (before, after) => (before ++ replacement ++ snd (shortest after))%list
  | None => content
  end.

Definition updateTimestampSection (utc bj : Date) (content : Codec.text) : Codec.text :=
  if reg_test content then replace_reg content (Urls.trim (section utc bj))
  else (Urls.trimEnd content ++ [10] ++ section utc bj)%list.

End Timestamp.

(** ** Reading the timestamp section *)

(** Every line feed of [x] is followed, within [x], by a code unit
    other than [#]: no heading begins in [x]. *)
Fixpoint quiet (x : Codec.text) : bool :=
  match x with
  | [] => true
  | u :: r =>
      (negb (u =? 10) || match r with v :: _ => negb (v =? 35) | [] => false end)
      && quiet r
  end.

(** The characters [fmt] writes: digits, [-], [:], the space. *)
Definition fmt_unit (u : Z) : Prop := u = 32 \/ u = 45 \/ 48 <= u <= 58.

(** What [section] holds between the heading and the line feed that
    ends it. *)
Definition section_body (utc bj : Timestamp.Date) : Codec.text :=
  ([10; 10]
   ++ Timestamp.literal "**UTC**: `" ++ Timestamp.fmt utc ++ Timestamp.literal "`  " ++ [10]
   ++ Timestamp.literal "**北京时间**: `" ++ Timestamp.fmt bj ++ Timestamp.literal "`  "
   ++ [10; 10]
   ++ Timestamp.literal "> ⚡ 此时间戳由 Cloudflare Workers 自动更新")%list.

(** [section.trim()] *)
Definition section_text (utc bj : Timestamp.Date) : Codec.text :=
  (Timestamp.reg_heading ++ section_body utc bj)%list.

(** Two readings of the clock, and a README with a section and a
    heading after it. *)
Definition sample_noon : Timestamp.Date :=
  {| Timestamp.getFullYear := 2026; Timestamp.getMonth := 0; Timestamp.getDate := 5;
     Timestamp.getHours := 12; Timestamp.getMinutes := 0; Timestamp.getSeconds := 9 |}.
Definition sample_evening : Timestamp.Date :=
  {| Timestamp.getFullYear := 2026; Timestamp.getMonth := 0; Timestamp.getDate := 5;
     Timestamp.getHours := 20; Timestamp.getMinutes := 0; Timestamp.getSeconds := 9 |}.
Definition sample_readme : Codec.text :=
  (Timestamp.literal "# Title" ++ [10; 10] ++ Timestamp.reg_heading
   ++ Timestamp.literal " old" ++ [10] ++ Timestamp.literal "## Next" ++ [10])%list.

(** A number below 100 in two decimal digits, a number below 10000 in
    four. *)
Definition two_digits (n : Z) : Codec.text := [48 + n / 10; 48 + n mod 10].
Definition four_digits (n : Z) : Codec.text :=
  [48 + n / 1000; 48 + n / 100 mod 10; 48 + n / 10 mod 10; 48 + n mod 10].

(** The values [pad] and [String] meet in a date, checked one by one. *)
Definition pad_checks (i : nat) : bool :=
  bool_decide (Timestamp.pad (Z.of_nat i) = two_digits (Z.of_nat i)).
Definition year_checks (i : nat) : bool :=
  bool_decide (Timestamp.String_of (Z.of_nat i) = four_digits (Z.of_nat i)).

(** The fields of a date of the years 1000 to 9999. *)
Definition calendar_date (d : Timestamp.Date) : Prop :=
  1000 <= Timestamp.getFullYear d <= 9999
  /\ 0 <= Timestamp.getMonth d <= 11
  /\ 1 <= Timestamp.getDate d <= 31
  /\ 0 <= Timestamp.getHours d <= 23
  /\ 0 <= Timestamp.getMinutes d <= 59
  /\ 0 <= Timestamp.getSeconds d <= 59.
(** ** Reading a probe under any network *)

(** [response.ok] of an outcome; a request that does not complete has
    no response. *)
Definition succeeded (r : fetch_result) : bool :=
  match r with
  | Responded status _ => ok status
  | TimedOut | NetworkFailure => false
  end.

(** The failed outcomes after which src/keepUpCheck_worker.js and the
    script with the KV flag go to their retry test: whatever is thrown,
    and a status from 500 to 599. *)
Definition transient (r : fetch_result) : bool :=
  match r with
  | Responded status _ => (500 <=? status) && (status <? 600)
  | TimedOut | NetworkFailure => true
  end.

(** The same for the script with the task pool, which tests
    [status >= 500] alone. *)
Definition pool_transient (r : fetch_result) : bool :=
  match r with
  | Responded status _ => 500 <=? status
  | TimedOut | NetworkFailure => true
  end.

(** [count] attempts that are each followed by a pause and another
    attempt, the first of them being attempt number [first]. *)
Fixpoint retried (delay : Z) (first count : nat) : list probe_event :=
  match count with
  | O => []
  | S c => Attempt :: Backoff (delay * 2 ^ Z.of_nat first) :: retried delay (S first) c
  end.

(** What a probe shows when [count] attempts are retried and the one
    after them meets the outcome [r]. *)
Definition probe_shape (delay : Z) (count : nat) (r : fetch_result) : list probe_event :=
  (retried delay 1 count ++ Attempt :: (if succeeded r then [] else [FinalFailure]))%list.

(** The time spent in pauses when [count] attempts are retried. *)
Fixpoint paused (delay : Z) (first count : nat) : Z :=
  match count with
  | O => 0
  | S c => delay * 2 ^ Z.of_nat first + paused delay (S first) c
  end.

(** The outcome met by the attempt that follows [i] others in a probe
    started from the state [m]. *)
Definition met (net : nat -> http_request -> fetch_result) (m : machine)
    (url : string) (i : nat) : fetch_result :=
  net (sent m + i)%nat (probe_request url).

(** The trace of [count] retried attempts, and the state they leave:
    the pauses move the clock, each request is counted. *)
Fixpoint retried_trace (url : string) (delay : Z) (first count : nat) : list event :=
  match count with
  | O => []
  | S c =>
      EvFetch (probe_request url) :: EvSleep (delay * 2 ^ Z.of_nat first)
      :: retried_trace url delay (S first) c
  end.

Definition after_retries (delay : Z) (first count : nat) (m : machine) : machine :=
  {| kv := kv m; clock := clock m + paused delay first count;
     sent := (sent m + count)%nat |}.

(** The result of a probe whose handler is [final], when [count]
    attempts are retried and the next one meets [r]. *)
Definition probe_result (final : M unit) (url : string) (delay : Z) (first count : nat)
    (r : fetch_result) (m : machine) : outcome unit * machine * list event :=
  let m' := after_fetch (after_retries delay first count m) in
  let t := (retried_trace url delay first count ++ [EvFetch (probe_request url)])%list in
  if succeeded r then (Return tt, m', t) else preceded t (final m').

(** A probe that may retry [budget] attempts follows this course under
    the network [net]: [k] attempts meet an outcome that [again]
    accepts and are retried; the next one is the last, because the
    budget is spent or because of what it meets. The probe shows
    [k + 1] attempts with their pauses, calls the handler unless the
    last attempt succeeded, and is fulfilled. *)
Definition follows_course (again : fetch_result -> bool) (delay : Z) (budget : nat)
    (net : nat -> http_request -> fetch_result) (url : string) (m : machine)
    (r : outcome unit * machine * list event) : Prop :=
  exists k, (k <= budget)%nat
    /\ (forall i, (i < k)%nat ->
          succeeded (met net m url i) = false /\ again (met net m url i) = true)
    /\ (k = budget \/ succeeded (met net m url k) = true \/ again (met net m url k) = false)
    /\ probe_view url (trace_of r) = probe_shape delay k (met net m url k)
    /\ attempts url (trace_of r) = S k
    /\ clock (machine_of r) = clock m + paused delay 1 k
    /\ outcome_of r = Return tt.

(** The accesses to the store in a trace. *)
Definition kv_accesses (t : list event) : list event :=
  List.filter (fun e => match e with EvKvGet _ | EvKvPut _ _ _ => true | _ => false end) t.

(** The requests of a probe of [url]: some attempts, then at most one
    request to the deploy interface; [a] is the number of attempts. *)
Definition probes_then_trigger (env : Env) (url : string) (a : nat)
    (rqs : list http_request) : Prop :=
  rqs = replicate a (probe_request url)
  \/ (includes url "galaxy" = true
      /\ rqs = (replicate a (probe_request url) ++ [deploy_request env url])%list).

(** What a probe of the script with the KV flag leaves in the store:
    nothing, or the flag, written once after a request to the deploy
    interface that was answered with a 2xx status. *)
Definition flag_written_on_success (net : nat -> http_request -> fetch_result)
    (env : Env) (url : string) (m : machine)
    (r : outcome unit * machine * list event) : Prop :=
  (puts (trace_of r) = [] /\ kv (machine_of r) = kv m)
  \/ (puts (trace_of r) = [("flag", "deployed", 10800)]
      /\ kv (machine_of r)
         = <["flag" := ("deployed", clock (machine_of r) + 10800000)]> (kv m)
      /\ exists a,
           fetches (trace_of r)
           = (replicate a (probe_request url) ++ [deploy_request env url])%list
           /\ succeeded (net (sent m + a)%nat (deploy_request env url)) = true).
(** ** Reading the receiver under any network *)








(** Bindings in which [DEPLOY_TOKEN] is not set. *)
Definition secretless_denv : Deploy.DeployEnv :=
  {| Deploy.DEPLOY_TOKEN := None;
     Deploy.GITHUB_TOKEN := Some "ghp_token";
     Deploy.GH_BRANCH := Some "main";
     Deploy.GH_CONTENT_API_URL := Some "https://api.github.test/contents/README.md" |}.
(** ** Reading the encoding helpers on any text *)

(** [str.toWellFormed()]: every unpaired surrogate becomes U+FFFD. *)
Fixpoint toWellFormed (s : Codec.text) : Codec.text :=
  match s with
  | [] => []
  | u :: r =>
      if Codec.is_lead u then
        match r with
        | l :: r' =>
            if Codec.is_trail l then u :: l :: toWellFormed r'
            else 0xFFFD :: toWellFormed r
        | [] => [0xFFFD]
        end
      else if Codec.is_trail u then 0xFFFD :: toWellFormed r
      else u :: toWellFormed r
  end.

(** A JavaScript string: each code unit is a 16-bit value. *)
Definition code_units (s : Codec.text) : Prop :=
  Forall (fun u => Codec.is_unit u = true) s.

(** The characters of a string. *)
Definition chars (s : string) : list ascii := String.list_ascii_of_string s.

(** [w] is [e] with ASCII white space (tab, line feed, form feed,
    carriage return, space) put in at any place. *)
Definition spaced (w e : string) : Prop :=
  List.filter (fun c => negb (Codec.is_whitespace c)) (chars w) = chars e.

(** A digit of the base64 alphabet, or the padding character. *)
Definition base64_symbol (c : ascii) : Prop :=
  is_Some (Codec.sextet c) \/ c = "="%char.

(** A text with an unpaired surrogate, and the base64 text of ["Hi"]
    broken into two lines. *)
Definition broken_text : Codec.text := [72; 0xD83D; 105].
Definition line_feed : string := String (ascii_of_nat 10) EmptyString.
Definition wrapped_base64 : string := "SG" +:+ line_feed +:+ "k=" +:+ line_feed.
(** ** Reading the pool further *)

(** The tasks are taken in the order of the list: those the loop has
    not taken are the tasks from number [k] on, and the tasks before
    [k] are those that have a promise, in the set or settled. *)
Definition taken_in_order (n : nat) (s : Pool.pool) : Prop :=
  exists k, (k <= n)%nat
    /\ Pool.tasks s = seq k (n - k)
    /\ forall i, i ∈ Pool.executing s ∪ Pool.settled s <-> (i < k)%nat.

(** The job [j] is still to come for the promise [p]: it is in the
    queue, or it is a reaction of [p], which is in the set and
    pending. *)
Definition awaited (s : Pool.pool) (j : Pool.job) (p : nat) : Prop :=
  j ∈ Pool.jobs s
  \/ (p ∈ Pool.executing s /\ p ∉ Pool.settled s /\ j ∈ Pool.reactions s !!! p).

(** What keeps the runner from waiting for ever: a task that was
    deferred has its job in the queue, a pending promise of the set
    belongs to a task that has not ended or not settled yet, and the
    promise the runner waits for has its reaction to come. *)
Record pool_live (s : Pool.pool) : Prop := {
  live_queued : forall p, p ∈ Pool.queued s -> Pool.Enter p ∈ Pool.jobs s;
  live_pending : forall p, p ∈ Pool.executing s -> p ∉ Pool.settled s ->
                 p ∈ Pool.queued s ∪ Pool.running s ∪ Pool.finished s;
  live_race : forall r, Pool.pc s = Pool.AwaitRace r -> r ∉ Pool.won s ->
              exists p, awaited s (Pool.Race r p) p;
  live_all : Pool.pc s = Pool.AwaitAll ->
             forall p, p ∈ Pool.waiting s -> awaited s (Pool.All p) p
}.

(** The part of it that holds at the head of the loop. *)
Definition live_at_loop (s : Pool.pool) : Prop :=
  (forall p, p ∈ Pool.queued s -> Pool.Enter p ∈ Pool.jobs s)
  /\ (forall p, p ∈ Pool.executing s -> p ∉ Pool.settled s ->
               p ∈ Pool.queued s ∪ Pool.running s ∪ Pool.finished s).

(** A measure of what a run has still to do: the jobs in the queue and
    the reactions registered, the tasks in their stages, the races not
    yet won, the promises [allSettled] waits for, and what the runner
    itself will add when it resumes. *)
Definition reactions_weight (m : gmap nat (list Pool.job)) : nat :=
  map_fold (fun _ l acc => (length l + acc)%nat) 0%nat m.

Definition load (s : Pool.pool) : nat :=
  (2 * size (Pool.queued s) + 2 * size (Pool.running s) + size (Pool.finished s)
   + length (Pool.jobs s) + reactions_weight (Pool.reactions s)
   + (Pool.races s - size (Pool.won s)) + size (Pool.waiting s))%nat.

Definition potential (limit : nat) (s : Pool.pool) : nat :=
  (load s + (limit + 5) * length (Pool.tasks s)
   + match Pool.pc s with
     | Pool.AwaitRace _ => 2 * limit + 2
     | Pool.AwaitAll | Pool.Returned => 0
     end)%nat.

(** A run of [k] steps of the pool. *)
Inductive run_of (fl : Pool.flavour) (limit : nat) : nat -> Pool.pool -> Pool.pool -> Prop :=
| run_stop s : run_of fl limit 0 s s
| run_more k s s' s'' :
    Pool.step fl limit s s' -> run_of fl limit k s' s'' -> run_of fl limit (S k) s s''.

(** The longest a call with [n] tasks can run, in steps. *)
Definition longest_run (limit n : nat) : nat :=
  ((Nat.max 1 limit + 5) * n + 2 * Nat.max 1 limit + 2)%nat.
(** ** Reading a run of [handleScheduled] *)

(** What probe [i] did, oldest first. *)
Definition by_probe (i : nat) (p : nat * Tick.note) : option Tick.note :=
  if decide (p.1 = i) then Some p.2 else None.

Definition own (i : nat) (s : Tick.state) : list Tick.note :=
  omap (by_probe i) (Tick.notes s).

(** The requests to the deploy interface among the notes: the requests
    that are not probes, which are the [GET] requests. *)
Definition triggers (h : list Tick.note) : list http_request :=
  omap (fun n => match n with
                 | Tick.Sent rq =>
                     if String.eqb (rq_method rq) "GET" then None else Some rq
                 | _ => None
                 end) h.

(** The outcomes of these requests. *)
Definition replies (h : list Tick.note) : list fetch_result :=
  omap (fun n => match n with Tick.Replied r => Some r | _ => None end) h.

(** The writes to the store. *)
Definition writes (h : list Tick.note) : list (string * string * Z) :=
  omap (fun n => match n with Tick.Wrote k v ttl => Some (k, v, ttl) | _ => None end) h.

(** The handler read the flag and did not find ["deployed"]: the record
    was absent or expired, or held something else. *)
Definition read_no_flag (h : list Tick.note) : Prop :=
  exists v, Tick.Read "flag" v ∈ h /\ v <> Some "deployed".

(** All that was done in the run. *)
Definition all_notes (s : Tick.state) : list Tick.note := map snd (Tick.notes s).

(** A note of the attempts of a probe of [url]: a request to [url],
    its outcome, a timer. *)
Definition attempt_note (url : string) (n : Tick.note) : Prop :=
  match n with
  | Tick.Sent rq => rq = probe_request url
  | Tick.Got _ | Tick.Timer _ => True
  | _ => False
  end.

(** What the handler of a probe of [url] has done when the probe is at
    the stage [st]. *)
Definition handler_notes (env : Env) (url : string) (st : Tick.stage)
    (t : list Tick.note) : Prop :=
  match st with
  | Tick.Attempt _ | Tick.Pause _ _ => t = []
  | Tick.ReadFlag => t = [Tick.Called url] /\ includes url "galaxy" = true
  | Tick.Trigger =>
      exists v,
        t = [Tick.Called url; Tick.Read "flag" v; Tick.Sent (deploy_request env url)]
        /\ v <> Some "deployed" /\ includes url "galaxy" = true
  | Tick.WriteFlag =>
      exists v r,
        t = [Tick.Called url; Tick.Read "flag" v; Tick.Sent (deploy_request env url);
             Tick.Replied r]
        /\ v <> Some "deployed" /\ includes url "galaxy" = true /\ succeeded r = true
  | Tick.Fulfilled =>
      t = []
      \/ t = [Tick.Called url]
      \/ t = [Tick.Called url; Tick.Read "flag" (Some "deployed")]
      \/ (exists v r,
            t = [Tick.Called url; Tick.Read "flag" v; Tick.Sent (deploy_request env url);
                 Tick.Replied r]
            /\ v <> Some "deployed" /\ includes url "galaxy" = true
            /\ succeeded r = false)
      \/ (exists v r,
            t = [Tick.Called url; Tick.Read "flag" v; Tick.Sent (deploy_request env url);
                 Tick.Replied r; Tick.Wrote "flag" "deployed" 10800]
            /\ v <> Some "deployed" /\ includes url "galaxy" = true
            /\ succeeded r = true)
  end.

(** The notes of a probe: its attempts, then its handler. *)
Definition probe_history (env : Env) (url : string) (st : Tick.stage)
    (h : list Tick.note) : Prop :=
  exists pre t,
    h = (pre ++ t)%list /\ Forall (attempt_note url) pre /\ handler_notes env url st t.

(** What holds in every state of a run over [urls] begun in [m]. *)
Record tick_invariant (env : Env) (urls : list string) (m : machine)
    (s : Tick.state) : Prop := {
  tick_probes : map fst (Tick.probes s) = urls;
  tick_history : forall i url st,
      Tick.probes s !! i = Some (url, st) -> probe_history env url st (own i s);
  tick_others : forall i, Tick.probes s !! i = None -> own i s = [];
  tick_clock : clock m <= clock (Tick.mach s);
  tick_store :
      (writes (all_notes s) = [] /\ kv (Tick.mach s) = kv m)
      \/ (writes (all_notes s) <> []
          /\ exists t, clock m <= t <= clock (Tick.mach s)
               /\ kv (Tick.mach s) = <["flag" := ("deployed", t + 10800000)]> (kv m))
}.

(** The URLs of the list that contain [galaxy]. *)
Definition matching (urls : list string) : list string :=
  List.filter (fun url => includes url "galaxy") urls.

(** Whether a probe may still send the deploy request: its URL
    contains [galaxy] and it is at its attempts, or its handler is
    about to read the flag. *)
Definition to_come (p : string * Tick.stage) : nat :=
  match p.2 with
  | Tick.Attempt _ | Tick.Pause _ _ => if includes p.1 "galaxy" then 1 else 0
  | Tick.ReadFlag => 1
  | Tick.Trigger | Tick.WriteFlag | Tick.Fulfilled => 0
  end.

(** Two endpoints that match, the outcome [404] and an answer [500] of
    the deploy interface. *)
Definition mirror_url : string := "https://mirror.galaxy.test/".
Definition not_found : fetch_result := Responded 404 None.
Definition refused : fetch_result := Responded 500 None.

(** The probes go on in the order of [inputs]. *)
Definition run_of_inputs (env : Env) (inputs : list (nat * Tick.input)) (s : Tick.state)
  : option Tick.state :=
  foldl (fun acc p => match acc with
                      | Some s' => Tick.resume env p.1 p.2 s'
                      | None => None
                      end) (Some s) inputs.

(** A run over the two endpoints in which each probe is answered 404
    and its handler reads the flag before any answer of the deploy
    interface is there; and one in which the deploy interface has
    answered the first handler with 500 before the second probe
    fails. *)
Definition two_failures : list (nat * Tick.input) :=
  [(0%nat, Tick.Outcome not_found); (0%nat, Tick.Due);
   (1%nat, Tick.Outcome not_found); (1%nat, Tick.Due)].

Definition failure_after_refusal : list (nat * Tick.input) :=
  [(0%nat, Tick.Outcome not_found); (0%nat, Tick.Due); (0%nat, Tick.Outcome refused);
   (1%nat, Tick.Outcome not_found); (1%nat, Tick.Due)].

Definition state_after (inputs : list (nat * Tick.input)) : Tick.state :=
  default (Tick.start [galaxy_url; mirror_url] fresh_machine)
    (run_of_inputs sample_env inputs (Tick.start [galaxy_url; mirror_url] fresh_machine)).

(** * Properties *)

(** ** The probe and its retries *)

Lemma probe_view_app url t1 t2 :
  probe_view url (t1 ++ t2) = (probe_view url t1 ++ probe_view url t2)%list.
Proof. unfold probe_view. apply omap_app. Qed.

Lemma is_probe_request url : is_probe url (probe_request url) = true.
Proof.
  unfold is_probe, probe_request. simpl. apply String.eqb_refl.
Qed.

Lemma is_probe_deploy url env url' : is_probe url (deploy_request env url') = false.
Proof. reflexivity. Qed.

Lemma retryable_not_ok status : 500 <= status <= 599 -> ok status = false.
Proof. intros H. unfold ok. apply andb_false_iff. right. apply Z.leb_gt. lia. Qed.

Lemma preceded_trace {A} t (r : outcome A * machine * list event) :
  trace_of (preceded t r) = (t ++ trace_of r)%list.
Proof. reflexivity. Qed.

(** What the three [handleFinalFailure] show to [probe_view]: the call. *)
Lemma Worker_final_view net url env m :
  probe_view url (trace_of (Worker.handleFinalFailure net url env m)) = [FinalFailure].
Proof.
  unfold Worker.handleFinalFailure, bind, try_catch, mark, fetch, ret, trace_of.
  destruct (_ || _); simpl; [done|].
  destruct (net _ _) as [st p| |]; simpl; [destruct (negb (ok st))|..]; reflexivity.
Qed.

Lemma KvWorker_final_view net url env m :
  probe_view url (trace_of (KvWorker.handleFinalFailure net url env m)) = [FinalFailure].
Proof.
  unfold KvWorker.handleFinalFailure, bind, try_catch, mark, fetch, kv_get, kv_put, ret, trace_of.
  destruct (_ || _); simpl; [done|].
  destruct (match kv_lookup m "flag" with Some _ => _ | None => _ end); simpl; [done|].
  destruct (net _ _) as [st p| |]; simpl; [destruct (negb (ok st))|..]; reflexivity.
Qed.

Lemma PoolWorker_final_view net url env m :
  probe_view url (trace_of (PoolWorker.handleFinalFailure net url env m)) = [FinalFailure].
Proof.
  unfold PoolWorker.handleFinalFailure, bind, try_catch, mark, fetch, ret, trace_of.
  destruct (negb _); simpl; [done|].
  destruct (net _ _) as [st p| |]; simpl; [destruct (negb (ok st))|..]; reflexivity.
Qed.

(** [handleFinalFailure] catches whatever is thrown in its body. *)
Lemma Worker_final_returns net url env m :
  outcome_of (Worker.handleFinalFailure net url env m) = Return tt.
Proof.
  unfold Worker.handleFinalFailure, bind, try_catch, mark, fetch, ret, outcome_of.
  destruct (_ || _); simpl; [done|].
  destruct (net _ _) as [st p| |]; simpl; [destruct (negb (ok st))|..]; reflexivity.
Qed.

Lemma KvWorker_final_returns net url env m :
  outcome_of (KvWorker.handleFinalFailure net url env m) = Return tt.
Proof.
  unfold KvWorker.handleFinalFailure, bind, try_catch, mark, fetch, kv_get, kv_put, ret, outcome_of.
  destruct (_ || _); simpl; [done|].
  destruct (match kv_lookup m "flag" with Some _ => _ | None => _ end); simpl; [done|].
  destruct (net _ _) as [st p| |]; simpl; [destruct (negb (ok st))|..]; reflexivity.
Qed.

Lemma PoolWorker_final_returns net url env m :
  outcome_of (PoolWorker.handleFinalFailure net url env m) = Return tt.
Proof.
  unfold PoolWorker.handleFinalFailure, bind, try_catch, mark, fetch, ret, outcome_of.
  destruct (negb _); simpl; [done|].
  destruct (net _ _) as [st p| |]; simpl; [destruct (negb (ok st))|..]; reflexivity.
Qed.

(** [await handleFinalFailure(url, env); return;] *)
Lemma then_return (c : M unit) m :
  outcome_of (c m) = Return tt ->
  bind c (fun _ => ret tt) m = c m.
Proof.
  unfold bind, ret, outcome_of. destruct (c m) as [[o m'] t]. simpl.
  intros ->. rewrite app_nil_r. reflexivity.
Qed.

(** Proof steps shared by the three scripts. *)
Ltac through_status st Hr :=
  rewrite (retryable_not_ok st Hr); simpl;
  try replace ((500 <=? st) && (st <? 600)) with true
    by (symmetry; apply andb_true_iff; split; [apply Z.leb_le|apply Z.ltb_lt]; lia);
  try replace (500 <=? st) with true by (symmetry; apply Z.leb_le; lia);
  unfold throw.

Ltac join_recursive_call :=
  unfold bind, sleep, preceded, after_sleep, after_fetch; simpl;
  match goal with
  | |- context [?f ?net ?env ?url ?k ?m] =>
      match type of (f net env url k) with
      | M unit => destruct (f net env url k m) as [[? ?] ?]; reflexivity
      end
  end.

Ltac join_final_call :=
  unfold preceded, after_fetch; simpl;
  match goal with
  | |- context [?f ?net ?url ?env ?m] =>
      match type of (f net url env) with
      | M unit => destruct (f net url env m) as [[? ?] ?]; reflexivity
      end
  end.

(** One failed attempt that is followed by another. *)
Lemma Worker_retry net env url retries m :
  retryable (net (sent m) (probe_request url)) ->
  (retries <= Worker.MAX_RETRIES)%nat ->
  Worker.fetchWithTimeout net env url retries m =
  preceded [EvFetch (probe_request url);
            EvSleep (Worker.RETRY_DELAY * 2 ^ Z.of_nat retries)]
    (Worker.fetchWithTimeout net env url (retries + 1)
       (after_sleep (Worker.RETRY_DELAY * 2 ^ Z.of_nat retries) (after_fetch m))).
Proof.
  intros Hr Hle. rewrite Worker.fetchWithTimeout_equation_1.
  unfold try_catch at 1, bind at 1, fetch at 1.
  destruct (net (sent m) (probe_request url)) as [st p| |]; simpl in Hr |- *;
    [through_status st Hr|..];
    (destruct (le_dec retries Worker.MAX_RETRIES); [|lia]);
    join_recursive_call.
Qed.

Lemma KvWorker_retry net env url retries m :
  retryable (net (sent m) (probe_request url)) ->
  (retries <= KvWorker.MAX_RETRIES)%nat ->
  KvWorker.fetchWithTimeout net env url retries m =
  preceded [EvFetch (probe_request url);
            EvSleep (KvWorker.RETRY_DELAY * 2 ^ Z.of_nat retries)]
    (KvWorker.fetchWithTimeout net env url (retries + 1)
       (after_sleep (KvWorker.RETRY_DELAY * 2 ^ Z.of_nat retries) (after_fetch m))).
Proof.
  intros Hr Hle. rewrite KvWorker.fetchWithTimeout_equation_1.
  unfold try_catch at 1, bind at 1, fetch at 1.
  destruct (net (sent m) (probe_request url)) as [st p| |]; simpl in Hr |- *;
    [through_status st Hr|..];
    (destruct (le_dec retries KvWorker.MAX_RETRIES); [|lia]);
    join_recursive_call.
Qed.

Lemma PoolWorker_retry net env url attempt m :
  retryable (net (sent m) (probe_request url)) ->
  (attempt < PoolWorker.MAX_ATTEMPT)%nat ->
  PoolWorker.fetchWithTimeout net env url attempt m =
  preceded [EvFetch (probe_request url);
            EvSleep (PoolWorker.RETRY_DELAY * 2 ^ Z.of_nat attempt)]
    (PoolWorker.fetchWithTimeout net env url (attempt + 1)
       (after_sleep (PoolWorker.RETRY_DELAY * 2 ^ Z.of_nat attempt) (after_fetch m))).
Proof.
  intros Hr Hlt. rewrite PoolWorker.fetchWithTimeout_equation_1.
  unfold try_catch at 1, bind at 1, fetch at 1.
  destruct (net (sent m) (probe_request url)) as [st p| |]; simpl in Hr |- *;
    [through_status st Hr|..];
    (destruct (lt_dec attempt PoolWorker.MAX_ATTEMPT); [|lia]);
    join_recursive_call.
Qed.

(** The failed attempt that exhausts the budget. *)
Lemma Worker_give_up net env url retries m :
  retryable (net (sent m) (probe_request url)) ->
  (Worker.MAX_RETRIES < retries)%nat ->
  Worker.fetchWithTimeout net env url retries m =
  preceded [EvFetch (probe_request url)]
    (Worker.handleFinalFailure net url env (after_fetch m)).
Proof.
  intros Hr Hlt. rewrite Worker.fetchWithTimeout_equation_1.
  unfold try_catch at 1, bind at 1, fetch at 1.
  destruct (net (sent m) (probe_request url)) as [st p| |]; simpl in Hr |- *;
    [through_status st Hr|..];
    (destruct (le_dec retries Worker.MAX_RETRIES); [lia|]);
    join_final_call.
Qed.

Lemma KvWorker_give_up net env url retries m :
  retryable (net (sent m) (probe_request url)) ->
  (KvWorker.MAX_RETRIES < retries)%nat ->
  KvWorker.fetchWithTimeout net env url retries m =
  preceded [EvFetch (probe_request url)]
    (KvWorker.handleFinalFailure net url env (after_fetch m)).
Proof.
  intros Hr Hlt. rewrite KvWorker.fetchWithTimeout_equation_1.
  unfold try_catch at 1, bind at 1, fetch at 1.
  destruct (net (sent m) (probe_request url)) as [st p| |]; simpl in Hr |- *;
    [through_status st Hr|..];
    (destruct (le_dec retries KvWorker.MAX_RETRIES); [lia|]);
    join_final_call.
Qed.

Lemma PoolWorker_give_up net env url attempt m :
  retryable (net (sent m) (probe_request url)) ->
  (PoolWorker.MAX_ATTEMPT <= attempt)%nat ->
  PoolWorker.fetchWithTimeout net env url attempt m =
  preceded [EvFetch (probe_request url)]
    (PoolWorker.handleFinalFailure net url env (after_fetch m)).
Proof.
  intros Hr Hlt. rewrite PoolWorker.fetchWithTimeout_equation_1.
  unfold try_catch at 1, bind at 1, fetch at 1.
  destruct (net (sent m) (probe_request url)) as [st p| |]; simpl in Hr |- *;
    [through_status st Hr|..];
    (destruct (lt_dec attempt PoolWorker.MAX_ATTEMPT); [lia|]);
    join_final_call.
Qed.

Lemma view_attempt url t :
  probe_view url (EvFetch (probe_request url) :: t) = Attempt :: probe_view url t.
Proof. unfold probe_view. simpl. rewrite is_probe_request. reflexivity. Qed.

Lemma view_backoff url ms t :
  probe_view url (EvSleep ms :: t) = Backoff ms :: probe_view url t.
Proof. reflexivity. Qed.

Ltac view_of_preceded :=
  rewrite ?preceded_trace; simpl app;
  rewrite ?view_attempt, ?view_backoff.

(** C1, as amended. When every attempt meets a timeout, a transport
    failure or a 5xx status, the pool script ([attempt < MAX_ATTEMPT])
    makes exactly [MAX_ATTEMPT] = 3 attempts, and the two scripts that
    test [retries <= MAX_RETRIES] make exactly [MAX_RETRIES + 1] = 4:
    the first attempt and three retries. After the failed attempt number
    [k] the probe sleeps [RETRY_DELAY * 2^k], and after the last one
    [handleFinalFailure] is called, once. *)
Theorem retries_then_final_failure net env url m :
  (forall n, retryable (net n (probe_request url))) ->
  probe_view url (trace_of (PoolWorker.fetchWithTimeout net env url 1 m)) =
    [Attempt; Backoff (PoolWorker.RETRY_DELAY * 2 ^ 1);
     Attempt; Backoff (PoolWorker.RETRY_DELAY * 2 ^ 2);
     Attempt; FinalFailure]
  /\ attempts url (trace_of (PoolWorker.fetchWithTimeout net env url 1 m))
     = PoolWorker.MAX_ATTEMPT
  /\ probe_view url (trace_of (Worker.fetchWithTimeout net env url 1 m)) =
    [Attempt; Backoff (Worker.RETRY_DELAY * 2 ^ 1);
     Attempt; Backoff (Worker.RETRY_DELAY * 2 ^ 2);
     Attempt; Backoff (Worker.RETRY_DELAY * 2 ^ 3);
     Attempt; FinalFailure]
  /\ attempts url (trace_of (Worker.fetchWithTimeout net env url 1 m))
     = S Worker.MAX_RETRIES
  /\ probe_view url (trace_of (KvWorker.fetchWithTimeout net env url 1 m)) =
    [Attempt; Backoff (KvWorker.RETRY_DELAY * 2 ^ 1);
     Attempt; Backoff (KvWorker.RETRY_DELAY * 2 ^ 2);
     Attempt; Backoff (KvWorker.RETRY_DELAY * 2 ^ 3);
     Attempt; FinalFailure]
  /\ attempts url (trace_of (KvWorker.fetchWithTimeout net env url 1 m))
     = S KvWorker.MAX_RETRIES.
Proof.
  intros Hnet.
  assert (HC : probe_view url (trace_of (PoolWorker.fetchWithTimeout net env url 1 m)) =
    [Attempt; Backoff (PoolWorker.RETRY_DELAY * 2 ^ 1);
     Attempt; Backoff (PoolWorker.RETRY_DELAY * 2 ^ 2);
     Attempt; FinalFailure]).
  { rewrite PoolWorker_retry by (auto; unfold PoolWorker.MAX_ATTEMPT; lia).
    view_of_preceded.
    rewrite PoolWorker_retry by (auto; unfold PoolWorker.MAX_ATTEMPT; lia).
    view_of_preceded.
    rewrite PoolWorker_give_up by (auto; unfold PoolWorker.MAX_ATTEMPT; lia).
    view_of_preceded. rewrite PoolWorker_final_view. reflexivity. }
  assert (HA : probe_view url (trace_of (Worker.fetchWithTimeout net env url 1 m)) =
    [Attempt; Backoff (Worker.RETRY_DELAY * 2 ^ 1);
     Attempt; Backoff (Worker.RETRY_DELAY * 2 ^ 2);
     Attempt; Backoff (Worker.RETRY_DELAY * 2 ^ 3);
     Attempt; FinalFailure]).
  { do 3 (rewrite Worker_retry by (auto; unfold Worker.MAX_RETRIES; lia);
          view_of_preceded).
    rewrite Worker_give_up by (auto; unfold Worker.MAX_RETRIES; lia).
    view_of_preceded. rewrite Worker_final_view. reflexivity. }
  assert (HB : probe_view url (trace_of (KvWorker.fetchWithTimeout net env url 1 m)) =
    [Attempt; Backoff (KvWorker.RETRY_DELAY * 2 ^ 1);
     Attempt; Backoff (KvWorker.RETRY_DELAY * 2 ^ 2);
     Attempt; Backoff (KvWorker.RETRY_DELAY * 2 ^ 3);
     Attempt; FinalFailure]).
  { do 3 (rewrite KvWorker_retry by (auto; unfold KvWorker.MAX_RETRIES; lia);
          view_of_preceded).
    rewrite KvWorker_give_up by (auto; unfold KvWorker.MAX_RETRIES; lia).
    view_of_preceded. rewrite KvWorker_final_view. reflexivity. }
  unfold attempts. rewrite HA, HB, HC. repeat split; reflexivity.
Qed.

Lemma retries_then_final_failure_witness :
  (forall n, retryable (always 503 n (probe_request down_url)))
  /\ attempts down_url
       (trace_of (PoolWorker.fetchWithTimeout (always 503) sample_env down_url 1 fresh_machine))
     = PoolWorker.MAX_ATTEMPT
  /\ attempts down_url
       (trace_of (Worker.fetchWithTimeout (always 503) sample_env down_url 1 fresh_machine))
     = S Worker.MAX_RETRIES.
Proof.
  assert (H : forall n, retryable (always 503 n (probe_request down_url)))
    by (intros n; simpl; lia).
  split; [exact H|].
  destruct (retries_then_final_failure (always 503) sample_env down_url fresh_machine H)
    as (_ & HC & _ & HA & _).
  split; [exact HC | exact HA].
Defined.

(** C1, as stated, fails on src/keepUpCheck_worker.js: against an
    endpoint that answers 503 to every attempt the probe makes four
    attempts, not [MAX_RETRIES] = 3. *)
Lemma worker_attempts_exceed_max_retries :
  (forall n, retryable (always 503 n (probe_request down_url)))
  /\ attempts down_url
       (trace_of (Worker.fetchWithTimeout (always 503) sample_env down_url 1 fresh_machine))
     = 4%nat
  /\ attempts down_url
       (trace_of (Worker.fetchWithTimeout (always 503) sample_env down_url 1 fresh_machine))
     <> Worker.MAX_RETRIES.
Proof.
  split; [intros n; simpl; lia|].
  split; [reflexivity|]. vm_compute. discriminate.
Qed.

(** A status that is neither 2xx nor 5xx ends the probe at once. *)
Lemma Worker_permanent net env url retries m :
  permanent (net (sent m) (probe_request url)) ->
  Worker.fetchWithTimeout net env url retries m =
  preceded [EvFetch (probe_request url)]
    (Worker.handleFinalFailure net url env (after_fetch m)).
Proof.
  intros Hp. rewrite Worker.fetchWithTimeout_equation_1.
  unfold try_catch at 1, bind at 1, fetch at 1.
  destruct (net (sent m) (probe_request url)) as [st p| |]; simpl in Hp |- *;
    [|contradiction..].
  destruct Hp as [Hok H5]. rewrite Hok. simpl.
  replace ((500 <=? st) && (st <? 600)) with false
    by (symmetry; apply andb_false_iff;
        destruct (Z.leb_spec 500 st); [right; apply Z.ltb_ge; lia | left; reflexivity]).
  rewrite then_return by apply Worker_final_returns.
  pose proof (Worker_final_returns net url env (after_fetch m)) as Ho.
  unfold preceded, after_fetch, outcome_of in *. simpl.
  destruct (Worker.handleFinalFailure _ _ _ _) as [[o m'] t].
  simpl in Ho. subst o. reflexivity.
Qed.

Lemma KvWorker_permanent net env url retries m :
  permanent (net (sent m) (probe_request url)) ->
  KvWorker.fetchWithTimeout net env url retries m =
  preceded [EvFetch (probe_request url)]
    (KvWorker.handleFinalFailure net url env (after_fetch m)).
Proof.
  intros Hp. rewrite KvWorker.fetchWithTimeout_equation_1.
  unfold try_catch at 1, bind at 1, fetch at 1.
  destruct (net (sent m) (probe_request url)) as [st p| |]; simpl in Hp |- *;
    [|contradiction..].
  destruct Hp as [Hok H5]. rewrite Hok. simpl.
  replace ((500 <=? st) && (st <? 600)) with false
    by (symmetry; apply andb_false_iff;
        destruct (Z.leb_spec 500 st); [right; apply Z.ltb_ge; lia | left; reflexivity]).
  rewrite then_return by apply KvWorker_final_returns.
  pose proof (KvWorker_final_returns net url env (after_fetch m)) as Ho.
  unfold preceded, after_fetch, outcome_of in *. simpl.
  destruct (KvWorker.handleFinalFailure _ _ _ _) as [[o m'] t].
  simpl in Ho. subst o. reflexivity.
Qed.

(** The two scripts that test [status >= 500 && status < 600] make one
    attempt when the status is neither 2xx nor 5xx, whatever it is. *)
Lemma permanent_status_single_attempt net env url m :
  permanent (net (sent m) (probe_request url)) ->
  probe_view url (trace_of (Worker.fetchWithTimeout net env url 1 m))
    = [Attempt; FinalFailure]
  /\ probe_view url (trace_of (KvWorker.fetchWithTimeout net env url 1 m))
    = [Attempt; FinalFailure].
Proof.
  intros Hp. split.
  - rewrite Worker_permanent by exact Hp. view_of_preceded.
    rewrite Worker_final_view. reflexivity.
  - rewrite KvWorker_permanent by exact Hp. view_of_preceded.
    rewrite KvWorker_final_view. reflexivity.
Qed.

(** The pool script tests [status >= 500] alone: below 500 it makes one
    attempt as well. *)
Lemma pool_status_below_500_single_attempt net env url m status payload :
  net (sent m) (probe_request url) = Responded status payload ->
  ok status = false -> status < 500 ->
  probe_view url (trace_of (PoolWorker.fetchWithTimeout net env url 1 m))
    = [Attempt; FinalFailure].
Proof.
  intros Hnet Hok Hlt. rewrite PoolWorker.fetchWithTimeout_equation_1.
  unfold try_catch at 1, bind at 1, fetch at 1. rewrite Hnet. simpl. rewrite Hok. simpl.
  replace (500 <=? status) with false by (symmetry; apply Z.leb_gt; lia).
  rewrite then_return by apply PoolWorker_final_returns.
  pose proof (PoolWorker_final_view net url env (after_fetch m)) as Hv.
  unfold after_fetch in Hv.
  pose proof (PoolWorker_final_returns net url env (after_fetch m)) as Ho.
  unfold after_fetch, outcome_of in Ho.
  destruct (PoolWorker.handleFinalFailure _ _ _ _) as [[o m'] t].
  simpl in Ho. subst o.
  unfold trace_of in *. simpl in *. rewrite is_probe_request, Hv. reflexivity.
Qed.

(** The same from any attempt of the pool script. *)
Lemma PoolWorker_permanent net env url attempt m status payload :
  net (sent m) (probe_request url) = Responded status payload ->
  ok status = false -> status < 500 ->
  PoolWorker.fetchWithTimeout net env url attempt m =
  preceded [EvFetch (probe_request url)]
    (PoolWorker.handleFinalFailure net url env (after_fetch m)).
Proof.
  intros Hnet Hok Hlt. rewrite PoolWorker.fetchWithTimeout_equation_1.
  unfold try_catch at 1, bind at 1, fetch at 1. rewrite Hnet. simpl. rewrite Hok. simpl.
  replace (500 <=? status) with false by (symmetry; apply Z.leb_gt; lia).
  rewrite then_return by apply PoolWorker_final_returns.
  pose proof (PoolWorker_final_returns net url env (after_fetch m)) as Ho.
  unfold preceded, after_fetch, outcome_of in *. simpl.
  destruct (PoolWorker.handleFinalFailure _ _ _ _) as [[o m'] t].
  simpl in Ho. subst o. reflexivity.
Qed.

(** C4. When an attempt of a probe is answered with an HTTP status that
    is neither 2xx nor 5xx, that attempt is the last one, whatever its
    number and so whatever is left of the budget: in each of the three
    scripts the probe shows this one attempt, no pause and no further
    request to the endpoint, and the call of [handleFinalFailure] that
    follows it at once. *)
Theorem non_5xx_failure_is_not_retried net env url number m status payload :
  net (sent m) (probe_request url) = Responded status payload ->
  http_status status -> ok status = false -> ~ (500 <= status <= 599) ->
  (probe_view url (trace_of (Worker.fetchWithTimeout net env url number m))
     = [Attempt; FinalFailure]
   /\ attempts url (trace_of (Worker.fetchWithTimeout net env url number m)) = 1%nat)
  /\ (probe_view url (trace_of (KvWorker.fetchWithTimeout net env url number m))
       = [Attempt; FinalFailure]
      /\ attempts url (trace_of (KvWorker.fetchWithTimeout net env url number m)) = 1%nat)
  /\ (probe_view url (trace_of (PoolWorker.fetchWithTimeout net env url number m))
       = [Attempt; FinalFailure]
      /\ attempts url (trace_of (PoolWorker.fetchWithTimeout net env url number m)) = 1%nat).
Proof.
  intros Hnet [Hlow Hhigh] Hok H5.
  assert (Hp : permanent (net (sent m) (probe_request url))).
  { rewrite Hnet. split; assumption. }
  assert (HA : probe_view url (trace_of (Worker.fetchWithTimeout net env url number m))
               = [Attempt; FinalFailure]).
  { rewrite Worker_permanent by exact Hp. view_of_preceded.
    rewrite Worker_final_view. reflexivity. }
  assert (HB : probe_view url (trace_of (KvWorker.fetchWithTimeout net env url number m))
               = [Attempt; FinalFailure]).
  { rewrite KvWorker_permanent by exact Hp. view_of_preceded.
    rewrite KvWorker_final_view. reflexivity. }
  assert (HC : probe_view url (trace_of (PoolWorker.fetchWithTimeout net env url number m))
               = [Attempt; FinalFailure]).
  { rewrite (PoolWorker_permanent net env url number m status payload Hnet Hok) by lia.
    view_of_preceded. rewrite PoolWorker_final_view. reflexivity. }
  unfold attempts. rewrite HA, HB, HC. repeat split; reflexivity.
Qed.

Lemma non_5xx_failure_is_not_retried_witness :
  http_status 404
  /\ probe_view down_url
       (trace_of (PoolWorker.fetchWithTimeout (always 404) sample_env down_url 1
                    fresh_machine))
     = [Attempt; FinalFailure].
Proof.
  assert (Hst : http_status 404) by (unfold http_status; lia).
  split; [exact Hst|].
  apply (non_5xx_failure_is_not_retried (always 404) sample_env down_url 1 fresh_machine
           404 None eq_refl Hst eq_refl).
  lia.
Defined.

(** Outside the range of HTTP the scripts part: of a status of 600 the
    pool script, which tests [status >= 500] alone, makes three
    attempts, where the two others make one. *)
Lemma pool_retries_status_600 :
  permanent (always 600 0%nat (probe_request down_url))
  /\ probe_view down_url
       (trace_of (PoolWorker.fetchWithTimeout (always 600) sample_env down_url 1 fresh_machine))
     = [Attempt; Backoff 1000; Attempt; Backoff 2000; Attempt; FinalFailure]
  /\ attempts down_url
       (trace_of (PoolWorker.fetchWithTimeout (always 600) sample_env down_url 1 fresh_machine))
     = 3%nat.
Proof.
  split; [simpl; split; [reflexivity | lia]|].
  split; reflexivity.
Qed.

(** A probe never rejects: whatever the network does, the promise of
    [fetchWithTimeout] is fulfilled. The task pool relies on it. *)
Lemma catch_returns {A} (c : M A) (h : js_error -> M A) m a :
  (forall r m1 t1, c m = (r, m1, t1) ->
     match r with
     | Return x => x = a
     | Throw e => outcome_of (h e m1) = Return a
     end) ->
  outcome_of (try_catch c h m) = Return a.
Proof.
  intros H. unfold try_catch, outcome_of.
  destruct (c m) as [[r m1] t1] eqn:Hc. specialize (H r m1 t1 eq_refl).
  destruct r as [x|e]; [subst; reflexivity|].
  unfold outcome_of in H. destruct (h e m1) as [[r2 m2] t2]. exact H.
Qed.

Lemma sleep_then_returns ms (c : M unit) m :
  (forall m', outcome_of (c m') = Return tt) ->
  outcome_of (bind (sleep ms) (fun _ => c) m) = Return tt.
Proof.
  intros H. unfold bind, sleep, outcome_of.
  specialize (H (after_sleep ms m)). unfold outcome_of, after_sleep in H.
  destruct (c _) as [[r m'] t]. exact H.
Qed.

Lemma Worker_probe_returns net env url retries m :
  outcome_of (Worker.fetchWithTimeout net env url retries m) = Return tt.
Proof.
  remember (S Worker.MAX_RETRIES - retries)%nat as d eqn:Hd.
  revert retries Hd m. induction d as [d IH] using lt_wf_ind. intros retries Hd m.
  rewrite Worker.fetchWithTimeout_equation_1.
  apply catch_returns. intros r m1 t1 Hrun.
  destruct r as [[]|e]; [reflexivity|].
  destruct (le_dec retries Worker.MAX_RETRIES) as [Hle|Hgt].
  - apply sleep_then_returns. intros m'.
    apply (IH (S Worker.MAX_RETRIES - (retries + 1))%nat); [lia | reflexivity].
  - apply Worker_final_returns.
Qed.

Lemma KvWorker_probe_returns net env url retries m :
  outcome_of (KvWorker.fetchWithTimeout net env url retries m) = Return tt.
Proof.
  remember (S KvWorker.MAX_RETRIES - retries)%nat as d eqn:Hd.
  revert retries Hd m. induction d as [d IH] using lt_wf_ind. intros retries Hd m.
  rewrite KvWorker.fetchWithTimeout_equation_1.
  apply catch_returns. intros r m1 t1 Hrun.
  destruct r as [[]|e]; [reflexivity|].
  destruct (le_dec retries KvWorker.MAX_RETRIES) as [Hle|Hgt].
  - apply sleep_then_returns. intros m'.
    apply (IH (S KvWorker.MAX_RETRIES - (retries + 1))%nat); [lia | reflexivity].
  - apply KvWorker_final_returns.
Qed.

Lemma PoolWorker_probe_returns net env url attempt m :
  outcome_of (PoolWorker.fetchWithTimeout net env url attempt m) = Return tt.
Proof.
  remember (PoolWorker.MAX_ATTEMPT - attempt)%nat as d eqn:Hd.
  revert attempt Hd m. induction d as [d IH] using lt_wf_ind. intros attempt Hd m.
  rewrite PoolWorker.fetchWithTimeout_equation_1.
  apply catch_returns. intros r m1 t1 Hrun.
  destruct r as [[]|e]; [reflexivity|].
  destruct (lt_dec attempt PoolWorker.MAX_ATTEMPT) as [Hlt|Hge].
  - apply sleep_then_returns. intros m'.
    apply (IH (PoolWorker.MAX_ATTEMPT - (attempt + 1))%nat); [lia | reflexivity].
  - apply PoolWorker_final_returns.
Qed.

(** ** The final-failure handler *)

Lemma includes_nonempty url sub :
  sub <> EmptyString -> includes url sub = true -> String.eqb url EmptyString = false.
Proof.
  intros Hsub H. destruct url; [|reflexivity].
  destruct sub; [congruence|]. discriminate H.
Qed.


Lemma lookup_absent m : flag_absent m -> kv_lookup m "flag" = None.
Proof.
  intros [Hkv | (v & expires & Hkv & Hle)]; unfold kv_lookup; rewrite Hkv; [reflexivity|].
  destruct (Z.ltb_spec (clock m) expires); [lia | reflexivity].
Qed.

(** C5. For a URL that does not contain [galaxy], the handler of each
    of the three scripts returns at once: it sends no request, leaves
    the store as it was, and the trace holds nothing but the call. *)
Theorem unmatched_failure_is_ignored net url env m :
  includes url "galaxy" = false ->
  Worker.handleFinalFailure net url env m = (Return tt, m, [EvFinalFailure url])
  /\ KvWorker.handleFinalFailure net url env m = (Return tt, m, [EvFinalFailure url])
  /\ PoolWorker.handleFinalFailure net url env m = (Return tt, m, [EvFinalFailure url])
  /\ fetches [EvFinalFailure url] = []
  /\ puts [EvFinalFailure url] = [].
Proof.
  intros H.
  unfold Worker.handleFinalFailure, KvWorker.handleFinalFailure,
    PoolWorker.handleFinalFailure, bind, try_catch, mark, ret.
  rewrite H. simpl. rewrite orb_true_r. repeat split; reflexivity.
Qed.

Lemma unmatched_failure_is_ignored_witness :
  includes down_url "galaxy" = false
  /\ KvWorker.handleFinalFailure (always 200) down_url sample_env fresh_machine
     = (Return tt, fresh_machine, [EvFinalFailure down_url]).
Proof.
  split; [reflexivity|].
  apply (unmatched_failure_is_ignored (always 200) down_url sample_env fresh_machine).
  reflexivity.
Defined.

(** C6, as amended. Every request sent by the handler of any of the
    three scripts is a POST to [DEPLOY_API_URL] with the headers
    [Content-Type: application/json] and [X-Deploy-Token: FIXED_TOKEN],
    and its body is the object with [reason] equal to
    ["galaxy_final_retry_failed"] and [url] equal to the failing URL. *)
Theorem trigger_request_shape net url env m :
  Forall (described_request env "galaxy_final_retry_failed" url)
    (fetches (trace_of (Worker.handleFinalFailure net url env m)))
  /\ Forall (described_request env "galaxy_final_retry_failed" url)
    (fetches (trace_of (KvWorker.handleFinalFailure net url env m)))
  /\ Forall (described_request env "galaxy_final_retry_failed" url)
    (fetches (trace_of (PoolWorker.handleFinalFailure net url env m))).
Proof.
  assert (Hrq : described_request env "galaxy_final_retry_failed" url
                  (deploy_request env url)) by (repeat split).
  unfold Worker.handleFinalFailure, KvWorker.handleFinalFailure,
    PoolWorker.handleFinalFailure, bind, try_catch, mark, fetch, kv_get, kv_put,
    ret, trace_of.
  repeat split.
  - destruct (_ || _); simpl; [constructor|].
    destruct (net _ _) as [st p| |]; simpl; [destruct (negb (ok st))|..];
      simpl; repeat constructor; exact Hrq.
  - destruct (_ || _); simpl; [constructor|].
    destruct (match kv_lookup m "flag" with Some _ => _ | None => _ end);
      simpl; [constructor|].
    destruct (net _ _) as [st p| |]; simpl; [destruct (negb (ok st))|..];
      simpl; repeat constructor; exact Hrq.
  - destruct (negb _); simpl; [constructor|].
    destruct (net _ _) as [st p| |]; simpl; [destruct (negb (ok st))|..];
      simpl; repeat constructor; exact Hrq.
Qed.

(** C6, as stated, fails: the request sent for [galaxy_url] does not
    carry the reason ["final_retry_failed"]. *)
Lemma trigger_reason_is_not_final_retry_failed :
  fetches (trace_of (Worker.handleFinalFailure (always 200) galaxy_url sample_env fresh_machine))
    = [deploy_request sample_env galaxy_url]
  /\ ~ Forall (described_request sample_env "final_retry_failed" galaxy_url)
       (fetches (trace_of
          (Worker.handleFinalFailure (always 200) galaxy_url sample_env fresh_machine))).
Proof.
  split; [reflexivity|].
  intros H. apply Forall_inv in H. destruct H as (_ & _ & _ & Hbody).
  discriminate Hbody.
Qed.

(** The handler called alone, for a URL containing [galaxy] while the
    flag is absent or expired: it sends the deploy request once; on a
    2xx answer, and on no other, it writes [flag = deployed] with
    [expirationTtl] 10800, and the flag is then visible until
    10 800 000 ms have passed. On any other outcome the store is left
    as it was. *)
Lemma handler_triggers_once net url env m :
  includes url "galaxy" = true -> flag_absent m ->
  let r := KvWorker.handleFinalFailure net url env m in
  fetches (trace_of r) = [deploy_request env url]
  /\ match net (sent m) (deploy_request env url) with
     | Responded status _ =>
         if ok status then
           puts (trace_of r) = [("flag", "deployed", 10800)]
           /\ kv (machine_of r) = <["flag" := ("deployed", clock m + 10800 * 1000)]> (kv m)
           /\ forall now s,
                kv_lookup {| kv := kv (machine_of r); clock := now; sent := s |} "flag"
                = if now <? clock m + 10800000 then Some "deployed" else None
         else puts (trace_of r) = [] /\ kv (machine_of r) = kv m
     | TimedOut | NetworkFailure => puts (trace_of r) = [] /\ kv (machine_of r) = kv m
     end.
Proof.
  intros Hinc Habs r. subst r.
  unfold KvWorker.handleFinalFailure, bind, try_catch, mark, fetch, kv_get, kv_put,
    ret, trace_of, machine_of.
  rewrite (includes_nonempty url "galaxy") by (done || exact Hinc).
  rewrite Hinc. simpl. rewrite (lookup_absent m Habs). simpl.
  destruct (net (sent m) (deploy_request env url)) as [st p| |]; simpl;
    [|split; [reflexivity | split; reflexivity]..].
  destruct (ok st); simpl.
  - split; [reflexivity|]. split; [reflexivity|]. split; [reflexivity|].
    intros now s. unfold kv_lookup. simpl. rewrite lookup_insert_eq.
    replace (clock m + 10800 * 1000) with (clock m + 10800000) by lia. reflexivity.
  - split; [reflexivity | split; reflexivity].
Qed.

(** ** A run of [handleScheduled] *)

(** *** The notes of a probe *)

Lemma by_probe_same i n : by_probe i (i, n) = Some n.
Proof. unfold by_probe. cbn [fst snd]. rewrite decide_True by reflexivity. reflexivity. Qed.

Lemma by_probe_other i j n : i <> j -> by_probe j (i, n) = None.
Proof. intros Hne. unfold by_probe. cbn [fst snd]. rewrite decide_False by exact Hne. reflexivity. Qed.

Lemma omap_pair_same (i : nat) (ns : list Tick.note) :
  omap (by_probe i) (map (pair i) ns) = ns.
Proof.
  induction ns as [|n ns IH]; [reflexivity|].
  cbn [map omap list_omap]. rewrite by_probe_same, IH. reflexivity.
Qed.

Lemma omap_pair_other (i j : nat) (ns : list Tick.note) :
  i <> j -> omap (by_probe j) (map (pair i) ns) = [].
Proof.
  intros Hne. induction ns as [|n ns IH]; [reflexivity|].
  cbn [map omap list_omap]. rewrite by_probe_other by exact Hne. exact IH.
Qed.

Lemma own_put_same i url st ns store s :
  own i (Tick.put i url st ns store s) = own i s ++ ns.
Proof.
  unfold own, Tick.put. cbn [Tick.notes]. rewrite omap_app, omap_pair_same.
  reflexivity.
Qed.

Lemma own_put_other i j url st ns store s :
  i <> j -> own j (Tick.put i url st ns store s) = own j s.
Proof.
  intros Hne. unfold own, Tick.put. cbn [Tick.notes].
  rewrite omap_app, omap_pair_other by exact Hne. apply app_nil_r.
Qed.

Lemma own_imap (f : string -> Tick.note) (urls : list string) : forall k i,
  omap (by_probe i) (imap (fun j url => ((k + j)%nat, f url)) urls)
  = match urls !! (i - k)%nat with
    | Some url => if decide (k <= i)%nat then [f url] else []
    | None => []
    end.
Proof.
  induction urls as [|u urls IH]; intros k i; [reflexivity|].
  rewrite imap_cons. cbn [omap list_omap].
  rewrite (imap_ext _ (fun j url => ((S k + j)%nat, f url))) by (intros; unfold compose; f_equal; lia).
  rewrite IH. destruct (decide ((k + 0)%nat = i)) as [He|Hne].
  - subst i. rewrite by_probe_same.
    replace (k + 0 - k)%nat with 0%nat by lia.
    replace (k + 0 - S k)%nat with 0%nat by lia.
    cbn [lookup list_lookup]. rewrite decide_True by lia.
    destruct urls as [|u' urls']; [reflexivity|]. cbn [lookup list_lookup].
    rewrite decide_False by lia. reflexivity.
  - rewrite by_probe_other by exact Hne.
    destruct (decide (k <= i)%nat) as [Hle|Hgt].
    + replace (i - k)%nat with (S (i - S k)) by lia. cbn [lookup list_lookup].
      destruct (urls !! (i - S k)%nat); [rewrite decide_True by lia|]; reflexivity.
    + destruct (urls !! (i - S k)%nat); [rewrite decide_False by lia|];
        destruct ((u :: urls) !! (i - k)%nat); reflexivity.
Qed.

Lemma own_start urls m i :
  own i (Tick.start urls m)
  = match urls !! i with
    | Some url => [Tick.Sent (probe_request url)]
    | None => []
    end.
Proof.
  unfold own, Tick.start. cbn [Tick.notes].
  pose proof (own_imap (fun url => Tick.Sent (probe_request url)) urls 0 i) as H.
  cbn [Nat.add] in H. rewrite H, Nat.sub_0_r. destruct (urls !! i); [rewrite decide_True by lia|]; reflexivity.
Qed.

(** *** The history of a probe *)

Lemma final_history env url pre :
  Forall (attempt_note url) pre ->
  probe_history env url (Tick.final url).1 (pre ++ (Tick.final url).2).
Proof.
  intros Hpre. exists pre, [Tick.Called url]. unfold Tick.final.
  destruct (String.eqb url EmptyString || negb (includes url "galaxy")) eqn:Hm; cbn [fst snd].
  - split; [reflexivity|]. split; [exact Hpre|]. right. left. reflexivity.
  - split; [reflexivity|]. split; [exact Hpre|]. split; [reflexivity|].
    apply orb_false_iff in Hm as [_ Hm]. apply negb_false_iff in Hm. exact Hm.
Qed.

Lemma caught_history env now url retries pre :
  Forall (attempt_note url) pre ->
  probe_history env url (Tick.caught now url retries).1
    (pre ++ (Tick.caught now url retries).2).
Proof.
  intros Hpre. unfold Tick.caught.
  destruct (retries <=? KvWorker.MAX_RETRIES)%nat; [|apply final_history; exact Hpre].
  cbn [fst snd]. eexists _, []. split; [symmetry; apply app_nil_r|].
  split; [|reflexivity]. apply Forall_app. split; [exact Hpre|].
  constructor; [exact I | constructor].
Qed.

Lemma answered_history env now url retries r pre :
  Forall (attempt_note url) pre ->
  probe_history env url (Tick.answered now url retries r).1
    (pre ++ Tick.Got r :: (Tick.answered now url retries r).2).
Proof.
  intros Hpre.
  assert (Hgot : Forall (attempt_note url) (pre ++ [Tick.Got r])).
  { apply Forall_app. split; [exact Hpre|]. constructor; [exact I | constructor]. }
  replace (pre ++ Tick.Got r :: (Tick.answered now url retries r).2)
    with ((pre ++ [Tick.Got r]) ++ (Tick.answered now url retries r).2)
    by (rewrite <- app_assoc; reflexivity).
  unfold Tick.answered. destruct r as [status payload| |].
  - destruct (negb (ok status)).
    + destruct ((500 <=? status) && (status <? 600)).
      * apply caught_history. exact Hgot.
      * apply final_history. exact Hgot.
    + cbn [fst snd]. eexists _, []. split; [reflexivity|]. split; [exact Hgot|].
      left. reflexivity.
  - apply caught_history. exact Hgot.
  - apply caught_history. exact Hgot.
Qed.

(** The notes of a probe that is still at its attempts. *)
Lemma attempts_only env url st h :
  probe_history env url st h ->
  (exists retries, st = Tick.Attempt retries) \/ (exists retries until, st = Tick.Pause retries until) ->
  Forall (attempt_note url) h.
Proof.
  intros (pre & t & -> & Hpre & Ht) [[n ->] | (n & u & ->)]; cbn in Ht; subst t;
    rewrite app_nil_r; exact Hpre.
Qed.

Lemma read_history env url flag h :
  probe_history env url Tick.ReadFlag h ->
  probe_history env url (Tick.read env url flag).1
    (h ++ Tick.Read "flag" flag :: (Tick.read env url flag).2).
Proof.
  intros (pre & t & -> & Hpre & Ht & Hinc). subst t.
  exists pre. unfold Tick.read.
  destruct flag as [v|].
  - destruct (String.eqb_spec v "deployed") as [->|Hne]; cbn [fst snd].
    + eexists. split; [rewrite <- app_assoc; reflexivity|]. split; [exact Hpre|].
      right. right. left. reflexivity.
    + eexists. split; [rewrite <- app_assoc; reflexivity|]. split; [exact Hpre|].
      exists (Some v). split; [reflexivity|]. split; [congruence | exact Hinc].
  - cbn [fst snd].
    eexists. split; [rewrite <- app_assoc; reflexivity|]. split; [exact Hpre|].
    exists None. split; [reflexivity|]. split; [discriminate | exact Hinc].
Qed.

Lemma replied_stage r :
  (succeeded r = true /\ Tick.replied r = Tick.WriteFlag)
  \/ (succeeded r = false /\ Tick.replied r = Tick.Fulfilled).
Proof.
  destruct r as [status payload| |]; cbn [succeeded Tick.replied];
    [|right; split; reflexivity..].
  destruct (ok status); [left | right]; split; reflexivity.
Qed.

Lemma replied_history env url r h :
  probe_history env url Tick.Trigger h ->
  probe_history env url (Tick.replied r) (h ++ [Tick.Replied r]).
Proof.
  intros (pre & t & -> & Hpre & v & -> & Hv & Hinc).
  exists pre. eexists. split; [rewrite <- app_assoc; reflexivity|]. split; [exact Hpre|].
  destruct (replied_stage r) as [[Hs ->] | [Hs ->]].
  - exists v, r. repeat split; assumption.
  - right. right. right. left. exists v, r. repeat split; assumption.
Qed.

Lemma written_history env url h :
  probe_history env url Tick.WriteFlag h ->
  probe_history env url Tick.Fulfilled (h ++ [Tick.Wrote "flag" "deployed" (60 * 60 * 3)]).
Proof.
  intros (pre & t & -> & Hpre & v & r & -> & Hv & Hinc & Hs).
  exists pre. eexists. split; [rewrite <- app_assoc; reflexivity|]. split; [exact Hpre|].
  right. right. right. right. exists v, r. repeat split; assumption.
Qed.

(** *** The invariant *)

Lemma writes_app h h' : writes (h ++ h') = writes h ++ writes h'.
Proof. unfold writes. apply omap_app. Qed.

Lemma all_notes_put i url st ns store s :
  all_notes (Tick.put i url st ns store s) = all_notes s ++ ns.
Proof.
  unfold all_notes, Tick.put. cbn [Tick.notes]. rewrite map_app, map_map.
  cbn [snd]. rewrite map_id. reflexivity.
Qed.

(** A probe goes on: what has to hold of its notes and of the store. *)
Lemma put_invariant env urls m s i url st st' ns store :
  tick_invariant env urls m s ->
  Tick.probes s !! i = Some (url, st) ->
  probe_history env url st' (own i s ++ ns) ->
  (writes ns = [] /\ store = kv (Tick.mach s))
  \/ (writes ns <> []
      /\ store = <["flag" := ("deployed", clock (Tick.mach s) + 10800000)]> (kv (Tick.mach s))) ->
  tick_invariant env urls m (Tick.put i url st' ns store s).
Proof.
  intros [Hprobes Hhist Hothers Hclock Hstore] Hi Hnew Hkv.
  pose proof (lookup_lt_Some _ _ _ Hi) as Hlt.
  split.
  - cbn [Tick.put Tick.probes]. rewrite list_fmap_insert. cbn [fst].
    rewrite <- Hprobes. apply list_insert_id.
    rewrite list_lookup_fmap, Hi. reflexivity.
  - intros j url' stj Hj. cbn [Tick.put Tick.probes] in Hj.
    destruct (decide (i = j)) as [<-|Hne].
    + rewrite list_lookup_insert_eq in Hj by exact Hlt. injection Hj as <- <-.
      rewrite own_put_same. exact Hnew.
    + rewrite list_lookup_insert_ne in Hj by exact Hne.
      rewrite own_put_other by exact Hne. apply Hhist. exact Hj.
  - intros j Hj. cbn [Tick.put Tick.probes] in Hj.
    destruct (decide (i = j)) as [<-|Hne].
    + rewrite list_lookup_insert_eq in Hj by exact Hlt. discriminate Hj.
    + rewrite list_lookup_insert_ne in Hj by exact Hne.
      rewrite own_put_other by exact Hne. apply Hothers. exact Hj.
  - exact Hclock.
  - rewrite all_notes_put, writes_app. cbn [Tick.put Tick.mach kv clock].
    destruct Hkv as [[Hw ->] | [Hw ->]].
    + rewrite Hw, app_nil_r. exact Hstore.
    + right. split.
      { intros He. apply app_eq_nil in He as [_ He]. contradiction. }
      exists (clock (Tick.mach s)). split; [lia|].
      destruct Hstore as [[_ ->] | (_ & t & _ & ->)]; [reflexivity|].
      apply insert_insert_eq.
Qed.

Lemma resume_invariant env urls m s s' i x :
  tick_invariant env urls m s -> Tick.resume env i x s = Some s' ->
  tick_invariant env urls m s'.
Proof.
  intros Hinv Hstep. unfold Tick.resume in Hstep.
  destruct (Tick.probes s !! i) as [[url st]|] eqn:Hi; [|discriminate].
  pose proof (tick_history _ _ _ _ Hinv i url st Hi) as Hh.
  destruct st as [retries|retries until| | | |], x as [r|]; try discriminate.
  - injection Hstep as <-. eapply put_invariant; [exact Hinv | exact Hi | |].
    + apply answered_history. eapply attempts_only; [exact Hh | left; eauto].
    + left. split; [|reflexivity]. unfold Tick.answered, Tick.caught, Tick.final.
      destruct r as [status payload| |];
        repeat match goal with |- context [if ?c then _ else _] => destruct c end;
        reflexivity.
  - destruct (until <=? clock (Tick.mach s)); [|discriminate].
    injection Hstep as <-. eapply put_invariant; [exact Hinv | exact Hi | |].
    + eexists _, []. split; [symmetry; apply app_nil_r|]. split; [|reflexivity].
      apply Forall_app. split.
      * eapply attempts_only; [exact Hh | right; eauto].
      * constructor; [reflexivity | constructor].
    + left. split; reflexivity.
  - injection Hstep as <-. eapply put_invariant; [exact Hinv | exact Hi | |].
    + apply read_history. exact Hh.
    + left. split; [|reflexivity]. unfold Tick.read.
      destruct (match kv_lookup (Tick.mach s) "flag" with Some v => _ | None => _ end);
        reflexivity.
  - injection Hstep as <-. eapply put_invariant; [exact Hinv | exact Hi | |].
    + apply replied_history. exact Hh.
    + left. split; reflexivity.
  - injection Hstep as <-. eapply put_invariant; [exact Hinv | exact Hi | |].
    + apply written_history. exact Hh.
    + right. split; [discriminate|].
      replace ((60 * 60 * 3) * 1000) with 10800000 by reflexivity. reflexivity.
Qed.

Lemma elapse_invariant env urls m s d :
  0 <= d -> tick_invariant env urls m s -> tick_invariant env urls m (Tick.elapse d s).
Proof.
  intros Hd [Hprobes Hhist Hothers Hclock Hstore]. split; try assumption.
  - cbn [Tick.elapse Tick.mach clock]. lia.
  - cbn [Tick.elapse Tick.mach clock kv].
    destruct Hstore as [H | (Hw & t & Ht & Hkv)]; [left; exact H|].
    right. split; [exact Hw|]. exists t. split; [lia | exact Hkv].
Qed.

Lemma start_invariant_tick env urls m : tick_invariant env urls m (Tick.start urls m).
Proof.
  split.
  - cbn [Tick.start Tick.probes]. rewrite map_map. cbn [fst]. apply map_id.
  - intros i url st Hi. cbn [Tick.start Tick.probes] in Hi.
    rewrite list_lookup_fmap in Hi. rewrite own_start.
    destruct (urls !! i) as [u|]; [|discriminate]. injection Hi as <- <-.
    eexists _, []. split; [symmetry; apply app_nil_r|]. split; [|reflexivity].
    constructor; [reflexivity | constructor].
  - intros i Hi. cbn [Tick.start Tick.probes] in Hi.
    rewrite list_lookup_fmap in Hi. rewrite own_start.
    destruct (urls !! i); [discriminate | reflexivity].
  - cbn [Tick.start Tick.mach clock]. lia.
  - left. split; [|reflexivity]. unfold all_notes, Tick.start. cbn [Tick.notes].
    unfold writes.
    assert (H : forall (l : list string) (f : nat -> string -> nat * Tick.note),
               (forall j u, exists rq, (f j u).2 = Tick.Sent rq) ->
               omap (fun n => match n with
                              | Tick.Wrote k0 v ttl => Some (k0, v, ttl)
                              | _ => None
                              end) (map snd (imap f l)) = []).
    { induction l as [|u l IH]; intros f Hf; [reflexivity|].
      rewrite imap_cons. cbn [map omap list_omap].
      destruct (Hf 0%nat u) as [rq ->]. apply IH. intros j u'. apply (Hf (S j)). }
    apply H. intros j u. eexists. reflexivity.
Qed.

Lemma reachable_tick_invariant env urls m s :
  Tick.reachable env urls m s -> tick_invariant env urls m s.
Proof.
  induction 1 as [|s s' _ IH Hstep]; [apply start_invariant_tick|].
  destruct Hstep as [i x s s' Hres | d s Hd].
  - eapply resume_invariant; eassumption.
  - apply elapse_invariant; assumption.
Qed.

(** *** What the notes of a probe hold *)

Lemma triggers_app h h' : triggers (h ++ h') = triggers h ++ triggers h'.
Proof. unfold triggers. apply omap_app. Qed.

Lemma replies_app h h' : replies (h ++ h') = replies h ++ replies h'.
Proof. unfold replies. apply omap_app. Qed.

Lemma attempts_hold_nothing url pre :
  Forall (attempt_note url) pre ->
  triggers pre = [] /\ replies pre = [] /\ writes pre = []
  /\ forall k v, Tick.Read k v ∉ pre.
Proof.
  induction 1 as [|n pre Hn _ (IH1 & IH2 & IH3 & IH4)].
  - repeat split; try reflexivity. intros k v H. inversion H.
  - destruct n as [rq|r|ms|u|k v|r|k v ttl]; cbn in Hn; try contradiction.
    + subst rq. repeat split; try assumption.
      intros k v H. apply elem_of_cons in H as [H|H]; [discriminate | exact (IH4 _ _ H)].
    + repeat split; try assumption.
      intros k v H. apply elem_of_cons in H as [H|H]; [discriminate | exact (IH4 _ _ H)].
    + repeat split; try assumption.
      intros k v H. apply elem_of_cons in H as [H|H]; [discriminate | exact (IH4 _ _ H)].
Qed.

Lemma read_no_flag_app url pre t :
  Forall (attempt_note url) pre -> read_no_flag (pre ++ t) <-> read_no_flag t.
Proof.
  intros Hpre. destruct (attempts_hold_nothing url pre Hpre) as (_ & _ & _ & Hno).
  unfold read_no_flag. split; intros (v & Hin & Hv); exists v; (split; [|exact Hv]).
  - apply elem_of_app in Hin as [Hin|Hin]; [destruct (Hno _ _ Hin) | exact Hin].
  - apply elem_of_app. right. exact Hin.
Qed.

Lemma deploy_request_described env url :
  described_request env "galaxy_final_retry_failed" url (deploy_request env url).
Proof. repeat split. Qed.

Ltac no_read :=
  let v := fresh "v" in
  let Hin := fresh "Hin" in
  let Hv := fresh "Hv" in
  intros (v & Hin & Hv);
  repeat (apply elem_of_cons in Hin as [Hin|Hin];
          [first [discriminate Hin | (injection Hin; intros; subst; congruence)]|]);
  inversion Hin.

(** The triggers of a probe: one when its handler read the flag and
    did not find it, none otherwise. *)
Lemma history_triggers env url st h :
  probe_history env url st h ->
  (triggers h = [] /\ ~ read_no_flag h)
  \/ (read_no_flag h /\ includes url "galaxy" = true
      /\ triggers h = [deploy_request env url]).
Proof.
  intros (pre & t & -> & Hpre & Ht).
  destruct (attempts_hold_nothing url pre Hpre) as (Htr & _ & _ & _).
  rewrite triggers_app, Htr, app_nil_l. rewrite (read_no_flag_app url pre t Hpre).
  assert (Hread : forall v rest, v <> Some "deployed" ->
            read_no_flag (Tick.Called url :: Tick.Read "flag" v :: rest)).
  { intros v rest Hv. exists v. split; [|exact Hv]. right. left. }
  destruct st as [n|n u| | | |]; cbn in Ht.
  - subst t. left. split; [reflexivity | no_read].
  - subst t. left. split; [reflexivity | no_read].
  - destruct Ht as [-> _]. left. split; [reflexivity | no_read].
  - destruct Ht as (v & -> & Hv & Hinc). right.
    split; [apply Hread; exact Hv|]. split; [exact Hinc | reflexivity].
  - destruct Ht as (v & r & -> & Hv & Hinc & _). right.
    split; [apply Hread; exact Hv|]. split; [exact Hinc | reflexivity].
  - destruct Ht as [-> | [-> | [-> | [(v & r & -> & Hv & Hinc & _)
                                     | (v & r & -> & Hv & Hinc & _)]]]].
    + left. split; [reflexivity | no_read].
    + left. split; [reflexivity | no_read].
    + left. split; [reflexivity | no_read].
    + right. split; [apply Hread; exact Hv|]. split; [exact Hinc | reflexivity].
    + right. split; [apply Hread; exact Hv|]. split; [exact Hinc | reflexivity].
Qed.

Ltac no_write := let Hw := fresh "Hw" in intros Hw; exfalso; apply Hw; reflexivity.

(** The writes of a probe: the flag, once, after an answer with a 2xx
    status. *)
Lemma history_writes env url st h :
  probe_history env url st h ->
  (writes h = [] \/ writes h = [("flag", "deployed", 10800)])
  /\ (writes h <> [] -> exists r, replies h = [r] /\ succeeded r = true)
  /\ (forall r, r ∈ replies h -> succeeded r = true ->
        writes h <> [] \/ st = Tick.WriteFlag).
Proof.
  intros (pre & t & -> & Hpre & Ht).
  destruct (attempts_hold_nothing url pre Hpre) as (_ & Hrp & Hwr & _).
  rewrite writes_app, replies_app, Hwr, Hrp, !app_nil_l.
  assert (Hnone : forall r : fetch_result, r ∈ @nil fetch_result -> False)
    by (intros r H; inversion H).
  destruct st as [n|n u| | | |]; cbn in Ht.
  - subst t. split; [left; reflexivity|]. split; [no_write|].
    intros r H. destruct (Hnone r H).
  - subst t. split; [left; reflexivity|]. split; [no_write|].
    intros r H. destruct (Hnone r H).
  - destruct Ht as [-> _]. split; [left; reflexivity|]. split; [no_write|].
    intros r H. destruct (Hnone r H).
  - destruct Ht as (v & -> & _). split; [left; reflexivity|]. split; [no_write|].
    intros r H. destruct (Hnone r H).
  - destruct Ht as (v & r & -> & _ & _ & Hs). split; [left; reflexivity|].
    split; [no_write|]. intros r' _ _. right. reflexivity.
  - destruct Ht as [-> | [-> | [-> | [(v & r & -> & _ & _ & Hs)
                                     | (v & r & -> & _ & _ & Hs)]]]].
    + split; [left; reflexivity|]. split; [no_write|]. intros r H. destruct (Hnone r H).
    + split; [left; reflexivity|]. split; [no_write|].
      intros r H. destruct (Hnone r H).
    + split; [left; reflexivity|]. split; [no_write|].
      intros r H. destruct (Hnone r H).
    + split; [left; reflexivity|]. split; [no_write|].
      intros r' H Hs'. cbn in H. apply elem_of_cons in H as [->|H]; [congruence | inversion H].
    + split; [right; reflexivity|]. split.
      * intros _. exists r. split; [reflexivity | exact Hs].
      * intros r' _ _. left. cbn. discriminate.
Qed.

Lemma run_of_inputs_reachable env urls m inputs : forall s s',
  Tick.reachable env urls m s -> run_of_inputs env inputs s = Some s' ->
  Tick.reachable env urls m s'.
Proof.
  unfold run_of_inputs.
  induction inputs as [|[i x] inputs IH]; intros s s' Hreach Hrun; cbn [foldl] in Hrun.
  - injection Hrun as <-. exact Hreach.
  - cbn [fst snd] in Hrun. destruct (Tick.resume env i x s) as [s1|] eqn:Hres.
    + apply (IH s1 s'); [|exact Hrun].
      eapply Tick.reach_step; [exact Hreach|]. eapply Tick.step_resume. exact Hres.
    + exfalso. clear -Hrun. induction inputs as [|p inputs IH]; [discriminate|].
      cbn [foldl] in Hrun. apply IH. exact Hrun.
Qed.

Lemma state_after_reachable inputs :
  is_Some (run_of_inputs sample_env inputs (Tick.start [galaxy_url; mirror_url] fresh_machine)) ->
  Tick.reachable sample_env [galaxy_url; mirror_url] fresh_machine (state_after inputs).
Proof.
  intros [s Hs]. unfold state_after. rewrite Hs. cbn [default].
  eapply run_of_inputs_reachable; [apply Tick.reach_start | exact Hs].
Qed.

(** *** The triggers of a run *)

Lemma sum_insert (f : string * Tick.stage -> nat) (l : list (string * Tick.stage)) :
  forall i x y,
    l !! i = Some x ->
    (sum_list_with f (<[i := y]> l) + f x = sum_list_with f l + f y)%nat.
Proof.
  induction l as [|z l IH]; intros i x y Hi; [discriminate|].
  destruct i as [|i]; simpl in Hi |- *.
  - injection Hi as ->. lia.
  - specialize (IH i x y Hi). simpl in IH. lia.
Qed.

Lemma to_come_start urls :
  sum_list_with to_come (map (fun url => (url, Tick.Attempt 1)) urls)
  = length (matching urls).
Proof.
  unfold matching. induction urls as [|u urls IH]; [reflexivity|].
  cbn [map sum_list_with List.filter]. unfold to_come at 1. cbn [fst snd].
  destruct (includes u "galaxy"); cbn [length]; lia.
Qed.

Lemma triggers_start (urls : list string) (f : nat -> string -> nat * Tick.note) :
  (forall j u, (f j u).2 = Tick.Sent (probe_request u)) ->
  triggers (map snd (imap f urls)) = [].
Proof.
  revert f. induction urls as [|u urls IH]; intros f Hf; [reflexivity|].
  rewrite imap_cons. cbn [map]. rewrite Hf. unfold triggers. cbn [omap list_omap].
  cbn [probe_request rq_method String.eqb Ascii.eqb Bool.eqb].
  apply IH. intros j u'. apply (Hf (S j)).
Qed.

(** What a step of a probe adds to the triggers, against what it takes
    from those to come. *)
Lemma final_to_come url :
  (length (triggers (Tick.final url).2) + to_come (url, (Tick.final url).1)
   <= if includes url "galaxy" then 1 else 0)%nat.
Proof.
  unfold Tick.final.
  destruct (String.eqb url EmptyString || negb (includes url "galaxy")) eqn:Hm;
    cbn [fst snd]; unfold to_come; cbn [fst snd triggers omap list_omap length].
  - lia.
  - apply orb_false_iff in Hm as [_ Hm]. apply negb_false_iff in Hm. rewrite Hm. lia.
Qed.

Lemma caught_to_come now url retries :
  (length (triggers (Tick.caught now url retries).2)
   + to_come (url, (Tick.caught now url retries).1)
   <= if includes url "galaxy" then 1 else 0)%nat.
Proof.
  unfold Tick.caught. destruct (retries <=? KvWorker.MAX_RETRIES)%nat;
    [|apply final_to_come].
  cbn [fst snd]. unfold to_come. cbn [fst snd triggers omap list_omap length]. lia.
Qed.

Lemma answered_to_come now url retries r :
  (length (triggers (Tick.Got r :: (Tick.answered now url retries r).2))
   + to_come (url, (Tick.answered now url retries r).1)
   <= to_come (url, Tick.Attempt retries))%nat.
Proof.
  change (triggers (Tick.Got r :: (Tick.answered now url retries r).2))
    with (triggers (Tick.answered now url retries r).2).
  change (to_come (url, Tick.Attempt retries))
    with (if includes url "galaxy" then 1%nat else 0%nat).
  unfold Tick.answered. destruct r as [status payload| |];
    [|apply caught_to_come..].
  destruct (negb (ok status)).
  - destruct ((500 <=? status) && (status <? 600));
      [apply caught_to_come | apply final_to_come].
  - cbn [fst snd triggers omap list_omap length]. unfold to_come. cbn [snd]. lia.
Qed.

Lemma read_to_come env url flag :
  (length (triggers (Tick.Read "flag" flag :: (Tick.read env url flag).2))
   + to_come (url, (Tick.read env url flag).1) <= 1)%nat.
Proof.
  unfold Tick.read.
  destruct (match flag with Some v => String.eqb v "deployed" | None => false end);
    cbn [fst snd]; unfold to_come, triggers; cbn [snd omap list_omap].
  - cbn [length]. lia.
  - destruct (String.eqb (rq_method (deploy_request env url)) "GET"); cbn [length]; lia.
Qed.

Lemma triggers_bounded env urls m s :
  Tick.reachable env urls m s ->
  (length (triggers (all_notes s)) + sum_list_with to_come (Tick.probes s)
   <= length (matching urls))%nat.
Proof.
  induction 1 as [|s s' _ IH Hstep].
  - unfold all_notes, Tick.start. cbn [Tick.notes Tick.probes].
    rewrite triggers_start by (intros; reflexivity). rewrite to_come_start.
    cbn [length]. lia.
  - destruct Hstep as [i x s s' Hres | d s Hd]; [|exact IH].
    unfold Tick.resume in Hres.
    destruct (Tick.probes s !! i) as [[url st]|] eqn:Hi; [|discriminate].
    assert (Hput : forall st' ns store,
              (length (triggers ns) + to_come (url, st') <= to_come (url, st))%nat ->
              (length (triggers (all_notes (Tick.put i url st' ns store s)))
               + sum_list_with to_come (Tick.probes (Tick.put i url st' ns store s))
               <= length (matching urls))%nat).
    { intros st' ns store Hle. rewrite all_notes_put, triggers_app, length_app.
      cbn [Tick.put Tick.probes].
      pose proof (sum_insert to_come (Tick.probes s) i (url, st) (url, st') Hi). lia. }
    destruct st as [retries|retries until| | | |], x as [r|]; try discriminate.
    + injection Hres as <-. apply Hput. apply answered_to_come.
    + destruct (until <=? clock (Tick.mach s)); [|discriminate].
      injection Hres as <-. apply Hput.
      unfold to_come, triggers. cbn [fst snd omap list_omap probe_request rq_method].
      cbn [String.eqb Ascii.eqb Bool.eqb length]. lia.
    + injection Hres as <-. apply Hput.
      change (to_come (url, Tick.ReadFlag)) with 1%nat. apply read_to_come.
    + injection Hres as <-. apply Hput.
      unfold triggers. cbn [omap list_omap length].
      destruct (replied_stage r) as [[_ ->] | [_ ->]]; unfold to_come; cbn [snd]; lia.
    + injection Hres as <-. apply Hput.
      unfold triggers, to_come. cbn [omap list_omap length snd]. lia.
Qed.

(** *** The trigger and the flag in a run *)

Lemma read_step env s i url :
  Tick.probes s !! i = Some (url, Tick.ReadFlag) -> flag_absent (Tick.mach s) ->
  Tick.resume env i Tick.Due s
  = Some (Tick.put i url Tick.Trigger
            [Tick.Read "flag" None; Tick.Sent (deploy_request env url)]
            (kv (Tick.mach s)) s).
Proof.
  intros Hi Habs. unfold Tick.resume. rewrite Hi.
  rewrite (lookup_absent _ Habs). reflexivity.
Qed.

Lemma write_step env s i url :
  Tick.probes s !! i = Some (url, Tick.WriteFlag) ->
  Tick.resume env i Tick.Due s
  = Some (Tick.put i url Tick.Fulfilled [Tick.Wrote "flag" "deployed" 10800]
            (<["flag" := ("deployed", clock (Tick.mach s) + 10800000)]> (kv (Tick.mach s)))
            s).
Proof. intros Hi. unfold Tick.resume. rewrite Hi. reflexivity. Qed.

Lemma probe_of_list env urls m s i url st :
  tick_invariant env urls m s -> Tick.probes s !! i = Some (url, st) ->
  urls !! i = Some url.
Proof.
  intros Hinv Hi. rewrite <- (tick_probes _ _ _ _ Hinv).
  rewrite list_lookup_fmap, Hi. reflexivity.
Qed.

Lemma failure_step env s i url retries r :
  Tick.probes s !! i = Some (url, Tick.Attempt retries) ->
  includes url "galaxy" = true -> succeeded r = false ->
  transient r = false \/ (KvWorker.MAX_RETRIES < retries)%nat ->
  Tick.resume env i (Tick.Outcome r) s
  = Some (Tick.put i url Tick.ReadFlag [Tick.Got r; Tick.Called url] (kv (Tick.mach s)) s).
Proof.
  intros Hi Hinc Hs Hterm. unfold Tick.resume. rewrite Hi.
  assert (Hfinal : Tick.final url = (Tick.ReadFlag, [Tick.Called url])).
  { unfold Tick.final. rewrite Hinc.
    rewrite (includes_nonempty url "galaxy") by (done || exact Hinc). reflexivity. }
  assert (Hcaught : (KvWorker.MAX_RETRIES < retries)%nat ->
            Tick.caught (clock (Tick.mach s)) url retries
            = (Tick.ReadFlag, [Tick.Called url])).
  { intros Hlt. unfold Tick.caught.
    replace (retries <=? KvWorker.MAX_RETRIES)%nat with false
      by (symmetry; apply Nat.leb_gt; exact Hlt).
    exact Hfinal. }
  assert (Hnext : Tick.answered (clock (Tick.mach s)) url retries r
                  = (Tick.ReadFlag, [Tick.Called url])).
  { unfold Tick.answered. destruct r as [status payload| |]; cbn in Hs, Hterm.
    - rewrite Hs. cbn [negb].
      destruct ((500 <=? status) && (status <? 600)); [|exact Hfinal].
      destruct Hterm as [Ht|Hlt]; [discriminate | exact (Hcaught Hlt)].
    - destruct Hterm as [Ht|Hlt]; [discriminate | exact (Hcaught Hlt)].
    - destruct Hterm as [Ht|Hlt]; [discriminate | exact (Hcaught Hlt)]. }
  rewrite Hnext. reflexivity.
Qed.

(** C3, as amended. In a run of [handleScheduled] of the script that
    keeps the flag, whatever the order in which the probes go on and
    whatever the network answers, in every state and for every probe
    [i] of the list:

    - the probe has sent the deploy request exactly once if its
      handler read the flag and did not find ["deployed"], and has
      sent none otherwise; a request was sent only for a URL
      containing [galaxy], and it is the POST to [DEPLOY_API_URL] with
      the two headers and the failing URL in its body;
    - the probe has written nothing, or once [flag = deployed] with
      [expirationTtl] 10800; it has written only after its request
      was answered with a 2xx status, and after such an answer the
      write is done or is what the probe waits for;
    - a probe of a URL containing [galaxy] whose attempt fails for
      good (with an outcome that is not retried, or with any failure
      once the retries are spent) calls the handler, which goes to
      the read of the flag;
    - a handler that is about to read the flag, the record being
      absent or expired, sends that request in the same step and
      leaves the store as it is; a probe that waits for the write
      makes the flag visible for 10 800 000 ms from the instant of
      the write;
    - as long as no probe has written, the store is as it was when the
      run began;
    - the run has sent no more deploy requests than the list holds
      URLs containing [galaxy]: at most one when one of them does. *)
Theorem absent_flag_triggers_once env urls m s i :
  Tick.handleScheduled env urls m s ->
  ((triggers (own i s) = [] /\ ~ read_no_flag (own i s))
   \/ (read_no_flag (own i s)
       /\ exists url rq,
            urls !! i = Some url /\ includes url "galaxy" = true
            /\ triggers (own i s) = [rq]
            /\ described_request env "galaxy_final_retry_failed" url rq))
  /\ (writes (own i s) = [] \/ writes (own i s) = [("flag", "deployed", 10800)])
  /\ (writes (own i s) <> [] ->
      exists r, replies (own i s) = [r] /\ succeeded r = true)
  /\ (forall r, r ∈ replies (own i s) -> succeeded r = true ->
      writes (own i s) <> []
      \/ exists url, Tick.probes s !! i = Some (url, Tick.WriteFlag))
  /\ (forall url retries r,
        Tick.probes s !! i = Some (url, Tick.Attempt retries) ->
        includes url "galaxy" = true -> succeeded r = false ->
        transient r = false \/ (KvWorker.MAX_RETRIES < retries)%nat ->
        exists s',
          Tick.resume env i (Tick.Outcome r) s = Some s'
          /\ Tick.notes s' = Tick.notes s ++ [(i, Tick.Got r); (i, Tick.Called url)]
          /\ Tick.probes s' !! i = Some (url, Tick.ReadFlag)
          /\ Tick.mach s' = Tick.mach s)
  /\ (forall url,
        Tick.probes s !! i = Some (url, Tick.ReadFlag) -> flag_absent (Tick.mach s) ->
        exists s' rq,
          Tick.resume env i Tick.Due s = Some s'
          /\ Tick.notes s'
             = Tick.notes s ++ [(i, Tick.Read "flag" None); (i, Tick.Sent rq)]
          /\ described_request env "galaxy_final_retry_failed" url rq
          /\ Tick.probes s' !! i = Some (url, Tick.Trigger)
          /\ kv (Tick.mach s') = kv (Tick.mach s))
  /\ (forall url,
        Tick.probes s !! i = Some (url, Tick.WriteFlag) ->
        exists s',
          Tick.resume env i Tick.Due s = Some s'
          /\ Tick.notes s' = Tick.notes s ++ [(i, Tick.Wrote "flag" "deployed" 10800)]
          /\ Tick.probes s' !! i = Some (url, Tick.Fulfilled)
          /\ kv (Tick.mach s')
             = <["flag" := ("deployed", clock (Tick.mach s) + 10800000)]> (kv (Tick.mach s))
          /\ forall now n,
               kv_lookup {| kv := kv (Tick.mach s'); clock := now; sent := n |} "flag"
               = if now <? clock (Tick.mach s) + 10800000 then Some "deployed" else None)
  /\ (writes (all_notes s) = [] -> kv (Tick.mach s) = kv m)
  /\ (length (triggers (all_notes s)) <= length (matching urls))%nat.
Proof.
  unfold Tick.handleScheduled. intros Hreach.
  pose proof (reachable_tick_invariant env urls m s Hreach) as Hinv.
  assert (Hsteps :
    (forall url retries r,
        Tick.probes s !! i = Some (url, Tick.Attempt retries) ->
        includes url "galaxy" = true -> succeeded r = false ->
        transient r = false \/ (KvWorker.MAX_RETRIES < retries)%nat ->
        exists s',
          Tick.resume env i (Tick.Outcome r) s = Some s'
          /\ Tick.notes s' = Tick.notes s ++ [(i, Tick.Got r); (i, Tick.Called url)]
          /\ Tick.probes s' !! i = Some (url, Tick.ReadFlag)
          /\ Tick.mach s' = Tick.mach s)
    /\ (forall url,
        Tick.probes s !! i = Some (url, Tick.ReadFlag) -> flag_absent (Tick.mach s) ->
        exists s' rq,
          Tick.resume env i Tick.Due s = Some s'
          /\ Tick.notes s'
             = Tick.notes s ++ [(i, Tick.Read "flag" None); (i, Tick.Sent rq)]
          /\ described_request env "galaxy_final_retry_failed" url rq
          /\ Tick.probes s' !! i = Some (url, Tick.Trigger)
          /\ kv (Tick.mach s') = kv (Tick.mach s))
    /\ (forall url,
        Tick.probes s !! i = Some (url, Tick.WriteFlag) ->
        exists s',
          Tick.resume env i Tick.Due s = Some s'
          /\ Tick.notes s' = Tick.notes s ++ [(i, Tick.Wrote "flag" "deployed" 10800)]
          /\ Tick.probes s' !! i = Some (url, Tick.Fulfilled)
          /\ kv (Tick.mach s')
             = <["flag" := ("deployed", clock (Tick.mach s) + 10800000)]> (kv (Tick.mach s))
          /\ forall now n,
               kv_lookup {| kv := kv (Tick.mach s'); clock := now; sent := n |} "flag"
               = if now <? clock (Tick.mach s) + 10800000 then Some "deployed" else None)
    /\ (writes (all_notes s) = [] -> kv (Tick.mach s) = kv m)
    /\ (length (triggers (all_notes s)) <= length (matching urls))%nat).
  { split; [|split; [|split; [|split]]].
    - intros url retries r Hi Hinc Hs Hterm. eexists.
      split; [exact (failure_step env s i url retries r Hi Hinc Hs Hterm)|].
      split; [reflexivity|]. split.
      { cbn [Tick.put Tick.probes].
        apply list_lookup_insert_eq. apply (lookup_lt_Some _ _ _ Hi). }
      cbn [Tick.put Tick.mach Tick.requests List.filter length].
      rewrite Nat.add_0_r. destruct (Tick.mach s). reflexivity.
    - intros url Hi Habs. eexists _, (deploy_request env url).
      split; [exact (read_step env s i url Hi Habs)|].
      split; [reflexivity|]. split; [apply deploy_request_described|].
      split; [|reflexivity]. cbn [Tick.put Tick.probes].
      apply list_lookup_insert_eq. apply (lookup_lt_Some _ _ _ Hi).
    - intros url Hi. eexists. split; [exact (write_step env s i url Hi)|].
      split; [reflexivity|]. split.
      { cbn [Tick.put Tick.probes].
        apply list_lookup_insert_eq. apply (lookup_lt_Some _ _ _ Hi). }
      split; [reflexivity|].
      intros now n. unfold kv_lookup. cbn [Tick.put Tick.mach kv clock].
      rewrite lookup_insert_eq. reflexivity.
    - intros Hw. destruct (tick_store _ _ _ _ Hinv) as [[_ H] | [H _]];
        [exact H | contradiction].
    - pose proof (triggers_bounded env urls m s Hreach). lia. }
  destruct (Tick.probes s !! i) as [[url st]|] eqn:Hi.
  - pose proof (tick_history _ _ _ _ Hinv i url st Hi) as Hh.
    pose proof (probe_of_list env urls m s i url st Hinv Hi) as Hurl.
    destruct (history_writes env url st _ Hh) as (Hw1 & Hw2 & Hw3).
    split.
    { destruct (history_triggers env url st _ Hh) as [H | (Hr & Hinc & Ht)]; [left; exact H|].
      right. split; [exact Hr|]. exists url, (deploy_request env url).
      split; [exact Hurl|]. split; [exact Hinc|]. split; [exact Ht|].
      apply deploy_request_described. }
    split; [exact Hw1|]. split; [exact Hw2|].
    split; [|exact Hsteps].
    intros r Hr Hs. destruct (Hw3 r Hr Hs) as [H | ->]; [left; exact H|].
    right. exists url. reflexivity.
  - rewrite (tick_others _ _ _ _ Hinv i Hi).
    split; [left; split; [reflexivity | no_read]|].
    split; [left; reflexivity|]. split; [no_write|].
    split; [|exact Hsteps].
    intros r H. inversion H.
Qed.

Lemma raced_run :
  run_of_inputs sample_env two_failures (Tick.start [galaxy_url; mirror_url] fresh_machine)
  = Some (state_after two_failures).
Proof. reflexivity. Qed.

Lemma refused_run :
  run_of_inputs sample_env failure_after_refusal
    (Tick.start [galaxy_url; mirror_url] fresh_machine)
  = Some (state_after failure_after_refusal).
Proof. reflexivity. Qed.

Lemma raced_state_reachable :
  Tick.reachable sample_env [galaxy_url; mirror_url] fresh_machine (state_after two_failures).
Proof. apply state_after_reachable. rewrite raced_run. eexists. reflexivity. Defined.

Lemma refused_state_reachable :
  Tick.reachable sample_env [galaxy_url; mirror_url] fresh_machine
    (state_after failure_after_refusal).
Proof. apply state_after_reachable. rewrite refused_run. eexists. reflexivity. Defined.

Lemma absent_flag_triggers_once_witness :
  Tick.handleScheduled sample_env [galaxy_url; mirror_url] fresh_machine
    (state_after two_failures)
  /\ read_no_flag (own 1 (state_after two_failures))
  /\ exists rq,
       triggers (own 1 (state_after two_failures)) = [rq]
       /\ described_request sample_env "galaxy_final_retry_failed" mirror_url rq.
Proof.
  split; [exact raced_state_reachable|].
  destruct (absent_flag_triggers_once sample_env [galaxy_url; mirror_url] fresh_machine
              (state_after two_failures) 1%nat raced_state_reachable)
    as [[[Hnone _] | (Hread & url & rq & Hurl & _ & Ht & Hrq)] _].
  - vm_compute in Hnone. discriminate Hnone.
  - injection Hurl as <-. split; [exact Hread|]. exists rq. split; [exact Ht | exact Hrq].
Defined.

(** C3, as stated, fails: in one run of [handleScheduled] over two
    URLs containing [galaxy], begun with the record absent, the deploy
    request is sent twice. Each probe is answered 404 and each handler
    finds the record absent: in the first run because no answer of the
    deploy interface is there yet, in the second because the deploy
    interface has answered the first request with 500. *)
Lemma two_triggers_in_one_tick :
  flag_absent fresh_machine
  /\ includes galaxy_url "galaxy" = true /\ includes mirror_url "galaxy" = true
  /\ Forall (fun inputs =>
       Tick.handleScheduled sample_env [galaxy_url; mirror_url] fresh_machine
         (state_after inputs)
       /\ flag_absent (Tick.mach (state_after inputs))
       /\ read_no_flag (own 0 (state_after inputs))
       /\ read_no_flag (own 1 (state_after inputs))
       /\ exists rq rq',
            triggers (all_notes (state_after inputs)) = [rq; rq']
            /\ described_request sample_env "galaxy_final_retry_failed" galaxy_url rq
            /\ described_request sample_env "galaxy_final_retry_failed" mirror_url rq')
     [two_failures; failure_after_refusal].
Proof.
  assert (Habs : flag_absent fresh_machine) by (left; reflexivity).
  split; [exact Habs|]. split; [reflexivity|]. split; [reflexivity|].
  constructor; [|constructor; [|constructor]].
  - split; [exact raced_state_reachable|]. split; [left; reflexivity|].
    split; [exists None; split; [apply (list_elem_of_lookup_2 _ 3%nat); reflexivity | discriminate]|].
    split; [exists None; split; [apply (list_elem_of_lookup_2 _ 3%nat); reflexivity | discriminate]|].
    eexists _, _. split; [reflexivity|]. split; repeat split.
  - split; [exact refused_state_reachable|]. split; [left; reflexivity|].
    split; [exists None; split; [apply (list_elem_of_lookup_2 _ 3%nat); reflexivity | discriminate]|].
    split; [exists None; split; [apply (list_elem_of_lookup_2 _ 3%nat); reflexivity | discriminate]|].
    eexists _, _. split; [reflexivity|]. split; repeat split.
Qed.

(** ** The deploy receiver *)

Section Receiver.
Variable net : nat -> http_request -> fetch_result.
Variable encodeURIComponent : string -> string.
Variable updateTimestampSection : Codec.text -> Codec.text.

Local Abbreviation handle := (Deploy.fetch net encodeURIComponent updateTimestampSection).
Local Abbreviation run := (Deploy.run net encodeURIComponent updateTimestampSection).

Lemma authorized_passes req env :
  authorized req env ->
  String.eqb (Deploy.in_pathname req) "/deploy" && String.eqb (Deploy.in_method req) "POST" = true
  /\ negb (Deploy.truthy (Deploy.in_header req "X-Deploy-Token"))
     || Deploy.differs (Deploy.in_header req "X-Deploy-Token") (Deploy.DEPLOY_TOKEN env) = false.
Proof.
  intros (Hp & Hm & token & Hne & Hh & Ht). rewrite Hp, Hm, Hh, Ht. simpl.
  split; [reflexivity|].
  rewrite String.eqb_refl. apply String.eqb_neq in Hne. rewrite Hne. reflexivity.
Qed.

(** An authorized request is answered from the result of [run]. *)
Lemma handle_authorized req env m :
  authorized req env ->
  handle req env m =
  match run env m with
  | (Return result, m', t) =>
      (Deploy.json_response (JObj [("ok", JBool true); ("result", result)]) 200, m', t)
  | (Throw err, m', t) =>
      (Deploy.json_response
         (JObj [("ok", JBool false); ("error", JStr (err_message err))]) 500, m', t)
  end.
Proof.
  intros Ha. destruct (authorized_passes req env Ha) as [H1 H2].
  unfold Deploy.fetch. rewrite H1, H2. reflexivity.
Qed.

(** What [fetch] returns for a request it does not pass on to [run]. *)
Lemma handle_unauthorized req env m :
  Deploy.in_pathname req = "/deploy" -> Deploy.in_method req = "POST" ->
  Deploy.in_header req "X-Deploy-Token" = None
  \/ Deploy.in_header req "X-Deploy-Token" <> Deploy.DEPLOY_TOKEN env ->
  handle req env m =
  (Deploy.json_response (JObj [("ok", JBool false); ("error", JStr "Unauthorized")]) 401,
   m, []).
Proof.
  intros Hp Hm Htok. unfold Deploy.fetch. rewrite Hp, Hm. simpl.
  destruct (Deploy.in_header req "X-Deploy-Token") as [h|] eqn:Hh; [|reflexivity].
  destruct Htok as [Habs | Hdiff]; [discriminate|].
  simpl. destruct (String.eqb_spec h EmptyString); [reflexivity|]. simpl.
  destruct (Deploy.DEPLOY_TOKEN env) as [d|]; [|reflexivity].
  simpl. destruct (String.eqb_spec h d); [congruence | reflexivity].
Qed.

Lemma handle_unknown req env m :
  Deploy.in_pathname req <> "/deploy" \/ Deploy.in_method req <> "POST" ->
  handle req env m =
  ({| Deploy.rs_status := 404;
      Deploy.rs_headers := [("Content-Type", "text/plain;charset=UTF-8")];
      Deploy.rs_body := Deploy.Text "Not Found" |}, m, []).
Proof.
  intros Hother. unfold Deploy.fetch.
  destruct (String.eqb_spec (Deploy.in_pathname req) "/deploy");
    destruct (String.eqb_spec (Deploy.in_method req) "POST"); simpl;
    try reflexivity.
  destruct Hother; contradiction.
Qed.

(** C8. A [POST /deploy] whose [X-Deploy-Token] header is missing or
    differs from [DEPLOY_TOKEN] is answered with the status 401 and
    the body [{ok: false, error: "Unauthorized"}], sent as JSON; the
    store is neither read nor written and no request is sent. A
    request to another path or with another method is answered with
    the status 404 and the text [Not Found], and nothing else is
    done. *)
Theorem unauthorized_is_401_unknown_is_404 req env m :
  (Deploy.in_pathname req = "/deploy" -> Deploy.in_method req = "POST" ->
   Deploy.in_header req "X-Deploy-Token" = None
   \/ Deploy.in_header req "X-Deploy-Token" <> Deploy.DEPLOY_TOKEN env ->
   Deploy.rs_status (handle req env m).1.1 = 401
   /\ Deploy.rs_body (handle req env m).1.1
      = Deploy.Json (JObj [("ok", JBool false); ("error", JStr "Unauthorized")])
   /\ header (handle req env m).1.1 "content-type" = Some "application/json"
   /\ (handle req env m).1.2 = m
   /\ (handle req env m).2 = [])
  /\ (Deploy.in_pathname req <> "/deploy" \/ Deploy.in_method req <> "POST" ->
      Deploy.rs_status (handle req env m).1.1 = 404
      /\ Deploy.rs_body (handle req env m).1.1 = Deploy.Text "Not Found"
      /\ header (handle req env m).1.1 "content-type" = Some "text/plain;charset=UTF-8"
      /\ (handle req env m).1.2 = m
      /\ (handle req env m).2 = []).
Proof.
  split.
  - intros Hp Hm Htok. rewrite (handle_unauthorized req env m Hp Hm Htok).
    repeat split; reflexivity.
  - intros Hother. rewrite (handle_unknown req env m Hother).
    repeat split; reflexivity.
Qed.

Lemma fetches_lookup_nil (i : nat) rq : (@nil http_request) !! i = Some rq -> False.
Proof. rewrite lookup_nil. discriminate. Qed.

(** Case analysis along the body of [run], innermost test first. *)
Ltac split_innermost x :=
  lazymatch x with
  | context [match ?y with _ => _ end] => split_innermost y
  | _ => destruct x eqn:?
  end.

Ltac split_run :=
  repeat (match goal with
          | |- context [match ?x with _ => _ end] => split_innermost x
          end; simpl).

Ltac refute_refused_call :=
  let i := fresh "i" in
  let Hi := fresh "Hi" in
  let Hnet := fresh "Hnet" in
  let Hok := fresh "Hok" in
  intros (i & ? & ? & ? & Hi & Hnet & Hok); exfalso;
  repeat match goal with
         | H : negb _ = false |- _ => apply negb_false_iff in H
         end;
  destruct i as [|[|i]]; simpl in Hi;
  first [ discriminate Hi
        | rewrite lookup_nil in Hi; discriminate Hi
        | injection Hi as <-; rewrite Nat.add_0_r in Hnet; congruence
        | injection Hi as <-; rewrite Nat.add_1_r in Hnet; congruence ].

Lemma configured_dec env : {configured env} + {~ configured env}.
Proof.
  unfold configured.
  destruct (Deploy.truthy (Deploy.GITHUB_TOKEN env));
    destruct (Deploy.truthy (Deploy.GH_CONTENT_API_URL env));
    first [left; split; reflexivity | right; intros [? ?]; discriminate].
Qed.

(** When [run] has its configuration, a refused call makes it throw
    before the flag is written. *)
Lemma run_refused env m :
  configured env ->
  refused_call net m (trace_of (run env m)) ->
  exists err,
    outcome_of (run env m) = Throw err
    /\ puts (trace_of (run env m)) = []
    /\ kv (machine_of (run env m)) = kv m.
Proof.
  intros [Htok Hurl].
  unfold Deploy.run. rewrite Htok, Hurl. simpl.
  unfold bind, kv_get, Deploy.getFile, Deploy.updateFile, bind, fetch, kv_put,
    ret, throw, trace_of, outcome_of, machine_of.
  simpl. split_run;
    first [ intros _; eexists; repeat split; reflexivity
          | refute_refused_call ].
Qed.

(** Without its configuration [run] throws at once. *)
Lemma run_unconfigured env m :
  ~ configured env ->
  run env m = (Throw (Error "必要的环境变量未配置"), m, []).
Proof.
  intros Hcfg. unfold Deploy.run.
  destruct (Deploy.truthy (Deploy.GITHUB_TOKEN env)) eqn:Htok; [|reflexivity].
  destruct (Deploy.truthy (Deploy.GH_CONTENT_API_URL env)) eqn:Hurl; [|reflexivity].
  exfalso. apply Hcfg. split; assumption.
Qed.

(** C9. On an authorized request, when [GITHUB_TOKEN] or
    [GH_CONTENT_API_URL] is missing, or when a call to the content API
    (the read or the update) is answered with a status outside
    200..299, the receiver answers 500 with [{ok: false, error:
    message}]; it does not write the flag and the store is as it
    was. *)
Theorem failed_action_is_500 req env m :
  authorized req env ->
  ~ configured env \/ refused_call net m (handle req env m).2 ->
  failure_answer (handle req env m) m.
Proof.
  intros Ha Hfail. rewrite (handle_authorized req env m Ha) in *.
  destruct (configured_dec env) as [Hcfg | Hcfg].
  - destruct Hfail as [Hno | Href]; [contradiction|].
    assert (Href' : refused_call net m (trace_of (run env m))).
    { unfold trace_of. destruct (run env m) as [[[res|err] m'] t]; exact Href. }
    destruct (run_refused env m Hcfg Href') as (err & Ho & Hp & Hk).
    unfold outcome_of, trace_of, machine_of in *.
    destruct (run env m) as [[o m'] t]. simpl in *. subst o.
    split; [reflexivity|]. split; [eexists; reflexivity|]. split; assumption.
  - rewrite (run_unconfigured env m Hcfg).
    split; [reflexivity|]. split; [eexists; reflexivity|]. split; reflexivity.
Qed.

(** The write of the flag by the receiver (the end of [run]): with the
    flag absent or expired, the file read, rewritten to a different
    text and committed, [run] writes [flag = deployed] with
    [expirationTtl] 10800 after the two calls to the content API, and
    returns [{ deployed: true }]. *)
Lemma run_deployed_sets_flag env m st file content64 rawContent new64 st' payload :
  configured env -> flag_absent m ->
  net (sent m)
    (Deploy.getFile_request encodeURIComponent
       (Deploy.text_of (Deploy.GITHUB_TOKEN env))
       (Deploy.text_of (Deploy.GH_CONTENT_API_URL env)) (Deploy.GH_BRANCH env))
    = Responded st (Some file) ->
  ok st = true ->
  Deploy.field "content" file = Some (JStr content64) ->
  Codec.base64DecodeUtf8 content64 = Some rawContent ->
  updateTimestampSection rawContent <> rawContent ->
  Codec.base64EncodeUtf8 (updateTimestampSection rawContent) = Some new64 ->
  net (S (sent m))
    (Deploy.updateFile_request
       (Deploy.text_of (Deploy.GITHUB_TOKEN env))
       (Deploy.text_of (Deploy.GH_CONTENT_API_URL env)) (Deploy.GH_BRANCH env)
       (Deploy.field "sha" file) new64)
    = Responded st' payload ->
  ok st' = true ->
  outcome_of (run env m) = Return (JObj [("deployed", JBool true)])
  /\ puts (trace_of (run env m)) = [("flag", "deployed", 10800)]
  /\ kv (machine_of (run env m))
     = <["flag" := ("deployed", clock m + 10800 * 1000)]> (kv m)
  /\ length (fetches (trace_of (run env m))) = 2%nat.
Proof.
  intros [Htok Hurl] Habs Hget Hst Hcontent Hdecode Hnew Hencode Hput Hst'.
  unfold Deploy.run. rewrite Htok, Hurl. simpl.
  unfold bind, kv_get, Deploy.FLAG_KEY.
  rewrite (lookup_absent m Habs).
  unfold Deploy.getFile, bind, fetch. simpl.
  rewrite Hget. simpl. rewrite Hst. simpl.
  rewrite Hcontent, Hdecode.
  rewrite bool_decide_eq_false_2 by exact Hnew.
  unfold Deploy.updateFile. rewrite Hencode.
  unfold bind, fetch, kv_put, ret. simpl. rewrite Hput. simpl. rewrite Hst'. simpl.
  repeat split; reflexivity.
Qed.

End Receiver.

Lemma unauthorized_is_401_unknown_is_404_witness :
  Deploy.rs_status
    (Deploy.fetch (always 200) id sample_update
       (request_with "POST" "/deploy" (Some "guess")) sample_denv fresh_machine).1.1 = 401
  /\ Deploy.rs_status
       (Deploy.fetch (always 200) id sample_update
          (request_with "GET" "/deploy" (Some "s3cret")) sample_denv fresh_machine).1.1 = 404.
Proof.
  split.
  - apply (unauthorized_is_401_unknown_is_404 (always 200) id sample_update
             (request_with "POST" "/deploy" (Some "guess")) sample_denv fresh_machine);
      [reflexivity | reflexivity | right; discriminate].
  - apply (unauthorized_is_401_unknown_is_404 (always 200) id sample_update
             (request_with "GET" "/deploy" (Some "s3cret")) sample_denv fresh_machine).
    right. discriminate.
Defined.

Lemma sample_request_authorized : authorized sample_request sample_denv.
Proof.
  split; [reflexivity|]. split; [reflexivity|].
  exists "s3cret". split; [discriminate|]. split; reflexivity.
Defined.

Lemma failed_action_is_500_witness :
  authorized sample_request sample_denv
  /\ refused_call (always 403) fresh_machine
       (Deploy.fetch (always 403) id sample_update sample_request sample_denv fresh_machine).2
  /\ failure_answer
       (Deploy.fetch (always 403) id sample_update sample_request sample_denv fresh_machine)
       fresh_machine.
Proof.
  assert (Href : refused_call (always 403) fresh_machine
            (Deploy.fetch (always 403) id sample_update sample_request sample_denv
               fresh_machine).2).
  { exists 0%nat,
      (Deploy.getFile_request id "ghp_token" "https://api.github.test/contents/README.md"
         (Some "main")), 403, None.
    split; [reflexivity|]. split; reflexivity. }
  split; [exact sample_request_authorized|]. split; [exact Href|].
  apply (failed_action_is_500 (always 403) id sample_update sample_request sample_denv
           fresh_machine sample_request_authorized).
  right. exact Href.
Defined.





(** ** The task pool *)

Lemma ordered_subset ex ex' js : ex' ⊆ ex -> ordered ex js -> ordered ex' js.
Proof.
  revert ex ex'. induction js as [|j js IH]; intros ex ex' Hsub H; [exact I|].
  destruct j as [p|p|r p|p|]; cbn [ordered] in *.
  - eapply IH; eassumption.
  - eapply IH; [|exact H]. set_solver.
  - destruct H as [Hp H]. split; [set_solver|]. eapply IH; eassumption.
  - eapply IH; eassumption.
  - eapply IH; eassumption.
Qed.

Lemma ordered_add_fresh t ex js :
  Forall (fun j => job_promise j <> Some t) js ->
  ordered ex js -> ordered ({[t]} ∪ ex) js.
Proof.
  revert ex. induction js as [|j js IH]; intros ex Hfresh H; [exact I|].
  apply Forall_cons in Hfresh as [Hj Hfresh].
  destruct j as [p|p|r p|p|]; cbn [ordered job_promise] in *.
  - apply IH; assumption.
  - assert (p <> t) by congruence.
    eapply ordered_subset; [|apply (IH (ex ∖ {[p]})); assumption]. set_solver.
  - destruct H as [Hp H]. assert (p <> t) by congruence.
    split; [set_solver|]. apply IH; assumption.
  - apply IH; assumption.
  - apply IH; assumption.
Qed.

Lemma ordered_snoc ex js j :
  ordered ex js ->
  (forall r p, j = Pool.Race r p -> p ∈ ex -> Pool.Delete p ∈ js) ->
  ordered ex (js ++ [j]).
Proof.
  revert ex. induction js as [|j0 js IH]; intros ex H Hj.
  - destruct j as [p|p|r p|p|]; cbn [app ordered]; try exact I.
    split; [|exact I]. intros Hp. specialize (Hj r p eq_refl Hp). set_solver.
  - destruct j0 as [q|q|r0 q|q|]; cbn [app ordered] in *.
    + apply IH; [exact H|]. intros r p -> Hp.
      specialize (Hj r p eq_refl Hp). set_solver.
    + apply IH; [exact H|]. intros r p -> Hp.
      assert (p <> q) by set_solver.
      specialize (Hj r p eq_refl ltac:(set_solver)).
      apply elem_of_cons in Hj as [Hj | Hj]; [congruence | exact Hj].
    + destruct H as [Hq H]. split; [exact Hq|]. apply IH; [exact H|].
      intros r p -> Hp. specialize (Hj r p eq_refl Hp). set_solver.
    + apply IH; [exact H|]. intros r p -> Hp.
      specialize (Hj r p eq_refl Hp). set_solver.
    + apply IH; [exact H|]. intros r p -> Hp.
      specialize (Hj r p eq_refl Hp). set_solver.
Qed.

(** The reactions of a promise, enqueued behind its [Delete]. *)
Lemma ordered_reactions ex js p l :
  ordered ex js ->
  Forall (fun j => job_promise j = Some p) l ->
  ordered ex (js ++ Pool.Delete p :: l).
Proof.
  intros H Hl.
  assert (Htail : forall ex', p ∉ ex' -> ordered ex' l).
  { clear H. induction Hl as [|j l Hj _ IH]; intros ex' Hp; [exact I|].
    destruct j as [q|q|r q|q|]; cbn [ordered job_promise] in *; try discriminate.
    - apply IH. set_solver.
    - injection Hj as ->. split; [exact Hp|]. apply IH. exact Hp.
    - apply IH. exact Hp. }
  revert ex H. induction js as [|j0 js IH]; intros ex H.
  - cbn [app ordered]. apply Htail. set_solver.
  - destruct j0 as [q|q|r0 q|q|]; cbn [app ordered] in *; try (apply IH; exact H).
    destruct H as [Hq H]. split; [exact Hq|]. apply IH. exact H.
Qed.

Lemma resumes_app js js' : resumes (js ++ js') = (resumes js + resumes js')%nat.
Proof. unfold resumes. rewrite List.filter_app, length_app. reflexivity. Qed.

Lemma resumes_promise js :
  Forall (fun j => exists p, job_promise j = Some p) js -> resumes js = 0%nat.
Proof.
  induction 1 as [|j js [p Hj] _ IH]; [reflexivity|].
  destruct j; try discriminate; exact IH.
Qed.

Lemma enters_app js js' : enters (js ++ js') = (enters js ++ enters js')%list.
Proof. unfold enters. apply omap_app. Qed.

Lemma enters_promise js :
  Forall (fun j => exists p, job_promise j = Some p) js -> enters js = [].
Proof.
  induction 1 as [|j js [p Hj] _ IH]; [reflexivity|].
  destruct j; try discriminate; exact IH.
Qed.

Lemma size_add_one (t : nat) (X : gset nat) : (size ({[t]} ∪ X) <= S (size X))%nat.
Proof.
  rewrite size_union_alt, size_singleton.
  assert (Hsub : X ∖ {[t]} ⊆ X) by set_solver.
  apply subseteq_size in Hsub. lia.
Qed.

Lemma size_remove_one (t : nat) (X Y : gset nat) :
  t ∈ X -> Y ⊆ X -> t ∉ Y -> (size Y < size X)%nat.
Proof.
  intros Ht Hsub Hnot.
  assert (HY : Y ⊆ X ∖ {[t]}) by set_solver.
  apply subseteq_size in HY.
  rewrite size_difference, size_singleton in HY by set_solver.
  assert (size X <> 0%nat); [|lia].
  intros Hz. apply size_empty_inv in Hz. set_solver.
Qed.

Ltac pool_fields :=
  cbn [Pool.pc Pool.tasks Pool.executing Pool.queued Pool.running Pool.finished
       Pool.settled Pool.reactions Pool.jobs Pool.won Pool.waiting Pool.races
       Pool.set_pc Pool.set_tasks Pool.set_jobs Pool.enqueue Pool.idle
       Pool.finish Pool.fulfil Pool.add_task] in *.

Lemma same_sets_refl s : same_sets s s.
Proof. repeat split. Qed.

Lemma react_same p j s : same_sets s (Pool.react p j s).
Proof.
  unfold Pool.react. destruct (decide (p ∈ Pool.settled s)); repeat split.
Qed.

Lemma same_sets_trans s1 s2 s3 : same_sets s1 s2 -> same_sets s2 s3 -> same_sets s1 s3.
Proof.
  unfold same_sets. intros (?&?&?&?&?&?&?&?&?&?) (?&?&?&?&?&?&?&?&?&?).
  repeat split; congruence.
Qed.

Lemma fold_react_preserves (P : Pool.pool -> Prop) (j : nat -> Pool.job) s l :
  (forall acc p, P acc -> same_sets s acc -> p ∈ Pool.executing s ->
                 P (Pool.react p (j p) acc)) ->
  (forall p, p ∈ l -> p ∈ Pool.executing s) ->
  forall acc, P acc -> same_sets s acc ->
  P (foldl (fun acc p => Pool.react p (j p) acc) acc l)
  /\ same_sets s (foldl (fun acc p => Pool.react p (j p) acc) acc l).
Proof.
  intros Hstep. induction l as [|p l IH]; intros Hl acc Hacc Hsame.
  - split; assumption.
  - cbn [foldl]. apply IH.
    + intros q Hq. apply Hl. right. exact Hq.
    + apply Hstep; [assumption..|]. apply Hl. left.
    + eapply same_sets_trans; [exact Hsame|]. apply react_same.
Qed.

(** What holds before a subscription holds after it, when each single
    reaction keeps it. *)
Lemma subscribe_preserves (P : Pool.pool -> Prop) j s :
  P s ->
  (forall acc p, P acc -> same_sets s acc -> p ∈ Pool.executing s ->
                 P (Pool.react p (j p) acc)) ->
  P (Pool.subscribe j s) /\ same_sets s (Pool.subscribe j s).
Proof.
  intros Hs Hstep. unfold Pool.subscribe.
  apply fold_react_preserves; [exact Hstep| |exact Hs|apply same_sets_refl].
  intros p. apply elem_of_elements.
Qed.

Lemma react_resumes p j s :
  job_promise j = Some p ->
  resumes (Pool.jobs (Pool.react p j s)) = resumes (Pool.jobs s).
Proof.
  intros Hj. unfold Pool.react. destruct (decide (p ∈ Pool.settled s)); [|reflexivity].
  pool_fields. rewrite resumes_app.
  destruct j; try discriminate; cbn; lia.
Qed.

Lemma react_base limit n s p j :
  pool_base limit n s -> p ∈ Pool.executing s ->
  job_promise j = Some p -> race_below (Pool.races s) j ->
  pool_base limit n (Pool.react p j s).
Proof.
  intros [Hin Hset Hapart Hsize Hjobs [Hnd Hent] Hord Hdel Hreact Hreg [Hrj Hrr]
          Hwon Hres Hall Hpend Hndt] Hp Hj Hrace.
  unfold Pool.react. destruct (decide (p ∈ Pool.settled s)) as [Hps|Hps].
  - split; pool_fields; try assumption.
    + apply Forall_app. split; [exact Hjobs|]. constructor; [|constructor].
      intros q Hq. congruence.
    + rewrite enters_app, (enters_promise [j]), app_nil_r
        by (constructor; [eauto|constructor]).
      split; assumption.
    + apply ordered_snoc; [exact Hord|]. intros r q -> Hq.
      injection Hj as ->. apply Hdel; assumption.
    + intros q Hq1 Hq2. apply elem_of_app. left. apply Hdel; assumption.
    + split; [|exact Hrr]. apply Forall_app. split; [exact Hrj|].
      constructor; [exact Hrace|constructor].
    + rewrite resumes_app, (resumes_promise [j]) by (constructor; [eauto|constructor]).
      lia.
  - destruct (Hreg p Hp Hps) as [l Hl].
    destruct (Hreact p l Hl) as (_ & l' & -> & Hl').
    assert (Htot : Pool.reactions s !!! p = Pool.Delete p :: l')
      by (rewrite lookup_total_alt, Hl; reflexivity).
    split; pool_fields; try assumption; try (split; assumption).
    + rewrite Htot. apply map_Forall_insert_2; [|exact Hreact].
      split; [exact Hps|]. exists (l' ++ [j])%list. split; [reflexivity|].
      apply Forall_app. split; [exact Hl'|]. constructor; [exact Hj|constructor].
    + intros q Hq1 Hq2. destruct (decide (q = p)) as [->|Hne].
      * rewrite lookup_insert_eq. eauto.
      * rewrite lookup_insert_ne by congruence. apply Hreg; assumption.
    + split; [exact Hrj|]. rewrite Htot.
      apply map_Forall_insert_2; [|exact Hrr].
      specialize (Hrr p _ Hl). cbn in Hrr.
      apply Forall_app. split; [exact Hrr|]. constructor; [exact Hrace|constructor].
Qed.

Lemma react_within r snapshot p j s :
  race_within r snapshot j ->
  Forall (race_within r snapshot) (Pool.jobs s) ->
  map_Forall (fun _ l => Forall (race_within r snapshot) l) (Pool.reactions s) ->
  Forall (race_within r snapshot) (Pool.jobs (Pool.react p j s))
  /\ map_Forall (fun _ l => Forall (race_within r snapshot) l)
       (Pool.reactions (Pool.react p j s)).
Proof.
  intros Hj Hjobs Hreact. unfold Pool.react.
  destruct (decide (p ∈ Pool.settled s)); pool_fields.
  - split; [|exact Hreact]. apply Forall_app. split; [exact Hjobs|].
    constructor; [exact Hj|constructor].
  - split; [exact Hjobs|]. apply map_Forall_insert_2; [|exact Hreact].
    apply Forall_app. split; [|constructor; [exact Hj|constructor]].
    rewrite lookup_total_alt. destruct (Pool.reactions s !! p) as [l|] eqn:Hl; cbn.
    + apply (Hreact p l Hl).
    + constructor.
Qed.

Lemma subscribe_base limit n s (j : nat -> Pool.job) :
  pool_base limit n s ->
  (forall p, job_promise (j p) = Some p) ->
  (forall p, race_below (Pool.races s) (j p)) ->
  (pool_base limit n (Pool.subscribe j s)
   /\ resumes (Pool.jobs (Pool.subscribe j s)) = resumes (Pool.jobs s))
  /\ same_sets s (Pool.subscribe j s).
Proof.
  intros Hbase Hj Hrace.
  apply (subscribe_preserves
           (fun acc => pool_base limit n acc
                       /\ resumes (Pool.jobs acc) = resumes (Pool.jobs s))).
  - split; [exact Hbase | reflexivity].
  - intros acc p [Hacc Hres] Hsame Hp.
    destruct Hsame as (_ & _ & Hex & _ & _ & _ & _ & _ & _ & Hraces).
    split.
    + apply react_base; [exact Hacc | rewrite Hex; exact Hp | apply Hj |].
      rewrite Hraces. apply Hrace.
    + rewrite react_resumes by apply Hj. exact Hres.
Qed.

Lemma subscribe_within r snapshot s (j : nat -> Pool.job) :
  (forall p, p ∈ Pool.executing s -> race_within r snapshot (j p)) ->
  Forall (race_within r snapshot) (Pool.jobs s) ->
  map_Forall (fun _ l => Forall (race_within r snapshot) l) (Pool.reactions s) ->
  Forall (race_within r snapshot) (Pool.jobs (Pool.subscribe j s))
  /\ map_Forall (fun _ l => Forall (race_within r snapshot) l)
       (Pool.reactions (Pool.subscribe j s)).
Proof.
  intros Hj Hjobs Hreact.
  apply (subscribe_preserves
           (fun acc => Forall (race_within r snapshot) (Pool.jobs acc)
                       /\ map_Forall (fun _ l => Forall (race_within r snapshot) l)
                            (Pool.reactions acc))).
  - split; assumption.
  - intros acc p [H1 H2] _ Hp. apply react_within; [apply Hj; exact Hp | assumption..].
Qed.

(** The base invariant does not look at the position of the runner. *)
Lemma pool_base_set_pc limit n c s :
  pool_base limit n s -> pool_base limit n (Pool.set_pc c s).
Proof. intros []. split; assumption. Qed.

Lemma race_below_mono a b j : (a <= b)%nat -> race_below a j -> race_below b j.
Proof. intros Hab. destruct j; cbn; try tauto. lia. Qed.

(** One task joins the set. *)
Lemma add_task_base fl limit n t rest s :
  pool_base limit n (Pool.set_tasks (t :: rest) s) ->
  (size (Pool.executing s) < limit)%nat ->
  pool_base limit n (Pool.set_tasks rest (Pool.add_task fl t s)).
Proof.
  intros [Hin Hset Hapart Hsize Hjobs [Hnd Hent] Hord Hdel Hreact Hreg [Hrj Hrr]
          Hwon Hres Hall Hpend Hndt] Hlt.
  pool_fields.
  destruct (Hpend t ltac:(left)) as [Htex Htset].
  apply NoDup_cons in Hndt as [Htrest Hndt].
  assert (Hfresh : Forall (fun j => job_promise j <> Some t) (Pool.jobs s)).
  { eapply Forall_impl; [exact Hjobs|]. intros j Hj Heq. apply Htset, Hj, Heq. }
  pose proof (size_add_one t (Pool.executing s)) as Hadd.
  destruct Hapart as [Hap1 Hap2].
  split; pool_fields.
  - destruct fl; set_solver.
  - destruct fl; set_solver.
  - destruct fl; split; set_solver.
  - lia.
  - destruct fl; [exact Hjobs|]. apply Forall_app. split; [exact Hjobs|].
    constructor; [|constructor]. intros p Hp. discriminate.
  - destruct fl; [split; [exact Hnd | exact Hent]|].
    rewrite enters_app. cbn [enters omap]. split.
    + apply NoDup_app. split; [exact Hnd|]. split; [|apply NoDup_singleton].
      intros p Hp Hp'. apply list_elem_of_singleton in Hp' as ->.
      apply Hent in Hp. set_solver.
    + intros p Hp. apply elem_of_app in Hp as [Hp|Hp]; [apply Hent in Hp; set_solver|].
      apply list_elem_of_singleton in Hp as ->. set_solver.
  - destruct fl; [apply ordered_add_fresh; assumption|].
    apply ordered_snoc; [apply ordered_add_fresh; assumption|].
    intros r p Hrp. discriminate.
  - intros p Hp1 Hp2. assert (p <> t) by (intros ->; contradiction).
    assert (Hd : Pool.Delete p ∈ Pool.jobs s) by (apply Hdel; set_solver).
    destruct fl; [exact Hd|]. apply elem_of_app. left. exact Hd.
  - apply map_Forall_insert_2; [|exact Hreact].
    split; [exact Htset|]. exists []. split; [reflexivity | constructor].
  - intros p Hp1 Hp2. destruct (decide (p = t)) as [->|Hne].
    + rewrite lookup_insert_eq. eauto.
    + rewrite lookup_insert_ne by congruence. apply Hreg; set_solver.
  - split.
    + destruct fl; [exact Hrj|]. apply Forall_app. split; [exact Hrj|].
      constructor; [exact I | constructor].
    + apply map_Forall_insert_2; [|exact Hrr]. constructor; [exact I | constructor].
  - exact Hwon.
  - destruct fl; [exact Hres|]. rewrite resumes_app. cbn. lia.
  - intros i Hi. destruct (Hall i Hi) as [Hi'|Hi']; [|destruct fl; set_solver].
    apply elem_of_cons in Hi' as [-> | Hi']; [destruct fl; set_solver | left; exact Hi'].
  - intros t' Ht'. destruct (Hpend t' ltac:(right; exact Ht')) as [H1 H2].
    assert (t' <> t) by (intros ->; contradiction). split; set_solver.
  - exact Hndt.
Qed.

Lemma add_task_resumes fl t s :
  resumes (Pool.jobs (Pool.add_task fl t s)) = resumes (Pool.jobs s).
Proof.
  destruct fl; pool_fields; [reflexivity|]. rewrite resumes_app. cbn. lia.
Qed.

(** From the head of the loop to the next [await]. *)
Lemma run_loop_invariant fl limit n ts :
  (0 < limit)%nat ->
  forall s, pool_at_loop limit n ts s ->
            pool_invariant limit n (Pool.run_loop fl limit ts s).
Proof.
  intros Hpos. induction ts as [|t rest IH]; intros s (Hbase & Hlt & Hwon & Hwait & Hres).
  - (* the loop is over: [Promise.allSettled] *)
    cbn [Pool.run_loop]. unfold Pool.await_all.
    set (s1 := {| Pool.pc := Pool.AwaitAll; Pool.tasks := [];
                  Pool.executing := Pool.executing s; Pool.queued := Pool.queued s;
                  Pool.running := Pool.running s; Pool.finished := Pool.finished s;
                  Pool.settled := Pool.settled s; Pool.reactions := Pool.reactions s;
                  Pool.jobs := Pool.jobs s; Pool.won := Pool.won s;
                  Pool.waiting := Pool.executing s; Pool.races := Pool.races s |}).
    assert (Hbase1 : pool_base limit n s1) by (destruct Hbase; split; assumption).
    destruct (subscribe_base limit n s1 Pool.All Hbase1
                ltac:(reflexivity) ltac:(intros p; exact I))
      as [[Hbase2 Hres2] Hsame].
    destruct Hsame as (Hpc & Htasks & Hex & Hq & Hr & Hf & Hs & Hw & Hwt & Hrc).
    subst s1. pool_fields.
    destruct (decide (Pool.executing s = ∅)) as [Hempty|Hne].
    + split.
      * destruct Hbase2. split; pool_fields; try assumption.
        -- apply Forall_app. split; [assumption|].
           constructor; [intros p Hp; discriminate | constructor].
        -- rewrite enters_app. cbn [enters omap]. rewrite app_nil_r. assumption.
        -- apply ordered_snoc; [assumption|]. intros r p Hrp. discriminate.
        -- intros p Hp1 Hp2. apply elem_of_app. left. auto.
        -- destruct base_races0 as [H1 H2]. split; [|exact H2].
           apply Forall_app. split; [exact H1|]. constructor; [exact I|constructor].
        -- rewrite resumes_app, Hres2, Hres. cbn. lia.
      * unfold pool_control. pool_fields. rewrite Hpc.
        split; [exact Htasks|]. split; [rewrite Hrc, Hw; exact Hwon|].
        rewrite Hr, Hq, Hf, Hwt.
        split; [destruct Hbase; pool_fields; set_solver|].
        rewrite resumes_app, Hres2, Hres. cbn. split; [intros _; exact Hempty | reflexivity].
    + split; [exact Hbase2|].
      unfold pool_control. rewrite Hpc.
      split; [exact Htasks|]. split; [rewrite Hrc, Hw; exact Hwon|].
      rewrite Hr, Hq, Hf, Hwt.
      split; [destruct Hbase; pool_fields; set_solver|].
      rewrite Hres2, Hres. split; [discriminate | intros He; contradiction].
  - (* one more task *)
    cbn [Pool.run_loop].
    pose proof (add_task_base fl limit n t rest s Hbase Hlt) as Hbase1.
    set (s1 := Pool.add_task fl t s) in *.
    assert (Hex1 : Pool.executing s1 = {[t]} ∪ Pool.executing s) by reflexivity.
    assert (Hraces1 : Pool.races s1 = Pool.races s) by reflexivity.
    assert (Hwon1 : Pool.won s1 = Pool.won s) by reflexivity.
    assert (Hwait1 : Pool.waiting s1 = Pool.waiting s) by reflexivity.
    assert (Hres1 : resumes (Pool.jobs s1) = 0%nat)
      by (unfold s1; rewrite add_task_resumes; exact Hres).
    destruct (decide (limit <= size (Pool.executing s1))%nat) as [Hfull|Hroom].
    + (* the set is full: [Promise.race] *)
      unfold Pool.await_race.
      set (r := Pool.races s1).
      set (s2 := {| Pool.pc := Pool.AwaitRace r; Pool.tasks := rest;
                    Pool.executing := Pool.executing s1; Pool.queued := Pool.queued s1;
                    Pool.running := Pool.running s1; Pool.finished := Pool.finished s1;
                    Pool.settled := Pool.settled s1; Pool.reactions := Pool.reactions s1;
                    Pool.jobs := Pool.jobs s1; Pool.won := Pool.won s1;
                    Pool.waiting := Pool.waiting s1; Pool.races := S r |}).
      assert (Hbase2 : pool_base limit n s2).
      { destruct Hbase1 as [? ? ? ? ? ? ? ? ? ? [Hrj Hrr] Hw ? ? ? ?].
        unfold s2. split; pool_fields; try assumption.
        - split.
          + eapply Forall_impl; [exact Hrj|]. intros j. apply race_below_mono.
            unfold r. lia.
          + intros p l Hl. eapply Forall_impl; [exact (Hrr p l Hl)|].
            intros j. apply race_below_mono. unfold r. lia.
        - intros r' Hr'. specialize (Hw r' Hr'). unfold r. lia. }
      destruct (subscribe_base limit n s2 (Pool.Race r) Hbase2
                  ltac:(reflexivity) ltac:(intros p; cbn; lia))
        as [[Hbase3 Hres3] Hsame].
      destruct (subscribe_within r (Pool.executing s1) s2 (Pool.Race r)) as [Hw1 Hw2].
      { intros p Hp _. exact Hp. }
      { destruct Hbase1 as [? ? ? ? ? ? ? ? ? ? [Hrj Hrr] ? ? ? ? ?].
        eapply Forall_impl; [exact Hrj|]. intros j Hj. destruct j; cbn in *; try exact I.
        intros ->. unfold r in Hj. lia. }
      { destruct Hbase1 as [? ? ? ? ? ? ? ? ? ? [Hrj Hrr] ? ? ? ? ?].
        intros p l Hl. eapply Forall_impl; [exact (Hrr p l Hl)|].
        intros j Hj. destruct j; cbn in *; try exact I.
        intros ->. unfold r in Hj. lia. }
      destruct Hsame as (Hpc & Htasks & Hex & Hq & Hrn & Hf & Hs & Hw & Hwt & Hrc).
      split; [exact Hbase3|].
      unfold pool_control. rewrite Hpc. subst s2. pool_fields.
      rewrite Hrc, Hw, Hwt, Hex, Hres3.
      assert (Hnotwon : r ∉ Pool.won s1).
      { intros Hin. destruct Hbase1. pool_fields.
        specialize (base_won0 r Hin). unfold r in base_won0. lia. }
      split; [lia|].
      split; [intros r' Hr' Hne; rewrite Hwon1; apply Hwon; rewrite <- Hraces1;
              unfold r in *; lia|].
      split; [rewrite Hwait1; exact Hwait|].
      split; [rewrite Hres1; split; [discriminate | intros; contradiction]|].
      split; [intros; contradiction|].
      exists (Pool.executing s1). split; [reflexivity|].
      split; [destruct Hbase1; pool_fields; assumption|]. split; assumption.
    + apply IH. split; [exact Hbase1|]. split; [lia|].
      split; [rewrite Hraces1, Hwon1; exact Hwon|]. split; [rewrite Hwait1; exact Hwait|].
      exact Hres1.
Qed.

Ltac open_base H :=
  destruct H as [Hin Hset [Hap1 Hap2] Hsize Hjobs [Hnd Hent] Hord Hdel Hreact Hreg
                 [Hrj Hrr] Hwon Hres Hall Hpend Hndt].

(** What the queue keeps when its first job is taken. *)
Lemma queue_tail limit n s j js :
  pool_base limit n s -> Pool.jobs s = j :: js ->
  Forall (fun j => forall p, job_promise j = Some p -> p ∈ Pool.settled s) js
  /\ NoDup (enters js)
  /\ (forall p, p ∈ enters js -> p ∈ Pool.queued s)
  /\ Forall (race_below (Pool.races s)) js
  /\ (forall q, q ∈ Pool.settled s -> q ∈ Pool.executing s ->
                j = Pool.Delete q \/ Pool.Delete q ∈ js)
  /\ (resumes js <= resumes (j :: js) <= 1)%nat.
Proof.
  intros Hbase Hq. open_base Hbase. rewrite Hq in *.
  apply Forall_cons in Hjobs as [_ Hjobs]. apply Forall_cons in Hrj as [_ Hrj].
  split; [exact Hjobs|].
  assert (Hsub : forall p, p ∈ enters js -> p ∈ enters (j :: js)).
  { intros p Hp. destruct j; cbn [enters omap] in *; try exact Hp. right. exact Hp. }
  split.
  { destruct j; cbn [enters omap] in Hnd; try exact Hnd.
    apply NoDup_cons in Hnd as [_ Hnd]. exact Hnd. }
  split; [intros p Hp; apply Hent, Hsub, Hp|].
  split; [exact Hrj|].
  split.
  { intros q Hq1 Hq2. specialize (Hdel q Hq1 Hq2).
    apply elem_of_cons in Hdel as [Hd|Hd]; [left; congruence | right; exact Hd]. }
  split; [|exact Hres].
  change (j :: js) with ([j] ++ js)%list. rewrite resumes_app. lia.
Qed.

Lemma job_enter_invariant fl limit n s p js :
  pool_invariant limit n s -> Pool.jobs s = Pool.Enter p :: js ->
  pool_invariant limit n (Pool.exec fl limit (Pool.Enter p) (Pool.set_jobs js s)).
Proof.
  intros [Hbase Hctl] Hq.
  destruct (queue_tail limit n s _ js Hbase Hq) as (Tjobs & Tnd & Tent & Trj & Tdel & Tres).
  open_base Hbase. rewrite Hq in *.
  assert (Hp : p ∈ Pool.queued s) by (apply Hent; cbn; left).
  assert (Hpn : p ∉ enters js)
    by (cbn [enters omap] in Hnd; apply NoDup_cons in Hnd as [Hpn _]; exact Hpn).
  cbn [ordered] in Hord. cbn [Pool.exec].
  split.
  - split; pool_fields; try assumption.
    + set_solver.
    + set_solver.
    + split; set_solver.
    + split; [exact Tnd|]. intros q Hq'. specialize (Tent q Hq').
      assert (q <> p) by (intros ->; contradiction). set_solver.
    + intros q Hq1 Hq2. destruct (Tdel q Hq1 Hq2) as [?|?]; [discriminate|assumption].
    + split; assumption.
    + intros i Hi. destruct (decide (i = p)) as [->|Hne]; [set_solver|].
      destruct (Hall i Hi) as [?|[?|[?|[?|?]]]]; set_solver.
  - unfold pool_control in *. pool_fields. rewrite Hq in Hctl.
    destruct (Pool.pc s) as [r| |].
    + destruct Hctl as (H1 & H2 & H3 & H4 & H5 & snap & H6 & H7 & H8 & H9).
      repeat (split; [assumption|]).
      exists snap. apply Forall_cons in H8 as [_ H8]. repeat (split; [assumption|]).
      assumption.
    + destruct Hctl as (H1 & H2 & H3 & H4).
      split; [exact H1|]. split; [exact H2|]. split; [set_solver | exact H4].
    + destruct Hctl as (_ & _ & _ & _ & _ & Hque & _). rewrite Hque in Hp. set_solver.
Qed.

Lemma job_delete_invariant fl limit n s p js :
  pool_invariant limit n s -> Pool.jobs s = Pool.Delete p :: js ->
  pool_invariant limit n (Pool.exec fl limit (Pool.Delete p) (Pool.set_jobs js s)).
Proof.
  intros [Hbase Hctl] Hq.
  destruct (queue_tail limit n s _ js Hbase Hq) as (Tjobs & Tnd & Tent & Trj & Tdel & Tres).
  open_base Hbase. rewrite Hq in *.
  assert (Hp : p ∈ Pool.settled s)
    by (apply Forall_cons in Hjobs as [Hj _]; apply Hj; reflexivity).
  cbn [ordered] in Hord. cbn [Pool.exec].
  assert (Hle : (size (Pool.executing s ∖ {[p]}) <= size (Pool.executing s))%nat)
    by (apply subseteq_size; set_solver).
  split.
  - split; pool_fields; try assumption; try (split; assumption); try lia.
    + set_solver.
    + intros q Hq1 Hq2. destruct (Tdel q Hq1 ltac:(set_solver)) as [He|?]; [|assumption].
      injection He as ->. set_solver.
    + intros q Hq1 Hq2. apply Hreg; set_solver.
    + intros t Ht. destruct (Hpend t Ht). split; set_solver.
  - unfold pool_control in *. pool_fields. rewrite Hq in Hctl.
    destruct (Pool.pc s) as [r| |].
    + destruct Hctl as (H1 & H2 & H3 & H4 & H5 & snap & H6 & H7 & H8 & H9).
      repeat (split; [assumption|]). split; [intros Hw; specialize (H5 Hw); lia|].
      exists snap. apply Forall_cons in H8 as [_ H8].
      split; [set_solver|]. repeat (split; [assumption|]). assumption.
    + exact Hctl.
    + exact Hctl.
Qed.

(** The state left when a job has been taken and has changed nothing. *)
Lemma job_skipped_invariant limit n s j js :
  pool_invariant limit n s -> Pool.jobs s = j :: js ->
  (forall p, j <> Pool.Delete p) -> (forall p, j <> Pool.Enter p) -> j <> Pool.Resume ->
  pool_invariant limit n (Pool.set_jobs js s).
Proof.
  intros [Hbase Hctl] Hq Hnd' Hne' Hnr.
  destruct (queue_tail limit n s _ js Hbase Hq) as (Tjobs & Tnd & Tent & Trj & Tdel & Tres).
  open_base Hbase. rewrite Hq in *.
  assert (Hord' : ordered (Pool.executing s) js).
  { destruct j; cbn [ordered] in Hord; try exact Hord; try tauto.
    exfalso. eapply Hnd'. reflexivity. }
  assert (Hres' : resumes js = resumes (j :: js)).
  { destruct j; try reflexivity. contradiction. }
  split.
  - split; pool_fields; try assumption; try (split; assumption); try lia.
    intros q Hq1 Hq2. destruct (Tdel q Hq1 Hq2) as [He|?]; [|assumption].
    exfalso. eapply Hnd'. exact He.
  - unfold pool_control in *. pool_fields. rewrite Hq in Hctl. rewrite Hres'.
    destruct (Pool.pc s) as [r| |]; try exact Hctl.
    destruct Hctl as (H1 & H2 & H3 & H4 & H5 & snap & H6 & H7 & H8 & H9).
    repeat (split; [assumption|]).
    exists snap. apply Forall_cons in H8 as [_ H8]. repeat (split; [assumption|]).
    assumption.
Qed.

Lemma job_race_invariant fl limit n s r p js :
  pool_invariant limit n s -> Pool.jobs s = Pool.Race r p :: js ->
  pool_invariant limit n (Pool.exec fl limit (Pool.Race r p) (Pool.set_jobs js s)).
Proof.
  intros Hinv Hq. cbn [Pool.exec]. pool_fields.
  destruct (decide (r ∈ Pool.won s)) as [Hw|Hw].
  { apply (job_skipped_invariant limit n s (Pool.Race r p)); try assumption; discriminate. }
  destruct Hinv as [Hbase Hctl].
  destruct (queue_tail limit n s _ js Hbase Hq) as (Tjobs & Tnd & Tent & Trj & Tdel & Tres).
  open_base Hbase. rewrite Hq in *.
  destruct Hord as [Hp Hord].
  assert (Hr : (r < Pool.races s)%nat) by (apply Forall_cons in Hrj as [Hr _]; exact Hr).
  unfold pool_control in Hctl. rewrite Hq in Hctl.
  destruct (Pool.pc s) as [r0| |] eqn:Hpc;
    [|destruct Hctl as (_ & Hall' & _); destruct (Hw (Hall' r Hr))..].
  destruct Hctl as (H1 & H2 & H3 & H4 & H5 & snap & H6 & H7 & H8 & H9).
  assert (r = r0) as -> by (destruct (decide (r = r0)); [assumption | destruct (Hw (H2 r Hr n0))]).
  apply Forall_cons in H8 as [Hsnap H8]. specialize (Hsnap eq_refl).
  assert (Hzero : resumes js = 0%nat).
  { change (resumes (Pool.Race r0 p :: js)) with (resumes js) in *.
    destruct (decide (resumes js = 1%nat)) as [He|Hne]; [|lia].
    apply H4 in He. contradiction. }
  split.
  - split; pool_fields; try assumption; try (split; assumption).
    + apply Forall_app. split; [exact Tjobs|].
      constructor; [intros q Hq'; discriminate | constructor].
    + rewrite enters_app. cbn [enters omap]. rewrite app_nil_r. split; assumption.
    + apply ordered_snoc; [exact Hord|]. intros r' q Hrq. discriminate.
    + intros q Hq1 Hq2. apply elem_of_app. left.
      destruct (Tdel q Hq1 Hq2) as [?|?]; [discriminate|assumption].
    + split; [|exact Hrr]. apply Forall_app. split; [exact Trj|].
      constructor; [exact I|constructor].
    + intros r' Hr'. apply elem_of_union in Hr' as [Hr'|Hr']; [|auto].
      apply elem_of_singleton in Hr' as ->. exact Hr.
    + rewrite resumes_app, Hzero. cbn. lia.
  - unfold pool_control. pool_fields. rewrite ?Hpc.
    split; [exact H1|]. split; [intros r' Hr' Hne; specialize (H2 r' Hr' Hne); set_solver|].
    split; [exact H3|].
    split; [rewrite resumes_app, Hzero; cbn; split; [set_solver | reflexivity]|].
    split; [intros _; pose proof (size_remove_one p snap (Pool.executing s) Hsnap H6 Hp); lia|].
    exists snap. split; [exact H6|]. split; [exact H7|]. split; [|exact H9].
    apply Forall_app. split; [exact H8|]. constructor; [exact I|constructor].
Qed.

Lemma job_all_invariant fl limit n s p js :
  pool_invariant limit n s -> Pool.jobs s = Pool.All p :: js ->
  pool_invariant limit n (Pool.exec fl limit (Pool.All p) (Pool.set_jobs js s)).
Proof.
  intros Hinv Hq. cbn [Pool.exec]. pool_fields.
  pose proof (job_skipped_invariant limit n s (Pool.All p) js Hinv Hq
                ltac:(discriminate) ltac:(discriminate) ltac:(discriminate)) as Hskip.
  destruct (decide (p ∈ Pool.waiting s)) as [Hw|Hw]; [|exact Hskip].
  destruct Hinv as [Hbase Hctl]. destruct Hskip as [Hbase' Hctl'].
  assert (Hp : p ∈ Pool.settled s).
  { destruct Hbase. rewrite Hq in base_jobs0.
    apply Forall_cons in base_jobs0 as [Hj _]. apply Hj. reflexivity. }
  unfold pool_control in Hctl'. pool_fields.
  destruct (Pool.pc s) as [r0| |] eqn:Hpc;
    [destruct Hctl' as (_ & _ & He & _); rewrite He in Hw; set_solver| |
     destruct Hctl' as (_ & _ & He & _); rewrite He in Hw; set_solver].
  destruct Hctl' as (H1 & H2 & H3 & H4).
  assert (Hzero : resumes js = 0%nat).
  { destruct Hbase'. pool_fields.
    destruct (decide (resumes js = 1%nat)) as [He|Hne]; [|lia].
    apply H4 in He. rewrite He in Hw. set_solver. }
  destruct (decide (Pool.waiting s ∖ {[p]} = ∅)) as [Hempty|Hne].
  - split.
    + open_base Hbase'. pool_fields.
      split; pool_fields; try assumption; try (split; assumption).
      * apply Forall_app. split; [exact Hjobs|].
        constructor; [intros q Hq'; discriminate | constructor].
      * rewrite enters_app. cbn [enters omap]. rewrite app_nil_r. split; assumption.
      * apply ordered_snoc; [exact Hord|]. intros r' q Hrq. discriminate.
      * intros q Hq1 Hq2. apply elem_of_app. left. auto.
      * split; [|exact Hrr]. apply Forall_app. split; [exact Hrj|].
        constructor; [exact I|constructor].
      * rewrite resumes_app, Hzero. cbn. lia.
    + unfold pool_control. pool_fields. rewrite ?Hpc.
      split; [exact H1|]. split; [exact H2|].
      split; [destruct Hbase; set_solver|].
      rewrite resumes_app, Hzero. cbn. split; [intros _; exact Hempty | reflexivity].
  - split.
    + destruct Hbase'. split; assumption.
    + unfold pool_control. pool_fields. rewrite ?Hpc.
      split; [exact H1|]. split; [exact H2|].
      split; [destruct Hbase; set_solver|].
      rewrite Hzero. split; [discriminate | intros He; contradiction].
Qed.

Lemma job_resume_invariant fl limit n s js :
  (0 < limit)%nat ->
  pool_invariant limit n s -> Pool.jobs s = Pool.Resume :: js ->
  pool_invariant limit n (Pool.exec fl limit Pool.Resume (Pool.set_jobs js s)).
Proof.
  intros Hpos [Hbase Hctl] Hq. cbn [Pool.exec]. pool_fields.
  destruct (queue_tail limit n s _ js Hbase Hq) as (Tjobs & Tnd & Tent & Trj & Tdel & Tres).
  assert (Hone : resumes (Pool.Resume :: js) = S (resumes js)) by reflexivity.
  assert (Hzero : resumes js = 0%nat) by lia.
  assert (Hbase' : pool_base limit n (Pool.set_jobs js s)).
  { open_base Hbase. rewrite Hq in *. cbn [ordered] in Hord.
    split; pool_fields; try assumption; try (split; assumption); try lia.
    intros q Hq1 Hq2. destruct (Tdel q Hq1 Hq2) as [?|?]; [discriminate|assumption]. }
  unfold pool_control in Hctl. rewrite Hq, Hone, Hzero in Hctl.
  destruct (Pool.pc s) as [r| |] eqn:Hpc.
  - destruct Hctl as (H1 & H2 & H3 & H4 & H5 & _).
    assert (Hw : r ∈ Pool.won s) by (apply H4; reflexivity).
    apply run_loop_invariant; [exact Hpos|].
    split; [destruct Hbase'; split; assumption|]. pool_fields.
    split; [apply H5, Hw|].
    split; [intros r' Hr'; destruct (decide (r' = r)) as [->|Hne]; [exact Hw | apply H2; assumption]|].
    split; [exact H3 | exact Hzero].
  - destruct Hctl as (H1 & H2 & H3 & H4).
    assert (Hw : Pool.waiting s = ∅) by (apply H4; reflexivity).
    split; [apply pool_base_set_pc; exact Hbase'|].
    unfold pool_control. pool_fields.
    split; [exact H1|]. split; [exact H2|]. split; [exact Hw|]. split; [exact Hzero|].
    rewrite Hw in H3. repeat split; apply leibniz_equiv; set_solver.
  - destruct Hctl as (_ & _ & _ & He & _). discriminate.
Qed.

Lemma finish_invariant limit n s p :
  pool_invariant limit n s -> p ∈ Pool.running s ->
  pool_invariant limit n (Pool.finish p s).
Proof.
  intros [Hbase Hctl] Hp. open_base Hbase. split.
  - split; pool_fields; try assumption; try (split; assumption).
    + set_solver.
    + set_solver.
    + split; set_solver.
    + intros i Hi. destruct (decide (i = p)) as [->|Hne]; [set_solver|].
      destruct (Hall i Hi) as [?|[?|[?|[?|?]]]]; set_solver.
  - unfold pool_control in *. pool_fields.
    destruct (Pool.pc s) as [r| |]; [exact Hctl| |].
    + destruct Hctl as (H1 & H2 & H3 & H4).
      split; [exact H1|]. split; [exact H2|]. split; [set_solver | exact H4].
    + destruct Hctl as (_ & _ & _ & _ & Hrun & _). rewrite Hrun in Hp. set_solver.
Qed.

Lemma fulfil_invariant limit n s p :
  pool_invariant limit n s -> p ∈ Pool.finished s ->
  pool_invariant limit n (Pool.fulfil p s).
Proof.
  intros [Hbase Hctl] Hp. open_base Hbase.
  assert (Hpex : p ∈ Pool.executing s) by set_solver.
  assert (Hpns : p ∉ Pool.settled s) by set_solver.
  destruct (Hreg p Hpex Hpns) as [l Hl].
  destruct (Hreact p l Hl) as (_ & l' & -> & Hl').
  assert (Htot : Pool.reactions s !!! p = Pool.Delete p :: l')
    by (rewrite lookup_total_alt, Hl; reflexivity).
  assert (Hprom : Forall (fun j => exists q, job_promise j = Some q) (Pool.Delete p :: l')).
  { constructor; [eexists; reflexivity|]. eapply Forall_impl; [exact Hl'|].
    intros j Hj. eexists. exact Hj. }
  split.
  - split; pool_fields; rewrite ?Htot; try assumption.
    + set_solver.
    + set_solver.
    + split; set_solver.
    + apply Forall_app. split.
      * eapply Forall_impl; [exact Hjobs|]. intros j Hj q Hq. set_solver.
      * constructor; [intros q Hq; injection Hq as <-; set_solver|].
        eapply Forall_impl; [exact Hl'|]. intros j Hj q Hq.
        rewrite Hj in Hq. injection Hq as <-. set_solver.
    + rewrite enters_app, (enters_promise _ Hprom), app_nil_r. split; assumption.
    + apply ordered_reactions; assumption.
    + intros q Hq1 Hq2. apply elem_of_app.
      destruct (decide (q = p)) as [->|Hne]; [right; left|].
      left. apply Hdel; set_solver.
    + intros q l0 Hq. apply lookup_delete_Some in Hq as [Hne Hq].
      destruct (Hreact q l0 Hq) as (Hqs & Hshape). split; [set_solver | exact Hshape].
    + intros q Hq1 Hq2. assert (q <> p) by set_solver.
      rewrite lookup_delete_ne by congruence. apply Hreg; set_solver.
    + split.
      * apply Forall_app. split; [exact Hrj | exact (Hrr p _ Hl)].
      * intros q l0 Hq. apply lookup_delete_Some in Hq as [Hne Hq]. exact (Hrr q l0 Hq).
    + rewrite resumes_app, (resumes_promise _ Hprom). lia.
    + intros i Hi. destruct (decide (i = p)) as [->|Hne]; [set_solver|].
      destruct (Hall i Hi) as [?|[?|[?|[?|?]]]]; set_solver.
    + intros t Ht. destruct (Hpend t Ht) as [H1 H2].
      assert (t <> p) by (intros ->; contradiction). split; set_solver.
  - unfold pool_control in *. pool_fields. rewrite Htot.
    rewrite resumes_app, (resumes_promise _ Hprom), Nat.add_0_r.
    destruct (Pool.pc s) as [r| |].
    + destruct Hctl as (H1 & H2 & H3 & H4 & H5 & snap & H6 & H7 & H8 & H9).
      repeat (split; [assumption|]).
      exists snap. split; [exact H6|]. split; [exact H7|]. split.
      * apply Forall_app. split; [exact H8 | exact (H9 p _ Hl)].
      * intros q l0 Hq. apply lookup_delete_Some in Hq as [Hne Hq]. exact (H9 q l0 Hq).
    + destruct Hctl as (H1 & H2 & H3 & H4).
      split; [exact H1|]. split; [exact H2|]. split; [set_solver | exact H4].
    + destruct Hctl as (_ & _ & _ & _ & _ & _ & Hfin). rewrite Hfin in Hp. set_solver.
Qed.

Lemma start_invariant fl limit n :
  (0 < limit)%nat -> pool_invariant limit n (Pool.start fl limit n).
Proof.
  intros Hpos. unfold Pool.start. apply run_loop_invariant; [exact Hpos|].
  split; [|split; [pool_fields; rewrite size_empty; exact Hpos|];
           split; [intros r Hr; pool_fields; lia|]; split; reflexivity].
  split; pool_fields.
  - set_solver.
  - set_solver.
  - split; set_solver.
  - rewrite size_empty. lia.
  - constructor.
  - split; [constructor | intros p Hp; cbn in Hp; set_solver].
  - exact I.
  - intros p Hp. set_solver.
  - apply map_Forall_empty.
  - intros p Hp. set_solver.
  - split; [constructor | apply map_Forall_empty].
  - intros r Hr. set_solver.
  - cbn. lia.
  - intros i Hi. left. apply elem_of_seq. lia.
  - intros t _. split; set_solver.
  - apply NoDup_seq.
Qed.

Lemma step_invariant fl limit n s s' :
  (0 < limit)%nat ->
  pool_invariant limit n s -> Pool.step fl limit s s' -> pool_invariant limit n s'.
Proof.
  intros Hpos Hinv Hstep. destruct Hstep as [s j js Hq | s p Hp | s p Hp].
  - destruct j as [p|p|r p|p|].
    + apply job_enter_invariant; assumption.
    + apply job_delete_invariant; assumption.
    + apply job_race_invariant; assumption.
    + apply job_all_invariant; assumption.
    + apply job_resume_invariant; assumption.
  - apply finish_invariant; assumption.
  - apply fulfil_invariant; assumption.
Qed.

Lemma reachable_invariant fl limit n s :
  (0 < limit)%nat -> Pool.reachable fl limit n s -> pool_invariant limit n s.
Proof.
  intros Hpos Hreach. induction Hreach as [|s s' _ IH Hstep].
  - apply start_invariant. exact Hpos.
  - eapply step_invariant; eassumption.
Qed.

(** The limit bounds the probes in flight, whatever it is. *)
Lemma in_flight_bounded fl limit n s :
  (0 < limit)%nat -> Pool.reachable fl limit n s -> (Pool.in_flight s <= limit)%nat.
Proof.
  intros Hpos Hreach.
  destruct (reachable_invariant fl limit n s Hpos Hreach) as [Hbase _].
  open_base Hbase. unfold Pool.in_flight.
  assert (Hsub : Pool.running s ⊆ Pool.executing s) by set_solver.
  apply subseteq_size in Hsub. lia.
Qed.

(** C7. Under [runWithConcurrency(tasks, CONCURRENCY)], in the script
    that calls [task()] and in the one that calls
    [Promise.resolve().then(task)], whatever the order in which the
    probes end and the jobs of their promises are run: at most
    [CONCURRENCY] = 3 probes are in flight in any state the pool passes
    through (at most 3 tasks are started and not settled), and when the
    runner has returned, every task of the list has been started and
    its promise has settled. *)
Theorem pool_respects_concurrency fl n s :
  Pool.runWithConcurrency fl (pool_limit fl) n s ->
  pool_limit fl = 3%nat
  /\ (Pool.in_flight s <= pool_limit fl)%nat
  /\ (size (Pool.queued s ∪ Pool.running s ∪ Pool.finished s) <= pool_limit fl)%nat
  /\ (Pool.pc s = Pool.Returned ->
      Pool.tasks s = [] /\ Pool.running s = ∅ /\ Pool.queued s = ∅
      /\ Pool.finished s = ∅
      /\ forall i, (i < n)%nat -> i ∈ Pool.settled s).
Proof.
  unfold Pool.runWithConcurrency. intros Hreach.
  assert (Hlimit : pool_limit fl = 3%nat) by (destruct fl; reflexivity).
  assert (Hpos : (0 < pool_limit fl)%nat) by (rewrite Hlimit; lia).
  split; [exact Hlimit|].
  split; [apply (in_flight_bounded fl (pool_limit fl) n s); assumption|].
  destruct (reachable_invariant fl (pool_limit fl) n s Hpos Hreach) as [Hbase Hctl].
  split.
  { destruct Hbase as [Hin _ _ Hsize _ _ _ _ _ _ _ _ _ _ _ _].
    assert (Hsub : Pool.queued s ∪ Pool.running s ∪ Pool.finished s ⊆ Pool.executing s)
      by set_solver.
    apply subseteq_size in Hsub. lia. }
  intros Hret.
  unfold pool_control in Hctl. rewrite Hret in Hctl.
  destruct Hctl as (Htasks & _ & _ & _ & Hrun & Hque & Hfin).
  repeat (split; [assumption|]).
  intros i Hi. destruct Hbase. destruct (base_all0 i Hi) as [H|[H|[H|[H|H]]]].
  - rewrite Htasks in H. set_solver.
  - rewrite Hque in H. set_solver.
  - rewrite Hrun in H. set_solver.
  - rewrite Hfin in H. set_solver.
  - exact H.
Qed.

Lemma step_next fl limit s j js :
  Pool.jobs s = j :: js -> Pool.step fl limit s (Pool.next fl limit s).
Proof.
  intros Hq. unfold Pool.next. rewrite Hq. apply Pool.step_job. exact Hq.
Qed.

Lemma one_task_run : Pool.reachable Pool.Direct 3 1 one_task_returned.
Proof.
  unfold one_task_returned, one_task_fulfilled.
  eapply Pool.reach_step; [eapply Pool.reach_step; [eapply Pool.reach_step;
    [eapply Pool.reach_step; [eapply Pool.reach_step; [apply Pool.reach_start|]|]|]|]|].
  - apply (Pool.step_finish Pool.Direct 3 _ 0%nat).
    refine (bool_decide_unpack _ _). vm_compute. exact I.
  - apply (Pool.step_fulfil Pool.Direct 3 _ 0%nat).
    refine (bool_decide_unpack _ _). vm_compute. exact I.
  - apply (step_next Pool.Direct 3 _ (Pool.Delete 0) [Pool.All 0]). reflexivity.
  - apply (step_next Pool.Direct 3 _ (Pool.All 0) []). reflexivity.
  - apply (step_next Pool.Direct 3 _ Pool.Resume []). reflexivity.
Defined.

Lemma pool_respects_concurrency_witness :
  Pool.runWithConcurrency Pool.Direct (pool_limit Pool.Direct) 1 one_task_returned
  /\ (Pool.in_flight one_task_returned <= pool_limit Pool.Direct)%nat
  /\ (forall i, (i < 1)%nat -> i ∈ Pool.settled one_task_returned).
Proof.
  split; [exact one_task_run|].
  destruct (pool_respects_concurrency Pool.Direct 1 one_task_returned one_task_run)
    as (_ & Hle & _ & Hret).
  split; [exact Hle|]. apply Hret. reflexivity.
Defined.

(** With four tasks the loop starts three and then awaits the race. *)
Lemma pool_suspends_at_limit :
  Pool.in_flight (Pool.start Pool.Direct 3 4) = 3%nat
  /\ Pool.tasks (Pool.start Pool.Direct 3 4) = [3%nat]
  /\ Pool.pc (Pool.start Pool.Direct 3 4) = Pool.AwaitRace 0.
Proof. repeat split; reflexivity. Qed.

(** ** The encoding helpers *)

Lemma land_high_low a b k : 0 <= k -> 0 <= b < 2 ^ k -> Z.land (a * 2 ^ k) b = 0.
Proof.
  intros Hk Hb. apply Z.bits_inj'. intros i Hi.
  rewrite Z.land_spec, Z.bits_0.
  destruct (Z.lt_ge_cases i k) as [Hlt | Hge].
  - rewrite Z.mul_pow2_bits_low by lia. reflexivity.
  - rewrite andb_comm. destruct (Z.eq_dec b 0) as [-> | Hnz].
    + rewrite Z.bits_0. reflexivity.
    + rewrite (Z.bits_above_log2 b i); [reflexivity | lia |].
      apply Z.lt_le_trans with k; [|exact Hge].
      apply Z.log2_lt_pow2; lia.
Qed.

Lemma lor_high_low a b k : 0 <= k -> 0 <= b < 2 ^ k -> Z.lor (a * 2 ^ k) b = a * 2 ^ k + b.
Proof.
  intros Hk Hb. pose proof (land_high_low a b k Hk Hb) as Hland.
  rewrite <- Z.lxor_lor by exact Hland.
  symmetry. apply Z.add_nocarry_lxor. exact Hland.
Qed.

Lemma shiftr_div a k : 0 <= k -> Z.shiftr a k = a / 2 ^ k.
Proof. apply Z.shiftr_div_pow2. Qed.

Lemma shiftl_mul a k : 0 <= k -> Z.shiftl a k = a * 2 ^ k.
Proof. apply Z.shiftl_mul_pow2. Qed.

Lemma land_mod a k : 0 <= k -> Z.land a (Z.ones k) = a mod 2 ^ k.
Proof. apply Z.land_ones. Qed.

(** Shifts and masks by constants become quotients and remainders. *)
Ltac to_arith :=
  repeat match goal with
         | |- context [Z.shiftr ?a ?k] => rewrite (shiftr_div a k) by lia
         | |- context [Z.shiftl ?a ?k] => rewrite (shiftl_mul a k) by lia
         | |- context [Z.land ?a 3] => change (Z.land a 3) with (Z.land a (Z.ones 2)); rewrite (land_mod a 2) by lia
         | |- context [Z.land ?a 7] => change (Z.land a 7) with (Z.land a (Z.ones 3)); rewrite (land_mod a 3) by lia
         | |- context [Z.land ?a 15] => change (Z.land a 15) with (Z.land a (Z.ones 4)); rewrite (land_mod a 4) by lia
         | |- context [Z.land ?a 31] => change (Z.land a 31) with (Z.land a (Z.ones 5)); rewrite (land_mod a 5) by lia
         | |- context [Z.land ?a 63] => change (Z.land a 63) with (Z.land a (Z.ones 6)); rewrite (land_mod a 6) by lia
         | |- context [Z.land ?a 1023] => change (Z.land a 1023) with (Z.land a (Z.ones 10)); rewrite (land_mod a 10) by lia
         end;
  change (2 ^ 2) with 4; change (2 ^ 3) with 8; change (2 ^ 4) with 16;
  change (2 ^ 5) with 32; change (2 ^ 6) with 64; change (2 ^ 10) with 1024;
  change (2 ^ 12) with 4096; change (2 ^ 18) with 262144.

Ltac div_lia := Z.div_mod_to_equations; lia.

Lemma lor_16 a b : 0 <= b < 16 -> Z.lor (a * 16) b = a * 16 + b.
Proof. intros. apply (lor_high_low a b 4); lia. Qed.
Lemma lor_4 a b : 0 <= b < 4 -> Z.lor (a * 4) b = a * 4 + b.
Proof. intros. apply (lor_high_low a b 2); lia. Qed.
Lemma lor_64 a b : 0 <= b < 64 -> Z.lor (a * 64) b = a * 64 + b.
Proof. intros. apply (lor_high_low a b 6); lia. Qed.
Lemma lor_128 b : 0 <= b < 64 -> Z.lor 128 b = 128 + b.
Proof. intros. apply (lor_high_low 2 b 6); lia. Qed.

(** Induction over a byte sequence, three bytes at a time. *)
Lemma list_ind3 {A} (P : list A -> Prop) :
  P [] -> (forall a, P [a]) -> (forall a b, P [a; b]) ->
  (forall a b c r, P r -> P (a :: b :: c :: r)) ->
  forall l, P l.
Proof.
  intros H0 H1 H2 H3.
  assert (H : forall l, P l /\ (forall a, P (a :: l)) /\ (forall a b, P (a :: b :: l))).
  { induction l as [|c r (IH0 & IH1 & IH2)].
    - auto.
    - split; [apply IH1|]. split; [intros a; apply IH2|].
      intros a b. apply H3. exact IH0. }
  intros l. apply H.
Qed.

Lemma base64_encode_split bs :
  Codec.base64_encode bs = (map Codec.digit (base64_values bs) ++ base64_padding bs)%list.
Proof.
  induction bs as [| a | a b | a b c r IH] using list_ind3; try reflexivity.
  cbn [Codec.base64_encode base64_values base64_padding map app].
  rewrite IH. reflexivity.
Qed.

Lemma base64_values_sextets bs :
  Forall is_byte bs -> Forall is_sextet (base64_values bs).
Proof.
  unfold is_byte, is_sextet.
  induction bs as [| a | a b | a b c r IH] using list_ind3; intros H.
  - constructor.
  - apply Forall_cons in H as [Ha _].
    repeat constructor; to_arith; div_lia.
  - apply Forall_cons in H as [Ha H]. apply Forall_cons in H as [Hb _].
    cbn [base64_values]. to_arith.
    rewrite lor_16 by div_lia.
    repeat constructor; div_lia.
  - apply Forall_cons in H as [Ha H]. apply Forall_cons in H as [Hb H].
    apply Forall_cons in H as [Hc H].
    cbn [base64_values]. to_arith.
    rewrite lor_16, lor_4 by div_lia.
    repeat (constructor; [div_lia|]). apply IH. exact H.
Qed.

Lemma base64_bytes_values bs :
  Forall is_byte bs -> Codec.base64_bytes (base64_values bs) = bs.
Proof.
  unfold is_byte.
  induction bs as [| a | a b | a b c r IH] using list_ind3; intros H.
  - reflexivity.
  - apply Forall_cons in H as [Ha _].
    cbn [base64_values Codec.base64_bytes]. to_arith.
    rewrite lor_4 by div_lia. f_equal. div_lia.
  - apply Forall_cons in H as [Ha H]. apply Forall_cons in H as [Hb _].
    cbn [base64_values Codec.base64_bytes]. to_arith.
    rewrite (lor_16 (a mod 4)) by div_lia.
    rewrite lor_4, lor_16 by div_lia.
    f_equal; [div_lia|]. f_equal. div_lia.
  - apply Forall_cons in H as [Ha H]. apply Forall_cons in H as [Hb H].
    apply Forall_cons in H as [Hc H].
    cbn [base64_values Codec.base64_bytes]. rewrite (IH H). to_arith.
    rewrite (lor_16 (a mod 4)), (lor_4 (b mod 16)) by div_lia.
    rewrite lor_4, lor_16, lor_64 by div_lia.
    f_equal; [div_lia|]. f_equal; [div_lia|]. f_equal. div_lia.
Qed.

Lemma digits_checked : forallb digit_checks (seq 0 64) = true.
Proof. reflexivity. Qed.

Lemma digit_facts n :
  is_sextet n ->
  Codec.sextet (Codec.digit n) = Some n
  /\ Codec.is_whitespace (Codec.digit n) = false
  /\ Codec.is_pad (Codec.digit n) = false
  /\ (Codec.code (Codec.digit n) =? 10) = false.
Proof.
  intros Hn. unfold is_sextet in Hn.
  pose proof digits_checked as H. rewrite forallb_forall in H.
  specialize (H (Z.to_nat n)).
  assert (Hin : In (Z.to_nat n) (seq 0 64)) by (apply in_seq; lia).
  apply H in Hin. unfold digit_checks in Hin.
  rewrite Z2Nat.id in Hin by lia.
  repeat (apply andb_true_iff in Hin as [Hin ?]).
  destruct (Codec.sextet (Codec.digit n)) as [k|]; [|discriminate].
  apply Z.eqb_eq in Hin. subst k.
  repeat match goal with
         | H : negb _ = true |- _ => apply negb_true_iff in H
         end.
  repeat split; assumption || reflexivity.
Qed.

Lemma sextets_of_digits ns :
  Forall is_sextet ns -> Codec.sextets (map Codec.digit ns) = Some ns.
Proof.
  induction 1 as [|n ns Hn _ IH]; [reflexivity|].
  cbn [map Codec.sextets]. rewrite IH.
  destruct (digit_facts n Hn) as (-> & _). reflexivity.
Qed.

Lemma base64_encode_chars bs :
  Forall is_byte bs -> Forall base64_char (Codec.base64_encode bs).
Proof.
  intros Hb. rewrite base64_encode_split. apply Forall_app. split.
  - apply Forall_map. eapply Forall_impl; [apply base64_values_sextets; exact Hb|].
    intros n Hn. destruct (digit_facts n Hn) as (_ & Hw & _ & Hnl). split; assumption.
  - clear Hb. induction bs as [| a | a b | a b c r IH] using list_ind3;
      cbn [base64_padding]; repeat constructor; assumption.
Qed.

Lemma filter_all {A} (f : A -> bool) l :
  Forall (fun x => f x = true) l -> List.filter f l = l.
Proof.
  induction 1 as [|x l Hx _ IH]; [reflexivity|].
  cbn [List.filter]. rewrite Hx, IH. reflexivity.
Qed.

Lemma mod4_step n : (S (S (S (S n))) mod 4 = n mod 4)%nat.
Proof.
  replace (S (S (S (S n)))) with (n + 1 * 4)%nat by lia.
  apply Nat.Div0.mod_add.
Qed.

Lemma base64_encode_length bs : (length (Codec.base64_encode bs) mod 4 = 0)%nat.
Proof.
  induction bs as [| a | a b | a b c r IH] using list_ind3; try reflexivity.
  cbn [Codec.base64_encode length]. rewrite mod4_step. exact IH.
Qed.

Lemma base64_values_length bs : (length (base64_values bs) mod 4 <> 1)%nat.
Proof.
  induction bs as [| a | a b | a b c r IH] using list_ind3; try (cbn; lia).
  cbn [base64_values length]. rewrite mod4_step. exact IH.
Qed.

Lemma base64_padding_cases bs :
  base64_padding bs = [] \/ base64_padding bs = ["="%char]
  \/ base64_padding bs = ["="; "="]%char.
Proof.
  induction bs as [| a | a b | a b c r IH] using list_ind3; cbn; auto.
Qed.

Lemma strip_padding_digits ds pad :
  Forall (fun c => Codec.is_pad c = false) ds ->
  pad = [] \/ pad = ["="%char] \/ pad = ["="; "="]%char ->
  Codec.strip_padding_rev (rev (ds ++ pad)) = rev ds.
Proof.
  intros Hds Hpad.
  assert (Hrev : Forall (fun c => Codec.is_pad c = false) (rev ds)).
  { apply Forall_forall. intros c Hc. rewrite Forall_forall in Hds.
    apply Hds. apply list_elem_of_In. apply in_rev. apply list_elem_of_In. exact Hc. }
  rewrite rev_app_distr.
  destruct Hpad as [-> | [-> | ->]]; cbn [rev app].
  - destruct Hrev as [|c1 r Hc1 Hr]; [reflexivity|].
    cbn [Codec.strip_padding_rev]. destruct r; rewrite Hc1; reflexivity.
  - destruct Hrev as [|c2 r Hc2 Hr]; [reflexivity|].
    cbn [Codec.strip_padding_rev]. rewrite Hc2. reflexivity.
  - reflexivity.
Qed.

(** [atob] undoes [btoa]. *)
Lemma atob_base64_encode bs :
  Forall is_byte bs ->
  Codec.atob (String.string_of_list_ascii (Codec.base64_encode bs)) = Some bs.
Proof.
  intros Hb. unfold Codec.atob.
  rewrite String.list_ascii_of_string_of_list_ascii.
  rewrite filter_all.
  2:{ eapply Forall_impl; [apply base64_encode_chars; exact Hb|].
      intros c [Hw _]. rewrite Hw. reflexivity. }
  rewrite base64_encode_length. cbn [Nat.eqb].
  rewrite base64_encode_split, strip_padding_digits, rev_involutive.
  - destruct (Nat.eqb_spec (length (map Codec.digit (base64_values bs)) mod 4) 1) as [He|_].
    + rewrite length_map in He. destruct (base64_values_length bs He).
    + rewrite sextets_of_digits by (apply base64_values_sextets; exact Hb).
      cbn [option_map]. rewrite base64_bytes_values by exact Hb. reflexivity.
  - apply Forall_map. eapply Forall_impl; [apply base64_values_sextets; exact Hb|].
    intros n Hn. apply digit_facts. exact Hn.
  - apply base64_padding_cases.
Qed.

Lemma remove_newlines_base64 bs :
  Forall is_byte bs ->
  Codec.remove_newlines (String.string_of_list_ascii (Codec.base64_encode bs))
  = String.string_of_list_ascii (Codec.base64_encode bs).
Proof.
  intros Hb. unfold Codec.remove_newlines.
  rewrite String.list_ascii_of_string_of_list_ascii, filter_all; [reflexivity|].
  eapply Forall_impl; [apply base64_encode_chars; exact Hb|].
  intros c [_ Hnl]. rewrite Hnl. reflexivity.
Qed.

(** *** UTF-8 *)

Ltac decide_tests :=
  repeat match goal with
         | |- context [?a <=? ?b] =>
             first [ replace (a <=? b) with true by (symmetry; apply Z.leb_le; div_lia)
                   | replace (a <=? b) with false by (symmetry; apply Z.leb_gt; div_lia) ]
         | |- context [?a <? ?b] =>
             first [ replace (a <? b) with true by (symmetry; apply Z.ltb_lt; div_lia)
                   | replace (a <? b) with false by (symmetry; apply Z.ltb_ge; div_lia) ]
         end;
  cbn [andb orb negb].

Ltac constants :=
  change (Z.of_nat 0) with 0; change (Z.of_nat 1) with 1;
  change (Z.of_nat 2) with 2; change (Z.of_nat 3) with 3;
  change (6 * 0) with 0; change (6 * 1) with 6;
  change (6 * 2) with 12; change (6 * 3) with 18;
  rewrite ?Z.shiftr_0_r.

Lemma utf8_encode_1 c : c <= 0x7F -> Codec.utf8_encode_scalar c = [c].
Proof. intros H. unfold Codec.utf8_encode_scalar. decide_tests. reflexivity. Qed.

Lemma utf8_encode_2 c :
  0x7F < c <= 0x7FF ->
  Codec.utf8_encode_scalar c = [c / 64 + 192; 128 + c mod 64].
Proof.
  intros H. unfold Codec.utf8_encode_scalar. decide_tests.
  cbn [Codec.continuation]. constants. to_arith.
  rewrite !lor_128 by div_lia. reflexivity.
Qed.

Lemma utf8_encode_3 c :
  0x7FF < c <= 0xFFFF ->
  Codec.utf8_encode_scalar c = [c / 4096 + 224; 128 + (c / 64) mod 64; 128 + c mod 64].
Proof.
  intros H. unfold Codec.utf8_encode_scalar. decide_tests.
  cbn [Codec.continuation]. constants. to_arith.
  rewrite !lor_128 by div_lia. reflexivity.
Qed.

Lemma utf8_encode_4 c :
  0xFFFF < c ->
  Codec.utf8_encode_scalar c =
  [c / 262144 + 240; 128 + (c / 4096) mod 64; 128 + (c / 64) mod 64; 128 + c mod 64].
Proof.
  intros H. unfold Codec.utf8_encode_scalar. decide_tests.
  cbn [Codec.continuation]. constants. to_arith.
  rewrite !lor_128 by div_lia. reflexivity.
Qed.

Lemma utf8_encode_bytes c : is_scalar c -> Forall is_byte (Codec.utf8_encode_scalar c).
Proof.
  intros [Hr Hs]. unfold is_byte.
  destruct (Z_le_gt_dec c 0x7F); [rewrite utf8_encode_1 by lia|].
  { repeat constructor; lia. }
  destruct (Z_le_gt_dec c 0x7FF); [rewrite utf8_encode_2 by lia|].
  { repeat constructor; div_lia. }
  destruct (Z_le_gt_dec c 0xFFFF); [rewrite utf8_encode_3 by lia|].
  { repeat constructor; div_lia. }
  rewrite utf8_encode_4 by lia. repeat constructor; div_lia.
Qed.

Lemma utf8_lead_1 b : 0 <= b <= 0x7F -> Codec.utf8_lead b = (Codec.utf8_start, [b]).
Proof. intros H. unfold Codec.utf8_lead. decide_tests. reflexivity. Qed.

Lemma utf8_lead_2 b :
  0xC2 <= b <= 0xDF ->
  Codec.utf8_lead b =
  ({| Codec.code_point := b mod 32; Codec.bytes_seen := 0; Codec.bytes_needed := 1;
      Codec.lower_boundary := 0x80; Codec.upper_boundary := 0xBF |}, []).
Proof. intros H. unfold Codec.utf8_lead. decide_tests. to_arith. reflexivity. Qed.

Lemma utf8_lead_3 b :
  0xE0 <= b <= 0xEF ->
  Codec.utf8_lead b =
  ({| Codec.code_point := b mod 16; Codec.bytes_seen := 0; Codec.bytes_needed := 2;
      Codec.lower_boundary := if b =? 0xE0 then 0xA0 else 0x80;
      Codec.upper_boundary := if b =? 0xED then 0x9F else 0xBF |}, []).
Proof. intros H. unfold Codec.utf8_lead. decide_tests. to_arith. reflexivity. Qed.

Lemma utf8_lead_4 b :
  0xF0 <= b <= 0xF4 ->
  Codec.utf8_lead b =
  ({| Codec.code_point := b mod 8; Codec.bytes_seen := 0; Codec.bytes_needed := 3;
      Codec.lower_boundary := if b =? 0xF0 then 0x90 else 0x80;
      Codec.upper_boundary := if b =? 0xF4 then 0x8F else 0xBF |}, []).
Proof. intros H. unfold Codec.utf8_lead. decide_tests. to_arith. reflexivity. Qed.

(** A continuation byte within the boundaries of the open sequence. *)
Lemma utf8_step_continue st b :
  Codec.bytes_needed st <> 0 ->
  Codec.lower_boundary st <= b <= Codec.upper_boundary st ->
  Codec.utf8_step st b =
  if Codec.bytes_seen st + 1 =? Codec.bytes_needed st
  then (Codec.utf8_start, [Codec.code_point st * 64 + b mod 64])
  else ({| Codec.code_point := Codec.code_point st * 64 + b mod 64;
           Codec.bytes_seen := Codec.bytes_seen st + 1;
           Codec.bytes_needed := Codec.bytes_needed st;
           Codec.lower_boundary := 0x80; Codec.upper_boundary := 0xBF |}, []).
Proof.
  intros Hn Hb. unfold Codec.utf8_step.
  replace (Codec.bytes_needed st =? 0) with false by (symmetry; apply Z.eqb_neq; exact Hn).
  decide_tests. to_arith. rewrite lor_64 by div_lia. reflexivity.
Qed.

Lemma utf8_run_start b r :
  Codec.utf8_run Codec.utf8_start (b :: r) =
  let '(st', out) := Codec.utf8_lead b in (out ++ Codec.utf8_run st' r)%list.
Proof. reflexivity. Qed.

Lemma utf8_run_cons st b r :
  Codec.utf8_run st (b :: r) =
  let '(st', out) := Codec.utf8_step st b in (out ++ Codec.utf8_run st' r)%list.
Proof. reflexivity. Qed.

Ltac boundaries :=
  repeat match goal with
         | |- context [?a =? ?b] =>
             destruct (Z.eqb_spec a b)
         end; div_lia.

Ltac count_seen :=
  match goal with
  | |- context [?a + 1 =? ?b] =>
      let v := eval compute in (a + 1 =? b) in
      change (a + 1 =? b) with v
  end;
  try match goal with
      | |- context [0 + 1] => change (0 + 1) with 1
      end;
  cbn [app].

Ltac next_byte tac :=
  rewrite utf8_run_cons, utf8_step_continue;
  cbn [Codec.bytes_needed Codec.bytes_seen Codec.code_point
       Codec.lower_boundary Codec.upper_boundary];
  [count_seen | lia | tac].

(** The decoder reads back the scalar value the encoder wrote. *)
Lemma utf8_decode_encode c rest :
  is_scalar c ->
  Codec.utf8_run Codec.utf8_start (Codec.utf8_encode_scalar c ++ rest)%list
  = c :: Codec.utf8_run Codec.utf8_start rest.
Proof.
  intros [Hr Hs].
  destruct (Z_le_gt_dec c 0x7F); [rewrite utf8_encode_1 by lia|].
  { cbn [app]. rewrite utf8_run_start, utf8_lead_1 by lia. reflexivity. }
  destruct (Z_le_gt_dec c 0x7FF); [rewrite utf8_encode_2 by lia|].
  { cbn [app]. rewrite utf8_run_start, utf8_lead_2 by div_lia. cbn [app].
    next_byte div_lia. f_equal. div_lia. }
  destruct (Z_le_gt_dec c 0xFFFF); [rewrite utf8_encode_3 by lia|].
  { cbn [app]. rewrite utf8_run_start, utf8_lead_3 by div_lia. cbn [app].
    next_byte boundaries. next_byte div_lia. f_equal. div_lia. }
  rewrite utf8_encode_4 by lia.
  cbn [app]. rewrite utf8_run_start, utf8_lead_4 by div_lia. cbn [app].
  next_byte boundaries. next_byte div_lia. next_byte div_lia. f_equal. div_lia.
Qed.

(** *** UTF-16 *)

(** Induction over a well-formed text, one character at a time. *)
Lemma well_formed_ind (P : Codec.text -> Prop) :
  P [] ->
  (forall u r,
     Codec.is_lead u = false -> Codec.is_trail u = false -> Codec.is_unit u = true ->
     Codec.well_formed r = true -> P r -> P (u :: r)) ->
  (forall u l r,
     Codec.is_lead u = true -> Codec.is_trail l = true ->
     Codec.well_formed r = true -> P r -> P (u :: l :: r)) ->
  forall s, Codec.well_formed s = true -> P s.
Proof.
  intros Hnil Hone Hpair s.
  remember (length s) as n eqn:Hn. revert s Hn.
  induction n as [n IH] using lt_wf_ind. intros s Hn Hwf.
  destruct s as [|u r]; [exact Hnil|].
  cbn [Codec.well_formed] in Hwf.
  destruct (Codec.is_lead u) eqn:Hlead.
  - destruct r as [|l r']; [discriminate|].
    apply andb_true_iff in Hwf as [Hl Hwf].
    apply Hpair; try assumption.
    apply (IH (length r')); [subst n; cbn [length]; lia | reflexivity | exact Hwf].
  - destruct (Codec.is_trail u) eqn:Htrail; [discriminate|].
    apply andb_true_iff in Hwf as [Hu Hwf].
    apply Hone; try assumption.
    apply (IH (length r)); [subst n; cbn [length]; lia | reflexivity | exact Hwf].
Qed.

Lemma scalars_single u r :
  Codec.is_lead u = false -> Codec.is_trail u = false ->
  Codec.scalars (u :: r) = u :: Codec.scalars r.
Proof. intros Hl Ht. cbn [Codec.scalars]. rewrite Hl, Ht. reflexivity. Qed.

Lemma scalars_pair u l r :
  Codec.is_lead u = true -> Codec.is_trail l = true ->
  Codec.scalars (u :: l :: r)
  = (0x10000 + (u - 0xD800) * 1024 + (l - 0xDC00)) :: Codec.scalars r.
Proof.
  intros Hl Ht. cbn [Codec.scalars]. rewrite Hl, Ht.
  rewrite (shiftl_mul (u - 55296) 10) by lia. reflexivity.
Qed.

Lemma lead_range u : Codec.is_lead u = true -> 0xD800 <= u <= 0xDBFF.
Proof. unfold Codec.is_lead. intros H. apply andb_true_iff in H as [H1 H2]. lia. Qed.

Lemma trail_range u : Codec.is_trail u = true -> 0xDC00 <= u <= 0xDFFF.
Proof. unfold Codec.is_trail. intros H. apply andb_true_iff in H as [H1 H2]. lia. Qed.

Lemma plain_range u :
  Codec.is_lead u = false -> Codec.is_trail u = false -> Codec.is_unit u = true ->
  is_scalar u /\ u <= 0xFFFF.
Proof.
  unfold Codec.is_lead, Codec.is_trail, Codec.is_unit, is_scalar.
  intros Hl Ht Hu. apply andb_true_iff in Hu as [H1 H2].
  apply andb_false_iff in Hl. apply andb_false_iff in Ht.
  destruct Hl as [Hl|Hl], Ht as [Ht|Ht]; lia.
Qed.

Lemma scalars_are_scalar s :
  Codec.well_formed s = true -> Forall is_scalar (Codec.scalars s).
Proof.
  revert s. apply well_formed_ind;
    [| intros u r Hl Ht Hu _ IH | intros u l r Hl Ht _ IH].
  - constructor.
  - rewrite scalars_single by assumption. constructor; [|exact IH].
    apply plain_range; assumption.
  - rewrite scalars_pair by assumption. constructor; [|exact IH].
    apply lead_range in Hl. apply trail_range in Ht. unfold is_scalar. lia.
Qed.

Lemma utf16_units_plain u : u <= 0xFFFF -> Codec.utf16_units u = [u].
Proof. intros H. unfold Codec.utf16_units. decide_tests. reflexivity. Qed.

Lemma utf16_units_pair u l :
  0xD800 <= u <= 0xDBFF -> 0xDC00 <= l <= 0xDFFF ->
  Codec.utf16_units (0x10000 + (u - 0xD800) * 1024 + (l - 0xDC00)) = [u; l].
Proof.
  intros Hu Hl. unfold Codec.utf16_units. decide_tests. to_arith.
  f_equal; [div_lia|]. f_equal. div_lia.
Qed.

Lemma units_of_scalars s :
  Codec.well_formed s = true ->
  concat (map Codec.utf16_units (Codec.scalars s)) = s.
Proof.
  revert s. apply well_formed_ind;
    [| intros u r Hl Ht Hu _ IH | intros u l r Hl Ht _ IH].
  - reflexivity.
  - rewrite scalars_single by assumption. cbn [map concat]. rewrite IH.
    rewrite utf16_units_plain by (apply plain_range; assumption). reflexivity.
  - rewrite scalars_pair by assumption. cbn [map concat]. rewrite IH.
    rewrite utf16_units_pair by (apply lead_range || apply trail_range; assumption).
    reflexivity.
Qed.

(** The decoder drops the mark exactly when the text opens with it. *)
Lemma strip_bom_scalars s :
  Codec.well_formed s = true ->
  concat (map Codec.utf16_units (Codec.strip_bom (Codec.scalars s))) = without_bom s.
Proof.
  revert s. apply well_formed_ind;
    [| intros u r Hl Ht Hu Hr _ | intros u l r Hl Ht Hr _].
  - reflexivity.
  - rewrite scalars_single by assumption.
    cbn [Codec.strip_bom without_bom].
    destruct (u =? 0xFEFF); [apply units_of_scalars; exact Hr|].
    cbn [map concat]. rewrite units_of_scalars by exact Hr.
    rewrite utf16_units_plain by (apply plain_range; assumption). reflexivity.
  - rewrite scalars_pair by assumption.
    apply lead_range in Hl. apply trail_range in Ht.
    cbn [Codec.strip_bom without_bom].
    replace (u =? 65279) with false by (symmetry; apply Z.eqb_neq; lia).
    match goal with
    | |- context [?c =? 65279] =>
        replace (c =? 65279) with false by (symmetry; apply Z.eqb_neq; lia)
    end.
    cbn [map concat]. rewrite units_of_scalars by exact Hr.
    rewrite utf16_units_pair by assumption. reflexivity.
Qed.

Lemma utf8_run_encode cps :
  Forall is_scalar cps ->
  Codec.utf8_run Codec.utf8_start (concat (map Codec.utf8_encode_scalar cps)) = cps.
Proof.
  induction 1 as [|c cps Hc _ IH]; [reflexivity|].
  cbn [map concat]. rewrite utf8_decode_encode by exact Hc. rewrite IH. reflexivity.
Qed.

Lemma TextEncoder_bytes s :
  Codec.well_formed s = true -> Forall is_byte (Codec.TextEncoder_encode s).
Proof.
  intros Hwf. unfold Codec.TextEncoder_encode.
  induction (scalars_are_scalar s Hwf) as [|c cps Hc _ IH]; [constructor|].
  cbn [map concat]. apply Forall_app. split; [|exact IH].
  apply utf8_encode_bytes. exact Hc.
Qed.

Lemma map_id_bytes (f : Z -> Z) bs :
  (forall b, is_byte b -> f b = b) -> Forall is_byte bs -> map f bs = bs.
Proof.
  intros Hf. induction 1 as [|b bs Hb _ IH]; [reflexivity|].
  cbn [map]. rewrite Hf, IH by exact Hb. reflexivity.
Qed.

(** C10, as amended. For every well-formed text,
    [base64DecodeUtf8(base64EncodeUtf8(str))] returns the text without
    the byte order mark U+FEFF that may open it; the result is the text
    itself when it does not begin with U+FEFF. *)
Theorem base64_utf8_round_trip str :
  Codec.well_formed str = true ->
  round_trip str = Some (without_bom str)
  /\ (hd 0 str <> 0xFEFF -> round_trip str = Some str).
Proof.
  intros Hwf.
  assert (Hrt : round_trip str = Some (without_bom str)).
  { pose proof (TextEncoder_bytes str Hwf) as Hb.
    unfold round_trip, Codec.base64EncodeUtf8, Codec.btoa.
    rewrite (map_id_bytes Codec.fromCharCode) by
      (exact Hb || (intros b Hbyte; unfold Codec.fromCharCode, is_byte in *; div_lia)).
    replace (forallb (fun u => u <=? 255) (Codec.TextEncoder_encode str)) with true.
    2:{ symmetry. apply forallb_forall. intros b Hin. rewrite Forall_forall in Hb.
        apply list_elem_of_In, Hb in Hin. apply Z.leb_le. unfold is_byte in Hin. lia. }
    unfold Codec.base64DecodeUtf8.
    rewrite remove_newlines_base64, atob_base64_encode by exact Hb.
    unfold Codec.Uint8Array_from.
    rewrite (map_id_bytes (fun c => c mod 256)) by
      (exact Hb || (intros b Hbyte; unfold is_byte in *; div_lia)).
    unfold Codec.TextDecoder_decode, Codec.TextEncoder_encode.
    rewrite utf8_run_encode by (apply scalars_are_scalar; exact Hwf).
    rewrite strip_bom_scalars by exact Hwf. reflexivity. }
  split; [exact Hrt|].
  intros Hhd. rewrite Hrt. f_equal.
  destruct str as [|u r]; [reflexivity|]. cbn [hd] in Hhd. cbn [without_bom].
  replace (u =? 65279) with false by (symmetry; apply Z.eqb_neq; exact Hhd).
  reflexivity.
Qed.

Lemma base64_utf8_round_trip_witness :
  Codec.well_formed sample_text = true
  /\ round_trip sample_text = Some sample_text.
Proof.
  split; [reflexivity|].
  apply (base64_utf8_round_trip sample_text); [reflexivity | discriminate].
Defined.

(** C10, as stated, fails: a text that opens with U+FEFF is
    well-formed and comes back without it. *)
Lemma byte_order_mark_is_lost :
  Codec.well_formed marked_text = true
  /\ Codec.base64EncodeUtf8 marked_text = Some "77u/SGk="
  /\ Codec.base64DecodeUtf8 "77u/SGk=" = Some [72; 105]
  /\ round_trip marked_text <> Some marked_text.
Proof.
  split; [reflexivity|]. split; [reflexivity|]. split; [reflexivity|].
  vm_compute. discriminate.
Qed.
(** ** The probe under any network *)

Lemma succeeded_not_transient r : succeeded r = true -> transient r = false.
Proof.
  destruct r as [st p| |]; simpl; try discriminate.
  unfold ok. intros H. apply andb_true_iff in H as [_ H]. apply Z.leb_le in H.
  apply andb_false_iff. left. apply Z.leb_gt. lia.
Qed.

Lemma succeeded_not_pool_transient r : succeeded r = true -> pool_transient r = false.
Proof.
  destruct r as [st p| |]; simpl; try discriminate.
  unfold ok. intros H. apply andb_true_iff in H as [_ H]. apply Z.leb_le in H.
  apply Z.leb_gt. lia.
Qed.

(** A probe that is answered with a 2xx status ends there. *)
Lemma Worker_success net env url retries m :
  succeeded (net (sent m) (probe_request url)) = true ->
  Worker.fetchWithTimeout net env url retries m
  = (Return tt, after_fetch m, [EvFetch (probe_request url)]).
Proof.
  intros Hs. rewrite Worker.fetchWithTimeout_equation_1.
  unfold try_catch at 1, bind at 1, fetch at 1.
  destruct (net (sent m) (probe_request url)) as [st p| |]; simpl in Hs |- *;
    try discriminate.
  rewrite Hs. reflexivity.
Qed.

Lemma KvWorker_success net env url retries m :
  succeeded (net (sent m) (probe_request url)) = true ->
  KvWorker.fetchWithTimeout net env url retries m
  = (Return tt, after_fetch m, [EvFetch (probe_request url)]).
Proof.
  intros Hs. rewrite KvWorker.fetchWithTimeout_equation_1.
  unfold try_catch at 1, bind at 1, fetch at 1.
  destruct (net (sent m) (probe_request url)) as [st p| |]; simpl in Hs |- *;
    try discriminate.
  rewrite Hs. reflexivity.
Qed.

Lemma PoolWorker_success net env url attempt m :
  succeeded (net (sent m) (probe_request url)) = true ->
  PoolWorker.fetchWithTimeout net env url attempt m
  = (Return tt, after_fetch m, [EvFetch (probe_request url)]).
Proof.
  intros Hs. rewrite PoolWorker.fetchWithTimeout_equation_1.
  unfold try_catch at 1, bind at 1, fetch at 1.
  destruct (net (sent m) (probe_request url)) as [st p| |]; simpl in Hs |- *;
    try discriminate.
  rewrite Hs. reflexivity.
Qed.

Lemma transient_retryable r :
  succeeded r = false -> transient r = true -> retryable r.
Proof.
  destruct r as [st p| |]; simpl; try done.
  intros _ H. apply andb_true_iff in H as [H1 H2].
  apply Z.leb_le in H1. apply Z.ltb_lt in H2. lia.
Qed.

Lemma not_transient_permanent r :
  succeeded r = false -> transient r = false -> permanent r.
Proof.
  destruct r as [st p| |]; simpl; try done.
  intros Hok H. split; [exact Hok|].
  apply andb_false_iff in H as [H|H]; [apply Z.leb_gt in H | apply Z.ltb_ge in H]; lia.
Qed.

(** One attempt of the pool script, for the outcomes it retries. *)
Lemma PoolWorker_again net env url attempt m :
  succeeded (net (sent m) (probe_request url)) = false ->
  pool_transient (net (sent m) (probe_request url)) = true ->
  PoolWorker.fetchWithTimeout net env url attempt m =
  if decide (attempt < PoolWorker.MAX_ATTEMPT)%nat then
    preceded [EvFetch (probe_request url);
              EvSleep (PoolWorker.RETRY_DELAY * 2 ^ Z.of_nat attempt)]
      (PoolWorker.fetchWithTimeout net env url (attempt + 1)
         (after_sleep (PoolWorker.RETRY_DELAY * 2 ^ Z.of_nat attempt) (after_fetch m)))
  else
    preceded [EvFetch (probe_request url)]
      (PoolWorker.handleFinalFailure net url env (after_fetch m)).
Proof.
  intros Hs Ht. rewrite PoolWorker.fetchWithTimeout_equation_1.
  unfold try_catch at 1, bind at 1, fetch at 1.
  destruct (net (sent m) (probe_request url)) as [st p| |]; simpl in Hs, Ht |- *;
    [rewrite Hs, Ht; simpl; unfold throw|..];
    (destruct (lt_dec attempt PoolWorker.MAX_ATTEMPT);
     [rewrite decide_True by assumption; join_recursive_call
     |rewrite decide_False by assumption; join_final_call]).
Qed.

Lemma PoolWorker_at_once net env url attempt m :
  succeeded (net (sent m) (probe_request url)) = false ->
  pool_transient (net (sent m) (probe_request url)) = false ->
  PoolWorker.fetchWithTimeout net env url attempt m =
  preceded [EvFetch (probe_request url)]
    (PoolWorker.handleFinalFailure net url env (after_fetch m)).
Proof.
  intros Hs Ht. rewrite PoolWorker.fetchWithTimeout_equation_1.
  unfold try_catch at 1, bind at 1, fetch at 1.
  destruct (net (sent m) (probe_request url)) as [st p| |]; simpl in Hs, Ht |- *;
    try discriminate.
  rewrite Hs, Ht. simpl.
  rewrite then_return by apply PoolWorker_final_returns.
  pose proof (PoolWorker_final_returns net url env (after_fetch m)) as Ho.
  unfold preceded, after_fetch, outcome_of in *. simpl.
  destruct (PoolWorker.handleFinalFailure _ _ _ _) as [[o m'] t].
  simpl in Ho. subst o. reflexivity.
Qed.

(** The course of a probe, for the three scripts at once: [probe j] is
    the call for attempt number [j], [final] the handler of the script,
    [last] the number of the attempt that is not followed by another,
    [again] its test of the outcome. *)
Section AnyNetwork.
Variable net : nat -> http_request -> fetch_result.
Variable url : string.
Variable probe : nat -> M unit.
Variable final : M unit.
Variable last : nat.
Variable delay : Z.
Variable again : fetch_result -> bool.

Hypothesis probe_success : forall j m,
  succeeded (net (sent m) (probe_request url)) = true ->
  probe j m = (Return tt, after_fetch m, [EvFetch (probe_request url)]).
Hypothesis probe_again : forall j m,
  succeeded (net (sent m) (probe_request url)) = false ->
  again (net (sent m) (probe_request url)) = true ->
  (j < last)%nat ->
  probe j m =
  preceded [EvFetch (probe_request url); EvSleep (delay * 2 ^ Z.of_nat j)]
    (probe (j + 1)%nat (after_sleep (delay * 2 ^ Z.of_nat j) (after_fetch m))).
Hypothesis probe_give_up : forall j m,
  succeeded (net (sent m) (probe_request url)) = false ->
  again (net (sent m) (probe_request url)) = true ->
  (last <= j)%nat ->
  probe j m = preceded [EvFetch (probe_request url)] (final (after_fetch m)).
Hypothesis probe_at_once : forall j m,
  succeeded (net (sent m) (probe_request url)) = false ->
  again (net (sent m) (probe_request url)) = false ->
  probe j m = preceded [EvFetch (probe_request url)] (final (after_fetch m)).

Lemma probe_course d : forall j m,
  (j + d = last)%nat ->
  exists k, (k <= d)%nat
    /\ (forall i, (i < k)%nat ->
          succeeded (met net m url i) = false /\ again (met net m url i) = true)
    /\ (k = d \/ succeeded (met net m url k) = true \/ again (met net m url k) = false)
    /\ probe j m = probe_result final url delay j k (met net m url k) m.
Proof.
  induction d as [|d IH]; intros j m Hj.
  - exists 0%nat. split; [lia|]. split; [intros i Hi; lia|]. split; [left; reflexivity|].
    unfold probe_result, met, after_retries. simpl.
    replace (sent m + 0)%nat with (sent m) by lia.
    replace (clock m + 0) with (clock m) by lia.
    destruct (succeeded (net (sent m) (probe_request url))) eqn:Hs.
    + rewrite (probe_success j m Hs). destruct m; reflexivity.
    + destruct (again (net (sent m) (probe_request url))) eqn:Ha.
      * rewrite (probe_give_up j m Hs Ha) by lia. destruct m; reflexivity.
      * rewrite (probe_at_once j m Hs Ha). destruct m; reflexivity.
  - destruct (succeeded (net (sent m) (probe_request url))) eqn:Hs;
      [|destruct (again (net (sent m) (probe_request url))) eqn:Ha].
    + exists 0%nat. split; [lia|]. split; [intros i Hi; lia|].
      unfold probe_result, met, after_retries. simpl.
      replace (sent m + 0)%nat with (sent m) by lia.
      replace (clock m + 0) with (clock m) by lia.
      split; [right; left; exact Hs|].
      rewrite Hs, (probe_success j m Hs). destruct m; reflexivity.
    + destruct (IH (j + 1)%nat
                  (after_sleep (delay * 2 ^ Z.of_nat j) (after_fetch m)) ltac:(lia))
        as (k & Hk & Hbefore & Hstop & Hrun).
      assert (Hmet : forall i,
                met net (after_sleep (delay * 2 ^ Z.of_nat j) (after_fetch m)) url i
                = met net m url (S i)).
      { intros i. unfold met. simpl. f_equal. lia. }
      exists (S k). split; [lia|]. split; [|split].
      * intros [|i] Hi.
        -- unfold met. replace (sent m + 0)%nat with (sent m) by lia. split; assumption.
        -- rewrite <- Hmet. apply Hbefore. lia.
      * rewrite <- Hmet. destruct Hstop as [->|Hstop]; [left; reflexivity | right; exact Hstop].
      * rewrite (probe_again j m Hs Ha) by lia. rewrite Hrun, Hmet.
        unfold probe_result, preceded, after_retries, after_sleep, after_fetch. simpl.
        replace (j + 1)%nat with (S j) by lia.
        replace (sent m + S k)%nat with (S (sent m + k)) by lia.
        replace (clock m + delay * 2 ^ Z.of_nat j + paused delay (S j) k)
          with (clock m + (delay * 2 ^ Z.of_nat j + paused delay (S j) k)) by lia.
        destruct (succeeded (met net m url (S k))); [reflexivity|].
        simpl. destruct (final _) as [[o m'] t]. reflexivity.
    + exists 0%nat. split; [lia|]. split; [intros i Hi; lia|].
      unfold probe_result, met, after_retries. simpl.
      replace (sent m + 0)%nat with (sent m) by lia.
      replace (clock m + 0) with (clock m) by lia.
      split; [right; right; exact Ha|].
      rewrite Hs, (probe_at_once j m Hs Ha). destruct m; reflexivity.
Qed.

End AnyNetwork.

(** The courses of the three scripts. *)
Lemma Worker_course net env url m :
  exists k, (k <= Worker.MAX_RETRIES)%nat
    /\ (forall i, (i < k)%nat ->
          succeeded (met net m url i) = false /\ transient (met net m url i) = true)
    /\ (k = Worker.MAX_RETRIES \/ succeeded (met net m url k) = true
        \/ transient (met net m url k) = false)
    /\ Worker.fetchWithTimeout net env url 1 m
       = probe_result (Worker.handleFinalFailure net url env) url Worker.RETRY_DELAY 1 k
           (met net m url k) m.
Proof.
  apply (probe_course net url (Worker.fetchWithTimeout net env url)
           (Worker.handleFinalFailure net url env) (S Worker.MAX_RETRIES)
           Worker.RETRY_DELAY transient).
  - intros j m0 Hs. apply Worker_success. exact Hs.
  - intros j m0 Hs Ha Hj. apply Worker_retry; [apply transient_retryable; assumption | lia].
  - intros j m0 Hs Ha Hj. apply Worker_give_up; [apply transient_retryable; assumption | lia].
  - intros j m0 Hs Ha. apply Worker_permanent. apply not_transient_permanent; assumption.
  - reflexivity.
Qed.

Lemma KvWorker_course net env url m :
  exists k, (k <= KvWorker.MAX_RETRIES)%nat
    /\ (forall i, (i < k)%nat ->
          succeeded (met net m url i) = false /\ transient (met net m url i) = true)
    /\ (k = KvWorker.MAX_RETRIES \/ succeeded (met net m url k) = true
        \/ transient (met net m url k) = false)
    /\ KvWorker.fetchWithTimeout net env url 1 m
       = probe_result (KvWorker.handleFinalFailure net url env) url KvWorker.RETRY_DELAY 1 k
           (met net m url k) m.
Proof.
  apply (probe_course net url (KvWorker.fetchWithTimeout net env url)
           (KvWorker.handleFinalFailure net url env) (S KvWorker.MAX_RETRIES)
           KvWorker.RETRY_DELAY transient).
  - intros j m0 Hs. apply KvWorker_success. exact Hs.
  - intros j m0 Hs Ha Hj. apply KvWorker_retry; [apply transient_retryable; assumption | lia].
  - intros j m0 Hs Ha Hj. apply KvWorker_give_up; [apply transient_retryable; assumption | lia].
  - intros j m0 Hs Ha. apply KvWorker_permanent. apply not_transient_permanent; assumption.
  - reflexivity.
Qed.

Lemma PoolWorker_course net env url m :
  exists k, (k <= PoolWorker.MAX_ATTEMPT - 1)%nat
    /\ (forall i, (i < k)%nat ->
          succeeded (met net m url i) = false /\ pool_transient (met net m url i) = true)
    /\ (k = (PoolWorker.MAX_ATTEMPT - 1)%nat \/ succeeded (met net m url k) = true
        \/ pool_transient (met net m url k) = false)
    /\ PoolWorker.fetchWithTimeout net env url 1 m
       = probe_result (PoolWorker.handleFinalFailure net url env) url PoolWorker.RETRY_DELAY
           1 k (met net m url k) m.
Proof.
  apply (probe_course net url (PoolWorker.fetchWithTimeout net env url)
           (PoolWorker.handleFinalFailure net url env) PoolWorker.MAX_ATTEMPT
           PoolWorker.RETRY_DELAY pool_transient).
  - intros j m0 Hs. apply PoolWorker_success. exact Hs.
  - intros j m0 Hs Ha Hj. rewrite PoolWorker_again by assumption.
    rewrite decide_True by exact Hj. reflexivity.
  - intros j m0 Hs Ha Hj. rewrite PoolWorker_again by assumption.
    rewrite decide_False by lia. reflexivity.
  - intros j m0 Hs Ha. apply PoolWorker_at_once; assumption.
  - reflexivity.
Qed.

(** What [handleFinalFailure] does, case by case. *)
Lemma Worker_final_cases net url env m :
  Worker.handleFinalFailure net url env m = (Return tt, m, [EvFinalFailure url])
  \/ (includes url "galaxy" = true
      /\ Worker.handleFinalFailure net url env m
         = (Return tt, after_fetch m,
            [EvFinalFailure url; EvFetch (deploy_request env url)])).
Proof.
  unfold Worker.handleFinalFailure, bind, try_catch, mark, fetch, ret, after_fetch.
  destruct (String.eqb url EmptyString); simpl; [left; reflexivity|].
  destruct (includes url "galaxy"); simpl; [|left; reflexivity].
  right. split; [reflexivity|].
  destruct (net _ _) as [st p| |]; simpl; [destruct (negb (ok st))|..]; reflexivity.
Qed.

Lemma PoolWorker_final_cases net url env m :
  PoolWorker.handleFinalFailure net url env m = (Return tt, m, [EvFinalFailure url])
  \/ (includes url "galaxy" = true
      /\ PoolWorker.handleFinalFailure net url env m
         = (Return tt, after_fetch m,
            [EvFinalFailure url; EvFetch (deploy_request env url)])).
Proof.
  unfold PoolWorker.handleFinalFailure, bind, try_catch, mark, fetch, ret, after_fetch.
  destruct (includes url "galaxy"); simpl; [|left; reflexivity].
  right. split; [reflexivity|].
  destruct (net _ _) as [st p| |]; simpl; [destruct (negb (ok st))|..]; reflexivity.
Qed.

Lemma KvWorker_final_cases net url env m :
  KvWorker.handleFinalFailure net url env m = (Return tt, m, [EvFinalFailure url])
  \/ (includes url "galaxy" = true
      /\ (KvWorker.handleFinalFailure net url env m
          = (Return tt, m, [EvFinalFailure url; EvKvGet "flag"])
          \/ KvWorker.handleFinalFailure net url env m
             = (Return tt, after_fetch m,
                [EvFinalFailure url; EvKvGet "flag"; EvFetch (deploy_request env url)])
          \/ (succeeded (net (sent m) (deploy_request env url)) = true
              /\ KvWorker.handleFinalFailure net url env m
                 = (Return tt,
                    {| kv := <["flag" := ("deployed", clock m + 60 * 60 * 3 * 1000)]> (kv m);
                       clock := clock m; sent := S (sent m) |},
                    [EvFinalFailure url; EvKvGet "flag"; EvFetch (deploy_request env url);
                     EvKvPut "flag" "deployed" (60 * 60 * 3)])))).
Proof.
  unfold KvWorker.handleFinalFailure, bind, try_catch, mark, fetch, kv_get, kv_put, ret,
    after_fetch.
  destruct (String.eqb url EmptyString); simpl; [left; reflexivity|].
  destruct (includes url "galaxy"); simpl; [|left; reflexivity].
  right. split; [reflexivity|].
  destruct (match kv_lookup m "flag" with Some _ => _ | None => _ end); simpl;
    [left; reflexivity|].
  destruct (net _ _) as [st p| |]; simpl; [|right; left; reflexivity..].
  destruct (ok st) eqn:Hok; simpl; [right; right; split; reflexivity|].
  right; left; reflexivity.
Qed.

Lemma retried_view url delay j k :
  probe_view url (retried_trace url delay j k) = retried delay j k.
Proof.
  revert j. induction k as [|k IH]; intros j; [reflexivity|].
  simpl retried_trace. rewrite view_attempt, view_backoff, IH. reflexivity.
Qed.

Lemma retried_attempts delay j k :
  length (List.filter (fun e => match e with Attempt => true | _ => false end)
            (retried delay j k)) = k.
Proof.
  revert j. induction k as [|k IH]; intros j; [reflexivity|].
  simpl. rewrite IH. reflexivity.
Qed.

Lemma retried_requests url delay j k :
  fetches (retried_trace url delay j k) = replicate k (probe_request url).
Proof.
  revert j. induction k as [|k IH]; intros j; [reflexivity|].
  simpl. unfold fetches in IH. rewrite IH. reflexivity.
Qed.

Lemma retried_store url delay j k : kv_accesses (retried_trace url delay j k) = [].
Proof.
  revert j. induction k as [|k IH]; intros j; [reflexivity|].
  simpl. apply IH.
Qed.

Lemma retried_puts url delay j k : puts (retried_trace url delay j k) = [].
Proof.
  revert j. induction k as [|k IH]; intros j; [reflexivity|].
  simpl. apply IH.
Qed.

Lemma fetches_app t1 t2 : fetches (t1 ++ t2) = (fetches t1 ++ fetches t2)%list.
Proof. unfold fetches. apply omap_app. Qed.

Lemma puts_app t1 t2 : puts (t1 ++ t2) = (puts t1 ++ puts t2)%list.
Proof. unfold puts. apply omap_app. Qed.

Lemma kv_accesses_app t1 t2 :
  kv_accesses (t1 ++ t2) = (kv_accesses t1 ++ kv_accesses t2)%list.
Proof. unfold kv_accesses. apply List.filter_app. Qed.

Lemma replicate_snoc {A} (x : A) n : (replicate n x ++ [x])%list = replicate (S n) x.
Proof. induction n as [|n IH]; [reflexivity|]. simpl. rewrite IH. reflexivity. Qed.

(** The view, the clock and the outcome of a course. *)
Lemma course_follows again delay budget net url m final k r :
  (k <= budget)%nat ->
  (forall i, (i < k)%nat ->
     succeeded (met net m url i) = false /\ again (met net m url i) = true) ->
  (k = budget \/ succeeded (met net m url k) = true \/ again (met net m url k) = false) ->
  (forall m', probe_view url (trace_of (final m')) = [FinalFailure]) ->
  (forall m', clock (machine_of (final m')) = clock m') ->
  (forall m', outcome_of (final m') = Return tt) ->
  r = probe_result final url delay 1 k (met net m url k) m ->
  follows_course again delay budget net url m r.
Proof.
  intros Hk Hbefore Hstop Hview Hclock Hret ->.
  exists k. split; [exact Hk|]. split; [exact Hbefore|]. split; [exact Hstop|].
  assert (Hshape : probe_view url
            (trace_of (probe_result final url delay 1 k (met net m url k) m))
          = probe_shape delay k (met net m url k)).
  { unfold probe_result, probe_shape.
    destruct (succeeded (met net m url k)).
    - unfold trace_of. simpl. rewrite probe_view_app, retried_view, view_attempt.
      reflexivity.
    - rewrite preceded_trace, !probe_view_app, retried_view, view_attempt, Hview.
      simpl. rewrite <- app_assoc. reflexivity. }
  split; [exact Hshape|]. split; [|split].
  - unfold attempts. rewrite Hshape. unfold probe_shape.
    rewrite List.filter_app, length_app, retried_attempts.
    destruct (succeeded _); simpl; lia.
  - unfold probe_result. destruct (succeeded _).
    + reflexivity.
    + unfold preceded, machine_of in *. simpl. rewrite Hclock. reflexivity.
  - unfold probe_result. destruct (succeeded _); [reflexivity|].
    unfold preceded, outcome_of in *. simpl. apply Hret.
Qed.

Lemma Worker_final_clock net url env m :
  clock (machine_of (Worker.handleFinalFailure net url env m)) = clock m.
Proof.
  destruct (Worker_final_cases net url env m) as [-> | [_ ->]]; reflexivity.
Qed.

Lemma PoolWorker_final_clock net url env m :
  clock (machine_of (PoolWorker.handleFinalFailure net url env m)) = clock m.
Proof.
  destruct (PoolWorker_final_cases net url env m) as [-> | [_ ->]]; reflexivity.
Qed.

Lemma KvWorker_final_clock net url env m :
  clock (machine_of (KvWorker.handleFinalFailure net url env m)) = clock m.
Proof.
  destruct (KvWorker_final_cases net url env m) as [-> | [_ [-> | [-> | [_ ->]]]]];
    reflexivity.
Qed.

(** X1. Whatever the network does, a probe of each script is a run of
    attempts separated by pauses of [RETRY_DELAY * 2^j] after attempt
    [j]: an attempt is followed by another when it fails in a way the
    script retries and the budget (3 retries, 2 in the pool script) is not
    spent. The handler is called once, after the last attempt, unless
    that attempt met a 2xx status; the promise is fulfilled, and the
    pauses add up to the advance of the clock. *)
Theorem probe_course_any_network net env url m :
  follows_course transient Worker.RETRY_DELAY Worker.MAX_RETRIES net url m
    (Worker.fetchWithTimeout net env url 1 m)
  /\ follows_course transient KvWorker.RETRY_DELAY KvWorker.MAX_RETRIES net url m
       (KvWorker.fetchWithTimeout net env url 1 m)
  /\ follows_course pool_transient PoolWorker.RETRY_DELAY (PoolWorker.MAX_ATTEMPT - 1)
       net url m (PoolWorker.fetchWithTimeout net env url 1 m).
Proof.
  split; [|split].
  - destruct (Worker_course net env url m) as (k & Hk & Hb & Hs & Hrun).
    apply (course_follows _ _ _ _ _ _ (Worker.handleFinalFailure net url env) k);
      try assumption.
    + intros m'. apply Worker_final_view.
    + intros m'. apply Worker_final_clock.
    + intros m'. apply Worker_final_returns.
  - destruct (KvWorker_course net env url m) as (k & Hk & Hb & Hs & Hrun).
    apply (course_follows _ _ _ _ _ _ (KvWorker.handleFinalFailure net url env) k);
      try assumption.
    + intros m'. apply KvWorker_final_view.
    + intros m'. apply KvWorker_final_clock.
    + intros m'. apply KvWorker_final_returns.
  - destruct (PoolWorker_course net env url m) as (k & Hk & Hb & Hs & Hrun).
    apply (course_follows _ _ _ _ _ _ (PoolWorker.handleFinalFailure net url env) k);
      try assumption.
    + intros m'. apply PoolWorker_final_view.
    + intros m'. apply PoolWorker_final_clock.
    + intros m'. apply PoolWorker_final_returns.
Qed.

Lemma result_requests final url delay k r m :
  fetches (trace_of (probe_result final url delay 1 k r m))
  = (replicate (S k) (probe_request url)
     ++ if succeeded r then []
        else fetches (trace_of (final (after_fetch (after_retries delay 1 k m)))))%list.
Proof.
  unfold probe_result. destruct (succeeded r).
  - unfold trace_of. cbn [snd]. rewrite fetches_app, retried_requests.
    change (fetches [EvFetch (probe_request url)]) with [probe_request url].
    rewrite app_nil_r. apply replicate_snoc.
  - rewrite preceded_trace, !fetches_app, retried_requests.
    change (fetches [EvFetch (probe_request url)]) with [probe_request url].
    rewrite replicate_snoc. reflexivity.
Qed.

Lemma result_store final url delay k r m :
  kv_accesses (trace_of (probe_result final url delay 1 k r m))
  = if succeeded r then []
    else kv_accesses (trace_of (final (after_fetch (after_retries delay 1 k m)))).
Proof.
  unfold probe_result. destruct (succeeded r).
  - unfold trace_of. simpl. rewrite kv_accesses_app, retried_store. reflexivity.
  - rewrite preceded_trace, !kv_accesses_app, retried_store. reflexivity.
Qed.

Lemma result_puts final url delay k r m :
  puts (trace_of (probe_result final url delay 1 k r m))
  = if succeeded r then []
    else puts (trace_of (final (after_fetch (after_retries delay 1 k m)))).
Proof.
  unfold probe_result. destruct (succeeded r).
  - unfold trace_of. simpl. rewrite puts_app, retried_puts. reflexivity.
  - rewrite preceded_trace, !puts_app, retried_puts. reflexivity.
Qed.

Lemma result_kv final url delay k r m :
  kv (machine_of (probe_result final url delay 1 k r m))
  = if succeeded r then kv m
    else kv (machine_of (final (after_fetch (after_retries delay 1 k m)))).
Proof. unfold probe_result. destruct (succeeded r); reflexivity. Qed.

(** X3. A probe of a URL that does not contain [galaxy] sends nothing but
    its own attempts, whatever the network does and however it ends:
    no request goes to the deploy interface, and the store is neither
    read nor written. This holds for the three scripts. *)
Theorem other_urls_are_only_probed net env url m :
  includes url "galaxy" = false ->
  (exists a, (1 <= a <= S Worker.MAX_RETRIES)%nat
     /\ fetches (trace_of (Worker.fetchWithTimeout net env url 1 m))
        = replicate a (probe_request url)
     /\ kv_accesses (trace_of (Worker.fetchWithTimeout net env url 1 m)) = []
     /\ kv (machine_of (Worker.fetchWithTimeout net env url 1 m)) = kv m)
  /\ (exists a, (1 <= a <= S KvWorker.MAX_RETRIES)%nat
     /\ fetches (trace_of (KvWorker.fetchWithTimeout net env url 1 m))
        = replicate a (probe_request url)
     /\ kv_accesses (trace_of (KvWorker.fetchWithTimeout net env url 1 m)) = []
     /\ kv (machine_of (KvWorker.fetchWithTimeout net env url 1 m)) = kv m)
  /\ (exists a, (1 <= a <= PoolWorker.MAX_ATTEMPT)%nat
     /\ fetches (trace_of (PoolWorker.fetchWithTimeout net env url 1 m))
        = replicate a (probe_request url)
     /\ kv_accesses (trace_of (PoolWorker.fetchWithTimeout net env url 1 m)) = []
     /\ kv (machine_of (PoolWorker.fetchWithTimeout net env url 1 m)) = kv m).
Proof.
  intros Hinc. split; [|split].
  - destruct (Worker_course net env url m) as (k & Hk & _ & _ & ->).
    exists (S k). split; [unfold Worker.MAX_RETRIES in *; lia|].
    rewrite result_requests, result_store, result_kv.
    destruct (succeeded _); [rewrite app_nil_r; done|].
    destruct (Worker_final_cases net url env
                (after_fetch (after_retries Worker.RETRY_DELAY 1 k m)))
      as [-> | [Hg _]]; [|congruence].
    rewrite app_nil_r. done.
  - destruct (KvWorker_course net env url m) as (k & Hk & _ & _ & ->).
    exists (S k). split; [unfold KvWorker.MAX_RETRIES in *; lia|].
    rewrite result_requests, result_store, result_kv.
    destruct (succeeded _); [rewrite app_nil_r; done|].
    destruct (KvWorker_final_cases net url env
                (after_fetch (after_retries KvWorker.RETRY_DELAY 1 k m)))
      as [-> | [Hg _]]; [|congruence].
    rewrite app_nil_r. done.
  - destruct (PoolWorker_course net env url m) as (k & Hk & _ & _ & ->).
    exists (S k). split; [unfold PoolWorker.MAX_ATTEMPT in *; lia|].
    rewrite result_requests, result_store, result_kv.
    destruct (succeeded _); [rewrite app_nil_r; done|].
    destruct (PoolWorker_final_cases net url env
                (after_fetch (after_retries PoolWorker.RETRY_DELAY 1 k m)))
      as [-> | [Hg _]]; [|congruence].
    rewrite app_nil_r. done.
Qed.

Lemma other_urls_are_only_probed_witness :
  includes down_url "galaxy" = false
  /\ exists a, (1 <= a <= S Worker.MAX_RETRIES)%nat
     /\ fetches (trace_of (Worker.fetchWithTimeout (always 503) sample_env down_url 1
                             fresh_machine))
        = replicate a (probe_request down_url)
     /\ kv_accesses (trace_of (Worker.fetchWithTimeout (always 503) sample_env down_url 1
                                 fresh_machine)) = []
     /\ kv (machine_of (Worker.fetchWithTimeout (always 503) sample_env down_url 1
                          fresh_machine)) = kv fresh_machine.
Proof.
  split; [reflexivity|].
  apply (other_urls_are_only_probed (always 503) sample_env down_url fresh_machine).
  reflexivity.
Defined.

(** X2. Whatever the network does, a probe sends between one and four
    attempts (three in the pool script) and then at most one request to
    the deploy interface, and that only for a URL containing [galaxy].
    The script of src/keepUpCheck_worker.js and the pool script never
    touch the store; the script with the KV flag writes nothing but the
    flag, once, after a deploy request answered with a 2xx status. *)
Theorem probe_requests_any_network net env url m :
  (exists a, (1 <= a <= S Worker.MAX_RETRIES)%nat
     /\ probes_then_trigger env url a
          (fetches (trace_of (Worker.fetchWithTimeout net env url 1 m)))
     /\ kv_accesses (trace_of (Worker.fetchWithTimeout net env url 1 m)) = []
     /\ kv (machine_of (Worker.fetchWithTimeout net env url 1 m)) = kv m)
  /\ (exists a, (1 <= a <= PoolWorker.MAX_ATTEMPT)%nat
     /\ probes_then_trigger env url a
          (fetches (trace_of (PoolWorker.fetchWithTimeout net env url 1 m)))
     /\ kv_accesses (trace_of (PoolWorker.fetchWithTimeout net env url 1 m)) = []
     /\ kv (machine_of (PoolWorker.fetchWithTimeout net env url 1 m)) = kv m)
  /\ (exists a, (1 <= a <= S KvWorker.MAX_RETRIES)%nat
     /\ probes_then_trigger env url a
          (fetches (trace_of (KvWorker.fetchWithTimeout net env url 1 m))))
  /\ flag_written_on_success net env url m (KvWorker.fetchWithTimeout net env url 1 m).
Proof.
  split; [|split; [|split]].
  - destruct (Worker_course net env url m) as (k & Hk & _ & _ & ->).
    exists (S k). split; [unfold Worker.MAX_RETRIES in *; lia|].
    rewrite result_requests, result_store, result_kv.
    destruct (succeeded _); [rewrite app_nil_r; split; [left|]; done|].
    destruct (Worker_final_cases net url env
                (after_fetch (after_retries Worker.RETRY_DELAY 1 k m)))
      as [-> | [Hg ->]].
    + rewrite app_nil_r. split; [left|]; done.
    + split; [right; split; [exact Hg | reflexivity]|]. done.
  - destruct (PoolWorker_course net env url m) as (k & Hk & _ & _ & ->).
    exists (S k). split; [unfold PoolWorker.MAX_ATTEMPT in *; lia|].
    rewrite result_requests, result_store, result_kv.
    destruct (succeeded _); [rewrite app_nil_r; split; [left|]; done|].
    destruct (PoolWorker_final_cases net url env
                (after_fetch (after_retries PoolWorker.RETRY_DELAY 1 k m)))
      as [-> | [Hg ->]].
    + rewrite app_nil_r. split; [left|]; done.
    + split; [right; split; [exact Hg | reflexivity]|]. done.
  - destruct (KvWorker_course net env url m) as (k & Hk & _ & _ & ->).
    exists (S k). split; [unfold KvWorker.MAX_RETRIES in *; lia|].
    rewrite result_requests.
    destruct (succeeded _); [rewrite app_nil_r; left; done|].
    destruct (KvWorker_final_cases net url env
                (after_fetch (after_retries KvWorker.RETRY_DELAY 1 k m)))
      as [-> | [Hg [-> | [-> | [_ ->]]]]].
    + rewrite app_nil_r. left; done.
    + rewrite app_nil_r. left; done.
    + right; split; [exact Hg | reflexivity].
    + right; split; [exact Hg | reflexivity].
  - destruct (KvWorker_course net env url m) as (k & Hk & _ & _ & ->).
    unfold flag_written_on_success.
    rewrite result_requests, result_puts, result_kv.
    destruct (succeeded (met net m url k)) eqn:Hs; [left; done|].
    destruct (KvWorker_final_cases net url env
                (after_fetch (after_retries KvWorker.RETRY_DELAY 1 k m)))
      as [Hf | [Hg [Hf | [Hf | [Hok Hf]]]]]; rewrite ?Hf; try (left; done).
    right. split; [reflexivity|]. split.
    + unfold machine_of, probe_result. rewrite Hs, Hf. reflexivity.
    + exists (S k). split; [reflexivity|].
      simpl in Hok. replace (sent m + S k)%nat with (S (sent m + k)) by lia. exact Hok.
Qed.
(** ** The flag of the checker over time *)


(** ** The receiver under any network *)

Section ReceiverAnyNetwork.
Variable net : nat -> http_request -> fetch_result.
Variable encodeURIComponent : string -> string.
Variable updateTimestampSection : Codec.text -> Codec.text.

Local Abbreviation handle := (Deploy.fetch net encodeURIComponent updateTimestampSection).
Local Abbreviation run := (Deploy.run net encodeURIComponent updateTimestampSection).




(** X6. Without a secret the receiver serves nobody: when [DEPLOY_TOKEN] is
    unset or empty, every request is answered 401 or 404, whatever
    token it carries, and nothing is read, written or sent. *)
Theorem unset_secret_refuses_everything req env m :
  Deploy.truthy (Deploy.DEPLOY_TOKEN env) = false ->
  (Deploy.rs_status (handle req env m).1.1 = 401
   \/ Deploy.rs_status (handle req env m).1.1 = 404)
  /\ (handle req env m).1.2 = m
  /\ (handle req env m).2 = [].
Proof.
  intros Hsecret. unfold Deploy.fetch.
  destruct (_ && _); [|split; [right; reflexivity | split; reflexivity]].
  replace (negb (Deploy.truthy (Deploy.in_header req "X-Deploy-Token"))
           || Deploy.differs (Deploy.in_header req "X-Deploy-Token")
                (Deploy.DEPLOY_TOKEN env)) with true;
    [split; [left; reflexivity | split; reflexivity]|].
  symmetry. destruct (Deploy.in_header req "X-Deploy-Token") as [token|]; [|reflexivity].
  simpl. destruct (String.eqb_spec token EmptyString) as [->|Hne]; [reflexivity|]. simpl.
  destruct (Deploy.DEPLOY_TOKEN env) as [secret|]; [|reflexivity]. simpl in Hsecret |- *.
  apply negb_false_iff in Hsecret. apply String.eqb_eq in Hsecret. subst secret.
  apply negb_true_iff. apply String.eqb_neq. exact Hne.
Qed.

End ReceiverAnyNetwork.






Lemma unset_secret_refuses_everything_witness :
  Deploy.truthy (Deploy.DEPLOY_TOKEN secretless_denv) = false
  /\ Deploy.rs_status
       (Deploy.fetch (always 200) id sample_update
          (request_with "POST" "/deploy" (Some "undefined")) secretless_denv
          fresh_machine).1.1 = 401.
Proof.
  split; [reflexivity|].
  destruct (unset_secret_refuses_everything (always 200) id sample_update
              (request_with "POST" "/deploy" (Some "undefined")) secretless_denv
              fresh_machine eq_refl) as [[H|H] _]; [exact H|].
  vm_compute in H. discriminate H.
Defined.
(** ** The encoding helpers on any text *)

(** Induction over a text the way [scalars] reads it. *)
Lemma text_ind (P : Codec.text -> Prop) :
  P [] ->
  (forall u r,
     Codec.is_lead u = false -> Codec.is_trail u = false -> P r -> P (u :: r)) ->
  (forall u l r,
     Codec.is_lead u = true -> Codec.is_trail l = true -> P r -> P (u :: l :: r)) ->
  (forall u r,
     Codec.is_lead u = true -> Codec.is_trail (hd 0 r) = false -> P r -> P (u :: r)) ->
  (forall u r,
     Codec.is_lead u = false -> Codec.is_trail u = true -> P r -> P (u :: r)) ->
  forall s, P s.
Proof.
  intros Hnil Hone Hpair Hlead Htrail s.
  remember (length s) as n eqn:Hn. revert s Hn.
  induction n as [n IH] using lt_wf_ind. intros s Hn.
  destruct s as [|u r]; [exact Hnil|].
  assert (Hr : P r) by (apply (IH (length r)); [subst n; cbn [length]; lia | reflexivity]).
  destruct (Codec.is_lead u) eqn:Hl.
  - destruct r as [|l r'].
    + apply Hlead; [exact Hl | reflexivity | exact Hr].
    + destruct (Codec.is_trail l) eqn:Ht.
      * apply Hpair; [exact Hl | exact Ht |].
        apply (IH (length r')); [subst n; cbn [length]; lia | reflexivity].
      * apply Hlead; [exact Hl | exact Ht | exact Hr].
  - destruct (Codec.is_trail u) eqn:Ht.
    + apply Htrail; assumption.
    + apply Hone; assumption.
Qed.

Lemma scalars_lone_lead u r :
  Codec.is_lead u = true -> Codec.is_trail (hd 0 r) = false ->
  Codec.scalars (u :: r) = 0xFFFD :: Codec.scalars r.
Proof.
  intros Hl Ht. cbn [Codec.scalars]. rewrite Hl.
  destruct r as [|l r']; [reflexivity|]. cbn [hd] in Ht. rewrite Ht. reflexivity.
Qed.

Lemma scalars_lone_trail u r :
  Codec.is_lead u = false -> Codec.is_trail u = true ->
  Codec.scalars (u :: r) = 0xFFFD :: Codec.scalars r.
Proof. intros Hl Ht. cbn [Codec.scalars]. rewrite Hl, Ht. reflexivity. Qed.

Lemma toWellFormed_single u r :
  Codec.is_lead u = false -> Codec.is_trail u = false ->
  toWellFormed (u :: r) = u :: toWellFormed r.
Proof. intros Hl Ht. cbn [toWellFormed]. rewrite Hl, Ht. reflexivity. Qed.

Lemma toWellFormed_pair u l r :
  Codec.is_lead u = true -> Codec.is_trail l = true ->
  toWellFormed (u :: l :: r) = u :: l :: toWellFormed r.
Proof. intros Hl Ht. cbn [toWellFormed]. rewrite Hl, Ht. reflexivity. Qed.

Lemma toWellFormed_lone_lead u r :
  Codec.is_lead u = true -> Codec.is_trail (hd 0 r) = false ->
  toWellFormed (u :: r) = 0xFFFD :: toWellFormed r.
Proof.
  intros Hl Ht. cbn [toWellFormed]. rewrite Hl.
  destruct r as [|l r']; [reflexivity|]. cbn [hd] in Ht. rewrite Ht. reflexivity.
Qed.

Lemma toWellFormed_lone_trail u r :
  Codec.is_lead u = false -> Codec.is_trail u = true ->
  toWellFormed (u :: r) = 0xFFFD :: toWellFormed r.
Proof. intros Hl Ht. cbn [toWellFormed]. rewrite Hl, Ht. reflexivity. Qed.

Lemma replacement_is_scalar : is_scalar 0xFFFD.
Proof. unfold is_scalar. lia. Qed.

Lemma code_units_tail u r : code_units (u :: r) -> code_units r.
Proof. intros H. inversion H; assumption. Qed.

Lemma code_units_head u r : code_units (u :: r) -> Codec.is_unit u = true.
Proof. intros H. inversion H; assumption. Qed.

(** The encoder reads scalar values off any string. *)
Lemma scalars_of_any_text s : code_units s -> Forall is_scalar (Codec.scalars s).
Proof.
  revert s. apply (text_ind (fun s => code_units s -> Forall is_scalar (Codec.scalars s)));
    [| intros u r Hl Ht IH | intros u l r Hl Ht IH | intros u r Hl Ht IH
     | intros u r Hl Ht IH]; intros Hs.
  - constructor.
  - rewrite scalars_single by assumption.
    constructor; [|apply IH; eapply code_units_tail; exact Hs].
    apply plain_range; try assumption. eapply code_units_head; exact Hs.
  - rewrite scalars_pair by assumption.
    constructor; [|apply IH; do 2 (eapply code_units_tail); exact Hs].
    apply lead_range in Hl. apply trail_range in Ht. unfold is_scalar. lia.
  - rewrite scalars_lone_lead by assumption.
    constructor; [apply replacement_is_scalar | apply IH; eapply code_units_tail; exact Hs].
  - rewrite scalars_lone_trail by assumption.
    constructor; [apply replacement_is_scalar | apply IH; eapply code_units_tail; exact Hs].
Qed.

Lemma toWellFormed_length s : length (toWellFormed s) = length s.
Proof.
  revert s. apply text_ind;
    [| intros u r Hl Ht IH | intros u l r Hl Ht IH | intros u r Hl Ht IH
     | intros u r Hl Ht IH].
  - reflexivity.
  - rewrite toWellFormed_single by assumption. cbn [length]. rewrite IH. reflexivity.
  - rewrite toWellFormed_pair by assumption. cbn [length]. rewrite IH. reflexivity.
  - rewrite toWellFormed_lone_lead by assumption. cbn [length]. rewrite IH. reflexivity.
  - rewrite toWellFormed_lone_trail by assumption. cbn [length]. rewrite IH. reflexivity.
Qed.

Lemma toWellFormed_well_formed s :
  code_units s -> Codec.well_formed (toWellFormed s) = true.
Proof.
  revert s.
  apply (text_ind (fun s => code_units s -> Codec.well_formed (toWellFormed s) = true));
    [| intros u r Hl Ht IH | intros u l r Hl Ht IH | intros u r Hl Ht IH
     | intros u r Hl Ht IH]; intros Hs.
  - reflexivity.
  - rewrite toWellFormed_single by assumption. cbn [Codec.well_formed].
    rewrite Hl, Ht, (code_units_head u r Hs), IH by (eapply code_units_tail; exact Hs).
    reflexivity.
  - rewrite toWellFormed_pair by assumption. cbn [Codec.well_formed].
    rewrite Hl, Ht, IH by (do 2 eapply code_units_tail; exact Hs). reflexivity.
  - rewrite toWellFormed_lone_lead by assumption. cbn [Codec.well_formed].
    rewrite IH by (eapply code_units_tail; exact Hs). reflexivity.
  - rewrite toWellFormed_lone_trail by assumption. cbn [Codec.well_formed].
    rewrite IH by (eapply code_units_tail; exact Hs). reflexivity.
Qed.

Lemma toWellFormed_scalars s : Codec.scalars (toWellFormed s) = Codec.scalars s.
Proof.
  revert s. apply text_ind;
    [| intros u r Hl Ht IH | intros u l r Hl Ht IH | intros u r Hl Ht IH
     | intros u r Hl Ht IH].
  - reflexivity.
  - rewrite toWellFormed_single, !scalars_single, IH by assumption. reflexivity.
  - rewrite toWellFormed_pair, !scalars_pair, IH by assumption. reflexivity.
  - rewrite toWellFormed_lone_lead, (scalars_lone_lead u r) by assumption.
    rewrite scalars_single by reflexivity. rewrite IH. reflexivity.
  - rewrite toWellFormed_lone_trail, (scalars_lone_trail u r) by assumption.
    rewrite scalars_single by reflexivity. rewrite IH. reflexivity.
Qed.

(** A well-formed text is left as it is, and only such a text. *)
Lemma toWellFormed_fixed s :
  code_units s -> (toWellFormed s = s <-> Codec.well_formed s = true).
Proof.
  intros Hs. split.
  - intros Heq. rewrite <- Heq. apply toWellFormed_well_formed. exact Hs.
  - clear Hs. revert s. apply well_formed_ind;
      [| intros u r Hl Ht Hu _ IH | intros u l r Hl Ht _ IH].
    + reflexivity.
    + rewrite toWellFormed_single, IH by assumption. reflexivity.
    + rewrite toWellFormed_pair, IH by assumption. reflexivity.
Qed.

Lemma encode_of_toWellFormed s :
  Codec.base64EncodeUtf8 (toWellFormed s) = Codec.base64EncodeUtf8 s.
Proof.
  unfold Codec.base64EncodeUtf8, Codec.TextEncoder_encode.
  rewrite toWellFormed_scalars. reflexivity.
Qed.

Lemma without_bom_length s :
  length (without_bom s) = length s -> hd 0 s <> 0xFEFF.
Proof.
  destruct s as [|u r]; cbn [without_bom hd]; [lia|].
  destruct (Z.eqb_spec u 0xFEFF) as [->|Hne]; [cbn [length]; lia|].
  intros _. exact Hne.
Qed.

(** The round trip of a well-formed text. *)
Lemma round_trip_well_formed str :
  Codec.well_formed str = true -> round_trip str = Some (without_bom str).
Proof.
  intros Hwf. pose proof (TextEncoder_bytes str Hwf) as Hb.
  unfold round_trip, Codec.base64EncodeUtf8, Codec.btoa.
  rewrite (map_id_bytes Codec.fromCharCode) by
    (exact Hb || (intros b Hbyte; unfold Codec.fromCharCode, is_byte in *; div_lia)).
  replace (forallb (fun u => u <=? 255) (Codec.TextEncoder_encode str)) with true.
  2:{ symmetry. apply forallb_forall. intros b Hin. rewrite Forall_forall in Hb.
      apply list_elem_of_In, Hb in Hin. apply Z.leb_le. unfold is_byte in Hin. lia. }
  unfold Codec.base64DecodeUtf8.
  rewrite remove_newlines_base64, atob_base64_encode by exact Hb.
  unfold Codec.Uint8Array_from.
  rewrite (map_id_bytes (fun c => c mod 256)) by
    (exact Hb || (intros b Hbyte; unfold is_byte in *; div_lia)).
  unfold Codec.TextDecoder_decode, Codec.TextEncoder_encode.
  rewrite utf8_run_encode by (apply scalars_are_scalar; exact Hwf).
  rewrite strip_bom_scalars by exact Hwf. reflexivity.
Qed.

Lemma round_trip_any_text_general str :
  code_units str -> round_trip str = Some (without_bom (toWellFormed str)).
Proof.
  intros Hs. pose proof (toWellFormed_well_formed str Hs) as Hwf.
  pose proof (round_trip_well_formed (toWellFormed str) Hwf) as H.
  unfold round_trip in *. rewrite encode_of_toWellFormed in H. exact H.
Qed.

(** X8. On any string, well-formed or not,
    [base64DecodeUtf8(base64EncodeUtf8(str))] returns
    [str.toWellFormed()] without the byte order mark that may open it:
    the encoder writes U+FFFD for each unpaired surrogate. The round
    trip gives the string back exactly when the string is well-formed
    and does not open with U+FEFF. *)
Theorem round_trip_any_text str :
  code_units str ->
  round_trip str = Some (without_bom (toWellFormed str))
  /\ (round_trip str = Some str
      <-> Codec.well_formed str = true /\ hd 0 str <> 0xFEFF).
Proof.
  intros Hs.
  pose proof (round_trip_any_text_general str Hs) as Hrt.
  split; [exact Hrt|]. rewrite Hrt. split.
  - intros Heq. injection Heq as Heq.
    assert (Hhd : hd 0 (toWellFormed str) <> 0xFEFF).
    { apply without_bom_length. rewrite Heq. symmetry. apply toWellFormed_length. }
    assert (Hfix : toWellFormed str = str).
    { rewrite <- Heq at 2. destruct (toWellFormed str) as [|u r]; [reflexivity|].
      cbn [hd] in Hhd. cbn [without_bom].
      replace (u =? 65279) with false by (symmetry; apply Z.eqb_neq; exact Hhd).
      reflexivity. }
    split; [apply toWellFormed_fixed; assumption|]. rewrite <- Hfix. exact Hhd.
  - intros [Hwf Hhd]. apply toWellFormed_fixed in Hwf; [|exact Hs]. rewrite Hwf.
    f_equal. destruct str as [|u r]; [reflexivity|]. cbn [hd] in Hhd. cbn [without_bom].
    replace (u =? 65279) with false by (symmetry; apply Z.eqb_neq; exact Hhd).
    reflexivity.
Qed.

Lemma round_trip_any_text_witness :
  code_units broken_text
  /\ round_trip broken_text = Some [72; 0xFFFD; 105].
Proof.
  assert (H : code_units broken_text) by (repeat constructor).
  split; [exact H|].
  apply (round_trip_any_text broken_text H).
Defined.

(** *** What the encoder writes *)

Lemma TextEncoder_of_toWellFormed s :
  Codec.TextEncoder_encode (toWellFormed s) = Codec.TextEncoder_encode s.
Proof. unfold Codec.TextEncoder_encode. rewrite toWellFormed_scalars. reflexivity. Qed.

Lemma TextEncoder_bytes_any s : code_units s -> Forall is_byte (Codec.TextEncoder_encode s).
Proof.
  intros Hs. rewrite <- TextEncoder_of_toWellFormed.
  apply TextEncoder_bytes, toWellFormed_well_formed, Hs.
Qed.

Lemma encode_any s :
  code_units s ->
  Codec.base64EncodeUtf8 s
  = Some (String.string_of_list_ascii (Codec.base64_encode (Codec.TextEncoder_encode s))).
Proof.
  intros Hs. pose proof (TextEncoder_bytes_any s Hs) as Hb.
  unfold Codec.base64EncodeUtf8, Codec.btoa.
  rewrite (map_id_bytes Codec.fromCharCode) by
    (exact Hb || (intros b Hbyte; unfold Codec.fromCharCode, is_byte in *; div_lia)).
  replace (forallb (fun u => u <=? 255) (Codec.TextEncoder_encode s)) with true;
    [reflexivity|].
  symmetry. apply forallb_forall. intros b Hin. rewrite Forall_forall in Hb.
  apply list_elem_of_In, Hb in Hin. apply Z.leb_le. unfold is_byte in Hin. lia.
Qed.

Lemma base64_encode_size bs :
  length (Codec.base64_encode bs) = (4 * ((length bs + 2) / 3))%nat.
Proof.
  induction bs as [| a | a b | a b c r IH] using list_ind3; try reflexivity.
  cbn [Codec.base64_encode length]. rewrite IH.
  replace (S (S (S (length r))) + 2)%nat with ((length r + 2) + 1 * 3)%nat by lia.
  rewrite Nat.div_add by lia. lia.
Qed.

Lemma base64_encode_symbols bs :
  Forall is_byte bs -> Forall base64_symbol (Codec.base64_encode bs).
Proof.
  intros Hb. rewrite base64_encode_split. apply Forall_app. split.
  - apply Forall_map. eapply Forall_impl; [apply base64_values_sextets; exact Hb|].
    intros n Hn. destruct (digit_facts n Hn) as (Hs & _). left. rewrite Hs. eexists; reflexivity.
  - destruct (base64_padding_cases bs) as [-> | [-> | ->]];
      repeat constructor; right; reflexivity.
Qed.

Lemma utf8_encode_size c :
  is_scalar c ->
  (1 <= length (Codec.utf8_encode_scalar c) <= 4)%nat
  /\ (c <= 0xFFFF -> (length (Codec.utf8_encode_scalar c) <= 3)%nat)
  /\ (0xFFFF < c -> length (Codec.utf8_encode_scalar c) = 4%nat).
Proof.
  intros [Hr Hs].
  destruct (Z_le_gt_dec c 0x7F); [rewrite utf8_encode_1 by lia; cbn [length]; lia|].
  destruct (Z_le_gt_dec c 0x7FF); [rewrite utf8_encode_2 by lia; cbn [length]; lia|].
  destruct (Z_le_gt_dec c 0xFFFF); [rewrite utf8_encode_3 by lia; cbn [length]; lia|].
  rewrite utf8_encode_4 by lia. cbn [length]. lia.
Qed.

(** One to three bytes for each code unit. *)
Lemma TextEncoder_size s :
  code_units s ->
  (length s <= length (Codec.TextEncoder_encode s) <= 3 * length s)%nat.
Proof.
  unfold Codec.TextEncoder_encode. revert s.
  apply (text_ind (fun s => code_units s ->
           (length s <= length (concat (map Codec.utf8_encode_scalar (Codec.scalars s)))
            <= 3 * length s)%nat));
    [| intros u r Hl Ht IH | intros u l r Hl Ht IH | intros u r Hl Ht IH
     | intros u r Hl Ht IH]; intros Hs.
  - cbn. lia.
  - rewrite scalars_single by assumption. cbn [map concat length]. rewrite length_app.
    specialize (IH (code_units_tail u r Hs)).
    destruct (plain_range u Hl Ht (code_units_head u r Hs)) as [Hsc Hle].
    destruct (utf8_encode_size u Hsc) as (H1 & H2 & _). specialize (H2 Hle). lia.
  - rewrite scalars_pair by assumption. cbn [map concat length]. rewrite length_app.
    specialize (IH (code_units_tail l r (code_units_tail u (l :: r) Hs))).
    apply lead_range in Hl. apply trail_range in Ht.
    match goal with
    | |- context [Codec.utf8_encode_scalar ?c] =>
        destruct (utf8_encode_size c) as (_ & _ & H4); [unfold is_scalar; lia|];
        rewrite H4 by lia
    end.
    lia.
  - rewrite scalars_lone_lead by assumption. cbn [map concat length]. rewrite length_app.
    specialize (IH (code_units_tail u r Hs)).
    change (length (Codec.utf8_encode_scalar 65533)) with 3%nat. lia.
  - rewrite scalars_lone_trail by assumption. cbn [map concat length]. rewrite length_app.
    specialize (IH (code_units_tail u r Hs)).
    change (length (Codec.utf8_encode_scalar 65533)) with 3%nat. lia.
Qed.

(** X9. [base64EncodeUtf8] does not throw, on any string: the code units it
    hands to [btoa] are bytes. What it returns is padded base64, four
    characters for every three bytes of the UTF-8 form or part thereof,
    hence at most four characters for each code unit of the string. *)
Theorem encode_never_throws str :
  code_units str ->
  exists e,
    Codec.base64EncodeUtf8 str = Some e
    /\ Forall base64_symbol (chars e)
    /\ length (chars e) = (4 * ((length (Codec.TextEncoder_encode str) + 2) / 3))%nat
    /\ (length (chars e) <= 4 * length str)%nat
    /\ Codec.atob e = Some (Codec.TextEncoder_encode str).
Proof.
  intros Hs. pose proof (TextEncoder_bytes_any str Hs) as Hb.
  eexists. split; [apply encode_any; exact Hs|].
  unfold chars. rewrite String.list_ascii_of_string_of_list_ascii.
  split; [apply base64_encode_symbols; exact Hb|].
  split; [apply base64_encode_size|]. split.
  - rewrite base64_encode_size. pose proof (TextEncoder_size str Hs) as [_ Hle].
    assert ((length (Codec.TextEncoder_encode str) + 2) / 3 < S (length str))%nat; [|lia].
    apply Nat.Div0.div_lt_upper_bound. lia.
  - apply atob_base64_encode. exact Hb.
Qed.

Lemma encode_never_throws_witness :
  code_units broken_text
  /\ exists e, Codec.base64EncodeUtf8 broken_text = Some e
       /\ (length (chars e) <= 4 * length broken_text)%nat.
Proof.
  assert (H : code_units broken_text) by (repeat constructor).
  split; [exact H|].
  destruct (encode_never_throws broken_text H) as (e & He & _ & _ & Hle & _).
  exists e. split; [exact He | exact Hle].
Defined.

(** *** Line breaks in what the decoder reads *)

Lemma filter_filter_weaker {A} (f g : A -> bool) l :
  (forall x, f x = true -> g x = true) ->
  List.filter f (List.filter g l) = List.filter f l.
Proof.
  intros Hfg. induction l as [|x l IH]; [reflexivity|].
  cbn [List.filter]. destruct (g x) eqn:Hg.
  - cbn [List.filter]. rewrite IH. reflexivity.
  - rewrite IH. destruct (f x) eqn:Hf; [|reflexivity].
    apply Hfg in Hf. congruence.
Qed.

(** [atob] reads its argument with the white space left out. *)
Lemma atob_spaced w e : spaced w e -> Codec.atob w = Codec.atob e.
Proof.
  unfold spaced, chars, Codec.atob. intros Hw.
  assert (He : List.filter (fun c => negb (Codec.is_whitespace c))
                 (String.list_ascii_of_string e) = String.list_ascii_of_string e).
  { rewrite <- Hw. apply filter_filter_weaker. auto. }
  rewrite Hw, He. reflexivity.
Qed.

Lemma remove_newlines_spaced w e : spaced w e -> spaced (Codec.remove_newlines w) e.
Proof.
  unfold spaced, chars, Codec.remove_newlines. intros Hw.
  rewrite String.list_ascii_of_string_of_list_ascii, <- Hw.
  apply filter_filter_weaker. intros c Hc.
  apply negb_true_iff in Hc. apply negb_true_iff.
  unfold Codec.is_whitespace in Hc.
  destruct (Codec.code c =? 10); [|reflexivity].
  rewrite orb_true_r in Hc. discriminate Hc.
Qed.

(** X10. The decoder reads base64 that is broken into lines, as the content
    API sends it: white space put anywhere into the text that
    [base64EncodeUtf8] wrote for [str] changes nothing, and the result
    is [str.toWellFormed()] without the byte order mark. *)
Theorem decode_ignores_line_breaks str e w :
  code_units str ->
  Codec.base64EncodeUtf8 str = Some e ->
  spaced w e ->
  Codec.base64DecodeUtf8 w = Some (without_bom (toWellFormed str)).
Proof.
  intros Hs He Hw.
  pose proof (round_trip_any_text_general str Hs) as Hrt.
  unfold round_trip in Hrt. rewrite He in Hrt. rewrite <- Hrt.
  unfold Codec.base64DecodeUtf8.
  rewrite (atob_spaced (Codec.remove_newlines w) e) by (apply remove_newlines_spaced, Hw).
  rewrite (atob_spaced (Codec.remove_newlines e) e); [reflexivity|].
  apply remove_newlines_spaced. unfold spaced, chars.
  rewrite (encode_any str Hs) in He. injection He as <-.
  rewrite String.list_ascii_of_string_of_list_ascii. apply filter_all.
  eapply Forall_impl; [apply base64_encode_chars, TextEncoder_bytes_any, Hs|].
  intros c [Hc _]. rewrite Hc. reflexivity.
Qed.

Lemma decode_ignores_line_breaks_witness :
  code_units [72; 105]
  /\ Codec.base64EncodeUtf8 [72; 105] = Some "SGk="
  /\ spaced wrapped_base64 "SGk="
  /\ Codec.base64DecodeUtf8 wrapped_base64 = Some [72; 105].
Proof.
  assert (H : code_units [72; 105]) by (repeat constructor).
  split; [exact H|]. split; [reflexivity|]. split; [reflexivity|].
  apply (decode_ignores_line_breaks [72; 105] "SGk=" wrapped_base64 H eq_refl eq_refl).
Defined.
(** ** The URL list *)

Lemma trimStart_snoc s w :
  Urls.is_space w = true ->
  Urls.trimStart (s ++ [w])
  = if forallb Urls.is_space s then [] else (Urls.trimStart s ++ [w])%list.
Proof.
  intros Hw. induction s as [|u r IH]; cbn [app Urls.trimStart forallb].
  - rewrite Hw. reflexivity.
  - destruct (Urls.is_space u); cbn [andb]; [exact IH | reflexivity].
Qed.

Lemma trimStart_spaces s : forallb Urls.is_space s = true -> Urls.trimStart s = [].
Proof.
  induction s as [|u r IH]; cbn [forallb Urls.trimStart]; [reflexivity|].
  destruct (Urls.is_space u); cbn [andb]; [exact IH | discriminate].
Qed.

Lemma trimEnd_snoc s w : Urls.is_space w = true -> Urls.trimEnd (s ++ [w]) = Urls.trimEnd s.
Proof.
  intros Hw. unfold Urls.trimEnd. rewrite rev_app_distr. cbn [rev app Urls.trimStart].
  rewrite Hw. reflexivity.
Qed.

Lemma trim_snoc s w : Urls.is_space w = true -> Urls.trim (s ++ [w]) = Urls.trim s.
Proof.
  intros Hw. unfold Urls.trim. rewrite trimStart_snoc by exact Hw.
  destruct (forallb Urls.is_space s) eqn:Hs.
  - rewrite trimStart_spaces by exact Hs. reflexivity.
  - apply trimEnd_snoc. exact Hw.
Qed.

Lemma without_cr_cases line :
  without_cr line = line \/ line = (without_cr line ++ [13])%list.
Proof.
  induction line as [|u r IH]; [left; reflexivity|].
  destruct r as [|l r'].
  - cbn [without_cr]. destruct (Z.eqb_spec u 13) as [->|_]; [right|left]; reflexivity.
  - change (without_cr (u :: l :: r')) with (u :: without_cr (l :: r')).
    destruct IH as [IH|IH]; [left; rewrite IH; reflexivity|].
    right. cbn [app]. rewrite <- IH. reflexivity.
Qed.

Lemma trim_without_cr line : Urls.trim (without_cr line) = Urls.trim line.
Proof.
  destruct (without_cr_cases line) as [-> | H]; [reflexivity|].
  rewrite H at 2. symmetry. apply trim_snoc. reflexivity.
Qed.

Lemma one_line_cons u r : one_line (u :: r) <-> u <> 10 /\ one_line r.
Proof.
  unfold one_line. rewrite not_elem_of_cons. split; intros [H1 H2]; split; auto.
Qed.

(** A text without a line feed is one line. *)
Lemma split_one_line line : one_line line -> Urls.split line = [line].
Proof.
  induction line as [|u r IH]; [reflexivity|].
  intros Hl. apply one_line_cons in Hl as [Hu Hr].
  cbn [Urls.split]. replace (u =? 10) with false by (symmetry; apply Z.eqb_neq; exact Hu).
  destruct r as [|l r']; [reflexivity|].
  pose proof Hr as Hr'. apply one_line_cons in Hr' as [Hl' _].
  replace (l =? 10) with false by (symmetry; apply Z.eqb_neq; exact Hl').
  rewrite andb_false_r. rewrite (IH Hr). reflexivity.
Qed.

(** A line that ends at a line feed; the carriage return before the
    line feed belongs to the line end. *)
Lemma split_at_LF line rest :
  one_line line ->
  Urls.split (line ++ 10 :: rest) = without_cr line :: Urls.split rest.
Proof.
  induction line as [|u r IH]; [reflexivity|].
  intros Hl. apply one_line_cons in Hl as [Hu Hr].
  cbn [app Urls.split].
  replace (u =? 10) with false by (symmetry; apply Z.eqb_neq; exact Hu).
  destruct r as [|l r'].
  - cbn [app without_cr]. rewrite Z.eqb_refl, andb_true_r.
    destruct (u =? 13); [reflexivity|]. cbn [Urls.split]. reflexivity.
  - pose proof Hr as Hr'. apply one_line_cons in Hr' as [Hl' _].
    cbn [app]. replace (l =? 10) with false by (symmetry; apply Z.eqb_neq; exact Hl').
    rewrite andb_false_r.
    change (l :: (r' ++ 10 :: rest)%list) with ((l :: r') ++ 10 :: rest)%list.
    rewrite (IH Hr). reflexivity.
Qed.

Lemma split_at_CRLF line rest :
  one_line line ->
  Urls.split (line ++ 13 :: 10 :: rest) = line :: Urls.split rest.
Proof.
  induction line as [|u r IH]; [reflexivity|].
  intros Hl. apply one_line_cons in Hl as [Hu Hr].
  cbn [app Urls.split].
  replace (u =? 10) with false by (symmetry; apply Z.eqb_neq; exact Hu).
  destruct r as [|l r'].
  - cbn [app]. change (13 =? 10) with false. rewrite andb_false_r.
    change (Urls.split (13 :: 10 :: rest)) with ([] :: Urls.split rest). reflexivity.
  - pose proof Hr as Hr'. apply one_line_cons in Hr' as [Hl' _].
    cbn [app]. replace (l =? 10) with false by (symmetry; apply Z.eqb_neq; exact Hl').
    rewrite andb_false_r.
    change (l :: (r' ++ 13 :: 10 :: rest)%list) with ((l :: r') ++ 13 :: 10 :: rest)%list.
    rewrite (IH Hr). reflexivity.
Qed.

Lemma filter_map_cons {A B} (f : B -> bool) (g : A -> B) x l :
  List.filter f (map g (x :: l))
  = ((if f (g x) then [g x] else []) ++ List.filter f (map g l))%list.
Proof. cbn [map List.filter]. destruct (f (g x)); reflexivity. Qed.

(** [parseUrls] of lines joined by line feeds, or by carriage returns
    and line feeds. *)
Lemma parseUrls_join sep lines :
  sep = LF \/ sep = CRLF ->
  Forall one_line lines ->
  Urls.parseUrls (join sep lines) = List.filter Urls.kept (map Urls.trim lines).
Proof.
  intros Hsep Hlines. induction Hlines as [|line rest Hline Hrest IH]; [reflexivity|].
  destruct rest as [|line2 rest'].
  - cbn [join]. unfold Urls.parseUrls. rewrite split_one_line by exact Hline. reflexivity.
  - change (join sep (line :: line2 :: rest'))
      with (line ++ sep ++ join sep (line2 :: rest'))%list.
    rewrite (filter_map_cons Urls.kept Urls.trim line (line2 :: rest')), <- IH.
    unfold Urls.parseUrls.
    destruct Hsep as [-> | ->]; unfold LF, CRLF; cbn [app].
    + rewrite split_at_LF, filter_map_cons, trim_without_cr by exact Hline. reflexivity.
    + rewrite split_at_CRLF, filter_map_cons by exact Hline. reflexivity.
Qed.

Lemma split_lines_are_lines s : Forall one_line (Urls.split s).
Proof.
  remember (length s) as n eqn:Hn. revert s Hn.
  induction n as [n IH] using lt_wf_ind. intros s Hn.
  destruct s as [|u r]; [repeat constructor; unfold one_line; set_solver|].
  assert (Hr : Forall one_line (Urls.split r))
    by (apply (IH (length r)); [subst n; cbn [length]; lia | reflexivity]).
  cbn [Urls.split]. destruct (Z.eqb_spec u 10) as [->|Hu].
  - constructor; [unfold one_line; set_solver | exact Hr].
  - destruct r as [|l r'].
    + repeat constructor. unfold one_line. set_solver.
    + destruct ((u =? 13) && (l =? 10)).
      * constructor; [unfold one_line; set_solver|].
        apply (IH (length r')); [subst n; cbn [length]; lia | reflexivity].
      * destruct (Urls.split (l :: r')) as [|line lines].
        -- repeat constructor. unfold one_line. set_solver.
        -- apply Forall_cons in Hr as [Hline Hlines].
           constructor; [|exact Hlines]. apply one_line_cons. split; assumption.
Qed.

Lemma trimStart_suffix s : exists spaces, s = (spaces ++ Urls.trimStart s)%list.
Proof.
  induction s as [|u r [spaces IH]]; [exists []; reflexivity|].
  cbn [Urls.trimStart]. destruct (Urls.is_space u).
  - exists (u :: spaces). cbn [app]. rewrite <- IH. reflexivity.
  - exists []. reflexivity.
Qed.

Lemma trimStart_head s : Urls.is_space (hd 0 (Urls.trimStart s)) = false.
Proof.
  induction s as [|u r IH]; [reflexivity|].
  cbn [Urls.trimStart]. destruct (Urls.is_space u) eqn:Hu; [exact IH | exact Hu].
Qed.

Lemma trimEnd_prefix s : exists spaces, s = (Urls.trimEnd s ++ spaces)%list.
Proof.
  unfold Urls.trimEnd. destruct (trimStart_suffix (rev s)) as [spaces H].
  exists (rev spaces). rewrite <- rev_app_distr, <- H, rev_involutive. reflexivity.
Qed.

Lemma last_rev_hd (t : Codec.text) : List.last (rev t) 0 = hd 0 t.
Proof.
  destruct t as [|u r]; [reflexivity|]. cbn [rev hd]. apply last_last.
Qed.

Lemma trimEnd_last s : Urls.is_space (List.last (Urls.trimEnd s) 0) = false.
Proof. unfold Urls.trimEnd. rewrite last_rev_hd. apply trimStart_head. Qed.

Lemma trim_within s x : x ∈ Urls.trim s -> x ∈ s.
Proof.
  unfold Urls.trim. intros Hx.
  destruct (trimEnd_prefix (Urls.trimStart s)) as [post Hpost].
  destruct (trimStart_suffix s) as [pre Hpre].
  rewrite Hpre, Hpost. set_solver.
Qed.

Lemma trim_head s : Urls.trim s <> [] -> Urls.is_space (hd 0 (Urls.trim s)) = false.
Proof.
  unfold Urls.trim. intros Hne.
  destruct (trimEnd_prefix (Urls.trimStart s)) as [post Hpost].
  pose proof (trimStart_head s) as Hhd. rewrite Hpost in Hhd.
  destruct (Urls.trimEnd (Urls.trimStart s)) as [|u r]; [contradiction|]. exact Hhd.
Qed.

Lemma trim_is_clean line :
  one_line line -> Urls.kept (Urls.trim line) = true -> clean_line (Urls.trim line).
Proof.
  intros Hline Hkept.
  assert (Hne : Urls.trim line <> []).
  { intros He. rewrite He in Hkept. discriminate Hkept. }
  split; [exact Hne|]. split; [apply trim_head; exact Hne|].
  split; [apply trimEnd_last|]. split.
  - destruct (Urls.trim line) as [|u r]; [contradiction|].
    cbn [Urls.kept Urls.startsWith_hash hd] in *.
    apply negb_true_iff, Z.eqb_neq in Hkept. exact Hkept.
  - unfold one_line in *. intros Hin. apply Hline. apply trim_within. exact Hin.
Qed.

(** The lines that are kept are clean. *)
Lemma kept_lines_are_clean lines :
  Forall one_line lines ->
  Forall clean_line (List.filter Urls.kept (map Urls.trim lines)).
Proof.
  intros Hlines.
  induction Hlines as [|line lines Hline _ IH]; [constructor|].
  rewrite filter_map_cons. apply Forall_app. split; [|exact IH].
  destruct (Urls.kept (Urls.trim line)) eqn:Hk; [|constructor].
  constructor; [|constructor]. apply trim_is_clean; assumption.
Qed.

(** X12. Every line that [parseUrls] returns is clean: it is not empty, has
    no white space at either end, does not begin with [#] and holds no
    line feed. *)
Theorem parseUrls_lines_are_clean urlString :
  Forall clean_line (Urls.parseUrls urlString).
Proof.
  unfold Urls.parseUrls. apply kept_lines_are_clean.
  apply split_lines_are_lines.
Qed.

Lemma trimStart_clean line : Urls.is_space (hd 0 line) = false -> Urls.trimStart line = line.
Proof.
  destruct line as [|u r]; [reflexivity|]. cbn [hd Urls.trimStart]. intros ->. reflexivity.
Qed.

Lemma trim_clean line : clean_line line -> Urls.trim line = line /\ Urls.kept line = true.
Proof.
  intros (Hne & Hhd & Hlast & Hhash & _). split.
  - unfold Urls.trim. rewrite trimStart_clean by exact Hhd.
    unfold Urls.trimEnd. rewrite trimStart_clean, rev_involutive; [reflexivity|].
    rewrite <- last_rev_hd, rev_involutive. exact Hlast.
  - destruct line as [|u r]; [contradiction|].
    cbn [Urls.kept Urls.startsWith_hash hd] in *.
    apply negb_true_iff, Z.eqb_neq. exact Hhash.
Qed.

Lemma filter_trim_clean lines :
  Forall clean_line lines -> List.filter Urls.kept (map Urls.trim lines) = lines.
Proof.
  induction 1 as [|line lines Hline _ IH]; [reflexivity|].
  rewrite filter_map_cons, IH. destruct (trim_clean line Hline) as [-> ->]. reflexivity.
Qed.

(** X11. The lines [parseUrls] returns are the lines of the list, trimmed,
    without the empty ones and those that begin with [#]; the list may
    end its lines with a line feed or with a carriage return and a line
    feed. *)
Theorem parseUrls_of_lines lines :
  Forall one_line lines ->
  Urls.parseUrls (join LF lines) = List.filter Urls.kept (map Urls.trim lines)
  /\ Urls.parseUrls (join CRLF lines) = List.filter Urls.kept (map Urls.trim lines).
Proof.
  intros Hlines. split; apply parseUrls_join; auto.
Qed.

Lemma parseUrls_of_lines_witness :
  Forall one_line [[0x23; 0x78]; [0x20; 0x61; 13]; []; [0x62]]
  /\ Urls.parseUrls (join LF [[0x23; 0x78]; [0x20; 0x61; 13]; []; [0x62]])
     = [[0x61]; [0x62]].
Proof.
  assert (H : Forall one_line [[0x23; 0x78]; [0x20; 0x61; 13]; []; [0x62]]).
  { repeat constructor; unfold one_line; intros Hin;
      repeat (apply elem_of_cons in Hin as [Hin|Hin]; [discriminate Hin|]);
      inversion Hin. }
  split; [exact H|].
  destruct (parseUrls_of_lines [[0x23; 0x78]; [0x20; 0x61; 13]; []; [0x62]] H) as [-> _].
  reflexivity.
Defined.

(** X13. What [parseUrls] returns is a list it reads back unchanged: joined
    by line feeds, or by carriage returns and line feeds, the lines
    parse to themselves. *)
Theorem parseUrls_reads_its_result urlString :
  Urls.parseUrls (join LF (Urls.parseUrls urlString)) = Urls.parseUrls urlString
  /\ Urls.parseUrls (join CRLF (Urls.parseUrls urlString)) = Urls.parseUrls urlString.
Proof.
  assert (Hclean : Forall clean_line (Urls.parseUrls urlString)).
  { apply kept_lines_are_clean, split_lines_are_lines. }
  assert (Hlines : Forall one_line (Urls.parseUrls urlString)).
  { eapply Forall_impl; [exact Hclean|]. intros line H. apply H. }
  split; rewrite parseUrls_join by auto; apply filter_trim_clean; exact Hclean.
Qed.
(** ** The timestamp section *)

Lemma heading_units :
  Timestamp.reg_heading
  = [35; 35; 32; 0xD83D; 0xDD52; 32; 0x6700; 0x540E; 0x66F4; 0x65B0; 0x65F6; 0x95F4].
Proof. reflexivity. Qed.

(** *** What [fmt] writes *)

Lemma digits_units u : Forall fmt_unit (Timestamp.digits u).
Proof.
  induction u; cbn [Timestamp.digits]; constructor; try assumption;
    unfold fmt_unit; lia.
Qed.

Lemma String_of_units n : Forall fmt_unit (Timestamp.String_of n).
Proof.
  unfold Timestamp.String_of. destruct (Z.to_int n).
  - apply digits_units.
  - constructor; [unfold fmt_unit; lia | apply digits_units].
Qed.

Lemma pad_units n : Forall fmt_unit (Timestamp.pad n).
Proof.
  unfold Timestamp.pad, Timestamp.padStart_2_0. apply Forall_app. split.
  - apply Forall_replicate. unfold fmt_unit. lia.
  - apply String_of_units.
Qed.

Lemma fmt_units d : Forall fmt_unit (Timestamp.fmt d).
Proof.
  unfold Timestamp.fmt.
  change (Timestamp.literal "-") with [45]. change (Timestamp.literal " ") with [32].
  change (Timestamp.literal ":") with [58]. rewrite !Forall_app.
  repeat split; try apply String_of_units; try apply pad_units;
    repeat constructor; unfold fmt_unit; lia.
Qed.

(** *** Texts in which no heading begins *)

Lemma quiet_app x y : quiet x = true -> quiet y = true -> quiet (x ++ y) = true.
Proof.
  intros Hx Hy. induction x as [|u r IH]; [exact Hy|].
  cbn [quiet app] in *. apply andb_true_iff in Hx as [Hu Hr].
  rewrite (IH Hr), andb_true_r.
  destruct r as [|v r']; [|exact Hu].
  rewrite orb_false_r in Hu. rewrite Hu. reflexivity.
Qed.

Lemma quiet_units x : Forall fmt_unit x -> quiet x = true.
Proof.
  induction 1 as [|u r Hu _ IH]; [reflexivity|].
  cbn [quiet]. rewrite IH, andb_true_r.
  replace (u =? 10) with false by (symmetry; apply Z.eqb_neq; unfold fmt_unit in Hu; lia).
  reflexivity.
Qed.

Lemma section_body_quiet utc bj : quiet (section_body utc bj) = true.
Proof.
  unfold section_body.
  change ([10; 10] ++ Timestamp.literal "**UTC**: `" ++ Timestamp.fmt utc
          ++ Timestamp.literal "`  " ++ [10]
          ++ Timestamp.literal "**北京时间**: `" ++ Timestamp.fmt bj
          ++ Timestamp.literal "`  " ++ [10; 10]
          ++ Timestamp.literal "> ⚡ 此时间戳由 Cloudflare Workers 自动更新")%list
    with (([10; 10] ++ Timestamp.literal "**UTC**: `") ++ Timestamp.fmt utc
          ++ (Timestamp.literal "`  " ++ [10] ++ Timestamp.literal "**北京时间**: `")
          ++ Timestamp.fmt bj
          ++ (Timestamp.literal "`  " ++ [10; 10]
              ++ Timestamp.literal "> ⚡ 此时间戳由 Cloudflare Workers 自动更新"))%list.
  apply quiet_app; [reflexivity|]. apply quiet_app; [apply quiet_units, fmt_units|].
  apply quiet_app; [reflexivity|]. apply quiet_app; [apply quiet_units, fmt_units|].
  reflexivity.
Qed.

(** *** The section and its trimmed form *)

Ltac flatten := repeat (progress (cbn [app]; rewrite <- ?app_assoc)).

Lemma section_parts utc bj :
  Timestamp.section utc bj = (10 :: section_text utc bj ++ [10])%list.
Proof.
  unfold Timestamp.section, section_text, section_body, Timestamp.reg_heading.
  flatten. reflexivity.
Qed.

Lemma trimEnd_kept x : Urls.is_space (List.last x 0) = false -> Urls.trimEnd x = x.
Proof.
  intros H. unfold Urls.trimEnd.
  rewrite trimStart_clean, rev_involutive; [reflexivity|].
  rewrite <- last_rev_hd, rev_involutive. exact H.
Qed.

Lemma section_text_last utc bj : List.last (section_text utc bj) 0 = 0x65B0.
Proof.
  unfold section_text, section_body.
  change (Timestamp.literal "> ⚡ 此时间戳由 Cloudflare Workers 自动更新")
    with (removelast (Timestamp.literal "> ⚡ 此时间戳由 Cloudflare Workers 自动更新")
          ++ [0x65B0])%list.
  repeat rewrite app_assoc. apply last_last.
Qed.

Lemma section_text_head utc bj : exists r, section_text utc bj = 35 :: r.
Proof. unfold section_text. rewrite heading_units. eexists. reflexivity. Qed.

Lemma section_trim utc bj : Urls.trim (Timestamp.section utc bj) = section_text utc bj.
Proof.
  rewrite section_parts. unfold Urls.trim.
  assert (Hstart : Urls.trimStart (10 :: section_text utc bj ++ [10])
                   = (section_text utc bj ++ [10])%list).
  { destruct (section_text_head utc bj) as [r ->].
    cbn [app Urls.trimStart].
    change (Urls.is_space 10) with true. change (Urls.is_space 35) with false.
    reflexivity. }
  rewrite Hstart, trimEnd_snoc by reflexivity. apply trimEnd_kept.
  rewrite section_text_last. reflexivity.
Qed.

(** *** The lazy match and the search *)

Lemma lookahead_quiet u r rest :
  quiet (u :: r) = true -> Timestamp.lookahead ((u :: r) ++ rest) = false.
Proof.
  cbn [quiet app]. intros H. apply andb_true_iff in H as [H _].
  unfold Timestamp.lookahead, Timestamp.reg_next2, Timestamp.reg_next1.
  change (Timestamp.literal "## ") with [35; 35; 32].
  change (Timestamp.literal "# ") with [35; 32].
  cbn [Timestamp.startsWith].
  destruct (Z.eqb_spec 10 u) as [<-|Hu]; [|reflexivity].
  change (10 =? 10) with true in H. cbn [negb orb] in H.
  destruct r as [|v r']; [discriminate|]. cbn [app].
  apply negb_true_iff in H. rewrite Z.eqb_sym in H. rewrite H. reflexivity.
Qed.

Lemma shortest_quiet x rest :
  quiet x = true ->
  Timestamp.shortest (x ++ rest)
  = ((x ++ (Timestamp.shortest rest).1)%list, (Timestamp.shortest rest).2).
Proof.
  induction x as [|u r IH]; intros Hq.
  - cbn [app]. destruct (Timestamp.shortest rest); reflexivity.
  - pose proof (lookahead_quiet u r rest Hq) as Hl.
    cbn [quiet] in Hq. apply andb_true_iff in Hq as [_ Hq].
    cbn [app] in *. cbn [Timestamp.shortest]. rewrite Hl, (IH Hq). reflexivity.
Qed.

(** Where the lazy match stops, the lookahead holds. *)
Lemma shortest_stop s : Timestamp.lookahead (Timestamp.shortest s).2 = true.
Proof.
  induction s as [|u r IH]; [reflexivity|].
  cbn [Timestamp.shortest]. destruct (Timestamp.lookahead (u :: r)) eqn:Hl; [exact Hl|].
  destruct (Timestamp.shortest r). exact IH.
Qed.

Lemma shortest_at_stop s :
  Timestamp.lookahead s = true -> Timestamp.shortest s = ([], s).
Proof.
  intros H. destruct s as [|u r]; [reflexivity|].
  cbn [Timestamp.shortest]. rewrite H. reflexivity.
Qed.

Lemma startsWith_app p r : Timestamp.startsWith p (p ++ r) = true.
Proof.
  induction p as [|a p IH]; [reflexivity|].
  cbn [app Timestamp.startsWith]. rewrite Z.eqb_refl, IH. reflexivity.
Qed.

Lemma startsWith_spec p s :
  Timestamp.startsWith p s = true -> s = (p ++ drop (length p) s)%list.
Proof.
  revert s. induction p as [|a p IH]; intros s H; [reflexivity|].
  destruct s as [|b s]; [discriminate|].
  cbn [Timestamp.startsWith] in H. apply andb_true_iff in H as [Hab H].
  apply Z.eqb_eq in Hab. subst b. cbn [length drop app]. rewrite <- (IH s H). reflexivity.
Qed.

(** The test reads no further than the length of [p]. *)
Lemma startsWith_window p a x y :
  (length p <= length a)%nat ->
  Timestamp.startsWith p (a ++ x) = Timestamp.startsWith p (a ++ y).
Proof.
  revert a. induction p as [|c p IH]; intros a Hlen; [reflexivity|].
  destruct a as [|b a]; [cbn [length] in Hlen; lia|].
  cbn [app Timestamp.startsWith]. rewrite (IH a) by (cbn [length] in Hlen; lia).
  reflexivity.
Qed.

Lemma startsWith_prefix p a b :
  Timestamp.startsWith p a = true -> Timestamp.startsWith p (a ++ b) = true.
Proof.
  revert a. induction p as [|c p IH]; intros a H; [reflexivity|].
  destruct a as [|u a]; [discriminate|].
  cbn [app Timestamp.startsWith] in *. apply andb_true_iff in H as [-> H].
  rewrite (IH a H). reflexivity.
Qed.

(** A text without line feed does not begin before a line feed and end
    behind it. *)
Lemma startsWith_across p a x :
  10 ∉ p -> Timestamp.startsWith p (a ++ 10 :: x) = Timestamp.startsWith p a.
Proof.
  revert a. induction p as [|c p IH]; intros a Hp; [reflexivity|].
  apply not_elem_of_cons in Hp as [Hc Hp].
  destruct a as [|u a]; cbn [app Timestamp.startsWith].
  - replace (c =? 10) with false by (symmetry; apply Z.eqb_neq; congruence). reflexivity.
  - rewrite (IH a Hp). reflexivity.
Qed.

Lemma search_unfold p s :
  Timestamp.search p s
  = if Timestamp.startsWith p s then Some ([], drop (length p) s)
    else match s with
         | [] => None
         | u :: r =>
             match Timestamp.search p r with
             | Some (before, after) => Some (u :: before, after)
             | None => None
             end
         end.
Proof. destruct s; reflexivity. Qed.

Lemma search_here p x : Timestamp.search p (p ++ x) = Some ([], x).
Proof. rewrite search_unfold, startsWith_app, drop_app_length. reflexivity. Qed.

Lemma search_found p s before after :
  Timestamp.search p s = Some (before, after) -> s = (before ++ p ++ after)%list.
Proof.
  revert before. induction s as [|u r IH]; intros before H.
  - cbn [Timestamp.search] in H.
    destruct (Timestamp.startsWith p []) eqn:Hp; [|discriminate].
    injection H as <- <-. apply (startsWith_spec p [] Hp).
  - cbn [Timestamp.search] in H.
    destruct (Timestamp.startsWith p (u :: r)) eqn:Hp.
    + injection H as <- <-. apply (startsWith_spec p (u :: r) Hp).
    + destruct (Timestamp.search p r) as [[b a]|] eqn:Hr; [|discriminate].
      injection H as <- <-. cbn [app]. rewrite (IH b eq_refl). reflexivity.
Qed.

(** The leftmost occurrence stays the leftmost one when the text after
    it changes. *)
Lemma search_same_place p before after x :
  Timestamp.search p (before ++ p ++ after) = Some (before, after) ->
  Timestamp.search p (before ++ p ++ x) = Some (before, x).
Proof.
  induction before as [|u b IH]; intros H.
  - cbn [app]. apply search_here.
  - cbn [app] in *. rewrite search_unfold in H. rewrite search_unfold.
    assert (Hw : Timestamp.startsWith p (u :: b ++ p ++ x)
                 = Timestamp.startsWith p (u :: b ++ p ++ after)).
    { rewrite !app_assoc. apply (startsWith_window p (u :: (b ++ p)) x after).
      cbn [length]. rewrite length_app. lia. }
    rewrite Hw.
    destruct (Timestamp.startsWith p (u :: b ++ p ++ after)); [discriminate|].
    destruct (Timestamp.search p (b ++ p ++ after)) as [[b' a']|] eqn:Hs; [|discriminate].
    injection H as -> ->. rewrite (IH eq_refl). reflexivity.
Qed.

Lemma search_none_prefix p a b :
  Timestamp.search p (a ++ b) = None -> Timestamp.search p a = None.
Proof.
  induction a as [|u a IH]; intros H.
  - cbn [app] in H. cbn [Timestamp.search].
    destruct (Timestamp.startsWith p []) eqn:Hp; [|reflexivity].
    apply (startsWith_prefix p [] b) in Hp. cbn [app] in Hp.
    rewrite search_unfold, Hp in H. discriminate.
  - cbn [app] in H. cbn [Timestamp.search] in *.
    destruct (Timestamp.startsWith p (u :: a)) eqn:Hp.
    + apply (startsWith_prefix p (u :: a) b) in Hp. cbn [app] in Hp.
      rewrite Hp in H. discriminate.
    + destruct (Timestamp.startsWith p (u :: (a ++ b)%list)); [discriminate|].
      destruct (Timestamp.search p (a ++ b)) as [[? ?]|]; [discriminate|].
      rewrite (IH eq_refl). reflexivity.
Qed.

(** A text without line feed is not found before a line feed when it
    does not occur before it. *)
Lemma search_past_line_feed p a x :
  10 ∉ p -> p <> [] ->
  Timestamp.search p a = None ->
  Timestamp.search p (a ++ 10 :: x)
  = match Timestamp.search p x with
    | Some (before, after) => Some ((a ++ 10 :: before)%list, after)
    | None => None
    end.
Proof.
  intros Hp Hne. induction a as [|u a IH]; intros H.
  - cbn [app]. cbn [Timestamp.search].
    change (10 :: x) with ([] ++ 10 :: x)%list at 1.
    rewrite (startsWith_across p [] x Hp).
    destruct p as [|c p]; [contradiction|]. cbn [Timestamp.startsWith].
    reflexivity.
  - cbn [app]. cbn [Timestamp.search] in *.
    change (u :: (a ++ 10 :: x)%list) with ((u :: a) ++ 10 :: x)%list.
    rewrite (startsWith_across p (u :: a) x Hp).
    destruct (Timestamp.startsWith p (u :: a)); [discriminate|].
    destruct (Timestamp.search p a) as [[? ?]|]; [discriminate|].
    rewrite (IH eq_refl).
    destruct (Timestamp.search p x) as [[b' a']|]; reflexivity.
Qed.

Lemma search_after_line_feed p x :
  10 ∉ p -> p <> [] ->
  Timestamp.search p (10 :: x)
  = match Timestamp.search p x with
    | Some (before, after) => Some (10 :: before, after)
    | None => None
    end.
Proof.
  intros Hp Hne. apply (search_past_line_feed p [] x Hp Hne).
  destruct p as [|c p]; [contradiction | reflexivity].
Qed.

Lemma heading_no_line_feed : 10 ∉ Timestamp.reg_heading.
Proof.
  rewrite heading_units. intros H.
  repeat (apply elem_of_cons in H as [H|H]; [discriminate H|]). inversion H.
Qed.

Lemma heading_not_empty : Timestamp.reg_heading <> [].
Proof. rewrite heading_units. discriminate. Qed.

(** The update of a text in which the heading occurs. *)
Lemma update_present utc bj content before after :
  Timestamp.search Timestamp.reg_heading content = Some (before, after) ->
  Timestamp.updateTimestampSection utc bj content
  = (before ++ section_text utc bj ++ (Timestamp.shortest after).2)%list.
Proof.
  intros H. unfold Timestamp.updateTimestampSection, Timestamp.reg_test,
    Timestamp.replace_reg.
  rewrite H, section_trim. reflexivity.
Qed.

(** The update of a text in which it does not occur. *)
Lemma update_absent utc bj content :
  Timestamp.search Timestamp.reg_heading content = None ->
  Timestamp.updateTimestampSection utc bj content
  = (Urls.trimEnd content ++ [10; 10] ++ section_text utc bj ++ [10])%list.
Proof.
  intros H. unfold Timestamp.updateTimestampSection, Timestamp.reg_test.
  rewrite H, section_parts. cbn [app]. reflexivity.
Qed.

(** In a text that holds the section followed by [rest], at which the
    lookahead holds, the match is the section. *)
Lemma search_section utc bj before rest x :
  Timestamp.search Timestamp.reg_heading (before ++ Timestamp.reg_heading ++ x)
    = Some (before, x) ->
  Timestamp.lookahead rest = true ->
  Timestamp.search Timestamp.reg_heading (before ++ section_text utc bj ++ rest)
    = Some (before, (section_body utc bj ++ rest)%list)
  /\ Timestamp.shortest (section_body utc bj ++ rest) = (section_body utc bj, rest).
Proof.
  intros Hs Hl. split.
  - unfold section_text. rewrite <- app_assoc.
    apply (search_same_place _ _ x). exact Hs.
  - rewrite shortest_quiet by apply section_body_quiet.
    rewrite (shortest_at_stop rest Hl). cbn [fst snd]. rewrite app_nil_r. reflexivity.
Qed.

(** A second call on a text in which the heading occurs. *)
Lemma update_again_present u b u' b' c before after :
  Timestamp.search Timestamp.reg_heading c = Some (before, after) ->
  Timestamp.reg_test (Timestamp.updateTimestampSection u b c) = true
  /\ Timestamp.updateTimestampSection u' b' (Timestamp.updateTimestampSection u b c)
     = Timestamp.updateTimestampSection u' b' c.
Proof.
  intros Hs.
  pose proof (search_found _ _ _ _ Hs) as Hc.
  rewrite (update_present u b c before after Hs).
  rewrite (update_present u' b' c before after Hs).
  rewrite Hc in Hs.
  destruct (search_section u b before (Timestamp.shortest after).2 after Hs
              (shortest_stop after)) as [Hfound Hmatch].
  split; [unfold Timestamp.reg_test; rewrite Hfound; reflexivity|].
  rewrite (update_present u' b' _ _ _ Hfound), Hmatch. reflexivity.
Qed.

(** A second call on a text in which it did not occur. *)
Lemma update_again_absent u b u' b' c :
  Timestamp.search Timestamp.reg_heading c = None ->
  Timestamp.reg_test (Timestamp.updateTimestampSection u b c) = true
  /\ Timestamp.updateTimestampSection u' b' c
     = (Timestamp.updateTimestampSection u' b'
          (Timestamp.updateTimestampSection u b c) ++ [10])%list.
Proof.
  intros Hs.
  rewrite (update_absent u b c Hs), (update_absent u' b' c Hs).
  assert (Hfound : Timestamp.search Timestamp.reg_heading
                     (Urls.trimEnd c ++ [10; 10] ++ section_text u b ++ [10])
                   = Some ((Urls.trimEnd c ++ [10; 10])%list,
                           (section_body u b ++ [10])%list)).
  { destruct (trimEnd_prefix c) as [spaces Hc].
    assert (Hnone : Timestamp.search Timestamp.reg_heading (Urls.trimEnd c) = None).
    { apply (search_none_prefix _ _ spaces). rewrite <- Hc. exact Hs. }
    cbn [app].
    rewrite (search_past_line_feed _ _ _ heading_no_line_feed heading_not_empty Hnone).
    rewrite (search_after_line_feed _ _ heading_no_line_feed heading_not_empty).
    unfold section_text. rewrite <- app_assoc, search_here. reflexivity. }
  split; [unfold Timestamp.reg_test; rewrite Hfound; reflexivity|].
  rewrite (update_present u' b' _ _ _ Hfound).
  rewrite shortest_quiet by apply section_body_quiet.
  change (Timestamp.shortest [10]) with ([10], @nil Z). cbn [fst snd].
  rewrite app_nil_r. flatten. reflexivity.
Qed.

Lemma update_has_section u b c :
  Timestamp.reg_test (Timestamp.updateTimestampSection u b c) = true.
Proof.
  destruct (Timestamp.search Timestamp.reg_heading c) as [[before after]|] eqn:Hs.
  - apply (update_again_present u b u b c before after Hs).
  - apply (update_again_absent u b u b c Hs).
Qed.

(** From the second call on, a call at the same reading of the clock
    changes nothing. *)
Lemma update_settled u b c :
  Timestamp.reg_test c = true ->
  Timestamp.updateTimestampSection u b (Timestamp.updateTimestampSection u b c)
  = Timestamp.updateTimestampSection u b c.
Proof.
  unfold Timestamp.reg_test.
  destruct (Timestamp.search Timestamp.reg_heading c) as [[before after]|] eqn:Hs;
    [|discriminate].
  intros _. apply (update_again_present u b u b c before after Hs).
Qed.

(** X14. Once the section is in the text it is replaced in place, and the
    text settles. After [updateTimestampSection] the heading occurs in
    the text, so that every later call replaces the section instead of
    adding one. On a text that holds the heading, a call followed by a
    second one gives what the second one alone gives: only the last
    reading of the clock is left. On a text that does not hold it, the
    call that adds the section ends the text with a line feed, and the
    next call removes that line feed; from then on a call at the same
    reading of the clock changes nothing. *)
Theorem timestamp_section_settles utc bj utc' bj' content :
  Timestamp.reg_test (Timestamp.updateTimestampSection utc bj content) = true
  /\ (Timestamp.reg_test content = true ->
      Timestamp.updateTimestampSection utc' bj'
        (Timestamp.updateTimestampSection utc bj content)
      = Timestamp.updateTimestampSection utc' bj' content)
  /\ (Timestamp.reg_test content = false ->
      Timestamp.updateTimestampSection utc' bj' content
      = (Timestamp.updateTimestampSection utc' bj'
           (Timestamp.updateTimestampSection utc bj content) ++ [10])%list)
  /\ Timestamp.updateTimestampSection utc bj
       (Timestamp.updateTimestampSection utc bj
          (Timestamp.updateTimestampSection utc' bj' content))
     = Timestamp.updateTimestampSection utc bj
         (Timestamp.updateTimestampSection utc' bj' content).
Proof.
  split; [apply update_has_section|].
  split; [|split; [|apply update_settled, update_has_section]].
  - unfold Timestamp.reg_test.
    destruct (Timestamp.search Timestamp.reg_heading content) as [[before after]|] eqn:Hs;
      [|discriminate].
    intros _. apply (update_again_present utc bj utc' bj' content before after Hs).
  - unfold Timestamp.reg_test.
    destruct (Timestamp.search Timestamp.reg_heading content) as [[before after]|] eqn:Hs;
      [discriminate|].
    intros _. apply (update_again_absent utc bj utc' bj' content Hs).
Qed.

Lemma timestamp_section_settles_witness :
  Timestamp.reg_test sample_readme = true
  /\ Timestamp.updateTimestampSection sample_evening sample_evening
       (Timestamp.updateTimestampSection sample_noon sample_noon sample_readme)
     = Timestamp.updateTimestampSection sample_evening sample_evening sample_readme.
Proof.
  split; [reflexivity|].
  apply (timestamp_section_settles sample_noon sample_noon sample_evening sample_evening
           sample_readme).
  reflexivity.
Defined.

(** *** The text that is inserted *)

Lemma absent_by_test (l : Codec.text) x :
  forallb (fun u => negb (u =? x)) l = true -> x ∉ l.
Proof.
  intros H Hin. rewrite forallb_forall in H.
  apply list_elem_of_In, H, negb_true_iff, Z.eqb_neq in Hin. congruence.
Qed.

Lemma fmt_no_dollar d : 36 ∉ Timestamp.fmt d.
Proof.
  intros H. pose proof (fmt_units d) as Hd. rewrite Forall_forall in Hd.
  apply Hd in H. unfold fmt_unit in H. lia.
Qed.

(** The text that [replace] inserts holds no [$]: it is inserted as it
    is. *)
Lemma section_text_no_dollar utc bj : 36 ∉ section_text utc bj.
Proof.
  unfold section_text, section_body. rewrite !not_elem_of_app.
  repeat split; try apply fmt_no_dollar; apply absent_by_test; reflexivity.
Qed.

(** *** The format of a date *)

Lemma pads_checked : forallb pad_checks (seq 0 100) = true.
Proof. vm_compute. reflexivity. Qed.

Lemma years_checked : forallb year_checks (seq 1000 (Z.to_nat 9000)) = true.
Proof. vm_compute. reflexivity. Qed.

Lemma pad_two_digits n : 0 <= n <= 99 -> Timestamp.pad n = two_digits n.
Proof.
  intros Hn. pose proof pads_checked as H. rewrite forallb_forall in H.
  specialize (H (Z.to_nat n)).
  assert (Hin : In (Z.to_nat n) (seq 0 100)) by (apply in_seq; lia).
  apply H in Hin. unfold pad_checks in Hin. rewrite Z2Nat.id in Hin by lia.
  apply bool_decide_eq_true in Hin. exact Hin.
Qed.

Lemma year_four_digits n : 1000 <= n <= 9999 -> Timestamp.String_of n = four_digits n.
Proof.
  intros Hn. pose proof years_checked as H. rewrite forallb_forall in H.
  specialize (H (Z.to_nat n)).
  assert (Hin : In (Z.to_nat n) (seq 1000 (Z.to_nat 9000))) by (apply in_seq; lia).
  apply H in Hin. unfold year_checks in Hin. rewrite Z2Nat.id in Hin by lia.
  apply bool_decide_eq_true in Hin. exact Hin.
Qed.

(** X15. [fmt] writes a date as [YYYY-MM-DD HH:MM:SS], nineteen code units:
    the month is counted from 1, and month, day, hours, minutes and
    seconds are written in two digits with a leading zero. The text
    holds none of the characters that mean something to [replace] or to
    the lookahead of [reg]. *)
Theorem fmt_writes_nineteen_units d :
  calendar_date d ->
  Timestamp.fmt d
  = (four_digits (Timestamp.getFullYear d) ++ [45]
     ++ two_digits (Timestamp.getMonth d + 1) ++ [45]
     ++ two_digits (Timestamp.getDate d) ++ [32]
     ++ two_digits (Timestamp.getHours d) ++ [58]
     ++ two_digits (Timestamp.getMinutes d) ++ [58]
     ++ two_digits (Timestamp.getSeconds d))%list
  /\ length (Timestamp.fmt d) = 19%nat
  /\ Forall fmt_unit (Timestamp.fmt d).
Proof.
  intros (Hy & Hm & Hd & Hh & Hmin & Hs).
  assert (Hfmt : Timestamp.fmt d
    = (four_digits (Timestamp.getFullYear d) ++ [45]
       ++ two_digits (Timestamp.getMonth d + 1) ++ [45]
       ++ two_digits (Timestamp.getDate d) ++ [32]
       ++ two_digits (Timestamp.getHours d) ++ [58]
       ++ two_digits (Timestamp.getMinutes d) ++ [58]
       ++ two_digits (Timestamp.getSeconds d))%list).
  { unfold Timestamp.fmt.
    rewrite year_four_digits, !pad_two_digits by lia. reflexivity. }
  split; [exact Hfmt|]. split; [rewrite Hfmt; reflexivity | apply fmt_units].
Qed.

Lemma fmt_writes_nineteen_units_witness :
  calendar_date sample_noon
  /\ Timestamp.fmt sample_noon
     = [50; 48; 50; 54; 45; 48; 49; 45; 48; 53; 32; 49; 50; 58; 48; 48; 58; 48; 57].
Proof.
  assert (H : calendar_date sample_noon) by (unfold calendar_date; simpl; lia).
  split; [exact H|].
  destruct (fmt_writes_nineteen_units sample_noon H) as [-> _]. reflexivity.
Defined.
(** ** The pool: a limit of zero, and the order of the tasks *)

Lemma size_with_element (t : nat) (X : gset nat) : (1 <= size ({[t]} ∪ X))%nat.
Proof.
  assert (Hsub : ({[t]} : gset nat) ⊆ {[t]} ∪ X) by set_solver.
  apply subseteq_size in Hsub. rewrite size_singleton in Hsub. exact Hsub.
Qed.

(** With a limit of zero the test [executing.size >= limit] holds after
    every task, as it does with a limit of one once a task is in the
    set. *)
Lemma run_loop_zero fl ts s : Pool.run_loop fl 0 ts s = Pool.run_loop fl 1 ts s.
Proof.
  revert s. induction ts as [|t rest IH]; intros s; [reflexivity|].
  cbn [Pool.run_loop].
  rewrite decide_True by lia.
  rewrite decide_True; [reflexivity|].
  cbn [Pool.executing Pool.add_task]. apply size_with_element.
Qed.

Lemma exec_zero fl j s : Pool.exec fl 0 j s = Pool.exec fl 1 j s.
Proof.
  destruct j; try reflexivity. cbn [Pool.exec].
  destruct (Pool.pc s); try reflexivity. apply run_loop_zero.
Qed.

Lemma step_zero fl s s' : Pool.step fl 0 s s' <-> Pool.step fl 1 s s'.
Proof.
  split; intros H; inversion H; subst.
  - rewrite exec_zero. constructor. assumption.
  - constructor. assumption.
  - constructor. assumption.
  - rewrite <- exec_zero. constructor. assumption.
  - constructor. assumption.
  - constructor. assumption.
Qed.

Lemma reachable_zero fl n s : Pool.reachable fl 0 n s <-> Pool.reachable fl 1 n s.
Proof.
  split; induction 1 as [|s s' Hs IH Hstep].
  - unfold Pool.start. rewrite run_loop_zero. constructor.
  - eapply Pool.reach_step; [exact IH|]. apply step_zero. exact Hstep.
  - unfold Pool.start. rewrite <- run_loop_zero. constructor.
  - eapply Pool.reach_step; [exact IH|]. apply step_zero. exact Hstep.
Qed.

(** Every state of a run, with any limit, has the invariant of the
    limit the runner acts on. *)
Lemma reachable_invariant_any fl limit n s :
  Pool.reachable fl limit n s -> pool_invariant (Nat.max 1 limit) n s.
Proof.
  intros Hreach. destruct limit as [|limit].
  - apply reachable_zero in Hreach.
    apply (reachable_invariant fl 1 n s); [lia | exact Hreach].
  - replace (Nat.max 1 (S limit)) with (S limit) by lia.
    apply (reachable_invariant fl (S limit) n s); [lia | exact Hreach].
Qed.

(** *** The order of the tasks *)

Lemma same_sets_taken n s s' :
  same_sets s s' -> taken_in_order n s -> taken_in_order n s'.
Proof.
  intros (_ & Ht & Hex & _ & _ & _ & Hset & _) (k & Hk & Htasks & Hsets).
  exists k. rewrite Ht, Hex, Hset. repeat split; try assumption; apply Hsets.
Qed.

Lemma run_loop_taken fl limit n ts : forall s k,
  (k <= n)%nat -> ts = seq k (n - k) ->
  (forall i, i ∈ Pool.executing s ∪ Pool.settled s <-> (i < k)%nat) ->
  taken_in_order n (Pool.run_loop fl limit ts s).
Proof.
  induction ts as [|t rest IH]; intros s k Hk Hts Hsets.
  - cbn [Pool.run_loop]. unfold Pool.await_all.
    set (s0 := {| Pool.pc := Pool.AwaitAll; Pool.tasks := [] |}).
    assert (Hs0 : taken_in_order n (Pool.subscribe Pool.All s0)).
    { destruct (subscribe_preserves (fun _ => True) Pool.All s0 I) as [_ Hsame];
        [auto|].
      apply (same_sets_taken n s0); [exact Hsame|].
      exists k. split; [exact Hk|]. split; [exact Hts | exact Hsets]. }
    destruct (decide (Pool.executing s = ∅)); [|exact Hs0].
    destruct Hs0 as (k' & Hk' & Ht' & Hs').
    exists k'. split; [exact Hk'|]. split; [exact Ht' | exact Hs'].
  - assert (Hlen : (n - k <> 0)%nat) by (intros Hz; rewrite Hz in Hts; discriminate).
    replace (n - k)%nat with (S (n - S k)) in Hts by lia.
    cbn [seq] in Hts. injection Hts as -> ->.
    cbn [Pool.run_loop].
    assert (Hadd : forall i, i ∈ Pool.executing (Pool.add_task fl k s)
                             ∪ Pool.settled (Pool.add_task fl k s) <-> (i < S k)%nat).
    { intros i. cbn [Pool.executing Pool.settled Pool.add_task].
      specialize (Hsets i). split.
      - intros H. apply elem_of_union in H as [H|H];
          [apply elem_of_union in H as [H|H]|].
        + apply elem_of_singleton in H. subst i. lia.
        + assert (i < k)%nat by (apply Hsets; set_solver). lia.
        + assert (i < k)%nat by (apply Hsets; set_solver). lia.
      - intros Hi. destruct (decide (i = k)) as [->|Hne]; [set_solver|].
        assert (Hlt : (i < k)%nat) by lia. apply Hsets in Hlt. set_solver. }
    destruct (decide _).
    + unfold Pool.await_race.
      set (s0 := {| Pool.pc := Pool.AwaitRace _; Pool.tasks := seq (S k) (n - S k) |}).
      destruct (subscribe_preserves (fun _ => True)
                  (Pool.Race (Pool.races (Pool.add_task fl k s))) s0 I) as [_ Hsame];
        [auto|].
      apply (same_sets_taken n s0); [exact Hsame|].
      exists (S k). split; [lia|]. split; [reflexivity | exact Hadd].
    + apply (IH _ (S k)); [lia | reflexivity | exact Hadd].
Qed.

Lemma step_taken fl limit n s s' :
  pool_invariant (Nat.max 1 limit) n s ->
  taken_in_order n s -> Pool.step fl limit s s' -> taken_in_order n s'.
Proof.
  intros [Hbase _] (k & Hk & Htasks & Hsets) Hstep.
  destruct Hstep as [s j js Hq | s p Hp | s p Hp].
  - destruct j as [p | p | r p | p |]; cbn [Pool.exec].
    + exists k. split; [exact Hk|]. split; [exact Htasks | exact Hsets].
    + assert (Hset : p ∈ Pool.settled s).
      { destruct Hbase as [_ _ _ _ Hjobs _ _ _ _ _ _ _ _ _ _ _].
        rewrite Hq in Hjobs. apply Forall_cons in Hjobs as [Hj _]. apply Hj. reflexivity. }
      exists k. split; [exact Hk|]. split; [exact Htasks|].
      intros i. cbn [Pool.executing Pool.settled Pool.set_jobs].
      rewrite <- (Hsets i). destruct (decide (i = p)) as [->|Hne]; set_solver.
    + destruct (decide _); exists k; (split; [exact Hk|]); split; assumption.
    + destruct (decide _); [|exists k; (split; [exact Hk|]); split; assumption].
      destruct (decide _); exists k; (split; [exact Hk|]); split; assumption.
    + cbn [Pool.pc Pool.tasks Pool.set_jobs]. destruct (Pool.pc s) eqn:Hpc.
      * rewrite Htasks.
        apply (run_loop_taken fl limit n _ _ k); [exact Hk | reflexivity | exact Hsets].
      * exists k. split; [exact Hk|]. split; assumption.
      * exists k. split; [exact Hk|]. split; assumption.
  - exists k. split; [exact Hk|]. split; assumption.
  - assert (Hex : p ∈ Pool.executing s).
    { destruct Hbase as [Hin _ _ _ _ _ _ _ _ _ _ _ _ _ _ _]. set_solver. }
    exists k. split; [exact Hk|]. split; [exact Htasks|].
    intros i. cbn [Pool.executing Pool.settled Pool.fulfil].
    rewrite <- (Hsets i). destruct (decide (i = p)) as [->|Hne]; set_solver.
Qed.

Lemma start_taken fl limit n : taken_in_order n (Pool.start fl limit n).
Proof.
  unfold Pool.start. apply (run_loop_taken fl limit n _ _ 0%nat).
  - lia.
  - f_equal. lia.
  - intros i. cbn [Pool.executing Pool.settled Pool.idle]. split; [set_solver | lia].
Qed.

Lemma reachable_taken fl limit n s :
  Pool.reachable fl limit n s -> taken_in_order n s.
Proof.
  intros Hreach. induction Hreach as [|s s' Hs IH Hstep]; [apply start_taken|].
  apply (step_taken fl limit n s s'); [|exact IH | exact Hstep].
  apply (reachable_invariant_any fl limit n s Hs).
Qed.

(** How many tasks the runner takes before it first suspends. *)
Lemma run_loop_fill fl limit n ts : forall s k,
  (k < limit)%nat -> (k <= n)%nat -> ts = seq k (n - k) ->
  size (Pool.executing s) = k ->
  (forall t, t ∈ ts -> t ∉ Pool.executing s) ->
  Pool.tasks (Pool.run_loop fl limit ts s)
  = seq (Nat.min limit n) (n - Nat.min limit n).
Proof.
  induction ts as [|t rest IH]; intros s k Hlim Hk Hts Hsize Hfresh.
  - assert (Hn : k = n).
    { destruct (n - k)%nat eqn:Hd; [lia | discriminate]. }
    subst k. replace (Nat.min limit n) with n by lia.
    replace (n - n)%nat with 0%nat by lia.
    cbn [Pool.run_loop seq]. unfold Pool.await_all.
    set (s0 := {| Pool.pc := Pool.AwaitAll; Pool.tasks := [] |}).
    destruct (subscribe_preserves (fun _ => True) Pool.All s0 I) as [_ Hsame]; [auto|].
    destruct Hsame as (_ & Ht & _).
    destruct (decide _); cbn [Pool.tasks Pool.enqueue Pool.set_jobs]; rewrite Ht;
      reflexivity.
  - assert (Hlen : (n - k <> 0)%nat) by (intros Hz; rewrite Hz in Hts; discriminate).
    replace (n - k)%nat with (S (n - S k)) in Hts by lia.
    cbn [seq] in Hts. injection Hts as -> ->.
    cbn [Pool.run_loop].
    assert (Hsize' : size (Pool.executing (Pool.add_task fl k s)) = S k).
    { cbn [Pool.executing Pool.add_task].
      rewrite size_union by (specialize (Hfresh k); set_solver).
      rewrite size_singleton. lia. }
    destruct (decide _) as [Hfull|Hroom].
    + unfold Pool.await_race.
      set (s0 := {| Pool.pc := Pool.AwaitRace _; Pool.tasks := seq (S k) (n - S k) |}).
      destruct (subscribe_preserves (fun _ => True)
                  (Pool.Race (Pool.races (Pool.add_task fl k s))) s0 I) as [_ Hsame];
        [auto|].
      destruct Hsame as (_ & Ht & _). rewrite Ht. cbn [Pool.tasks].
      rewrite Hsize' in Hfull.
      replace (Nat.min limit n) with (S k) by lia. reflexivity.
    + rewrite Hsize' in Hroom.
      apply (IH _ (S k)); [lia | lia | reflexivity | exact Hsize' |].
      intros t Ht. cbn [Pool.executing Pool.add_task].
      assert (Hin : t ∈ k :: seq (S k) (n - S k)) by (right; exact Ht).
      apply Hfresh in Hin.
      assert (t <> k); [|set_solver].
      intros ->. apply elem_of_seq in Ht. lia.
Qed.

(** X17. The tasks are started in the order of the list. In every state the
    tasks the loop has not taken are a tail of the list, and the tasks
    before it are exactly those that have a promise, in the set or
    settled: no task is passed over, none is taken ahead of its turn.
    Before it first suspends, the runner takes as many tasks as the
    limit allows (one when the limit is zero), or all of them when
    they are fewer. *)
Theorem tasks_are_taken_in_order fl limit n s :
  Pool.runWithConcurrency fl limit n s ->
  taken_in_order n s
  /\ Pool.tasks (Pool.start fl limit n)
     = seq (Nat.min (Nat.max 1 limit) n) (n - Nat.min (Nat.max 1 limit) n).
Proof.
  intros Hreach. split; [apply (reachable_taken fl limit n s Hreach)|].
  assert (Hfill : forall l, (0 < l)%nat ->
            Pool.tasks (Pool.start fl l n) = seq (Nat.min l n) (n - Nat.min l n)).
  { intros l Hl. unfold Pool.start.
    apply (run_loop_fill fl l n _ _ 0%nat); [lia | lia | f_equal; lia | |].
    - cbn [Pool.executing Pool.idle]. apply size_empty.
    - intros t _. cbn [Pool.executing Pool.idle]. set_solver. }
  destruct limit as [|limit].
  - unfold Pool.start. rewrite run_loop_zero. apply (Hfill 1%nat). lia.
  - replace (Nat.max 1 (S limit)) with (S limit) by lia. apply Hfill. lia.
Qed.

Lemma tasks_are_taken_in_order_witness :
  Pool.runWithConcurrency Pool.Deferred 3 5 (Pool.start Pool.Deferred 3 5)
  /\ Pool.tasks (Pool.start Pool.Deferred 3 5) = [3; 4]%nat.
Proof.
  assert (H : Pool.runWithConcurrency Pool.Deferred 3 5 (Pool.start Pool.Deferred 3 5))
    by constructor.
  split; [exact H|].
  destruct (tasks_are_taken_in_order Pool.Deferred 3 5 (Pool.start Pool.Deferred 3 5) H)
    as [_ ->].
  reflexivity.
Defined.
(** ** The pool: the runner returns *)

(** *** Nothing the runner waits for is lost *)

Lemma react_awaits p j s : p ∈ Pool.executing s -> awaited (Pool.react p j s) j p.
Proof.
  intros Hp. unfold Pool.react, awaited. destruct (decide (p ∈ Pool.settled s)).
  - left. cbn [Pool.jobs Pool.enqueue Pool.set_jobs]. set_solver.
  - right. cbn [Pool.executing Pool.settled Pool.reactions].
    split; [exact Hp|]. split; [assumption|].
    rewrite lookup_total_insert_eq. set_solver.
Qed.

Lemma react_keeps_awaited p j s j' q :
  awaited s j' q -> awaited (Pool.react p j s) j' q.
Proof.
  unfold Pool.react, awaited. intros [Hin | (Hq & Hpend & Hin)].
  - left. destruct (decide (p ∈ Pool.settled s));
      cbn [Pool.jobs Pool.enqueue Pool.set_jobs]; set_solver.
  - destruct (decide (p ∈ Pool.settled s)).
    + right. cbn [Pool.executing Pool.settled Pool.reactions Pool.enqueue Pool.set_jobs].
      auto.
    + right. cbn [Pool.executing Pool.settled Pool.reactions].
      split; [exact Hq|]. split; [exact Hpend|].
      destruct (decide (q = p)) as [->|Hne].
      * rewrite lookup_total_insert_eq. set_solver.
      * rewrite lookup_total_insert_ne by congruence. exact Hin.
Qed.

Lemma react_keeps_jobs p j s j' : j' ∈ Pool.jobs s -> j' ∈ Pool.jobs (Pool.react p j s).
Proof.
  unfold Pool.react. destruct (decide (p ∈ Pool.settled s));
    cbn [Pool.jobs Pool.enqueue Pool.set_jobs]; set_solver.
Qed.

Lemma fold_react_awaits (j : nat -> Pool.job) s l : forall acc,
  same_sets s acc ->
  (forall p, p ∈ l -> p ∈ Pool.executing s) ->
  let acc' := foldl (fun acc p => Pool.react p (j p) acc) acc l in
  (forall p, p ∈ l -> awaited acc' (j p) p)
  /\ (forall j' q, awaited acc j' q -> awaited acc' j' q)
  /\ (forall j', j' ∈ Pool.jobs acc -> j' ∈ Pool.jobs acc').
Proof.
  induction l as [|p l IH]; intros acc Hsame Hl; cbn [foldl].
  - split; [intros p Hp; inversion Hp|]. split; auto.
  - assert (Hsame' : same_sets s (Pool.react p (j p) acc)).
    { eapply same_sets_trans; [exact Hsame | apply react_same]. }
    destruct (IH (Pool.react p (j p) acc) Hsame') as (Hnew & Hold & Hjobs).
    { intros q Hq. apply Hl. right. exact Hq. }
    split; [|split].
    + intros q Hq. apply elem_of_cons in Hq as [->|Hq]; [|apply Hnew; exact Hq].
      apply Hold. apply react_awaits.
      destruct Hsame as (_ & _ & Hex & _). rewrite Hex. apply Hl. left.
    + intros j' q H. apply Hold. apply react_keeps_awaited. exact H.
    + intros j' H. apply Hjobs. apply react_keeps_jobs. exact H.
Qed.

Lemma subscribe_awaits (j : nat -> Pool.job) s :
  (forall p, p ∈ Pool.executing s -> awaited (Pool.subscribe j s) (j p) p)
  /\ (forall j' q, awaited s j' q -> awaited (Pool.subscribe j s) j' q)
  /\ (forall j', j' ∈ Pool.jobs s -> j' ∈ Pool.jobs (Pool.subscribe j s))
  /\ same_sets s (Pool.subscribe j s).
Proof.
  unfold Pool.subscribe.
  destruct (fold_react_awaits j s (elements (Pool.executing s)) s (same_sets_refl s))
    as (Hnew & Hold & Hjobs).
  { intros p. apply elem_of_elements. }
  split; [intros p Hp; apply Hnew, elem_of_elements, Hp|].
  split; [exact Hold|]. split; [exact Hjobs|].
  destruct (subscribe_preserves (fun _ => True) j s I) as [_ H]; [auto | exact H].
Qed.

Lemma same_sets_live_at_loop s s' :
  same_sets s s' ->
  (forall j', j' ∈ Pool.jobs s -> j' ∈ Pool.jobs s') ->
  live_at_loop s -> live_at_loop s'.
Proof.
  intros (_ & _ & Hex & Hq & Hr & Hf & Hset & _) Hjobs [Hqueued Hpending].
  split.
  - intros p Hp. rewrite Hq in Hp. apply Hjobs, Hqueued, Hp.
  - intros p. rewrite Hex, Hset, Hq, Hr, Hf. apply Hpending.
Qed.

Lemma add_task_live fl t s :
  live_at_loop s -> live_at_loop (Pool.add_task fl t s).
Proof.
  intros [Hqueued Hpending]. split.
  - intros p. destruct fl; cbn [Pool.queued Pool.jobs Pool.add_task]; intros Hp.
    + apply Hqueued. exact Hp.
    + apply elem_of_union in Hp as [Hp|Hp].
      * apply elem_of_singleton in Hp. subst p. set_solver.
      * apply Hqueued in Hp. set_solver.
  - intros p. cbn [Pool.executing Pool.settled Pool.queued Pool.running Pool.finished
                   Pool.add_task].
    intros Hp Hpend. apply elem_of_union in Hp as [Hp|Hp].
    + apply elem_of_singleton in Hp. subst p. destruct fl; set_solver.
    + specialize (Hpending p Hp Hpend). destruct fl; set_solver.
Qed.

Lemma run_loop_live fl limit ts : forall s,
  live_at_loop s -> pool_live (Pool.run_loop fl limit ts s).
Proof.
  induction ts as [|t rest IH]; intros s Hlive.
  - cbn [Pool.run_loop]. unfold Pool.await_all.
    set (s0 := {| Pool.pc := Pool.AwaitAll; Pool.tasks := [] |}).
    destruct (subscribe_awaits Pool.All s0) as (Hnew & Hold & Hjobs & Hsame).
    assert (Hlive0 : live_at_loop (Pool.subscribe Pool.All s0)).
    { apply (same_sets_live_at_loop s0); [exact Hsame | exact Hjobs | exact Hlive]. }
    pose proof Hsame as (Hpc & _ & Hex & _ & _ & _ & Hset & _ & Hwait & _).
    assert (Hmid : pool_live (Pool.subscribe Pool.All s0)).
    { destruct Hlive0 as [Hq Hp]. split; [exact Hq | exact Hp | |].
      - intros r Hr. rewrite Hpc in Hr. discriminate Hr.
      - intros _ p Hp'. rewrite Hwait in Hp'. apply Hnew. exact Hp'. }
    destruct (decide _); [|exact Hmid].
    destruct Hmid as [Hq Hp Hrace Hall].
    split; cbn [Pool.pc Pool.queued Pool.executing Pool.settled Pool.running Pool.finished
                Pool.jobs Pool.waiting Pool.won Pool.enqueue Pool.set_jobs].
    + intros p Hp'. apply Hq in Hp'. set_solver.
    + exact Hp.
    + intros r Hr. rewrite Hpc in Hr. discriminate Hr.
    + intros Hpc' p Hp'. destruct (Hall Hpc' p Hp') as [H|H]; [left|right; exact H].
      cbn [Pool.jobs Pool.enqueue Pool.set_jobs]. set_solver.
  - cbn [Pool.run_loop]. pose proof (add_task_live fl t s Hlive) as Hlive1.
    destruct (decide _); [|apply IH; exact Hlive1].
    unfold Pool.await_race.
    set (s0 := {| Pool.pc := Pool.AwaitRace _; Pool.tasks := rest |}).
    destruct (subscribe_awaits (Pool.Race (Pool.races (Pool.add_task fl t s))) s0)
      as (Hnew & Hold & Hjobs & Hsame).
    assert (Hlive0 : live_at_loop
                       (Pool.subscribe (Pool.Race (Pool.races (Pool.add_task fl t s))) s0)).
    { apply (same_sets_live_at_loop s0); [exact Hsame | exact Hjobs | exact Hlive1]. }
    pose proof Hsame as (Hpc & _).
    destruct Hlive0 as [Hq Hp]. split; [exact Hq | exact Hp | |].
    + intros r Hr _. rewrite Hpc in Hr. injection Hr as <-.
      exists t. apply Hnew. cbn [Pool.executing Pool.add_task]. set_solver.
    + intros Hall. rewrite Hpc in Hall. discriminate Hall.
Qed.

Lemma awaited_tail s j js j' q :
  Pool.jobs s = j :: js -> j' <> j -> awaited s j' q -> awaited (Pool.set_jobs js s) j' q.
Proof.
  intros Hq Hne [Hin | H]; [left | right; exact H].
  rewrite Hq in Hin. apply elem_of_cons in Hin as [->|Hin]; [congruence | exact Hin].
Qed.

Lemma live_tail s j js :
  Pool.jobs s = j :: js -> (forall p, j <> Pool.Enter p) ->
  live_at_loop s -> live_at_loop (Pool.set_jobs js s).
Proof.
  intros Hq Hne [Hqueued Hpending]. split; [|exact Hpending].
  intros p Hp. specialize (Hqueued p Hp). rewrite Hq in Hqueued.
  apply elem_of_cons in Hqueued as [He|Hin]; [|exact Hin].
  exfalso. apply (Hne p). congruence.
Qed.

Lemma step_live fl limit n s s' :
  pool_base limit n s -> pool_live s -> Pool.step fl limit s s' -> pool_live s'.
Proof.
  intros Hbase [Hqueued Hpending Hrace Hall] Hstep.
  destruct Hstep as [s j js Hq | s p Hp | s p Hp].
  - destruct j as [p|p|r p|p|]; cbn [Pool.exec].
    + (* Enter *)
      split; pool_fields.
      * intros q Hq'. assert (q ∈ Pool.queued s /\ q <> p) as [Hq1 Hq2] by set_solver.
        specialize (Hqueued q Hq1). rewrite Hq in Hqueued.
        apply elem_of_cons in Hqueued as [He|Hin]; [congruence | exact Hin].
      * intros q Hq1 Hq2. specialize (Hpending q Hq1 Hq2).
        destruct (decide (q = p)); set_solver.
      * intros r Hr Hw. destruct (Hrace r Hr Hw) as [q Haw]. exists q.
        apply (awaited_tail s (Pool.Enter p) js) in Haw; [exact Haw | exact Hq | discriminate].
      * intros Hpc q Hq'.
        pose proof (Hall Hpc q Hq') as Haw.
        apply (awaited_tail s (Pool.Enter p) js) in Haw; [exact Haw | exact Hq | discriminate].
    + (* Delete *)
      assert (Hps : p ∈ Pool.settled s).
      { destruct Hbase as [_ _ _ _ Hjobs _ _ _ _ _ _ _ _ _ _ _]. rewrite Hq in Hjobs.
        apply Forall_cons in Hjobs as [Hj _]. apply Hj. reflexivity. }
      assert (Hkeep : forall j' q, j' <> Pool.Delete p -> awaited s j' q ->
                awaited {| Pool.pc := Pool.pc s; Pool.tasks := Pool.tasks s;
                           Pool.executing := Pool.executing s ∖ {[p]};
                           Pool.queued := Pool.queued s; Pool.running := Pool.running s;
                           Pool.finished := Pool.finished s; Pool.settled := Pool.settled s;
                           Pool.reactions := Pool.reactions s; Pool.jobs := js;
                           Pool.won := Pool.won s; Pool.waiting := Pool.waiting s;
                           Pool.races := Pool.races s |} j' q).
      { intros j' q Hne [Hin | (H1 & H2 & H3)].
        - left. rewrite Hq in Hin.
          apply elem_of_cons in Hin as [->|Hin]; [congruence | exact Hin].
        - right. pool_fields. split; [|split; assumption].
          assert (q <> p) by (intros ->; contradiction). set_solver. }
      split; pool_fields.
      * intros q Hq'. specialize (Hqueued q Hq'). rewrite Hq in Hqueued.
        apply elem_of_cons in Hqueued as [He|Hin]; [congruence | exact Hin].
      * intros q Hq1 Hq2. apply Hpending; [set_solver | exact Hq2].
      * intros r Hr Hw. destruct (Hrace r Hr Hw) as [q Haw]. exists q.
        apply Hkeep; [discriminate | exact Haw].
      * intros Hpc q Hq'. apply Hkeep; [discriminate | apply Hall; assumption].
    + (* Race *)
      pool_fields. destruct (decide (r ∈ Pool.won s)) as [Hw|Hw].
      * split; pool_fields.
        -- intros q Hq'. specialize (Hqueued q Hq'). rewrite Hq in Hqueued.
           apply elem_of_cons in Hqueued as [He|Hin]; [congruence | exact Hin].
        -- exact Hpending.
        -- intros r' Hr Hw'. destruct (Hrace r' Hr Hw') as [q Haw]. exists q.
           apply (awaited_tail s (Pool.Race r p) js) in Haw; [exact Haw | exact Hq |].
           intros He. injection He as -> _. contradiction.
        -- intros Hpc q Hq'. pose proof (Hall Hpc q Hq') as Haw.
           apply (awaited_tail s (Pool.Race r p) js) in Haw;
             [exact Haw | exact Hq | discriminate].
      * assert (Hkeep : forall j' q, j' <> Pool.Race r p -> awaited s j' q ->
                  awaited (Pool.enqueue [Pool.Resume]
                         {| Pool.pc := Pool.pc s; Pool.tasks := Pool.tasks s;
                           Pool.executing := Pool.executing s;
                           Pool.queued := Pool.queued s; Pool.running := Pool.running s;
                           Pool.finished := Pool.finished s; Pool.settled := Pool.settled s;
                           Pool.reactions := Pool.reactions s; Pool.jobs := js;
                           Pool.won := {[r]} ∪ Pool.won s; Pool.waiting := Pool.waiting s;
                           Pool.races := Pool.races s |}) j' q).
        { intros j' q Hne [Hin | H]; [left | right; exact H].
          pool_fields. rewrite Hq in Hin.
          apply elem_of_cons in Hin as [->|Hin]; [congruence | set_solver]. }
        split; pool_fields.
        -- intros q Hq'. specialize (Hqueued q Hq'). rewrite Hq in Hqueued.
           apply elem_of_cons in Hqueued as [He|Hin]; [congruence | set_solver].
        -- exact Hpending.
        -- intros r' Hr Hw'. assert (r' <> r) by set_solver.
           destruct (Hrace r' Hr) as [q Haw]; [set_solver|]. exists q.
           apply Hkeep; [congruence | exact Haw].
        -- intros Hpc q Hq'. apply Hkeep; [discriminate | apply Hall; assumption].
    + (* All *)
      pool_fields. destruct (decide (p ∈ Pool.waiting s)) as [Hw|Hw].
      * assert (Hmid : pool_live
                  {| Pool.pc := Pool.pc s; Pool.tasks := Pool.tasks s;
                     Pool.executing := Pool.executing s;
                     Pool.queued := Pool.queued s; Pool.running := Pool.running s;
                     Pool.finished := Pool.finished s; Pool.settled := Pool.settled s;
                     Pool.reactions := Pool.reactions s; Pool.jobs := js;
                     Pool.won := Pool.won s; Pool.waiting := Pool.waiting s ∖ {[p]};
                     Pool.races := Pool.races s |}).
        { split; pool_fields.
          - intros q Hq'. specialize (Hqueued q Hq'). rewrite Hq in Hqueued.
            apply elem_of_cons in Hqueued as [He|Hin]; [congruence | exact Hin].
          - exact Hpending.
          - intros r Hr Hw'. destruct (Hrace r Hr Hw') as [q Haw]. exists q.
            apply (awaited_tail s (Pool.All p) js) in Haw;
              [exact Haw | exact Hq | discriminate].
          - intros Hpc q Hq'. assert (q ∈ Pool.waiting s /\ q <> p) as [Hq1 Hq2] by set_solver.
            pose proof (Hall Hpc q Hq1) as Haw.
            apply (awaited_tail s (Pool.All p) js) in Haw; [exact Haw | exact Hq | congruence]. }
        destruct (decide _); [|exact Hmid].
        destruct Hmid as [M1 M2 M3 M4]. split; pool_fields.
        -- intros q Hq'. specialize (M1 q Hq'). pool_fields. set_solver.
        -- exact M2.
        -- intros r Hr Hw'. destruct (M3 r Hr Hw') as [q [Hin|Haw]]; exists q;
             [left; pool_fields; set_solver | right; exact Haw].
        -- intros Hpc q Hq'. destruct (M4 Hpc q Hq') as [Hin|Haw];
             [left; pool_fields; set_solver | right; exact Haw].
      * split; pool_fields.
        -- intros q Hq'. specialize (Hqueued q Hq'). rewrite Hq in Hqueued.
           apply elem_of_cons in Hqueued as [He|Hin]; [congruence | exact Hin].
        -- exact Hpending.
        -- intros r Hr Hw'. destruct (Hrace r Hr Hw') as [q Haw]. exists q.
           apply (awaited_tail s (Pool.All p) js) in Haw;
             [exact Haw | exact Hq | discriminate].
        -- intros Hpc q Hq'. pose proof (Hall Hpc q Hq') as Haw.
           apply (awaited_tail s (Pool.All p) js) in Haw; [exact Haw | exact Hq |].
           intros He. injection He as ->. contradiction.
    + (* Resume *)
      assert (Hloop : live_at_loop (Pool.set_jobs js s)).
      { apply (live_tail s Pool.Resume); [exact Hq | discriminate | split; assumption]. }
      cbn [Pool.pc Pool.tasks Pool.set_jobs].
      destruct (Pool.pc s) eqn:Hpc.
      * apply run_loop_live. exact Hloop.
      * destruct Hloop as [L1 L2]. split; pool_fields; try assumption; discriminate.
      * destruct Hloop as [L1 L2]. split; pool_fields; try assumption.
        -- intros r Hr. rewrite Hpc in Hr. discriminate Hr.
        -- intros Hr. rewrite Hpc in Hr. discriminate Hr.
  - (* finish *)
    split; pool_fields.
    + exact Hqueued.
    + intros q Hq1 Hq2. specialize (Hpending q Hq1 Hq2).
      destruct (decide (q = p)); set_solver.
    + exact Hrace.
    + exact Hall.
  - (* fulfil *)
    assert (Hkeep : forall j' q, awaited s j' q -> awaited (Pool.fulfil p s) j' q).
    { intros j' q [Hin | (H1 & H2 & H3)].
      - left. pool_fields. set_solver.
      - destruct (decide (q = p)) as [->|Hne].
        + left. pool_fields. set_solver.
        + right. pool_fields. split; [exact H1|]. split; [set_solver|].
          rewrite lookup_total_delete_ne by congruence. exact H3. }
    split.
    + pool_fields. intros q Hq'. specialize (Hqueued q Hq'). set_solver.
    + pool_fields. intros q Hq1 Hq2. 
      assert (q <> p) by set_solver.
      assert (q ∉ Pool.settled s) by set_solver.
      specialize (Hpending q Hq1 H0). set_solver.
    + intros r Hr Hw. destruct (Hrace r Hr Hw) as [q Haw]. exists q. apply Hkeep, Haw.
    + intros Hpc q Hq'. apply Hkeep. apply Hall; assumption.
Qed.

Lemma reachable_live fl limit n s :
  (0 < limit)%nat -> Pool.reachable fl limit n s -> pool_live s.
Proof.
  intros Hpos Hreach. induction Hreach as [|s s' Hreach IH Hstep].
  - apply run_loop_live. split.
    + intros p Hp. cbn in Hp. set_solver.
    + intros p Hp. cbn in Hp. set_solver.
  - eapply step_live; [|exact IH | exact Hstep].
    apply (reachable_invariant fl limit n s Hpos Hreach).
Qed.

(** A state that has not returned has a move. *)
Lemma live_moves fl limit n s :
  pool_invariant limit n s -> pool_live s -> Pool.pc s <> Pool.Returned ->
  exists s', Pool.step fl limit s s'.
Proof.
  intros [Hbase Hctl] [Hqueued Hpending Hrace Hall] Hpc.
  destruct (Pool.jobs s) as [|j js] eqn:Hq.
  2:{ eexists. apply (Pool.step_job fl limit s j js Hq). }
  assert (Hmove : forall p, p ∈ Pool.executing s -> p ∉ Pool.settled s ->
                            exists s', Pool.step fl limit s s').
  { intros p H1 H2. specialize (Hpending p H1 H2).
    apply elem_of_union in Hpending as [Hpending|Hf].
    - apply elem_of_union in Hpending as [Hqd|Hr].
      + apply Hqueued in Hqd. inversion Hqd.
      + eexists. apply (Pool.step_finish fl limit s p Hr).
    - eexists. apply (Pool.step_fulfil fl limit s p Hf). }
  assert (Haw : forall j p, awaited s j p -> exists s', Pool.step fl limit s s').
  { intros j p [Hin | (H1 & H2 & _)].
    - rewrite ?Hq in Hin. inversion Hin.
    - apply (Hmove p H1 H2). }
  unfold pool_control in Hctl. destruct (Pool.pc s) as [r| |] eqn:Hpc'.
  - destruct Hctl as (_ & _ & _ & Hres & _).
    assert (Hw : r ∉ Pool.won s).
    { intros Hw. apply Hres in Hw. rewrite ?Hq in Hw. cbn in Hw. discriminate Hw. }
    destruct (Hrace r eq_refl Hw) as [p Hp]. apply (Haw _ _ Hp).
  - destruct Hctl as (_ & _ & _ & Hres).
    destruct (decide (Pool.waiting s = ∅)) as [He|Hne].
    + apply Hres in He. rewrite ?Hq in He. cbn in He. discriminate He.
    + apply set_choose_L in Hne as [p Hp]. apply (Haw _ _ (Hall eq_refl p Hp)).
  - congruence.
Qed.

(** *** Every step uses up some of the work *)

Lemma reactions_weight_lookup (m : gmap nat (list Pool.job)) p :
  (length (m !!! p) + reactions_weight (delete p m) = reactions_weight m)%nat.
Proof.
  unfold reactions_weight. rewrite lookup_total_alt.
  destruct (m !! p) as [l|] eqn:Hl; cbn [default from_option].
  - rewrite <- (insert_delete_id m p l Hl) at 2.
    rewrite map_fold_insert_L; [reflexivity | intros; lia | apply lookup_delete_eq].
  - rewrite delete_id by exact Hl. reflexivity.
Qed.

Lemma reactions_weight_insert (m : gmap nat (list Pool.job)) p l :
  (reactions_weight (<[p := l]> m) + length (m !!! p)
   = length l + reactions_weight m)%nat.
Proof.
  rewrite <- (reactions_weight_lookup m p).
  rewrite <- (insert_delete_eq m p l).
  unfold reactions_weight at 1.
  rewrite map_fold_insert_L; [|intros; lia | apply lookup_delete_eq].
  fold (reactions_weight (delete p m)). lia.
Qed.

Lemma react_load p j s : load (Pool.react p j s) = S (load s).
Proof.
  unfold Pool.react, load. destruct (decide (p ∈ Pool.settled s)); pool_fields.
  - rewrite length_app. cbn [length]. lia.
  - pose proof (reactions_weight_insert (Pool.reactions s) p
                  (Pool.reactions s !!! p ++ [j])) as H.
    rewrite length_app in H. cbn [length] in H. lia.
Qed.

Lemma enqueue_load js s : load (Pool.enqueue js s) = (load s + length js)%nat.
Proof. unfold load. pool_fields. rewrite length_app. lia. Qed.

Lemma fold_react_load (j : nat -> Pool.job) l : forall acc,
  load (foldl (fun acc p => Pool.react p (j p) acc) acc l) = (load acc + length l)%nat.
Proof.
  induction l as [|p l IH]; intros acc; cbn [foldl length]; [lia|].
  rewrite IH, react_load. lia.
Qed.

Lemma subscribe_load j s :
  load (Pool.subscribe j s) = (load s + size (Pool.executing s))%nat.
Proof. unfold Pool.subscribe. rewrite fold_react_load. reflexivity. Qed.

Lemma add_task_load fl t s : (load (Pool.add_task fl t s) <= load s + 4)%nat.
Proof.
  unfold load. pool_fields.
  pose proof (reactions_weight_insert (Pool.reactions s) t [Pool.Delete t]) as Hw.
  cbn [length] in Hw.
  pose proof (size_add_one t (Pool.queued s)).
  pose proof (size_add_one t (Pool.running s)).
  destruct fl; [lia|]. rewrite length_app. cbn [length]. lia.
Qed.

Lemma run_loop_potential fl limit ts : forall s,
  (size (Pool.executing s) < limit)%nat ->
  (potential limit (Pool.run_loop fl limit ts s)
   <= load s + (limit + 5) * length ts + (2 * limit + 2))%nat.
Proof.
  induction ts as [|t rest IH]; intros s Hsize.
  - cbn [Pool.run_loop length]. unfold Pool.await_all, potential.
    set (s0 := {| Pool.pc := Pool.AwaitAll; Pool.tasks := [] |}).
    destruct (subscribe_preserves (fun _ => True) Pool.All s0 I) as [_ Hsame]; [auto|].
    destruct Hsame as (Hpc & Hts & _).
    pose proof (subscribe_load Pool.All s0) as Hload.
    assert (H0 : (load s0 <= load s + size (Pool.executing s))%nat).
    { unfold load, s0. pool_fields. lia. }
    change (Pool.executing s0) with (Pool.executing s) in Hload.
    destruct (decide _).
    + rewrite enqueue_load.
      change (Pool.pc (Pool.enqueue _ ?x)) with (Pool.pc x).
      change (Pool.tasks (Pool.enqueue _ ?x)) with (Pool.tasks x).
      rewrite Hpc, Hts. cbn [Pool.pc Pool.tasks s0 length]. lia.
    + rewrite Hpc, Hts. cbn [Pool.pc Pool.tasks s0 length]. lia.
  - cbn [Pool.run_loop length].
    pose proof (add_task_load fl t s) as Hadd.
    pose proof (size_add_one t (Pool.executing s)) as Hone.
    change ({[t]} ∪ Pool.executing s) with (Pool.executing (Pool.add_task fl t s)) in Hone.
    destruct (decide _) as [Hfull|Hroom].
    + unfold Pool.await_race, potential.
      set (s1 := Pool.add_task fl t s) in *.
      set (s0 := {| Pool.pc := Pool.AwaitRace _; Pool.tasks := rest |}).
      destruct (subscribe_preserves (fun _ => True) (Pool.Race (Pool.races s1)) s0 I)
        as [_ Hsame]; [auto|].
      destruct Hsame as (Hpc & Hts & _).
      pose proof (subscribe_load (Pool.Race (Pool.races s1)) s0) as Hload.
      assert (H0 : (load s0 <= S (load s1))%nat).
      { unfold load, s0. pool_fields. lia. }
      change (Pool.executing s0) with (Pool.executing s1) in Hload.
      rewrite Hpc, Hts. cbn [Pool.pc Pool.tasks s0]. nia.
    + specialize (IH (Pool.add_task fl t s)).
      assert (Hlt : (size (Pool.executing (Pool.add_task fl t s)) < limit)%nat) by lia.
      specialize (IH Hlt). nia.
Qed.

Lemma size_below (W : gset nat) (n r : nat) :
  (forall x, x ∈ W -> (x < n)%nat) -> (r < n)%nat -> r ∉ W -> (size W < n)%nat.
Proof.
  intros Hall Hr Hnot.
  rewrite <- (size_set_seq (C := gset nat) 0 n).
  apply (size_remove_one r).
  - apply elem_of_set_seq. lia.
  - intros x Hx. apply elem_of_set_seq. specialize (Hall x Hx). lia.
  - exact Hnot.
Qed.

Lemma size_take_one (p : nat) (X : gset nat) :
  p ∈ X -> S (size (X ∖ {[p]})) = size X.
Proof.
  intros Hp. rewrite size_difference by set_solver. rewrite size_singleton.
  assert (size X <> 0%nat); [|lia].
  intros Hz. apply size_empty_inv in Hz. set_solver.
Qed.

Lemma step_potential fl limit n s s' :
  (0 < limit)%nat -> pool_invariant limit n s -> Pool.step fl limit s s' ->
  (potential limit s' < potential limit s)%nat.
Proof.
  intros Hpos [Hbase Hctl] Hstep.
  destruct Hstep as [s j js Hq | s p Hp | s p Hp].
  - destruct j as [p|p|r p|p|]; cbn [Pool.exec].
    + assert (Hp : p ∈ Pool.queued s).
      { destruct Hbase as [_ _ _ _ _ [_ Hent] _ _ _ _ _ _ _ _ _ _]. apply Hent.
        rewrite Hq. cbn. left. }
      unfold potential, load. pool_fields. rewrite Hq. cbn [length].
      pose proof (size_take_one p (Pool.queued s) Hp).
      pose proof (size_add_one p (Pool.running s)). lia.
    + unfold potential, load. pool_fields. rewrite Hq. cbn [length]. lia.
    + pool_fields. destruct (decide (r ∈ Pool.won s)) as [Hw|Hw].
      * unfold potential, load. pool_fields. rewrite Hq. cbn [length]. lia.
      * assert (Hlt : (size (Pool.won s) < Pool.races s)%nat).
        { destruct Hbase as [_ _ _ _ _ _ _ _ _ _ [Hrj _] Hwon _ _ _ _].
          rewrite Hq in Hrj. apply Forall_cons in Hrj as [Hr _].
          apply (size_below _ _ r); assumption. }
        unfold potential, load. pool_fields. rewrite Hq, length_app. cbn [length].
        rewrite size_union by set_solver. rewrite size_singleton. lia.
    + pool_fields. destruct (decide (p ∈ Pool.waiting s)) as [Hw|Hw].
      * pose proof (size_take_one p (Pool.waiting s) Hw).
        destruct (decide _); unfold potential, load; pool_fields;
          rewrite Hq, ?length_app; cbn [length]; lia.
      * unfold potential, load. pool_fields. rewrite Hq. cbn [length]. lia.
    + cbn [Pool.pc Pool.tasks Pool.set_jobs].
      assert (Hload : S (load (Pool.set_jobs js s)) = load s).
      { unfold load. pool_fields. rewrite Hq. cbn [length]. lia. }
      unfold pool_control in Hctl.
      destruct (Pool.pc s) as [r| |] eqn:Hpc.
      * destruct Hctl as (_ & _ & _ & Hres & Hroom & _).
        assert (Hw : r ∈ Pool.won s).
        { apply Hres. destruct Hbase as [_ _ _ _ _ _ _ _ _ _ _ _ Hone _ _ _].
          rewrite Hq in *. change (Pool.Resume :: js) with ([Pool.Resume] ++ js)%list in *.
          rewrite resumes_app in *. cbn in *. lia. }
        pose proof (run_loop_potential fl limit (Pool.tasks s) (Pool.set_jobs js s)
                      (Hroom Hw)) as Hle.
        change (Pool.tasks (Pool.set_jobs js s)) with (Pool.tasks s) in Hle.
        assert (Hs : potential limit s
                     = (load s + (limit + 5) * length (Pool.tasks s) + (2 * limit + 2))%nat).
        { unfold potential. rewrite Hpc. reflexivity. }
        rewrite Hs. lia.
      * unfold potential, load. pool_fields. rewrite Hpc, Hq. cbn [length]. lia.
      * unfold potential, load. pool_fields. rewrite Hpc, Hq. cbn [length]. lia.
  - unfold potential, load. pool_fields.
    pose proof (size_take_one p (Pool.running s) Hp).
    pose proof (size_add_one p (Pool.finished s)). lia.
  - unfold potential, load. pool_fields.
    pose proof (size_take_one p (Pool.finished s) Hp).
    pose proof (reactions_weight_lookup (Pool.reactions s) p).
    rewrite length_app. lia.
Qed.

Lemma reachable_potential fl limit n s :
  (0 < limit)%nat -> Pool.reachable fl limit n s ->
  (potential limit s <= (limit + 5) * n + 2 * limit + 2)%nat.
Proof.
  intros Hpos Hreach. induction Hreach as [|s s' Hreach IH Hstep].
  - unfold Pool.start.
    pose proof (run_loop_potential fl limit (seq 0 n) Pool.idle) as H.
    rewrite length_seq in H. change (load Pool.idle) with 0%nat in H.
    change (size (Pool.executing Pool.idle)) with (size (∅ : gset nat)) in H.
    rewrite size_empty in H. specialize (H Hpos). lia.
  - pose proof (step_potential fl limit n s s' Hpos
                  (reachable_invariant fl limit n s Hpos Hreach) Hstep). lia.
Qed.

Lemma run_of_reachable fl limit n k s s' :
  Pool.reachable fl limit n s -> run_of fl limit k s s' -> Pool.reachable fl limit n s'.
Proof.
  intros Hreach Hrun. induction Hrun as [|k s s' s'' Hstep _ IH]; [exact Hreach|].
  apply IH. eapply Pool.reach_step; eassumption.
Qed.

Lemma run_of_bounded fl limit n k s s' :
  (0 < limit)%nat -> Pool.reachable fl limit n s -> run_of fl limit k s s' ->
  (k + potential limit s' <= potential limit s)%nat.
Proof.
  intros Hpos Hreach Hrun. induction Hrun as [|k s s' s'' Hstep _ IH]; [lia|].
  pose proof (step_potential fl limit n s s' Hpos
                (reachable_invariant fl limit n s Hpos Hreach) Hstep).
  specialize (IH (Pool.reach_step fl limit n s s' Hreach Hstep)). lia.
Qed.

Lemma returned_or_not s : Pool.pc s = Pool.Returned \/ Pool.pc s <> Pool.Returned.
Proof. destruct (Pool.pc s); [right; discriminate | right; discriminate | left; reflexivity]. Qed.

Lemma run_to_return fl limit n (Hpos : (0 < limit)%nat) : forall N s,
  (potential limit s <= N)%nat -> Pool.reachable fl limit n s ->
  exists k s', run_of fl limit k s s' /\ Pool.pc s' = Pool.Returned.
Proof.
  induction N as [|N IH]; intros s HN Hreach.
  - destruct (returned_or_not s) as [Hret|Hnot].
    { exists 0%nat, s. split; [constructor | exact Hret]. }
    destruct (live_moves fl limit n s (reachable_invariant fl limit n s Hpos Hreach)
                (reachable_live fl limit n s Hpos Hreach) Hnot) as [s' Hstep].
    pose proof (step_potential fl limit n s s' Hpos
                  (reachable_invariant fl limit n s Hpos Hreach) Hstep). lia.
  - destruct (returned_or_not s) as [Hret|Hnot].
    { exists 0%nat, s. split; [constructor | exact Hret]. }
    destruct (live_moves fl limit n s (reachable_invariant fl limit n s Hpos Hreach)
                (reachable_live fl limit n s Hpos Hreach) Hnot) as [s' Hstep].
    pose proof (step_potential fl limit n s s' Hpos
                  (reachable_invariant fl limit n s Hpos Hreach) Hstep).
    destruct (IH s') as (k & s'' & Hrun & Hret); [lia | |].
    { eapply Pool.reach_step; eassumption. }
    exists (S k), s''. split; [econstructor; eassumption | exact Hret].
Qed.

Lemma run_of_zero fl k s s' : run_of fl 0 k s s' <-> run_of fl 1 k s s'.
Proof.
  split; induction 1 as [|k s s' s'' Hstep _ IH]; try constructor.
  - econstructor; [apply step_zero; exact Hstep | exact IH].
  - econstructor; [apply step_zero; exact Hstep | exact IH].
Qed.

Lemma runner_returns_positive fl limit n s :
  (0 < limit)%nat -> Pool.reachable fl limit n s ->
  (Pool.pc s <> Pool.Returned -> exists s', Pool.step fl limit s s')
  /\ (forall k s', run_of fl limit k s s' -> (k <= (limit + 5) * n + 2 * limit + 2)%nat)
  /\ (exists k s', run_of fl limit k s s' /\ Pool.pc s' = Pool.Returned).
Proof.
  intros Hpos Hreach. split; [|split].
  - apply (live_moves fl limit n).
    + apply (reachable_invariant fl); assumption.
    + apply (reachable_live fl limit n); assumption.
  - intros k s' Hrun.
    pose proof (run_of_bounded fl limit n k s s' Hpos Hreach Hrun).
    pose proof (reachable_potential fl limit n s Hpos Hreach). lia.
  - apply (run_to_return fl limit n Hpos (potential limit s) s); [lia | exact Hreach].
Qed.

(** X18. [runWithConcurrency] never waits for ever and never runs for
    ever. In every state a call with [n] tasks passes through, as long
    as the runner has not returned there is a next step: a job of the
    queue to run, a probe in flight to end, or a promise of a finished
    task to fulfil (the runner is never left waiting for a promise that
    nothing will settle). No continuation of the call, whatever the
    order in which probes end and jobs run, has more than
    [(limit' + 5) * n + 2 * limit' + 2] steps, with [limit'] the limit
    or 1 when the limit is 0; and some continuation reaches the return
    of the runner. *)
Theorem runner_always_returns fl limit n s :
  Pool.runWithConcurrency fl limit n s ->
  (Pool.pc s <> Pool.Returned -> exists s', Pool.step fl limit s s')
  /\ (forall k s', run_of fl limit k s s' -> (k <= longest_run limit n)%nat)
  /\ (exists k s', run_of fl limit k s s' /\ Pool.pc s' = Pool.Returned).
Proof.
  unfold Pool.runWithConcurrency, longest_run. intros Hreach.
  destruct limit as [|limit].
  - apply reachable_zero in Hreach.
    destruct (runner_returns_positive fl 1 n s) as (Hmove & Hlen & k & s' & Hrun & Hret);
      [lia | exact Hreach |].
    split; [|split].
    + intros Hpc. destruct (Hmove Hpc) as [s1 Hstep]. exists s1. apply step_zero, Hstep.
    + intros k1 s1 H1. apply run_of_zero in H1. apply Hlen in H1.
      change (Nat.max 1 0) with 1%nat. lia.
    + exists k, s'. split; [apply run_of_zero; exact Hrun | exact Hret].
  - replace (Nat.max 1 (S limit)) with (S limit) by lia.
    apply runner_returns_positive; [lia | exact Hreach].
Qed.

Lemma runner_always_returns_witness :
  Pool.runWithConcurrency Pool.Deferred 3 2 (Pool.start Pool.Deferred 3 2)
  /\ (forall k s', run_of Pool.Deferred 3 k (Pool.start Pool.Deferred 3 2) s' ->
                   (k <= 24)%nat).
Proof.
  split; [constructor|].
  exact (proj1 (proj2 (runner_always_returns Pool.Deferred 3 2 _
                         (Pool.reach_start Pool.Deferred 3 2)))).
Defined.
(** *** A limit of zero *)

(** X16. A limit of zero does not stop the runner, nor does it lift the
    bound. The states [runWithConcurrency(tasks, 0)] passes through
    and the steps it takes are exactly those of
    [runWithConcurrency(tasks, 1)]. In each of these states at most one
    task is in flight; as long as the runner has not returned there is
    a next step, some continuation reaches the return of the runner
    and none has more than [6 * n + 4] steps; and when the runner has
    returned every task has settled. *)
Theorem limit_zero_runs_one_at_a_time fl n :
  (forall s, Pool.runWithConcurrency fl 0 n s <-> Pool.runWithConcurrency fl 1 n s)
  /\ (forall s s', Pool.step fl 0 s s' <-> Pool.step fl 1 s s')
  /\ (forall s, Pool.runWithConcurrency fl 0 n s ->
        (Pool.in_flight s <= 1)%nat
        /\ (Pool.pc s <> Pool.Returned -> exists s', Pool.step fl 0 s s')
        /\ (exists k s', run_of fl 0 k s s' /\ Pool.pc s' = Pool.Returned)
        /\ (forall k s', run_of fl 0 k s s' -> (k <= 6 * n + 4)%nat)
        /\ (Pool.pc s = Pool.Returned -> forall i, (i < n)%nat -> i ∈ Pool.settled s)).
Proof.
  unfold Pool.runWithConcurrency.
  split; [intros s; apply reachable_zero|].
  split; [intros s s'; apply step_zero|].
  intros s Hreach. apply reachable_zero in Hreach.
  destruct (runner_returns_positive fl 1 n s) as (Hmove & Hlen & k & s' & Hrun & Hret);
    [lia | exact Hreach |].
  split; [apply (in_flight_bounded fl 1 n s); [lia | exact Hreach]|].
  split.
  { intros Hpc. destruct (Hmove Hpc) as [s1 Hstep]. exists s1. apply step_zero, Hstep. }
  split.
  { exists k, s'. split; [apply run_of_zero; exact Hrun | exact Hret]. }
  split.
  { intros k1 s1 H1. apply run_of_zero in H1. apply Hlen in H1. lia. }
  intros Hpc i Hi.
  destruct (reachable_invariant fl 1 n s ltac:(lia) Hreach) as [Hbase Hctl].
  unfold pool_control in Hctl. rewrite Hpc in Hctl.
  destruct Hctl as (Htasks & _ & _ & _ & Hrunning & Hq & Hfin).
  destruct Hbase as [_ _ _ _ _ _ _ _ _ _ _ _ _ Hall _ _].
  destruct (Hall i Hi) as [H | [H | [H | [H | H]]]]; [| | | |exact H].
  - rewrite Htasks in H. inversion H.
  - rewrite Hq in H. set_solver.
  - rewrite Hrunning in H. set_solver.
  - rewrite Hfin in H. set_solver.
Qed.

Lemma limit_zero_runs_one_at_a_time_witness :
  Pool.runWithConcurrency Pool.Direct 0 2 (Pool.start Pool.Direct 0 2)
  /\ (Pool.in_flight (Pool.start Pool.Direct 0 2) <= 1)%nat
  /\ exists s', Pool.step Pool.Direct 0 (Pool.start Pool.Direct 0 2) s'.
Proof.
  assert (H : Pool.runWithConcurrency Pool.Direct 0 2 (Pool.start Pool.Direct 0 2))
    by constructor.
  destruct (limit_zero_runs_one_at_a_time Pool.Direct 2) as (_ & _ & Hall).
  destruct (Hall _ H) as (Hflight & Hmove & _).
  split; [exact H|]. split; [exact Hflight|].
  apply Hmove. vm_compute. discriminate.
Defined.
